(** * Persistent collections of package [immutable]: List, Map, SortedMap

    A shallow embedding of [immutable.go] and the properties its
    specification states about it.

    Conventions of the embedding.
    - Go's [int] and [uint] are modelled by [Z]: sizes, depths and trie
      addresses of a collection that fits in memory stay far below 2^63.
      Key hashes are [uint32] and are kept in the range [0, 2^32).
    - An [interface{}] slot of a list is [option V]: [None] is Go's [nil].
    - A fixed-size Go array [[32]T] is a [list] of length 32; a slice is a
      [list].
    - A Go panic is the [Panic] outcome of the [result] monad.
    - A method that returns its receiver ([return n], [return m]) is told
      apart from one that returns a fresh object by the [returned] type:
      the source compares such results by pointer ([newChild == child]). *)

From stdpp Require Import base list numbers.
From Stdlib Require Strings.String Strings.Ascii.

Local Open Scope Z_scope.

#[local] Set Warnings "-register-all".

(** ** Outcomes of a call *)

Inductive panic : Type :=
| IndexOutOfBounds        (* "index %d out of bounds" *)
| InvalidSliceIndex       (* "invalid slice index: [%d:%d]" *)
| MustSetHasher           (* "must set hasher for %T type" *)
| MustSetComparer         (* "must set comparer for %T type" *)
| NilDereference          (* method call or field access through nil *)
| RuntimeIndexOutOfRange  (* array or slice index out of range *)
| FailedTypeAssertion     (* interface conversion to the wrong type *)
| StackOverflow           (* unbounded recursion *)
| Diverges.               (* a loop that never ends *)

Inductive result (A : Type) : Type :=
| Ok (a : A)
| Panic (p : panic).
Arguments Ok {A} a.
Arguments Panic {A} p.

#[global] Instance result_ret : MRet result := @Ok.
#[global] Instance result_bind : MBind result :=
  λ A B f m, match m with Ok a => f a | Panic p => Panic p end.
#[global] Instance result_fmap : FMap result :=
  λ A B f m, match m with Ok a => Ok (f a) | Panic p => Panic p end.

(** What a method hands back: its own receiver, or something else. *)
Inductive returned (A : Type) : Type :=
| Receiver
| Fresh (a : A).
Arguments Receiver {A}.
Arguments Fresh {A} a.

(** ** Arrays and slices *)

(** [at_index f oob l i] is [f (l[i])], and [oob] when [i] is out of range.
    Written as a local fixpoint so that recursive calls made inside [f] on
    an element of [l] are structural. *)
Definition at_index {A B} (f : A → B) (oob : B) : list A → nat → B :=
  fix go l i :=
    match l with
    | [] => oob
    | x :: l' => match i with O => f x | S i' => go l' i' end
    end.

(** The zero value of [[32]T] for a pointer, interface or slot type. *)
Definition empty_slots {A} : list (option A) := replicate 32 None.

(** [a[i]] of an array of nil-able slots. *)
Definition slot {A} (a : list (option A)) (i : Z) : option A :=
  mjoin (a !! Z.to_nat i).

(** [copy(dst[from:], src[from:])] into a zeroed array of the same length. *)
Definition keep_from {A} (from : Z) (src : list (option A)) : list (option A) :=
  replicate (Z.to_nat from) None ++ drop (Z.to_nat from) src.

(** [copy(dst[:upto], src[:upto])] into a zeroed array of the same length. *)
Definition keep_upto {A} (upto : Z) (src : list (option A)) : list (option A) :=
  take (Z.to_nat upto) src ++ replicate (length src - Z.to_nat upto)%nat None.

(** A copy of slice [s] with [x] spliced in before position [i]. *)
Definition splice {A} (i : nat) (x : A) (s : list A) : list A :=
  take i s ++ x :: drop i s.

(** A copy of slice [s] without position [i]. *)
Definition remove_at {A} (i : nat) (s : list A) : list A :=
  take i s ++ drop (S i) s.

(** [stack[i]] of a Go array: a panic outside its bounds. *)
Definition frame {A} (stack : list A) (i : Z) : result A :=
  if i <? 0 then Panic RuntimeIndexOutOfRange
  else match stack !! Z.to_nat i with
       | Some e => Ok e
       | None => Panic RuntimeIndexOutOfRange
       end.

(** [stack[i] = e] of a Go array. *)
Definition set_frame {A} (stack : list A) (i : Z) (e : A) : result (list A) :=
  if (i <? 0) || (Z.of_nat (length stack) <=? i) then Panic RuntimeIndexOutOfRange
  else Ok (<[Z.to_nat i := e]> stack).

(** ** Go library functions used by the package *)

(** [sort.Search(n, f)]: binary search for the smallest index in [0, n]
    at which [f] holds. *)
Fixpoint search_loop (fuel : nat) (f : Z → bool) (i j : Z) : Z :=
  match fuel with
  | O => i
  | S fuel' =>
      if i <? j then
        let h := Z.shiftr (i + j) 1 in
        if negb (f h) then search_loop fuel' f (h + 1) j
        else search_loop fuel' f i h
      else i
  end.

Definition sort_Search (n : Z) (f : Z → bool) : Z :=
  search_loop (Z.to_nat n) f 0 n.

(** The number of one bits of [x] below bit [n]. *)
Fixpoint ones_below (x : Z) (n : nat) : nat :=
  match n with
  | O => O
  | S n' => (ones_below x n' + if Z.testbit x (Z.of_nat n') then 1 else 0)%nat
  end.

(** [bits.OnesCount32(x)]: the number of one bits of a [uint32]. *)
Definition OnesCount32 (x : Z) : Z := Z.of_nat (ones_below x 32).
#[global] Arguments OnesCount32 : simpl never.

(** * List: a radix-32 trie *)

Definition listNodeBits : Z := 5.
Definition listNodeSize : Z := Z.shiftl 1 listNodeBits.
Definition listNodeMask : Z := listNodeSize - 1.

(** [(index >> (d * listNodeBits)) & listNodeMask] *)
Definition listFrag (index d : Z) : Z :=
  Z.land (Z.shiftr index (d * listNodeBits)) listNodeMask.

Section ListModel.
Context {V : Type}.

#[local] Unset Elimination Schemes.
Inductive listNode : Type :=
| listBranchNode (d : Z) (children : list (option listNode))
| listLeafNode (children : list (option V)).
#[local] Set Elimination Schemes.

Definition newListNode (depth : Z) : listNode :=
  if depth =? 0 then listLeafNode empty_slots
  else listBranchNode depth empty_slots.

Definition listNode_depth (n : listNode) : Z :=
  match n with
  | listBranchNode d _ => d
  | listLeafNode _ => 0
  end.

Fixpoint listNode_get (n : listNode) (index : Z) : result (option V) :=
  match n with
  | listBranchNode d children =>
      let idx := listFrag index d in
      at_index (λ c, match c with
                     | Some child => listNode_get child index
                     | None => Panic NilDereference
                     end)
               (Panic RuntimeIndexOutOfRange) children (Z.to_nat idx)
  | listLeafNode children => Ok (slot children (Z.land index listNodeMask))
  end.

(** [newListNode(depth).set(index, v)]: the path that [set] materialises
    below an absent child ([listNode_set_newListNode] proves the equation
    with [listNode_set]). *)
Fixpoint listNode_set_fresh (depth : nat) (index : Z) (v : option V) : listNode :=
  match depth with
  | O => listLeafNode (<[Z.to_nat (Z.land index listNodeMask) := v]> empty_slots)
  | S depth' =>
      listBranchNode (Z.of_nat depth)
        (<[Z.to_nat (listFrag index (Z.of_nat depth))
           := Some (listNode_set_fresh depth' index v)]> empty_slots)
  end.

(** A branch always has [d >= 1] ([newListNode] builds a leaf for depth 0
    and a new root gets [depth() + 1]), so [n.depth() - 1] never wraps. *)
Fixpoint listNode_set (n : listNode) (index : Z) (v : option V) : listNode :=
  match n with
  | listBranchNode d children =>
      let idx := listFrag index d in
      let child' :=
        at_index (λ c, match c with
                       | Some child => listNode_set child index v
                       | None => listNode_set_fresh (Z.to_nat (d - 1)) index v
                       end)
                 (listNode_set_fresh (Z.to_nat (d - 1)) index v)
                 children (Z.to_nat idx) in
      listBranchNode d (<[Z.to_nat idx := Some child']> children)
  | listLeafNode children =>
      listLeafNode (<[Z.to_nat (Z.land index listNodeMask) := v]> children)
  end.

Definition any_set {A} (s : list (option A)) : bool :=
  existsb (λ c, match c with Some _ => true | None => false end) s.

Fixpoint listNode_containsBefore (n : listNode) (index : Z) : bool :=
  match n with
  | listBranchNode d children =>
      let idx := listFrag index d in
      any_set (take (Z.to_nat idx) children)
      || at_index (λ c, match c with
                        | Some child => listNode_containsBefore child index
                        | None => false
                        end) false children (Z.to_nat idx)
  | listLeafNode children =>
      any_set (take (Z.to_nat (Z.land index listNodeMask)) children)
  end.

Fixpoint listNode_containsAfter (n : listNode) (index : Z) : bool :=
  match n with
  | listBranchNode d children =>
      let idx := listFrag index d in
      any_set (drop (Z.to_nat (idx + 1)) children)
      || at_index (λ c, match c with
                        | Some child => listNode_containsAfter child index
                        | None => false
                        end) false children (Z.to_nat idx)
  | listLeafNode children =>
      any_set (drop (Z.to_nat (Z.land index listNodeMask + 1)) children)
  end.

Fixpoint listNode_deleteBefore (n : listNode) (index : Z) : listNode :=
  match n with
  | listBranchNode d children =>
      if negb (listNode_containsBefore n index) then n
      else
        let idx := listFrag index d in
        let other := keep_from idx children in
        listBranchNode d
          (at_index (λ c, match c with
                          | Some child =>
                              <[Z.to_nat idx := Some (listNode_deleteBefore child index)]> other
                          | None => other
                          end) other children (Z.to_nat idx))
  | listLeafNode children =>
      if negb (listNode_containsBefore n index) then n
      else listLeafNode (keep_from (Z.land index listNodeMask) children)
  end.

Fixpoint listNode_deleteAfter (n : listNode) (index : Z) : listNode :=
  match n with
  | listBranchNode d children =>
      if negb (listNode_containsAfter n index) then n
      else
        let idx := listFrag index d in
        let other := keep_upto (idx + 1) children in
        listBranchNode d
          (at_index (λ c, match c with
                          | Some child =>
                              <[Z.to_nat idx := Some (listNode_deleteAfter child index)]> other
                          | None => other
                          end) other children (Z.to_nat idx))
  | listLeafNode children =>
      if negb (listNode_containsAfter n index) then n
      else listLeafNode (keep_upto (Z.land index listNodeMask + 1) children)
  end.

(** ** The façade *)

Record List : Type := mkList {
  list_root : listNode;   (* root node *)
  list_origin : Z;        (* offset to zero index element *)
  list_size : Z           (* total number of elements in use *)
}.

Definition NewList : List := mkList (listLeafNode empty_slots) 0 0.

Definition List_Len (l : List) : Z := list_size l.

Definition List_cap (l : List) : Z :=
  Z.shiftl 1 (listNode_depth (list_root l) * listNodeBits).

Definition List_Get (l : List) (index : Z) : result (option V) :=
  if (index <? 0) || (index >=? list_size l) then Panic IndexOutOfBounds
  else listNode_get (list_root l) (list_origin l + index).

Definition List_Set (l : List) (index : Z) (value : option V) : result List :=
  if (index <? 0) || (index >=? list_size l) then Panic IndexOutOfBounds
  else Ok (mkList (listNode_set (list_root l) (list_origin l + index) value)
                  (list_origin l) (list_size l)).

Definition List_Append (l : List) (value : option V) : List :=
  (* Expand list to the right if no slots remain. *)
  let root1 :=
    if list_size l + list_origin l >=? List_cap l then
      listBranchNode (listNode_depth (list_root l) + 1)
                     (<[0%nat := Some (list_root l)]> empty_slots)
    else list_root l in
  (* Increase size and set the last element to the new value. *)
  let size1 := list_size l + 1 in
  mkList (listNode_set root1 (list_origin l + size1 - 1) value)
         (list_origin l) size1.

Definition List_Prepend (l : List) (value : option V) : List :=
  (* Expand list to the left if no slots remain. *)
  let '(root1, origin1) :=
    if list_origin l =? 0 then
      let newRoot :=
        listBranchNode (listNode_depth (list_root l) + 1)
                       (<[Z.to_nat (listNodeSize - 1) := Some (list_root l)]> empty_slots) in
      (newRoot,
       list_origin l
       + Z.shiftl (listNodeSize - 1) (listNode_depth newRoot * listNodeBits))
    else (list_root l, list_origin l) in
  (* Increase size and move origin back. Update first element to value. *)
  let size1 := list_size l + 1 in
  let origin2 := origin1 - 1 in
  mkList (listNode_set root1 origin2 value) origin2 size1.

(** The loop of [Slice] that contracts the tree while the start and the
    end are in the same child node; it yields the new root and origin. *)
Fixpoint List_Slice_contract (root : listNode) (origin size : Z)
    : result (listNode * Z) :=
  match root with
  | listBranchNode d children =>
      if d >? 1 then
        let i := listFrag origin d in
        let j := listFrag (origin + size - 1) d in
        if negb (i =? j) then Ok (root, origin)
        else
          at_index (λ c, match c with
                         | Some child =>
                             List_Slice_contract child
                               (origin - Z.shiftl i (d * listNodeBits)) size
                         | None => Panic NilDereference
                         end)
                   (Panic RuntimeIndexOutOfRange) children (Z.to_nat i)
      else Ok (root, origin)
  | listLeafNode _ => Ok (root, origin)
  end.

Definition List_Slice (l : List) (start end_ : Z) : result List :=
  (* Panics similar to Go slices. *)
  if (start <? 0) || (start >? list_size l) then Panic IndexOutOfBounds
  else if (end_ <? 0) || (end_ >? list_size l) then Panic IndexOutOfBounds
  else if start >? end_ then Panic InvalidSliceIndex
  (* Return the same list if the start and end are the entire range. *)
  else if (start =? 0) && (end_ =? list_size l) then Ok l
  else
    (* Create copy with new origin/size. *)
    let origin1 := list_origin l + start in
    let size1 := end_ - start in
    (* Contract tree while the start & end are in the same child node. *)
    '(root2, origin2) ← List_Slice_contract (list_root l) origin1 size1;
    (* Ensure all references are removed before start & after end. *)
    let root3 := listNode_deleteBefore root2 origin2 in
    let root4 := listNode_deleteAfter root3 (origin2 + size1 - 1) in
    Ok (mkList root4 origin2 size1).

(** ** ListIterator *)

Record listIteratorElem : Type := mkListElem {
  lelem_node : option listNode;
  lelem_index : Z
}.

Record ListIterator : Type := mkListIterator {
  litr_list : List;                    (* source list *)
  litr_index : Z;                      (* current index position *)
  litr_stack : list listIteratorElem;  (* search stack, [32] frames *)
  litr_depth : Z                       (* stack depth *)
}.

Definition ListIterator_Done (itr : ListIterator) : bool :=
  (litr_index itr <? 0) || (litr_index itr >=? List_Len (litr_list itr)).

(** [seek]: every turn of the loop moves one frame up the stack, so it
    takes at most as many turns as the stack has frames. *)
Fixpoint ListIterator_seek_loop (fuel : nat) (itr : ListIterator) (index : Z)
    : result ListIterator :=
  match fuel with
  | O => Panic RuntimeIndexOutOfRange
  | S fuel' =>
      elem ← frame (litr_stack itr) (litr_depth itr);
      match lelem_node elem with
      | None => Panic NilDereference
      | Some node =>
          let idx := listFrag (list_origin (litr_list itr) + index)
                              (listNode_depth node) in
          stack1 ← set_frame (litr_stack itr) (litr_depth itr)
                             (mkListElem (Some node) idx);
          match node with
          | listBranchNode _ children =>
              let child := slot children idx in
              stack2 ← set_frame stack1 (litr_depth itr + 1) (mkListElem child 0);
              ListIterator_seek_loop fuel'
                (mkListIterator (litr_list itr) (litr_index itr) stack2
                                (litr_depth itr + 1))
                index
          | listLeafNode _ =>
              Ok (mkListIterator (litr_list itr) (litr_index itr) stack1
                                 (litr_depth itr))
          end
      end
  end.

Definition ListIterator_seek (itr : ListIterator) (index : Z) : result ListIterator :=
  ListIterator_seek_loop 33 itr index.

Definition ListIterator_Seek (itr : ListIterator) (index : Z) : result ListIterator :=
  if (index <? 0) || (index >=? List_Len (litr_list itr)) then Panic IndexOutOfBounds
  else
    stack1 ← set_frame (litr_stack itr) 0
                       (mkListElem (Some (list_root (litr_list itr))) 0);
    ListIterator_seek (mkListIterator (litr_list itr) index stack1 0) index.

Definition ListIterator_First (itr : ListIterator) : result ListIterator :=
  if negb (List_Len (litr_list itr) =? 0) then ListIterator_Seek itr 0
  else Ok itr.

Definition ListIterator_Last (itr : ListIterator) : result ListIterator :=
  let n := List_Len (litr_list itr) in
  if negb (n =? 0) then ListIterator_Seek itr (n - 1) else Ok itr.

Definition List_Iterator (l : List) : result ListIterator :=
  ListIterator_First
    (mkListIterator l 0 (replicate 32 (mkListElem None 0)) 0).

(** [for ; itr.depth > 0 && cond(itr.stack[itr.depth].index); itr.depth-- {}] *)
Fixpoint ListIterator_unwind (cond : Z → bool) (fuel : nat)
    (stack : list listIteratorElem) (depth : Z) : result Z :=
  match fuel with
  | O => Ok depth
  | S fuel' =>
      if depth >? 0 then
        elem ← frame stack depth;
        if cond (lelem_index elem) then
          ListIterator_unwind cond fuel' stack (depth - 1)
        else Ok depth
      else Ok depth
  end.

(** The current index and value, read from the frame on top of the stack. *)
Definition ListIterator_current (itr : ListIterator) : result (Z * option V) :=
  elem ← frame (litr_stack itr) (litr_depth itr);
  match lelem_node elem with
  | Some (listLeafNode children) =>
      if (lelem_index elem <? 0) || (lelem_index elem >=? 32)
      then Panic RuntimeIndexOutOfRange
      else Ok (litr_index itr, slot children (lelem_index elem))
  | Some (listBranchNode _ _) => Panic FailedTypeAssertion
  | None => Panic FailedTypeAssertion
  end.

Definition ListIterator_move (itr : ListIterator) (step : Z) (cond : Z → bool)
    : result ListIterator :=
  let itr1 := mkListIterator (litr_list itr) (litr_index itr + step)
                             (litr_stack itr) (litr_depth itr) in
  if ListIterator_Done itr1 then Ok itr1
  else
    depth1 ← ListIterator_unwind cond (Z.to_nat (litr_depth itr))
                                 (litr_stack itr) (litr_depth itr);
    ListIterator_seek
      (mkListIterator (litr_list itr) (litr_index itr1) (litr_stack itr) depth1)
      (litr_index itr1).

(** [Next] returns the current index and its value and moves the iterator
    forward; an index of -1 when no elements remain. *)
Definition ListIterator_Next (itr : ListIterator)
    : result ((Z * option V) * ListIterator) :=
  if ListIterator_Done itr then Ok ((-1, None), itr)
  else
    cur ← ListIterator_current itr;
    itr' ← ListIterator_move itr 1 (λ i, i >=? listNodeSize - 1);
    Ok (cur, itr').

(** [Prev] returns the current index and value and moves the iterator
    backward; an index of -1 when no elements remain. *)
Definition ListIterator_Prev (itr : ListIterator)
    : result ((Z * option V) * ListIterator) :=
  if ListIterator_Done itr then Ok ((-1, None), itr)
  else
    cur ← ListIterator_current itr;
    itr' ← ListIterator_move itr (-1) (λ i, i =? 0);
    Ok (cur, itr').

End ListModel.

Arguments listNode : clear implicits.
Arguments List : clear implicits.
Arguments ListIterator : clear implicits.
Arguments listIteratorElem : clear implicits.

(** * Map: a hash array mapped trie *)

(** Size thresholds for each type of branch node. *)
Definition maxArrayMapSize : Z := 8.
Definition maxBitmapIndexedSize : Z := 16.

(** Segment bit shifts within the map tree. *)
Definition mapNodeBits : Z := 5.
Definition mapNodeSize : Z := Z.shiftl 1 mapNodeBits.
Definition mapNodeMask : Z := mapNodeSize - 1.

(** [(keyHash >> shift) & mapNodeMask] *)
Definition mapFrag (keyHash shift : Z) : Z :=
  Z.land (Z.shiftr keyHash shift) mapNodeMask.

(** [len(s)] *)
Definition len {A} (s : list A) : Z := Z.of_nat (length s).

Section MapModel.
Context {K V : Type}.

(** Hasher hashes keys and checks them for equality. *)
Record Hasher : Type := mkHasher {
  Hash : K → Z;          (* a 32-bit hash for key *)
  Equal : K → K → bool   (* true if a and b are equal *)
}.

(** mapEntry represents a single key/value pair. *)
Record mapEntry : Type := mkEntry {
  entry_key : K;
  entry_value : V
}.

#[local] Unset Elimination Schemes.
Inductive mapNode : Type :=
| mapArrayNode (entries : list mapEntry)
| mapBitmapIndexedNode (bitmap : Z) (nodes : list mapNode)
| mapHashArrayNode (count : Z) (nodes : list (option mapNode))
| mapValueNode (keyHash : Z) (key : K) (value : V)
| mapHashCollisionNode (keyHash : Z) (entries : list mapEntry).
#[local] Set Elimination Schemes.

Definition newMapValueNode (keyHash : Z) (key : K) (value : V) : mapNode :=
  mapValueNode keyHash key value.

(** [keyHashValue] of a [mapLeafNode]; only value and collision nodes
    implement that interface. *)
Definition mapNode_keyHashValue (n : mapNode) : Z :=
  match n with
  | mapValueNode keyHash _ _ => keyHash
  | mapHashCollisionNode keyHash _ => keyHash
  | _ => 0
  end.

(** [indexOf] of an array node and of a collision node: the entry index of
    the given key, -1 if the key is not found. *)
Fixpoint mapEntries_indexOf_from (i : Z) (entries : list mapEntry) (key : K)
    (h : Hasher) : Z :=
  match entries with
  | [] => -1
  | e :: entries' =>
      if Equal h (entry_key e) key then i
      else mapEntries_indexOf_from (i + 1) entries' key h
  end.

Definition mapEntries_indexOf (entries : list mapEntry) (key : K) (h : Hasher) : Z :=
  mapEntries_indexOf_from 0 entries key h.

(** [entries[i].value], with the found flag. *)
Definition mapEntries_value (entries : list mapEntry) (i : Z) : result (option V) :=
  match entries !! Z.to_nat i with
  | Some e => Ok (Some (entry_value e))
  | None => Panic RuntimeIndexOutOfRange
  end.

(** [get] returns the value for the given key: [Some v] stands for
    [(v, true)] and [None] for [(nil, false)]. *)
Fixpoint mapNode_get (n : mapNode) (key : K) (shift keyHash : Z) (h : Hasher)
    : result (option V) :=
  match n with
  | mapArrayNode entries =>
      let i := mapEntries_indexOf entries key h in
      if i =? -1 then Ok None else mapEntries_value entries i
  | mapBitmapIndexedNode bitmap nodes =>
      let bit := Z.shiftl 1 (mapFrag keyHash shift) in
      if Z.land bitmap bit =? 0 then Ok None
      else
        at_index (λ child, mapNode_get child key (shift + mapNodeBits) keyHash h)
                 (Panic RuntimeIndexOutOfRange) nodes
                 (Z.to_nat (OnesCount32 (Z.land bitmap (bit - 1))))
  | mapHashArrayNode count nodes =>
      at_index (λ node, match node with
                        | None => Ok None
                        | Some node => mapNode_get node key (shift + mapNodeBits) keyHash h
                        end)
               (Panic RuntimeIndexOutOfRange) nodes
               (Z.to_nat (mapFrag keyHash shift))
  | mapValueNode _ key' value =>
      if negb (Equal h key' key) then Ok None else Ok (Some value)
  | mapHashCollisionNode _ entries =>
      let i := mapEntries_indexOf entries key h in
      if i =? -1 then Ok None else mapEntries_value entries i
  end.

(** [mergeIntoNode] merges a key/value pair into an existing leaf whose
    key hash differs from [keyHash]. Beyond the 32 bits of a hash both
    fragments are 0, so a recursion that gets there never ends. *)
Fixpoint mergeIntoNode_levels (levels : nat) (node : mapNode)
    (shift keyHash : Z) (key : K) (value : V) : result mapNode :=
  match levels with
  | O => Panic StackOverflow
  | S levels' =>
      let idx1 := mapFrag (mapNode_keyHashValue node) shift in
      let idx2 := mapFrag keyHash shift in
      (* Recursively build branch nodes to combine the node and its key. *)
      let bitmap := Z.lor (Z.shiftl 1 idx1) (Z.shiftl 1 idx2) in
      if idx1 =? idx2 then
        child ← mergeIntoNode_levels levels' node (shift + mapNodeBits) keyHash key value;
        Ok (mapBitmapIndexedNode bitmap [child])
      else
        let newNode := newMapValueNode keyHash key value in
        if idx1 <? idx2 then Ok (mapBitmapIndexedNode bitmap [node; newNode])
        else Ok (mapBitmapIndexedNode bitmap [newNode; node])
  end.

Definition mergeIntoNode (node : mapNode) (shift keyHash : Z) (key : K) (value : V)
    : result mapNode :=
  mergeIntoNode_levels (Z.to_nat ((36 - shift) / mapNodeBits))
                       node shift keyHash key value.

(** The loop of [mapBitmapIndexedNode.set] that copies each node to its
    bit position in a hash-array node; it yields the slots and the count. *)
Definition mapBitmapIndexedNode_expand (bitmap : Z) (nodes : list mapNode)
    : result (list (option mapNode) * Z) :=
  foldl (λ acc i,
           '(slots, count) ← acc;
           if negb (Z.land bitmap (Z.shiftl 1 (Z.of_nat i)) =? 0) then
             match nodes !! Z.to_nat count with
             | Some node => Ok (<[i := Some node]> slots, count + 1)
             | None => Panic RuntimeIndexOutOfRange
             end
           else Ok (slots, count))
        (Ok (empty_slots, 0)) (seq 0 32).

(** The loop of [mapHashArrayNode.delete] that packs the children other
    than slot [idx] into a bitmap; it yields the bitmap and the nodes. *)
Definition mapHashArrayNode_pack (idx : Z) (nodes : list (option mapNode))
    : Z * list mapNode :=
  foldl (λ '(bitmap, packed) '(i, child),
           match child with
           | Some child =>
               if negb (Z.of_nat i =? idx)
               then (Z.lor bitmap (Z.shiftl 1 (Z.of_nat i)), packed ++ [child])
               else (bitmap, packed)
           | None => (bitmap, packed)
           end)
        (0, []) (imap pair nodes).

(** [set] inserts or updates the value for a key and reports through
    [resized] whether the key is new. An array node that crosses its size
    threshold re-inserts its entries, one [node.set] call each, into a
    fresh value node; [reinsert] is the [set] those calls dispatch to. *)
Fixpoint mapNode_set_via
    (reinsert : mapNode → K → V → Z → Z → Hasher → bool → result (mapNode * bool))
    (n : mapNode) (key : K) (value : V) (shift keyHash : Z) (h : Hasher)
    (resized : bool) {struct n} : result (mapNode * bool) :=
  match n with
  | mapArrayNode entries =>
      let idx := mapEntries_indexOf entries key h in
      (* Mark as resized if the key doesn't exist. *)
      let resized := if idx =? -1 then true else resized in
      (* If we are adding and it crosses the max size threshold, expand the node. *)
      if (idx =? -1) && (len entries >=? maxArrayMapSize) then
        foldl (λ acc entry,
                 '(node, resized) ← acc;
                 reinsert node (entry_key entry) (entry_value entry)
                          0 (Hash h (entry_key entry)) h resized)
              (Ok (newMapValueNode (Hash h key) key value, resized))
              entries
      (* Update existing entry if a match is found. *)
      else if negb (idx =? -1) then
        Ok (mapArrayNode (<[Z.to_nat idx := mkEntry key value]> entries), resized)
      (* Otherwise append to the end of the element list. *)
      else Ok (mapArrayNode (entries ++ [mkEntry key value]), resized)
  | mapBitmapIndexedNode bitmap nodes =>
      (* Extract the index for the bit segment of the key hash. *)
      let keyHashFrag := mapFrag keyHash shift in
      (* Determine the bit based on the hash index. *)
      let bit := Z.shiftl 1 keyHashFrag in
      let exists_ := negb (Z.land bitmap bit =? 0) in
      (* Mark as resized if the key doesn't exist. *)
      let resized := if negb exists_ then true else resized in
      (* Find index of node based on popcount of bits before it. *)
      let idx := Z.to_nat (OnesCount32 (Z.land bitmap (bit - 1))) in
      (* If the node already exists, delegate set operation to it.
         If the node doesn't exist then create a simple value leaf node. *)
      '(newNode, resized) ←
        (if exists_ then
           at_index (λ child, mapNode_set_via reinsert child key value
                                (shift + mapNodeBits) keyHash h resized)
                    (Panic RuntimeIndexOutOfRange) nodes idx
         else Ok (newMapValueNode keyHash key value, resized));
      (* Convert to a hash-array node once we exceed the max bitmap size. *)
      if negb exists_ && (len nodes >? maxBitmapIndexedSize) then
        '(slots, count) ← mapBitmapIndexedNode_expand bitmap nodes;
        Ok (mapHashArrayNode (count + 1)
                             (<[Z.to_nat keyHashFrag := Some newNode]> slots),
            resized)
      (* If node exists at given slot then overwrite it with new node.
         Otherwise expand the node list and insert new node. *)
      else if exists_ then
        if (idx <? length nodes)%nat then
          Ok (mapBitmapIndexedNode (Z.lor bitmap bit) (<[idx := newNode]> nodes), resized)
        else Panic RuntimeIndexOutOfRange
      else
        if (idx <=? length nodes)%nat then
          Ok (mapBitmapIndexedNode (Z.lor bitmap bit) (splice idx newNode nodes), resized)
        else Panic RuntimeIndexOutOfRange
  | mapHashArrayNode count nodes =>
      let idx := mapFrag keyHash shift in
      (* If node at index doesn't exist, create a simple value leaf node.
         Otherwise delegate set to child node. *)
      '(newNode, resized, isNew) ←
        at_index (λ node, match node with
                          | None => Ok (newMapValueNode keyHash key value, true, true)
                          | Some node =>
                              '(newNode, resized) ←
                                mapNode_set_via reinsert node key value
                                  (shift + mapNodeBits) keyHash h resized;
                              Ok (newNode, resized, false)
                          end)
                 (Panic RuntimeIndexOutOfRange) nodes (Z.to_nat idx);
      (* Return a copy of node with updated child node (and updated size, if new). *)
      Ok (mapHashArrayNode (if isNew : bool then count + 1 else count)
                           (<[Z.to_nat idx := Some newNode]> nodes),
          resized)
  | mapValueNode keyHash' key' value' =>
      (* If the keys match then return a new value node overwriting the value. *)
      if Equal h key' key then Ok (newMapValueNode keyHash' key value, resized)
      (* Recursively merge nodes together if key hashes are different. *)
      else if negb (keyHash' =? keyHash) then
        node ← mergeIntoNode n shift keyHash key value;
        Ok (node, true)
      (* Merge into collision node if hash matches. *)
      else Ok (mapHashCollisionNode keyHash [mkEntry key' value'; mkEntry key value],
               true)
  | mapHashCollisionNode keyHash' entries =>
      (* Merge node with key/value pair if this is not a hash collision. *)
      if negb (keyHash' =? keyHash) then
        node ← mergeIntoNode n shift keyHash key value;
        Ok (node, true)
      else
        (* Append to end of node if key doesn't exist & mark resized.
           Otherwise copy nodes and overwrite at matching key index. *)
        let idx := mapEntries_indexOf entries key h in
        if idx =? -1 then
          Ok (mapHashCollisionNode keyHash' (entries ++ [mkEntry key value]), true)
        else
          Ok (mapHashCollisionNode keyHash'
                (<[Z.to_nat idx := mkEntry key value]> entries), resized)
  end.

(** [set] as the package runs it. The fresh node that an expanding array
    node re-inserts into holds no array node, so the re-insertions never
    expand in turn: [promotions] counts how deeply they may nest, and
    [Map.Set] needs one level. *)
Fixpoint mapNode_set (promotions : nat)
    : mapNode → K → V → Z → Z → Hasher → bool → result (mapNode * bool) :=
  match promotions with
  | O => mapNode_set_via (λ _ _ _ _ _ _ _, Panic StackOverflow)
  | S promotions' => mapNode_set_via (mapNode_set promotions')
  end.

(** [delete] returns its receiver if the key does not exist, nil
    ([Fresh None]) when the node becomes empty, a new node otherwise. *)
Fixpoint mapNode_delete (n : mapNode) (key : K) (shift keyHash : Z) (h : Hasher)
    : result (returned (option mapNode)) :=
  match n with
  | mapArrayNode entries =>
      let idx := mapEntries_indexOf entries key h in
      (* Return original node if key does not exist. *)
      if idx =? -1 then Ok Receiver
      (* Return nil if this node will contain no nodes. *)
      else if len entries =? 1 then Ok (Fresh None)
      (* Otherwise create a copy with the given entry removed. *)
      else Ok (Fresh (Some (mapArrayNode (remove_at (Z.to_nat idx) entries))))
  | mapBitmapIndexedNode bitmap nodes =>
      let bit := Z.shiftl 1 (mapFrag keyHash shift) in
      (* Return original node if key does not exist. *)
      if Z.land bitmap bit =? 0 then Ok Receiver
      else
        (* Find index of node based on popcount of bits before it. *)
        let idx := Z.to_nat (OnesCount32 (Z.land bitmap (bit - 1))) in
        (* Delegate delete to child node. *)
        newChild ← at_index (λ child, mapNode_delete child key (shift + mapNodeBits) keyHash h)
                            (Panic RuntimeIndexOutOfRange) nodes idx;
        match newChild with
        (* Return original node if key doesn't exist in child. *)
        | Receiver => Ok Receiver
        (* Remove if returned child has been deleted. *)
        | Fresh None =>
            (* If we won't have any children then return nil. *)
            if len nodes =? 1 then Ok (Fresh None)
            (* Return copy with bit removed from bitmap and node removed from node list. *)
            else Ok (Fresh (Some (mapBitmapIndexedNode (Z.lxor bitmap bit)
                                                       (remove_at idx nodes))))
        (* Return copy with child updated. *)
        | Fresh (Some newChild) =>
            Ok (Fresh (Some (mapBitmapIndexedNode bitmap (<[idx := newChild]> nodes))))
        end
  | mapHashArrayNode count nodes =>
      let idx := mapFrag keyHash shift in
      at_index (λ node,
                  match node with
                  (* Return original node if child is not found. *)
                  | None => Ok Receiver
                  | Some node =>
                      newNode ← mapNode_delete node key (shift + mapNodeBits) keyHash h;
                      match newNode with
                      (* Return original node if child is unchanged. *)
                      | Receiver => Ok Receiver
                      | Fresh None =>
                          (* If we remove a node and drop below a threshold,
                             convert back to bitmap indexed node. *)
                          if count <=? maxBitmapIndexedSize then
                            if count <=? 0 then Panic RuntimeIndexOutOfRange (* makeslice *)
                            else
                              let '(bitmap, packed) := mapHashArrayNode_pack idx nodes in
                              Ok (Fresh (Some (mapBitmapIndexedNode bitmap packed)))
                          (* Return copy of node with child updated. *)
                          else Ok (Fresh (Some (mapHashArrayNode (count - 1)
                                                  (<[Z.to_nat idx := None]> nodes))))
                      | Fresh (Some newNode) =>
                          Ok (Fresh (Some (mapHashArrayNode count
                                             (<[Z.to_nat idx := Some newNode]> nodes))))
                      end
                  end)
               (Panic RuntimeIndexOutOfRange) nodes (Z.to_nat idx)
  | mapValueNode keyHash' key' value' =>
      (* Return original node if the keys do not match. *)
      if negb (Equal h key' key) then Ok Receiver
      (* Otherwise remove the node if keys do match. *)
      else Ok (Fresh None)
  | mapHashCollisionNode keyHash' entries =>
      let idx := mapEntries_indexOf entries key h in
      (* Return original node if key is not found. *)
      if idx =? -1 then Ok Receiver
      (* Convert to value node if we move to one entry. *)
      else if len entries =? 2 then
        match entries !! Z.to_nat (Z.lxor idx 1) with
        | Some e => Ok (Fresh (Some (mapValueNode keyHash' (entry_key e) (entry_value e))))
        | None => Panic RuntimeIndexOutOfRange
        end
      (* Otherwise return copy with entry removed. *)
      else Ok (Fresh (Some (mapHashCollisionNode keyHash'
                              (remove_at (Z.to_nat idx) entries))))
  end.

(** ** The façade *)

(** The [switch key.(type)] of [Set]: the built-in hasher for the key's
    dynamic type, [None] in the [default] case. *)
Context (defaultHasher : K → option Hasher).

Record Map : Type := mkMap {
  map_size : Z;               (* total number of key/value pairs *)
  map_root : option mapNode;  (* root node of trie *)
  map_hasher : option Hasher  (* hasher implementation *)
}.

Definition NewMap (hasher : option Hasher) : Map := mkMap 0 None hasher.

Definition Map_Len (m : Map) : Z := map_size m.

Definition Map_Get (m : Map) (key : K) : result (option V) :=
  match map_root m with
  | None => Ok None
  | Some root =>
      match map_hasher m with
      | None => Panic NilDereference
      | Some hasher => mapNode_get root key 0 (Hash hasher key) hasher
      end
  end.

Definition Map_Set (m : Map) (key : K) (value : V) : result Map :=
  (* Set a hasher on the first value if one does not already exist. *)
  hasher ← match map_hasher m with
           | Some hasher => Ok hasher
           | None => match defaultHasher key with
                     | Some hasher => Ok hasher
                     | None => Panic MustSetHasher
                     end
           end;
  match map_root m with
  (* If the map is empty, initialize with a simple array node. *)
  | None => Ok (mkMap 1 (Some (mapArrayNode [mkEntry key value])) (Some hasher))
  (* Otherwise copy the map and delegate insertion to the root.
     Resized will return true if the key does not currently exist. *)
  | Some root =>
      '(root', resized) ← mapNode_set 1 root key value 0 (Hash hasher key) hasher false;
      Ok (mkMap (if resized : bool then map_size m + 1 else map_size m)
                (Some root') (Some hasher))
  end.

Definition Map_Delete (m : Map) (key : K) : result (returned Map) :=
  match map_root m with
  (* Return original map if no keys exist. *)
  | None => Ok Receiver
  | Some root =>
      match map_hasher m with
      | None => Panic NilDereference
      | Some hasher =>
          newRoot ← mapNode_delete root key 0 (Hash hasher key) hasher;
          match newRoot with
          (* If the delete did not change the node then return the original map. *)
          | Receiver => Ok Receiver
          (* Return copy of map with new root and decreased size. *)
          | Fresh newRoot => Ok (Fresh (mkMap (map_size m - 1) newRoot (Some hasher)))
          end
      end
  end.

End MapModel.

Arguments Hasher : clear implicits.
Arguments mapEntry : clear implicits.
Arguments mapNode : clear implicits.
Arguments Map : clear implicits.

(** * SortedMap: a B+tree *)

(** Sorted map child node limit size. *)
Definition sortedMapNodeSize : Z := 32.

Section SortedMapModel.
Context {K V : Type}.

(** Comparer allows the comparison of two keys for the purpose of sorting:
    -1 if a is less than b, 1 if a is greater than b, 0 if they are equal. *)
Record Comparer : Type := mkComparer {
  Compare : K → K → Z
}.

(** A [sortedMapBranchElem] is the pair of its [key] and its [node]. *)
#[local] Unset Elimination Schemes.
Inductive sortedMapNode : Type :=
| sortedMapBranchNode (elems : list (K * sortedMapNode))
| sortedMapLeafNode (entries : list (mapEntry K V)).
#[local] Set Elimination Schemes.

#[local] Abbreviation sortedMapBranchElem := (K * sortedMapNode)%type.
Definition belem_key (e : sortedMapBranchElem) : K := fst e.
Definition belem_node (e : sortedMapBranchElem) : sortedMapNode := snd e.

(** [minKey] returns the lowest key stored in this node's tree. *)
Fixpoint sortedMapNode_minKey (n : sortedMapNode) : result K :=
  match n with
  | sortedMapBranchNode elems =>
      match elems with
      | (_, node) :: _ => sortedMapNode_minKey node
      | [] => Panic RuntimeIndexOutOfRange
      end
  | sortedMapLeafNode entries =>
      match entries with
      | e :: _ => Ok (entry_key e)
      | [] => Panic RuntimeIndexOutOfRange
      end
  end.

(** [indexOf] of a branch: the index of the key within the child nodes. *)
Definition sortedMapBranchNode_indexOf (elems : list sortedMapBranchElem)
    (key : K) (c : Comparer) : Z :=
  let idx := sort_Search (len elems)
               (λ i, match elems !! Z.to_nat i with
                     | Some e => Compare c (belem_key e) key =? 1
                     | None => false
                     end) in
  if idx >? 0 then idx - 1 else 0.

(** [indexOf] of a leaf: the index of the given key. *)
Definition sortedMapLeafNode_indexOf (entries : list (mapEntry K V))
    (key : K) (c : Comparer) : Z :=
  sort_Search (len entries)
    (λ i, match entries !! Z.to_nat i with
          | Some e => negb (Compare c (entry_key e) key =? -1) (* GTE *)
          | None => false
          end).

Definition sortedMapNode_indexOf (n : sortedMapNode) (key : K) (c : Comparer) : Z :=
  match n with
  | sortedMapBranchNode elems => sortedMapBranchNode_indexOf elems key c
  | sortedMapLeafNode entries => sortedMapLeafNode_indexOf entries key c
  end.

(** [get] returns the value for the given key: [Some v] stands for
    [(v, true)] and [None] for [(nil, false)]. *)
Fixpoint sortedMapNode_get (n : sortedMapNode) (key : K) (c : Comparer)
    : result (option V) :=
  match n with
  | sortedMapBranchNode elems =>
      let idx := sortedMapBranchNode_indexOf elems key c in
      at_index (λ '(_, node), sortedMapNode_get node key c)
               (Panic RuntimeIndexOutOfRange) elems (Z.to_nat idx)
  | sortedMapLeafNode entries =>
      let idx := sortedMapLeafNode_indexOf entries key c in
      (* If the index is beyond the entry count or the key is not equal
         then return 'not found'. *)
      match entries !! Z.to_nat idx with
      | Some e =>
          if negb (Compare c (entry_key e) key =? 0) then Ok None
          (* If the key matches then return its value. *)
          else Ok (Some (entry_value e))
      | None => Ok None
      end
  end.

(** [set] returns a copy of the node with the key set to the given value,
    and the node split off it if the update makes it grow beyond the
    maximum size; [resized] reports whether the key is new. *)
Fixpoint sortedMapNode_set (n : sortedMapNode) (key : K) (value : V)
    (c : Comparer) (resized : bool)
    : result (sortedMapNode * option sortedMapNode * bool) :=
  match n with
  | sortedMapBranchNode elems =>
      let idx := Z.to_nat (sortedMapBranchNode_indexOf elems key c) in
      (* Delegate insert to child node. *)
      '(newNode, splitNode, resized) ←
        at_index (λ '(_, node), sortedMapNode_set node key value c resized)
                 (Panic RuntimeIndexOutOfRange) elems idx;
      newKey ← sortedMapNode_minKey newNode;
      (* If no split occurs, copy branch and update keys.
         If the child splits, insert new key/child into copy of branch. *)
      other ← match splitNode with
              | None => Ok (<[idx := (newKey, newNode)]> elems)
              | Some splitNode =>
                  splitKey ← sortedMapNode_minKey splitNode;
                  Ok (take idx elems
                      ++ (newKey, newNode) :: (splitKey, splitNode) :: drop (S idx) elems)
              end;
      (* If the child splits and we have no more room then we split too. *)
      if len other >? sortedMapNodeSize then
        let splitIdx := Z.to_nat (len other / 2) in
        Ok (sortedMapBranchNode (take splitIdx other),
            Some (sortedMapBranchNode (drop splitIdx other)), resized)
      (* Otherwise return the new branch node with the updated entry. *)
      else Ok (sortedMapBranchNode other, None, resized)
  | sortedMapLeafNode entries =>
      (* Find the insertion index for the key. *)
      let idx := Z.to_nat (sortedMapLeafNode_indexOf entries key c) in
      (* If the key matches then simply return a copy with the entry overridden.
         If there is no match then insert new entry and mark as resized. *)
      let '(newEntries, resized) :=
        match entries !! idx with
        | Some e =>
            if Compare c (entry_key e) key =? 0
            then (<[idx := mkEntry key value]> entries, resized)
            else (splice idx (mkEntry key value) entries, true)
        | None => (splice idx (mkEntry key value) entries, true)
        end in
      (* If the key doesn't exist and we exceed our max allowed values then split. *)
      if len newEntries >? sortedMapNodeSize then
        let splitIdx := Z.to_nat (len newEntries / 2) in
        Ok (sortedMapLeafNode (take splitIdx newEntries),
            Some (sortedMapLeafNode (drop splitIdx newEntries)), resized)
      (* Otherwise return the new leaf node with the updated entry. *)
      else Ok (sortedMapLeafNode newEntries, None, resized)
  end.

(** [delete] returns its receiver if the key does not exist, nil
    ([Fresh None]) if all of the node is removed, a copy otherwise. *)
Fixpoint sortedMapNode_delete (n : sortedMapNode) (key : K) (c : Comparer)
    : result (returned (option sortedMapNode)) :=
  match n with
  | sortedMapBranchNode elems =>
      let idx := Z.to_nat (sortedMapBranchNode_indexOf elems key c) in
      newNode ← at_index (λ '(_, node), sortedMapNode_delete node key c)
                         (Panic RuntimeIndexOutOfRange) elems idx;
      match newNode with
      (* Return original node if child has not changed. *)
      | Receiver => Ok Receiver
      (* Remove child if it is now nil. *)
      | Fresh None =>
          (* If this node will become empty then simply return nil. *)
          if len elems =? 1 then Ok (Fresh None)
          (* Return a copy without the given node. *)
          else Ok (Fresh (Some (sortedMapBranchNode (remove_at idx elems))))
      (* Return a copy with the updated node. *)
      | Fresh (Some newNode) =>
          newKey ← sortedMapNode_minKey newNode;
          Ok (Fresh (Some (sortedMapBranchNode (<[idx := (newKey, newNode)]> elems))))
      end
  | sortedMapLeafNode entries =>
      let idx := Z.to_nat (sortedMapLeafNode_indexOf entries key c) in
      match entries !! idx with
      | Some e =>
          (* Return original node if key is not found. *)
          if negb (Compare c (entry_key e) key =? 0) then Ok Receiver
          (* If this is the last entry then return nil. *)
          else if len entries =? 1 then Ok (Fresh None)
          (* Return copy of node with entry removed. *)
          else Ok (Fresh (Some (sortedMapLeafNode (remove_at idx entries))))
      | None => Ok Receiver
      end
  end.

(** [newSortedMapBranchNode] returns a new branch node with the given
    child nodes, fetching the min key of every child. *)
Definition newSortedMapBranchNode (children : list sortedMapNode)
    : result sortedMapNode :=
  elems ← foldr (λ child acc,
                   elems ← acc;
                   key ← sortedMapNode_minKey child;
                   Ok ((key, child) :: elems))
                (Ok []) children;
  Ok (sortedMapBranchNode elems).

(** ** The façade *)

(** The [switch key.(type)] of [Set]: the built-in comparer for the key's
    dynamic type, [None] in the [default] case. *)
Context (defaultComparer : K → option Comparer).

Record SortedMap : Type := mkSortedMap {
  smap_size : Z;                     (* total number of key/value pairs *)
  smap_root : option sortedMapNode;  (* root of b+tree *)
  smap_comparer : option Comparer
}.

Definition NewSortedMap (comparer : option Comparer) : SortedMap :=
  mkSortedMap 0 None comparer.

Definition SortedMap_Len (m : SortedMap) : Z := smap_size m.

Definition SortedMap_Get (m : SortedMap) (key : K) : result (option V) :=
  match smap_root m with
  | None => Ok None
  | Some root =>
      match smap_comparer m with
      | None => Panic NilDereference
      | Some comparer => sortedMapNode_get root key comparer
      end
  end.

Definition SortedMap_Set (m : SortedMap) (key : K) (value : V) : result SortedMap :=
  (* Set a comparer on the first value if one does not already exist. *)
  comparer ← match smap_comparer m with
             | Some comparer => Ok comparer
             | None => match defaultComparer key with
                       | Some comparer => Ok comparer
                       | None => Panic MustSetComparer
                       end
             end;
  match smap_root m with
  (* If no values are set then initialize with a leaf node. *)
  | None => Ok (mkSortedMap 1 (Some (sortedMapLeafNode [mkEntry key value]))
                            (Some comparer))
  (* Otherwise delegate to root node.
     If a split occurs then grow the tree from the root. *)
  | Some root =>
      '(newRoot, splitNode, resized) ← sortedMapNode_set root key value comparer false;
      newRoot ← match splitNode with
                | Some splitNode => newSortedMapBranchNode [newRoot; splitNode]
                | None => Ok newRoot
                end;
      (* Return a new map with the new root. *)
      Ok (mkSortedMap (if resized : bool then smap_size m + 1 else smap_size m)
                      (Some newRoot) (Some comparer))
  end.

Definition SortedMap_Delete (m : SortedMap) (key : K) : result (returned SortedMap) :=
  match smap_root m with
  (* Return original map if no keys exist. *)
  | None => Ok Receiver
  | Some root =>
      match smap_comparer m with
      | None => Panic NilDereference
      | Some comparer =>
          newRoot ← sortedMapNode_delete root key comparer;
          match newRoot with
          (* If the delete did not change the node then return the original map. *)
          | Receiver => Ok Receiver
          (* Return new copy with the root and size updated. *)
          | Fresh newRoot =>
              Ok (Fresh (mkSortedMap (smap_size m - 1) newRoot (Some comparer)))
          end
      end
  end.

(** ** SortedMapIterator *)

Record sortedMapIteratorElem : Type := mkSortedElem {
  selem_node : option sortedMapNode;
  selem_index : Z
}.

Record SortedMapIterator : Type := mkSortedMapIterator {
  sitr_m : SortedMap;                       (* source map *)
  sitr_stack : list sortedMapIteratorElem;  (* search stack, [32] frames *)
  sitr_depth : Z                            (* stack depth *)
}.

Definition SortedMapIterator_Done (itr : SortedMapIterator) : bool :=
  sitr_depth itr =? -1.

(** [first] positions the stack to the leftmost key from the current
    depth. Every turn of the loop moves one frame up the stack. *)
Fixpoint SortedMapIterator_first_loop (fuel : nat) (itr : SortedMapIterator)
    : result SortedMapIterator :=
  match fuel with
  | O => Panic RuntimeIndexOutOfRange
  | S fuel' =>
      elem ← frame (sitr_stack itr) (sitr_depth itr);
      stack1 ← set_frame (sitr_stack itr) (sitr_depth itr)
                         (mkSortedElem (selem_node elem) 0);
      match selem_node elem with
      | Some (sortedMapBranchNode elems) =>
          match elems !! 0%nat with
          | Some e =>
              stack2 ← set_frame stack1 (sitr_depth itr + 1)
                                 (mkSortedElem (Some (belem_node e)) 0);
              SortedMapIterator_first_loop fuel'
                (mkSortedMapIterator (sitr_m itr) stack2 (sitr_depth itr + 1))
          | None => Panic RuntimeIndexOutOfRange
          end
      | Some (sortedMapLeafNode _) =>
          Ok (mkSortedMapIterator (sitr_m itr) stack1 (sitr_depth itr))
      | None => Panic Diverges
      end
  end.

Definition SortedMapIterator_first (itr : SortedMapIterator) : result SortedMapIterator :=
  SortedMapIterator_first_loop 33 itr.

(** [last] positions the stack to the rightmost key from the current depth. *)
Fixpoint SortedMapIterator_last_loop (fuel : nat) (itr : SortedMapIterator)
    : result SortedMapIterator :=
  match fuel with
  | O => Panic RuntimeIndexOutOfRange
  | S fuel' =>
      elem ← frame (sitr_stack itr) (sitr_depth itr);
      match selem_node elem with
      | Some (sortedMapBranchNode elems) =>
          let index := len elems - 1 in
          stack1 ← set_frame (sitr_stack itr) (sitr_depth itr)
                             (mkSortedElem (selem_node elem) index);
          e ← frame elems index;
          stack2 ← set_frame stack1 (sitr_depth itr + 1)
                             (mkSortedElem (Some (belem_node e)) 0);
          SortedMapIterator_last_loop fuel'
            (mkSortedMapIterator (sitr_m itr) stack2 (sitr_depth itr + 1))
      | Some (sortedMapLeafNode entries) =>
          stack1 ← set_frame (sitr_stack itr) (sitr_depth itr)
                             (mkSortedElem (selem_node elem) (len entries - 1));
          Ok (mkSortedMapIterator (sitr_m itr) stack1 (sitr_depth itr))
      | None => Panic Diverges
      end
  end.

Definition SortedMapIterator_last (itr : SortedMapIterator) : result SortedMapIterator :=
  SortedMapIterator_last_loop 33 itr.

(** [next] moves to the next key. If no keys are after then depth is set
    to -1. The loop runs once per frame from the current depth down. *)
Fixpoint SortedMapIterator_next_loop (fuel : nat) (itr : SortedMapIterator)
    : result SortedMapIterator :=
  match fuel with
  | O => Ok itr
  | S fuel' =>
      if sitr_depth itr >=? 0 then
        elem ← frame (sitr_stack itr) (sitr_depth itr);
        let up := mkSortedMapIterator (sitr_m itr) (sitr_stack itr) (sitr_depth itr - 1) in
        match selem_node elem with
        | Some (sortedMapLeafNode entries) =>
            if selem_index elem <? len entries - 1 then
              stack1 ← set_frame (sitr_stack itr) (sitr_depth itr)
                                 (mkSortedElem (selem_node elem) (selem_index elem + 1));
              Ok (mkSortedMapIterator (sitr_m itr) stack1 (sitr_depth itr))
            else SortedMapIterator_next_loop fuel' up
        | Some (sortedMapBranchNode elems) =>
            if selem_index elem <? len elems - 1 then
              let index := selem_index elem + 1 in
              stack1 ← set_frame (sitr_stack itr) (sitr_depth itr)
                                 (mkSortedElem (selem_node elem) index);
              e ← frame elems index;
              above ← frame stack1 (sitr_depth itr + 1);
              stack2 ← set_frame stack1 (sitr_depth itr + 1)
                                 (mkSortedElem (Some (belem_node e)) (selem_index above));
              SortedMapIterator_first
                (mkSortedMapIterator (sitr_m itr) stack2 (sitr_depth itr + 1))
            else SortedMapIterator_next_loop fuel' up
        | None => SortedMapIterator_next_loop fuel' up
        end
      else Ok itr
  end.

Definition SortedMapIterator_next (itr : SortedMapIterator) : result SortedMapIterator :=
  SortedMapIterator_next_loop (Z.to_nat (sitr_depth itr + 1)) itr.

(** [prev] moves to the previous key. If no keys are before then depth is
    set to -1. *)
Fixpoint SortedMapIterator_prev_loop (fuel : nat) (itr : SortedMapIterator)
    : result SortedMapIterator :=
  match fuel with
  | O => Ok itr
  | S fuel' =>
      if sitr_depth itr >=? 0 then
        elem ← frame (sitr_stack itr) (sitr_depth itr);
        let up := mkSortedMapIterator (sitr_m itr) (sitr_stack itr) (sitr_depth itr - 1) in
        match selem_node elem with
        | Some (sortedMapLeafNode entries) =>
            if selem_index elem >? 0 then
              stack1 ← set_frame (sitr_stack itr) (sitr_depth itr)
                                 (mkSortedElem (selem_node elem) (selem_index elem - 1));
              Ok (mkSortedMapIterator (sitr_m itr) stack1 (sitr_depth itr))
            else SortedMapIterator_prev_loop fuel' up
        | Some (sortedMapBranchNode elems) =>
            if selem_index elem >? 0 then
              let index := selem_index elem - 1 in
              stack1 ← set_frame (sitr_stack itr) (sitr_depth itr)
                                 (mkSortedElem (selem_node elem) index);
              e ← frame elems index;
              above ← frame stack1 (sitr_depth itr + 1);
              stack2 ← set_frame stack1 (sitr_depth itr + 1)
                                 (mkSortedElem (Some (belem_node e)) (selem_index above));
              SortedMapIterator_last
                (mkSortedMapIterator (sitr_m itr) stack2 (sitr_depth itr + 1))
            else SortedMapIterator_prev_loop fuel' up
        | None => SortedMapIterator_prev_loop fuel' up
        end
      else Ok itr
  end.

Definition SortedMapIterator_prev (itr : SortedMapIterator) : result SortedMapIterator :=
  SortedMapIterator_prev_loop (Z.to_nat (sitr_depth itr + 1)) itr.

(** [seek] positions the stack to the given key from the current depth. *)
Fixpoint SortedMapIterator_seek_loop (fuel : nat) (itr : SortedMapIterator)
    (key : K) (c : Comparer) : result SortedMapIterator :=
  match fuel with
  | O => Panic RuntimeIndexOutOfRange
  | S fuel' =>
      elem ← frame (sitr_stack itr) (sitr_depth itr);
      match selem_node elem with
      | None => Panic NilDereference
      | Some node =>
          let index := sortedMapNode_indexOf node key c in
          stack1 ← set_frame (sitr_stack itr) (sitr_depth itr)
                             (mkSortedElem (Some node) index);
          match node with
          | sortedMapBranchNode elems =>
              e ← frame elems index;
              stack2 ← set_frame stack1 (sitr_depth itr + 1)
                                 (mkSortedElem (Some (belem_node e)) 0);
              SortedMapIterator_seek_loop fuel'
                (mkSortedMapIterator (sitr_m itr) stack2 (sitr_depth itr + 1)) key c
          | sortedMapLeafNode entries =>
              let itr1 := mkSortedMapIterator (sitr_m itr) stack1 (sitr_depth itr) in
              if index =? len entries then SortedMapIterator_next itr1
              else Ok itr1
          end
      end
  end.

Definition SortedMapIterator_seek (itr : SortedMapIterator) (key : K)
    : result SortedMapIterator :=
  match smap_comparer (sitr_m itr) with
  | Some c => SortedMapIterator_seek_loop 33 itr key c
  | None => Panic NilDereference
  end.

(** The stack reset shared by [First], [Last] and [Seek]: depth -1 for an
    empty map, the root in frame 0 otherwise. *)
Definition SortedMapIterator_reset (itr : SortedMapIterator)
    (position : SortedMapIterator → result SortedMapIterator)
    : result SortedMapIterator :=
  match smap_root (sitr_m itr) with
  | None => Ok (mkSortedMapIterator (sitr_m itr) (sitr_stack itr) (-1))
  | Some root =>
      stack1 ← set_frame (sitr_stack itr) 0 (mkSortedElem (Some root) 0);
      position (mkSortedMapIterator (sitr_m itr) stack1 0)
  end.

(** [First] moves the iterator to the first key/value pair. *)
Definition SortedMapIterator_First (itr : SortedMapIterator) : result SortedMapIterator :=
  SortedMapIterator_reset itr SortedMapIterator_first.

(** [Last] moves the iterator to the last key/value pair. *)
Definition SortedMapIterator_Last (itr : SortedMapIterator) : result SortedMapIterator :=
  SortedMapIterator_reset itr SortedMapIterator_last.

(** [Seek] moves the iterator position to the given key in the map. If the
    key does not exist then the next key is used. If no more keys exist
    then the iterator is marked as done. *)
Definition SortedMapIterator_Seek (itr : SortedMapIterator) (key : K)
    : result SortedMapIterator :=
  SortedMapIterator_reset itr (λ itr, SortedMapIterator_seek itr key).

Definition SortedMap_Iterator (m : SortedMap) : result SortedMapIterator :=
  SortedMapIterator_First
    (mkSortedMapIterator m (replicate 32 (mkSortedElem None 0)) 0).

(** The current key/value pair, read from the leaf on top of the stack. *)
Definition SortedMapIterator_current (itr : SortedMapIterator) : result (K * V) :=
  leafElem ← frame (sitr_stack itr) (sitr_depth itr);
  match selem_node leafElem with
  | Some (sortedMapLeafNode entries) =>
      leafEntry ← frame entries (selem_index leafElem);
      Ok (entry_key leafEntry, entry_value leafEntry)
  | Some (sortedMapBranchNode _) => Panic FailedTypeAssertion
  | None => Panic FailedTypeAssertion
  end.

(** [Next] returns the current key/value pair and moves the iterator
    forward; a nil key ([None]) if there are no more elements. *)
Definition SortedMapIterator_Next (itr : SortedMapIterator)
    : result (option (K * V) * SortedMapIterator) :=
  if SortedMapIterator_Done itr then Ok (None, itr)
  else
    cur ← SortedMapIterator_current itr;
    itr' ← SortedMapIterator_next itr;
    Ok (Some cur, itr').

(** [Prev] returns the current key/value pair and moves the iterator
    backward; a nil key ([None]) if there are no more elements. *)
Definition SortedMapIterator_Prev (itr : SortedMapIterator)
    : result (option (K * V) * SortedMapIterator) :=
  if SortedMapIterator_Done itr then Ok (None, itr)
  else
    cur ← SortedMapIterator_current itr;
    itr' ← SortedMapIterator_prev itr;
    Ok (Some cur, itr').

End SortedMapModel.

Arguments Comparer : clear implicits.
Arguments sortedMapNode : clear implicits.
Arguments SortedMap : clear implicits.
Arguments SortedMapIterator : clear implicits.
Arguments sortedMapIteratorElem : clear implicits.

(** * The built-in hashers and comparers *)

(** [hashUint64] returns a 32-bit hash for a 64-bit value. Every turn of
    its loop divides [value] by [0xffffffff]: it ends within one turn per
    bit of a [uint64]. *)
Fixpoint hashUint64_loop (fuel : nat) (value hash : Z) : Z :=
  match fuel with
  | O => hash
  | S fuel' =>
      if value >? 0xffffffff then
        let value := value / 0xffffffff in
        hashUint64_loop fuel' value (Z.lxor hash value)
      else hash
  end.

Definition hashUint64 (value : Z) : Z :=
  Z.land (hashUint64_loop 64 value value) 0xffffffff.

(** [intHasher] implements Hasher for int keys; [uint64(key)] wraps a
    negative key around. *)
Definition intHasher : Hasher Z :=
  mkHasher (λ key, hashUint64 (key `mod` 2 ^ 64)) Z.eqb.

(** The hash of [stringHasher] and [byteSliceHasher]:
    [hash = 31*hash + uint32(value[i])] in [uint32], byte after byte. *)
Definition hashBytes (value : list Z) : Z :=
  foldl (λ hash b, (31 * hash + b) `mod` 2 ^ 32) 0 value.

(** The bytes of a Go string. *)
Fixpoint string_bytes (s : String.string) : list Z :=
  match s with
  | String.EmptyString => []
  | String.String a s' => Z.of_N (Ascii.N_of_ascii a) :: string_bytes s'
  end.

(** [stringHasher] implements Hasher for string keys. *)
Definition stringHasher : Hasher String.string :=
  mkHasher (λ value, hashBytes (string_bytes value)) String.eqb.

(** [byteSliceHasher] implements Hasher for []byte keys, a byte being an
    8-bit [Z]; [Equal] is [bytes.Equal]. *)
Definition byteSliceHasher : Hasher (list Z) :=
  mkHasher hashBytes (λ a b, bool_decide (a = b)).

(** [intComparer] compares two integers. *)
Definition intComparer : Comparer Z :=
  mkComparer (λ i j, if i <? j then -1 else if i >? j then 1 else 0).

(** The [switch key.(type)] of [Map.Set] and of [SortedMap.Set] for keys
    of dynamic type [int]. *)
Definition intDefaultHasher : Z → option (Hasher Z) := λ _, Some intHasher.
Definition intDefaultComparer : Z → option (Comparer Z) := λ _, Some intComparer.

(** * Part II: proofs *)

Lemma OnesCount32_ones_below (bm : Z) : OnesCount32 bm = Z.of_nat (ones_below bm 32).
Proof. reflexivity. Qed.

#[global] Opaque OnesCount32.

(** ** The result monad and array access *)

Lemma bind_Ok {A B} (m : result A) (f : A → result B) (b : B) :
  m ≫= f = Ok b ↔ ∃ a, m = Ok a ∧ f a = Ok b.
Proof.
  destruct m as [a|p]; simpl; split.
  - intros H. exists a. done.
  - intros (a' & [= <-] & H). done.
  - discriminate.
  - intros (a' & [=] & _).
Qed.

Lemma at_index_lookup {A B} (f : A → B) (oob : B) (l : list A) (i : nat) :
  at_index f oob l i = match l !! i with Some x => f x | None => oob end.
Proof.
  revert i. induction l as [|x l IH]; intros [|i]; simpl; auto.
Qed.

Lemma frame_Ok {A} (stack : list A) (i : Z) (e : A) :
  frame stack i = Ok e ↔ 0 ≤ i ∧ stack !! Z.to_nat i = Some e.
Proof.
  unfold frame. destruct (Z.ltb_spec i 0).
  - split; [discriminate | lia].
  - destruct (stack !! Z.to_nat i) eqn:E; split.
    + intros [= ->]. done.
    + intros [_ [= ->]]. done.
    + discriminate.
    + intros [_ [=]].
Qed.

Lemma set_frame_Ok {A} (stack stack' : list A) (i : Z) (e : A) :
  set_frame stack i e = Ok stack' ↔
  0 ≤ i < len stack ∧ stack' = <[Z.to_nat i := e]> stack.
Proof.
  unfold set_frame, len.
  destruct (Z.ltb_spec i 0); destruct (Z.leb_spec (Z.of_nat (length stack)) i); simpl;
    split; try discriminate; try lia.
  - intros [= <-]. done.
  - intros [_ ->]. done.
Qed.

(** ** Induction over the nodes of the three trees *)

Section Induction.
Context {K V : Type}.

Lemma listNode_ind (P : listNode V → Prop) :
  (∀ d children,
      Forall (λ c, ∀ child, c = Some child → P child) children →
      P (listBranchNode d children)) →
  (∀ children, P (listLeafNode children)) →
  ∀ n, P n.
Proof.
  intros Hbranch Hleaf.
  fix IH 1. intros [d children|children].
  - apply Hbranch. induction children as [|[c|] children IHc].
    + constructor.
    + constructor; [|exact IHc]. intros child [= <-]. apply IH.
    + constructor; [|exact IHc]. intros child [=].
  - apply Hleaf.
Qed.

Lemma mapNode_ind (P : mapNode K V → Prop) :
  (∀ entries, P (mapArrayNode entries)) →
  (∀ bitmap nodes, Forall P nodes → P (mapBitmapIndexedNode bitmap nodes)) →
  (∀ count nodes,
      Forall (λ c, ∀ child, c = Some child → P child) nodes →
      P (mapHashArrayNode count nodes)) →
  (∀ keyHash key value, P (mapValueNode keyHash key value)) →
  (∀ keyHash entries, P (mapHashCollisionNode keyHash entries)) →
  ∀ n, P n.
Proof.
  intros Harr Hbm Hha Hval Hcol.
  fix IH 1. intros [entries|bitmap nodes|count nodes|keyHash key value|keyHash entries].
  - apply Harr.
  - apply Hbm. induction nodes as [|c nodes IHn].
    + constructor.
    + constructor; [apply IH | exact IHn].
  - apply Hha. induction nodes as [|[c|] nodes IHn].
    + constructor.
    + constructor; [|exact IHn]. intros child [= <-]. apply IH.
    + constructor; [|exact IHn]. intros child [=].
  - apply Hval.
  - apply Hcol.
Qed.

Lemma sortedMapNode_ind (P : sortedMapNode K V → Prop) :
  (∀ elems, Forall (λ e, P (belem_node e)) elems → P (sortedMapBranchNode elems)) →
  (∀ entries, P (sortedMapLeafNode entries)) →
  ∀ n, P n.
Proof.
  intros Hbranch Hleaf.
  fix IH 1. intros [elems|entries].
  - apply Hbranch. induction elems as [|[k c] elems IHe].
    + constructor.
    + constructor; [apply IH | exact IHe].
  - apply Hleaf.
Qed.
End Induction.

(** ** Deleting an absent key hands back the receiver *)

Section Absent.
Context {K V : Type}.

Lemma mapNode_delete_absent (n : mapNode K V) key shift keyHash h :
  mapNode_get n key shift keyHash h = Ok None →
  mapNode_delete n key shift keyHash h = Ok Receiver.
Proof.
  revert shift. induction n as [entries|bitmap nodes IH|count nodes IH|kh k v|kh entries]
    using mapNode_ind; intros shift; simpl.
  - destruct (_ =? -1); [done|].
    unfold mapEntries_value. destruct (entries !! _); discriminate.
  - destruct (_ =? 0); [done|].
    rewrite !at_index_lookup.
    destruct (nodes !! _) as [child|] eqn:E; [|discriminate].
    intros Hget. rewrite Forall_lookup in IH.
    rewrite (IH _ _ E _ Hget). done.
  - rewrite !at_index_lookup.
    destruct (nodes !! _) as [[child|]|] eqn:E; [| done | discriminate].
    intros Hget. rewrite Forall_lookup in IH.
    rewrite (IH _ _ E child eq_refl _ Hget). done.
  - destruct (Equal h k key); simpl; [discriminate | done].
  - destruct (_ =? -1); [done|].
    unfold mapEntries_value. destruct (entries !! _); discriminate.
Qed.

Lemma sortedMapNode_delete_absent (n : sortedMapNode K V) key c :
  sortedMapNode_get n key c = Ok None →
  sortedMapNode_delete n key c = Ok Receiver.
Proof.
  induction n as [elems IH|entries] using sortedMapNode_ind; simpl.
  - rewrite !at_index_lookup.
    destruct (elems !! _) as [[k child]|] eqn:E; [|discriminate].
    intros Hget. rewrite Forall_lookup in IH.
    specialize (IH _ _ E Hget). simpl in IH. rewrite IH. done.
  - destruct (entries !! _) as [e|]; [|done].
    destruct (Compare c (entry_key e) key =? 0); simpl; [discriminate | done].
Qed.
End Absent.

(** ** Slices *)

Section Slices.
Context {A : Type}.
Implicit Types (l : list A).

Lemma elem_of_insert_inv l (i : nat) (x y : A) : y ∈ <[i:=x]> l → y ∈ l ∨ y = x.
Proof.
  intros [j Hj]%list_elem_of_lookup.
  destruct (decide (i = j)) as [->|Hne].
  - destruct (decide (j < length l)%nat).
    + rewrite list_lookup_insert_eq in Hj by done. right. congruence.
    + rewrite list_insert_ge in Hj by lia. left. by eapply list_elem_of_lookup_2.
  - rewrite list_lookup_insert_ne in Hj by done. left. by eapply list_elem_of_lookup_2.
Qed.

Lemma elem_of_remove_at l (i : nat) (y : A) : y ∈ remove_at i l → y ∈ l.
Proof.
  unfold remove_at. intros [Hy|Hy]%elem_of_app.
  - apply elem_of_take in Hy as (j & Hj & _). by eapply list_elem_of_lookup_2.
  - apply list_elem_of_lookup in Hy as [j Hj]. rewrite lookup_drop in Hj.
    by eapply list_elem_of_lookup_2.
Qed.
End Slices.

(** ** Bitmaps: population counts and packed children *)

Lemma ones_below_le (bm : Z) (i j : nat) : (i ≤ j)%nat → (ones_below bm i ≤ ones_below bm j)%nat.
Proof.
  induction 1 as [|j Hle IH]; [done|]. simpl. lia.
Qed.

Lemma ones_below_lt (bm : Z) (i j : nat) :
  (i < j)%nat → Z.testbit bm (Z.of_nat i) = true → (ones_below bm i < ones_below bm j)%nat.
Proof.
  intros Hlt Hbit. pose proof (ones_below_le bm (S i) j Hlt) as Hle.
  simpl in Hle. rewrite Hbit in Hle. lia.
Qed.

Lemma ones_below_bound (bm : Z) (i : nat) : (ones_below bm i ≤ i)%nat.
Proof. induction i as [|i IH]; simpl; [done|]. destruct (Z.testbit _ _); lia. Qed.

(** Bits below [i] only. *)
Lemma ones_below_ext (bm bm' : Z) (i : nat) :
  (∀ j, (j < i)%nat → Z.testbit bm (Z.of_nat j) = Z.testbit bm' (Z.of_nat j)) →
  ones_below bm i = ones_below bm' i.
Proof.
  induction i as [|i IH]; intros Hext; [done|]. simpl.
  rewrite IH, Hext by (intros; try apply Hext; lia). done.
Qed.

Lemma testbit_bit (i j : nat) :
  Z.testbit (Z.shiftl 1 (Z.of_nat i)) (Z.of_nat j) = bool_decide (i = j).
Proof.
  rewrite Z.shiftl_1_l, Z.pow2_bits_eqb by lia.
  case_bool_decide; [apply Z.eqb_eq | apply Z.eqb_neq]; lia.
Qed.

Lemma ones_below_below_bit (bm : Z) (i : nat) :
  ones_below (Z.land bm (Z.shiftl 1 (Z.of_nat i) - 1)) 32 = ones_below bm (Nat.min i 32).
Proof.
  assert (Hgen : ∀ n, ones_below (Z.land bm (Z.shiftl 1 (Z.of_nat i) - 1)) n = ones_below bm (Nat.min i n)).
  { induction n as [|n IH]; [by rewrite Nat.min_0_r|].
    simpl. rewrite IH, Z.land_spec.
    rewrite Z.shiftl_1_l, Z.sub_1_r, <-Z.ones_equiv.
    destruct (decide (n < i)%nat).
    - rewrite Z.ones_spec_low by lia. rewrite andb_true_r.
      replace (Nat.min i (S n)) with (S n) by lia.
      replace (Nat.min i n) with n by lia. done.
    - rewrite Z.ones_spec_high by lia. rewrite andb_false_r.
      replace (Nat.min i (S n)) with i by lia.
      replace (Nat.min i n) with i by lia. lia. }
  apply Hgen.
Qed.

Lemma ones_below_lor_bit (bm : Z) (i j : nat) :
  Z.testbit bm (Z.of_nat i) = false →
  ones_below (Z.lor bm (Z.shiftl 1 (Z.of_nat i))) j
  = (ones_below bm j + if decide (i < j)%nat then 1 else 0)%nat.
Proof.
  intros Hbit. induction j as [|j IH]; [done|].
  simpl. rewrite IH, Z.lor_spec, testbit_bit.
  destruct (decide (i = j)) as [->|Hne].
  - rewrite Hbit, bool_decide_eq_true_2 by done. simpl.
    repeat case_decide; lia.
  - rewrite bool_decide_eq_false_2, orb_false_r by done.
    repeat case_decide; lia.
Qed.

Lemma ones_below_lxor_bit (bm : Z) (i j : nat) :
  Z.testbit bm (Z.of_nat i) = true →
  (ones_below (Z.lxor bm (Z.shiftl 1 (Z.of_nat i))) j + if decide (i < j)%nat then 1 else 0)%nat
  = ones_below bm j.
Proof.
  intros Hbit. induction j as [|j IH]; [done|].
  simpl. rewrite Z.lxor_spec, testbit_bit.
  destruct (decide (i = j)) as [->|Hne].
  - rewrite Hbit, bool_decide_eq_true_2 by done. simpl.
    repeat case_decide; lia.
  - rewrite bool_decide_eq_false_2, xorb_false_r by done.
    repeat case_decide; lia.
Qed.

(** The tests and the index that the bitmap node computes. *)
Lemma land_bit_eqb (bm : Z) (i : nat) :
  (Z.land bm (Z.shiftl 1 (Z.of_nat i)) =? 0) = negb (Z.testbit bm (Z.of_nat i)).
Proof.
  destruct (Z.testbit bm (Z.of_nat i)) eqn:Hbit; simpl.
  - apply Z.eqb_neq. intros Hz.
    assert (Z.testbit (Z.land bm (Z.shiftl 1 (Z.of_nat i))) (Z.of_nat i) = false) as Hf
      by (rewrite Hz; apply Z.bits_0).
    rewrite Z.land_spec, Hbit, testbit_bit, bool_decide_eq_true_2 in Hf by done. done.
  - apply Z.eqb_eq, Z.bits_inj'. intros n Hn.
    rewrite Z.land_spec, Z.bits_0.
    replace n with (Z.of_nat (Z.to_nat n)) by lia.
    rewrite testbit_bit. case_bool_decide as Heq; [|apply andb_false_r].
    rewrite <-Heq, Hbit. done.
Qed.

Lemma OnesCount32_below_bit (bm : Z) (i : nat) :
  (i < 32)%nat →
  Z.to_nat (OnesCount32 (Z.land bm (Z.shiftl 1 (Z.of_nat i) - 1))) = ones_below bm i.
Proof.
  intros Hi. rewrite OnesCount32_ones_below, Nat2Z.id, ones_below_below_bit.
  by replace (Nat.min i 32) with i by lia.
Qed.

Lemma mapFrag_range (keyHash shift : Z) : 0 ≤ mapFrag keyHash shift < 32.
Proof.
  unfold mapFrag. change mapNodeMask with (Z.ones 5).
  rewrite Z.land_ones by lia. apply Z.mod_pos_bound. lia.
Qed.

Lemma listFrag_range (index d : Z) : 0 ≤ listFrag index d < 32.
Proof.
  unfold listFrag. change listNodeMask with (Z.ones 5).
  rewrite Z.land_ones by lia. apply Z.mod_pos_bound. lia.
Qed.

Section Packed.
Context {A : Type}.

(** The child that a bitmap and its packed array hold for fragment [i]. *)
Definition bitmap_child (bm : Z) (nodes : list A) (i : nat) : option A :=
  if Z.testbit bm (Z.of_nat i) then nodes !! ones_below bm i else None.

Lemma bitmap_child_splice (bm : Z) (nodes : list A) (i j : nat) (x : A) :
  Z.testbit bm (Z.of_nat i) = false →
  (ones_below bm i ≤ length nodes)%nat →
  bitmap_child (Z.lor bm (Z.shiftl 1 (Z.of_nat i))) (splice (ones_below bm i) x nodes) j
  = if decide (j = i) then Some x else bitmap_child bm nodes j.
Proof.
  intros Hbit Hlen. unfold bitmap_child, splice.
  rewrite Z.lor_spec, testbit_bit, ones_below_lor_bit by done.
  destruct (decide (j = i)) as [->|Hji].
  - rewrite bool_decide_eq_true_2, orb_true_r by done.
    rewrite decide_False, Nat.add_0_r by lia.
    rewrite lookup_app_r by (rewrite length_take; lia).
    rewrite length_take. replace (ones_below bm i - _)%nat with 0%nat by lia. done.
  - rewrite bool_decide_eq_false_2, orb_false_r by done.
    destruct (Z.testbit bm (Z.of_nat j)) eqn:Hbj; [|done].
    case_decide as Hlt.
    + pose proof (ones_below_le bm i j ltac:(lia)).
      rewrite lookup_app_r by (rewrite length_take; lia).
      rewrite length_take.
      replace (ones_below bm j + 1 - _)%nat with (S (ones_below bm j - ones_below bm i)) by lia.
      simpl. rewrite lookup_drop. f_equal. lia.
    + pose proof (ones_below_lt bm j i ltac:(lia) Hbj).
      rewrite Nat.add_0_r, lookup_app_l by (rewrite length_take; lia).
      rewrite lookup_take_lt by lia. done.
Qed.

Lemma bitmap_child_insert (bm : Z) (nodes : list A) (i j : nat) (x : A) :
  Z.testbit bm (Z.of_nat i) = true →
  (ones_below bm i < length nodes)%nat →
  bitmap_child bm (<[ones_below bm i := x]> nodes) j
  = if decide (j = i) then Some x else bitmap_child bm nodes j.
Proof.
  intros Hbit Hlen. unfold bitmap_child.
  destruct (decide (j = i)) as [->|Hji].
  - rewrite Hbit. by apply list_lookup_insert_eq.
  - destruct (Z.testbit bm (Z.of_nat j)) eqn:Hbj; [|done].
    apply list_lookup_insert_ne.
    destruct (decide (i < j)%nat).
    + pose proof (ones_below_lt bm i j ltac:(lia) Hbit). lia.
    + pose proof (ones_below_lt bm j i ltac:(lia) Hbj). lia.
Qed.

Lemma bitmap_child_remove (bm : Z) (nodes : list A) (i j : nat) :
  Z.testbit bm (Z.of_nat i) = true →
  bitmap_child (Z.lxor bm (Z.shiftl 1 (Z.of_nat i))) (remove_at (ones_below bm i) nodes) j
  = if decide (j = i) then None else bitmap_child bm nodes j.
Proof.
  intros Hbit. unfold bitmap_child, remove_at.
  rewrite Z.lxor_spec, testbit_bit.
  pose proof (ones_below_lxor_bit bm i j Hbit) as Hr.
  destruct (decide (j = i)) as [->|Hji].
  - rewrite Hbit, bool_decide_eq_true_2 by done. done.
  - rewrite bool_decide_eq_false_2, xorb_false_r by done.
    destruct (Z.testbit bm (Z.of_nat j)) eqn:Hbj; [|done].
    case_decide as Hlt.
    + pose proof (ones_below_lt bm i j ltac:(lia) Hbit).
      destruct (decide (ones_below bm i ≤ length nodes)%nat).
      * rewrite lookup_app_r by (rewrite length_take; lia).
        rewrite length_take, lookup_drop. f_equal. lia.
      * rewrite take_ge, drop_ge by lia. rewrite app_nil_r.
        rewrite !lookup_ge_None_2 by lia. done.
    + pose proof (ones_below_lt bm j i ltac:(lia) Hbj).
      rewrite Nat.add_0_r in Hr. rewrite Hr.
      destruct (decide (ones_below bm j < length nodes)%nat).
      * rewrite lookup_app_l by (rewrite length_take; lia).
        by rewrite lookup_take_lt by lia.
      * rewrite take_ge, drop_ge by lia. rewrite app_nil_r. done.
Qed.

Lemma length_splice (i : nat) (x : A) (s : list A) :
  length (splice i x s) = S (length s).
Proof.
  unfold splice. rewrite length_app. simpl. rewrite length_take, length_drop. lia.
Qed.

Lemma length_remove_at (i : nat) (s : list A) :
  (i < length s)%nat → length (remove_at i s) = (length s - 1)%nat.
Proof.
  intros Hi. unfold remove_at. rewrite length_app, length_take, length_drop. lia.
Qed.
End Packed.

(** ** Map: entries of array and collision nodes *)

Section Entries.
Context {K V : Type} (h : Hasher K).
Implicit Types (entries : list (mapEntry K V)) (key : K).

(** The position of the first entry whose key equals [key]. *)
Fixpoint entries_pos entries key : option nat :=
  match entries with
  | [] => None
  | e :: entries' =>
      if Equal h (entry_key e) key then Some O
      else S <$> entries_pos entries' key
  end.

(** The value of the first entry whose key equals [key]. *)
Definition entries_find entries key : option V :=
  i ← entries_pos entries key; entry_value <$> entries !! i.

Lemma indexOf_from_pos i entries key :
  mapEntries_indexOf_from i entries key h
  = match entries_pos entries key with
    | Some n => i + Z.of_nat n
    | None => -1
    end.
Proof.
  revert i. induction entries as [|e entries IH]; intros i; simpl; [done|].
  destruct (Equal h (entry_key e) key); [lia|].
  rewrite IH. destruct (entries_pos entries key); simpl; lia.
Qed.

Lemma indexOf_pos entries key :
  mapEntries_indexOf entries key h
  = match entries_pos entries key with
    | Some n => Z.of_nat n
    | None => -1
    end.
Proof.
  unfold mapEntries_indexOf. rewrite indexOf_from_pos.
  destruct (entries_pos entries key); lia.
Qed.

Lemma entries_pos_Some entries key n :
  entries_pos entries key = Some n →
  ∃ e, entries !! n = Some e ∧ Equal h (entry_key e) key = true.
Proof.
  revert n. induction entries as [|e entries IH]; intros n; simpl; [done|].
  destruct (Equal h (entry_key e) key) eqn:Heq.
  - intros [= <-]. eauto.
  - destruct (entries_pos entries key) as [m|]; simpl; [|done].
    intros [= <-]. apply (IH m eq_refl).
Qed.

Lemma entries_pos_None entries key e :
  entries_pos entries key = None → e ∈ entries → Equal h (entry_key e) key = false.
Proof.
  induction entries as [|e' entries IH]; simpl; [by intros _ ?%elem_of_nil|].
  destruct (Equal h (entry_key e') key) eqn:Heq; [done|].
  destruct (entries_pos entries key); simpl; [done|].
  intros _ [->|?]%elem_of_cons; auto.
Qed.

(** What [get] computes on an array node and on a collision node. *)
Lemma entries_get entries key :
  (let i := mapEntries_indexOf entries key h in
   if i =? -1 then Ok None else mapEntries_value entries i)
  = Ok (entries_find entries key).
Proof.
  simpl. rewrite indexOf_pos. unfold entries_find, mapEntries_value.
  destruct (entries_pos entries key) as [n|] eqn:Hpos; simpl; [|done].
  destruct (Z.eqb_spec (Z.of_nat n) (-1)); [lia|].
  rewrite Nat2Z.id.
  destruct (entries_pos_Some _ _ _ Hpos) as (e & -> & _). done.
Qed.

Lemma entries_find_None entries key e :
  entries_find entries key = None → e ∈ entries → Equal h (entry_key e) key = false.
Proof.
  unfold entries_find. destruct (entries_pos entries key) as [n|] eqn:Hpos; simpl.
  - destruct (entries_pos_Some _ _ _ Hpos) as (e' & -> & _). done.
  - intros _. by apply entries_pos_None.
Qed.

Lemma entries_find_Some entries key v :
  entries_find entries key = Some v →
  ∃ e, e ∈ entries ∧ Equal h (entry_key e) key = true.
Proof.
  unfold entries_find. destruct (entries_pos entries key) as [n|] eqn:Hpos; simpl; [|done].
  destruct (entries_pos_Some _ _ _ Hpos) as (e & He & Heq).
  intros _. exists e. split; [|done]. by eapply list_elem_of_lookup_2.
Qed.

(** Overwriting the entry found for [key]. *)
Lemma entries_find_insert_same entries key n v :
  Equal h key key = true →
  entries_pos entries key = Some n →
  entries_find (<[n := mkEntry key v]> entries) key = Some v.
Proof.
  intros Hrefl. unfold entries_find.
  revert n. induction entries as [|e entries IH]; intros n; simpl; [done|].
  destruct (Equal h (entry_key e) key) eqn:Heq.
  - intros [= <-]. simpl. rewrite Hrefl. done.
  - destruct (entries_pos entries key) as [m|]; simpl; [|done].
    intros [= <-]. simpl. rewrite Heq. specialize (IH m eq_refl).
    destruct (entries_pos (<[m:=_]> entries) key); simpl in *; done.
Qed.

Lemma entries_find_app_same entries key v :
  Equal h key key = true →
  entries_pos entries key = None →
  entries_find (entries ++ [mkEntry key v]) key = Some v.
Proof.
  intros Hrefl. unfold entries_find.
  induction entries as [|e entries IH]; simpl.
  - rewrite Hrefl. done.
  - destruct (Equal h (entry_key e) key) eqn:Heq; [done|].
    destruct (entries_pos entries key) as [m|]; simpl; [done|].
    intros _. specialize (IH eq_refl).
    destruct (entries_pos (entries ++ _) key); simpl in *; done.
Qed.

(** Overwriting or appending an entry for a different key. *)
Lemma entries_find_insert_other entries key key' n e v :
  entries !! n = Some e →
  Equal h (entry_key e) key = false →
  Equal h key' key = false →
  entries_find (<[n := mkEntry key' v]> entries) key = entries_find entries key.
Proof.
  intros He Hne Hne'. unfold entries_find.
  revert n He. induction entries as [|e0 entries IH]; intros n He; [done|].
  destruct n as [|n]; simpl in *.
  - injection He as ->. rewrite Hne, Hne'.
    destruct (entries_pos entries key); done.
  - destruct (Equal h (entry_key e0) key); [done|].
    specialize (IH n He).
    destruct (entries_pos (<[n:=_]> entries) key), (entries_pos entries key);
      simpl in *; done.
Qed.

Lemma entries_find_app_other entries key key' v :
  Equal h key' key = false →
  entries_find (entries ++ [mkEntry key' v]) key = entries_find entries key.
Proof.
  intros Hne. unfold entries_find.
  induction entries as [|e entries IH]; simpl.
  - rewrite Hne. done.
  - destruct (Equal h (entry_key e) key); [done|].
    destruct (entries_pos (entries ++ _) key), (entries_pos entries key);
      simpl in *; done.
Qed.
End Entries.

(** ** Map: the loops over the 32 fragments *)

Lemma ones_below_0 (n : nat) : ones_below 0 n = 0%nat.
Proof. induction n as [|n IH]; simpl; [done|]. rewrite IH, Z.bits_0. done. Qed.

Lemma ones_below_bit (i n : nat) :
  ones_below (Z.shiftl 1 (Z.of_nat i)) n = if decide (i < n)%nat then 1%nat else 0%nat.
Proof.
  rewrite <-(Z.lor_0_l (Z.shiftl 1 _)), ones_below_lor_bit by apply Z.bits_0.
  rewrite ones_below_0. done.
Qed.

Lemma lor_bit_set (bm : Z) (i : nat) :
  Z.testbit bm (Z.of_nat i) = true → Z.lor bm (Z.shiftl 1 (Z.of_nat i)) = bm.
Proof.
  intros Hbit. apply Z.bits_inj'. intros n Hn.
  rewrite Z.lor_spec. replace n with (Z.of_nat (Z.to_nat n)) by lia.
  rewrite testbit_bit. case_bool_decide as Heq; [|apply orb_false_r].
  rewrite <-Heq, Hbit. done.
Qed.

Section Loops.
Context {K V : Type}.
Implicit Types (nodes : list (mapNode K V)) (slots : list (option (mapNode K V))).

Lemma mapBitmapIndexedNode_expand_spec bm nodes :
  length nodes = ones_below bm 32 →
  ∃ slots,
    mapBitmapIndexedNode_expand bm nodes = Ok (slots, Z.of_nat (ones_below bm 32))
    ∧ length slots = 32%nat
    ∧ ∀ i, (i < 32)%nat → slots !! i = Some (bitmap_child bm nodes i).
Proof.
  intros Hlen. unfold mapBitmapIndexedNode_expand.
  assert (Hgen : ∀ n, (n ≤ 32)%nat →
    ∃ slots,
      foldl (λ acc i,
           '(slots, count) ← acc;
           if negb (Z.land bm (Z.shiftl 1 (Z.of_nat i)) =? 0) then
             match nodes !! Z.to_nat count with
             | Some node => Ok (<[i := Some node]> slots, count + 1)
             | None => Panic RuntimeIndexOutOfRange
             end
           else Ok (slots, count))
        (Ok (empty_slots, 0)) (seq 0 n) = Ok (slots, Z.of_nat (ones_below bm n))
      ∧ length slots = 32%nat
      ∧ ∀ i, (i < 32)%nat →
          slots !! i = Some (if decide (i < n)%nat then bitmap_child bm nodes i else None)).
  { induction n as [|n IH]; intros Hn.
    - exists empty_slots. split; [done|]. split; [done|].
      intros i Hi. unfold empty_slots. rewrite lookup_replicate_2 by lia. done.
    - destruct IH as (slots & Hfold & Hslots & Hlook); [lia|].
      rewrite seq_S, foldl_app, Hfold. simpl.
      rewrite land_bit_eqb, negb_involutive, Nat2Z.id.
      destruct (Z.testbit bm (Z.of_nat n)) eqn:Hbit.
      + pose proof (ones_below_lt bm n 32 ltac:(lia) Hbit) as Hlt.
        destruct (lookup_lt_is_Some_2 nodes (ones_below bm n)) as [node Hnode]; [lia|].
        rewrite Hnode. eexists. split; [f_equal; f_equal; lia|].
        split; [by rewrite length_insert|].
        intros i Hi. destruct (decide (i = n)) as [->|Hne].
        * rewrite list_lookup_insert_eq by lia. rewrite decide_True by lia.
          unfold bitmap_child. rewrite Hbit, Hnode. done.
        * rewrite list_lookup_insert_ne, Hlook by done.
          repeat case_decide; try lia; done.
      + exists slots. split; [f_equal; f_equal; lia|]. split; [done|].
        intros i Hi. rewrite Hlook by done.
        destruct (decide (i = n)) as [->|Hne].
        * rewrite decide_False, decide_True by lia.
          unfold bitmap_child. rewrite Hbit. done.
        * repeat case_decide; try lia; done. }
  destruct (Hgen 32%nat) as (slots & Hfold & Hslots & Hlook); [lia|].
  exists slots. split; [done|]. split; [done|].
  intros i Hi. rewrite Hlook, decide_True by lia. done.
Qed.

Lemma splice_end {A} (x : A) (s : list A) : splice (length s) x s = s ++ [x].
Proof. unfold splice. by rewrite take_ge, drop_ge by lia. Qed.

Lemma ones_below_high bm (n m : nat) :
  (∀ j, (n ≤ j)%nat → Z.testbit bm (Z.of_nat j) = false) →
  (n ≤ m)%nat → ones_below bm m = ones_below bm n.
Proof.
  intros Hhigh. induction 1 as [|m Hle IH]; [done|].
  simpl. rewrite IH, Hhigh by lia. lia.
Qed.

Lemma mapHashArrayNode_pack_spec (idx : nat) slots :
  (length slots ≤ 32)%nat →
  ∃ bm packed,
    mapHashArrayNode_pack (Z.of_nat idx) slots = (bm, packed)
    ∧ length packed = ones_below bm 32
    ∧ ∀ i, bitmap_child bm packed i
           = if decide (i = idx) then None else mjoin (slots !! i).
Proof.
  intros Hlen32.
  cut (∃ bm packed,
    mapHashArrayNode_pack (Z.of_nat idx) slots = (bm, packed)
    ∧ (∀ j, (length slots ≤ j)%nat → Z.testbit bm (Z.of_nat j) = false)
    ∧ length packed = ones_below bm (length slots)
    ∧ ∀ i, bitmap_child bm packed i
           = if decide (i = idx) then None else mjoin (slots !! i)).
  { intros (bm & packed & Hfold & Hhigh & Hpacked & Hchild).
    exists bm, packed. split; [done|]. split; [|done].
    rewrite Hpacked. symmetry. by apply ones_below_high. }
  clear Hlen32. unfold mapHashArrayNode_pack.
  induction slots as [|c slots IH] using rev_ind.
  - exists 0, []. split; [done|]. split; [intros; apply Z.bits_0|].
    split; [done|].
    intros i. unfold bitmap_child. rewrite Z.bits_0. by case_decide.
  - destruct IH as (bm & packed & Hfold & Hhigh & Hpacked & Hchild).
    rewrite imap_app, foldl_app, Hfold. simpl. rewrite Nat.add_0_r.
    rewrite length_app. simpl.
    set (n := length slots) in *.
    assert (Hother : ∀ i, i ≠ n → (slots ++ [c]) !! i = slots !! i).
    { intros i Hi. destruct (decide (i < n)%nat).
      - by rewrite lookup_app_l.
      - rewrite !lookup_ge_None_2; [done|lia|]. rewrite length_app. simpl. lia. }
    assert (Hn : (slots ++ [c]) !! n = Some c).
    { rewrite lookup_app_r by done. by rewrite Nat.sub_diag. }
    assert (Hkeep :
      (∀ j, (n + 1 ≤ j)%nat → Z.testbit bm (Z.of_nat j) = false)
      ∧ length packed = ones_below bm (n + 1)
      ∧ ∀ i, i ≠ n → bitmap_child bm packed i
             = if decide (i = idx) then None else mjoin ((slots ++ [c]) !! i)).
    { split; [intros; apply Hhigh; lia|]. split.
      - rewrite Nat.add_1_r. simpl. rewrite Hhigh by done. lia.
      - intros i Hi. rewrite Hother by done. apply Hchild. }
    assert (Hbmn : bitmap_child bm packed n = None).
    { unfold bitmap_child. by rewrite Hhigh. }
    destruct c as [child|];
      [destruct (Z.eqb_spec (Z.of_nat n) (Z.of_nat idx)) as [Heq|Hne]|]; simpl.
    + exists bm; exists packed. destruct Hkeep as (Hk1 & Hk2 & Hk).
      split; [done|]. split; [exact Hk1|]. split; [exact Hk2|].
      intros i. destruct (decide (i = n)) as [->|]; [|by apply Hk].
      rewrite Hbmn, decide_True by lia. done.
    + eexists _, _. split; [done|]. split; [|split].
      * intros j Hj. rewrite Z.lor_spec, testbit_bit, Hhigh by lia.
        rewrite bool_decide_eq_false_2 by lia. done.
      * rewrite length_app. simpl.
        rewrite ones_below_lor_bit by (apply Hhigh; lia).
        rewrite decide_True by lia.
        destruct Hkeep as (_ & <- & _). done.
      * intros i. rewrite <-splice_end, Hpacked.
        rewrite bitmap_child_splice by (try apply Hhigh; lia).
        destruct (decide (i = n)) as [->|Hi].
        -- rewrite Hn, decide_False by lia. done.
        -- destruct Hkeep as (_ & _ & Hk). by apply Hk.
    + exists bm; exists packed. destruct Hkeep as (Hk1 & Hk2 & Hk).
      split; [done|]. split; [exact Hk1|]. split; [exact Hk2|].
      intros i. destruct (decide (i = n)) as [->|]; [|by apply Hk].
      rewrite Hbmn, Hn. by case_decide.
Qed.
End Loops.

#[global] Opaque mapBitmapIndexedNode_expand mapHashArrayNode_pack ones_below.

(** ** Map: well-formed tries *)

Lemma mapFrag_div (kh s : Z) : 0 ≤ s → mapFrag kh s = (kh `div` 2 ^ s) `mod` 32.
Proof.
  intros Hs. unfold mapFrag. change mapNodeMask with (Z.ones 5).
  rewrite Z.land_ones, Z.shiftr_div_pow2 by lia. done.
Qed.

(** The low [s + 5] bits of a hash: its low [s] bits and its fragment at [s]. *)
Lemma hash_prefix_split (kh s : Z) :
  0 ≤ s → kh `mod` 2 ^ (s + 5) = kh `mod` 2 ^ s + 2 ^ s * mapFrag kh s.
Proof.
  intros Hs. rewrite mapFrag_div, Z.pow_add_r by lia.
  change (2 ^ 5) with 32. apply Z.rem_mul_r; lia.
Qed.

Lemma mapFrag_nat (kh s : Z) : Z.of_nat (Z.to_nat (mapFrag kh s)) = mapFrag kh s.
Proof. pose proof (mapFrag_range kh s). lia. Qed.

Lemma mapFrag_nat_lt (kh s : Z) : (Z.to_nat (mapFrag kh s) < 32)%nat.
Proof. pose proof (mapFrag_range kh s). lia. Qed.

(** Name the fragment of [kh] at [s] as a [nat] below 32. *)
Ltac name_frag kh s f :=
  let Hf := fresh "Hf" in
  let Hf32 := fresh "Hf32" in
  pose proof (mapFrag_nat kh s) as Hf;
  pose proof (mapFrag_nat_lt kh s) as Hf32;
  set (f := Z.to_nat (mapFrag kh s)) in *;
  rewrite <-Hf; clearbody f; clear Hf.

Section Trie.
Context {K V : Type} (h : Hasher K).
Implicit Types (n child node : mapNode K V) (key : K) (value : V).
Implicit Types (nodes : list (mapNode K V)) (entries : list (mapEntry K V)).
Implicit Types (slots : list (option (mapNode K V))).

(** What the package asks of a [Hasher]: [Equal] is an equivalence
    relation, [Hash] is a [uint32] and agrees on equal keys. *)
Record Hasher_ok : Prop := {
  hash_range : ∀ a, 0 ≤ Hash h a < 2 ^ 32;
  equal_refl : ∀ a, Equal h a a = true;
  equal_sym : ∀ a b, Equal h a b = true → Equal h b a = true;
  equal_trans : ∀ a b c, Equal h a b = true → Equal h b c = true → Equal h a c = true;
  hash_equal : ∀ a b, Equal h a b = true → Hash h a = Hash h b
}.

(** [trie_wf s p n]: node [n] sits at shift [s] below the hash prefix [p];
    every key hash stored below it has [p] as its low [s] bits, and each
    branch holds its children at the slots their fragments select. *)
Inductive trie_wf : Z → Z → mapNode K V → Prop :=
| trie_wf_value s p k v :
    Hash h k `mod` 2 ^ s = p →
    trie_wf s p (mapValueNode (Hash h k) k v)
| trie_wf_collision s p kh entries :
    (∀ e, e ∈ entries → Hash h (entry_key e) = kh) →
    0 ≤ kh < 2 ^ 32 →
    kh `mod` 2 ^ s = p →
    trie_wf s p (mapHashCollisionNode kh entries)
| trie_wf_bitmap s p bm nodes :
    length nodes = ones_below bm 32 →
    (∀ i child, (i < 32)%nat → bitmap_child bm nodes i = Some child →
                trie_wf (s + 5) (p + 2 ^ s * Z.of_nat i) child) →
    trie_wf s p (mapBitmapIndexedNode bm nodes)
| trie_wf_hasharray s p count slots :
    length slots = 32%nat →
    (∀ i child, slots !! i = Some (Some child) →
                trie_wf (s + 5) (p + 2 ^ s * Z.of_nat i) child) →
    trie_wf s p (mapHashArrayNode count slots).

(** ** One step of [get], [set] and [delete] at a branch *)

Lemma mapNode_get_bitmap bm nodes key s kh :
  mapNode_get (mapBitmapIndexedNode bm nodes) key s kh h
  = let f := Z.to_nat (mapFrag kh s) in
    if Z.testbit bm (Z.of_nat f) then
      match nodes !! ones_below bm f with
      | Some child => mapNode_get child key (s + 5) kh h
      | None => Panic RuntimeIndexOutOfRange
      end
    else Ok None.
Proof.
  simpl. name_frag kh s f.
  rewrite at_index_lookup, land_bit_eqb, OnesCount32_below_bit by done.
  by destruct (Z.testbit _ _).
Qed.

Lemma bitmap_child_is_Some bm nodes (i : nat) :
  length nodes = ones_below bm 32 → (i < 32)%nat →
  Z.testbit bm (Z.of_nat i) = true →
  ∃ child, nodes !! ones_below bm i = Some child ∧ bitmap_child bm nodes i = Some child.
Proof.
  intros Hlen Hi Hbit. pose proof (ones_below_lt bm i 32 Hi Hbit) as Hlt.
  destruct (lookup_lt_is_Some_2 nodes (ones_below bm i)) as [child Hchild]; [lia|].
  exists child. split; [done|]. unfold bitmap_child. by rewrite Hbit.
Qed.

(** [get] at a bitmap branch whose packed array matches its bitmap. *)
Lemma mapNode_get_bitmap_child bm nodes key s kh :
  length nodes = ones_below bm 32 →
  mapNode_get (mapBitmapIndexedNode bm nodes) key s kh h
  = match bitmap_child bm nodes (Z.to_nat (mapFrag kh s)) with
    | Some child => mapNode_get child key (s + 5) kh h
    | None => Ok None
    end.
Proof.
  intros Hlen. rewrite mapNode_get_bitmap. cbv zeta.
  pose proof (mapFrag_nat_lt kh s) as Hf.
  destruct (Z.testbit bm _) eqn:Hbit.
  - destruct (bitmap_child_is_Some _ _ _ Hlen Hf Hbit) as (child & -> & ->). done.
  - unfold bitmap_child. by rewrite Hbit.
Qed.

Lemma mapNode_get_hasharray count slots key s kh :
  mapNode_get (mapHashArrayNode count slots) key s kh h
  = match slots !! Z.to_nat (mapFrag kh s) with
    | Some (Some child) => mapNode_get child key (s + 5) kh h
    | Some None => Ok None
    | None => Panic RuntimeIndexOutOfRange
    end.
Proof. simpl. rewrite at_index_lookup. by destruct (slots !! _) as [[?|]|]. Qed.

Lemma mapNode_set_bitmap reinsert bm nodes key value s kh r :
  mapNode_set_via reinsert (mapBitmapIndexedNode bm nodes) key value s kh h r
  = let f := Z.to_nat (mapFrag kh s) in
    if Z.testbit bm (Z.of_nat f) then
      match nodes !! ones_below bm f with
      | Some child =>
          '(newNode, r') ← mapNode_set_via reinsert child key value (s + 5) kh h r;
          Ok (mapBitmapIndexedNode (Z.lor bm (Z.shiftl 1 (Z.of_nat f)))
                                   (<[ones_below bm f := newNode]> nodes), r')
      | None => Panic RuntimeIndexOutOfRange
      end
    else if len nodes >? maxBitmapIndexedSize then
      '(slots, count) ← mapBitmapIndexedNode_expand bm nodes;
      Ok (mapHashArrayNode (count + 1)
                           (<[f := Some (newMapValueNode kh key value)]> slots), true)
    else if (ones_below bm f <=? length nodes)%nat then
      Ok (mapBitmapIndexedNode (Z.lor bm (Z.shiftl 1 (Z.of_nat f)))
                               (splice (ones_below bm f) (newMapValueNode kh key value) nodes),
          true)
    else Panic RuntimeIndexOutOfRange.
Proof.
  cbn [mapNode_set_via]. name_frag kh s f.
  rewrite at_index_lookup, land_bit_eqb, OnesCount32_below_bit by done.
  cbv zeta.
  destruct (Z.testbit bm _) eqn:Hbit; cbn [negb andb].
  - destruct (nodes !! _) as [child|] eqn:Hchild; [|done].
    destruct (mapNode_set_via _ child _ _ _ _ _ _) as [[newNode r']|]; [|done].
    simpl. apply lookup_lt_Some in Hchild.
    destruct (Nat.ltb_spec (ones_below bm f) (length nodes)); [done|lia].
  - simpl. destruct (len nodes >? maxBitmapIndexedSize); [|done].
    by destruct (mapBitmapIndexedNode_expand bm nodes) as [[??]|].
Qed.

Lemma mapNode_set_hasharray reinsert count slots key value s kh r :
  mapNode_set_via reinsert (mapHashArrayNode count slots) key value s kh h r
  = let f := Z.to_nat (mapFrag kh s) in
    match slots !! f with
    | Some (Some child) =>
        '(newNode, r') ← mapNode_set_via reinsert child key value (s + 5) kh h r;
        Ok (mapHashArrayNode count (<[f := Some newNode]> slots), r')
    | Some None =>
        Ok (mapHashArrayNode (count + 1)
                             (<[f := Some (newMapValueNode kh key value)]> slots), true)
    | None => Panic RuntimeIndexOutOfRange
    end.
Proof.
  cbn [mapNode_set_via]. rewrite at_index_lookup. cbv zeta.
  destruct (slots !! _) as [[child|]|]; [|done..].
  simpl. by destruct (mapNode_set_via _ child _ _ _ _ _ _) as [[newNode r']|].
Qed.

Lemma mapNode_delete_bitmap bm nodes key s kh :
  mapNode_delete (mapBitmapIndexedNode bm nodes) key s kh h
  = let f := Z.to_nat (mapFrag kh s) in
    if Z.testbit bm (Z.of_nat f) then
      match nodes !! ones_below bm f with
      | Some child =>
          newChild ← mapNode_delete child key (s + 5) kh h;
          match newChild with
          | Receiver => Ok Receiver
          | Fresh None =>
              if len nodes =? 1 then Ok (Fresh None)
              else Ok (Fresh (Some (mapBitmapIndexedNode
                                      (Z.lxor bm (Z.shiftl 1 (Z.of_nat f)))
                                      (remove_at (ones_below bm f) nodes))))
          | Fresh (Some newChild) =>
              Ok (Fresh (Some (mapBitmapIndexedNode bm
                                 (<[ones_below bm f := newChild]> nodes))))
          end
      | None => Panic RuntimeIndexOutOfRange
      end
    else Ok Receiver.
Proof.
  cbn [mapNode_delete]. name_frag kh s f.
  rewrite at_index_lookup, land_bit_eqb, OnesCount32_below_bit by done.
  cbv zeta. destruct (Z.testbit bm _); [|done].
  by destruct (nodes !! _).
Qed.

Lemma mapNode_delete_hasharray count slots key s kh :
  mapNode_delete (mapHashArrayNode count slots) key s kh h
  = let f := Z.to_nat (mapFrag kh s) in
    match slots !! f with
    | Some (Some child) =>
        newNode ← mapNode_delete child key (s + 5) kh h;
        match newNode with
        | Receiver => Ok Receiver
        | Fresh None =>
            if count <=? maxBitmapIndexedSize then
              if count <=? 0 then Panic RuntimeIndexOutOfRange
              else
                let '(bitmap, packed) := mapHashArrayNode_pack (Z.of_nat f) slots in
                Ok (Fresh (Some (mapBitmapIndexedNode bitmap packed)))
            else Ok (Fresh (Some (mapHashArrayNode (count - 1) (<[f := None]> slots))))
        | Fresh (Some newNode) =>
            Ok (Fresh (Some (mapHashArrayNode count (<[f := Some newNode]> slots))))
        end
    | Some None => Ok Receiver
    | None => Panic RuntimeIndexOutOfRange
    end.
Proof.
  cbn [mapNode_delete]. name_frag kh s f.
  rewrite at_index_lookup. cbv zeta.
  by destruct (slots !! _) as [[child|]|].
Qed.

Lemma mergeIntoNode_levels_S levels node s kh key value :
  mergeIntoNode_levels (S levels) node s kh key value
  = let i1 := Z.to_nat (mapFrag (mapNode_keyHashValue node) s) in
    let i2 := Z.to_nat (mapFrag kh s) in
    let bitmap := Z.lor (Z.shiftl 1 (Z.of_nat i1)) (Z.shiftl 1 (Z.of_nat i2)) in
    if decide (i1 = i2) then
      child ← mergeIntoNode_levels levels node (s + 5) kh key value;
      Ok (mapBitmapIndexedNode bitmap [child])
    else if decide (i1 < i2)%nat then
      Ok (mapBitmapIndexedNode bitmap [node; newMapValueNode kh key value])
    else Ok (mapBitmapIndexedNode bitmap [newMapValueNode kh key value; node]).
Proof.
  cbn [mergeIntoNode_levels]. cbv zeta. rewrite !mapFrag_nat.
  pose proof (mapFrag_range (mapNode_keyHashValue node) s).
  pose proof (mapFrag_range kh s).
  destruct (Z.eqb_spec (mapFrag (mapNode_keyHashValue node) s) (mapFrag kh s)).
  - rewrite decide_True by lia. done.
  - rewrite decide_False by lia.
    destruct (Z.ltb_spec (mapFrag (mapNode_keyHashValue node) s) (mapFrag kh s)).
    + rewrite decide_True by lia. done.
    + rewrite decide_False by lia. done.
Qed.

Lemma mergeIntoNode_unfold node s kh key value :
  mergeIntoNode node s kh key value
  = mergeIntoNode_levels (Z.to_nat ((36 - s) `div` 5)) node s kh key value.
Proof. reflexivity. Qed.
End Trie.

#[global] Opaque mergeIntoNode.

(** ** Map: branches of one and of two children *)

Section Small.
Context {A : Type}.

Lemma bitmap_child_empty (nodes : list A) (j : nat) : bitmap_child 0 nodes j = None.
Proof. unfold bitmap_child. by rewrite Z.bits_0. Qed.

Lemma bitmap_child_one (i j : nat) (x : A) :
  bitmap_child (Z.shiftl 1 (Z.of_nat i)) [x] j = if decide (j = i) then Some x else None.
Proof.
  pose proof (bitmap_child_splice 0 [] i j x) as Hs.
  rewrite ones_below_0, Z.lor_0_l, bitmap_child_empty in Hs.
  apply Hs; [apply Z.bits_0 | simpl; lia].
Qed.

Lemma bitmap_child_two (i1 i2 j : nat) (x y : A) :
  (i1 < i2)%nat →
  bitmap_child (Z.lor (Z.shiftl 1 (Z.of_nat i1)) (Z.shiftl 1 (Z.of_nat i2))) [x; y] j
  = if decide (j = i2) then Some y else if decide (j = i1) then Some x else None.
Proof.
  intros Hlt.
  pose proof (bitmap_child_splice (Z.shiftl 1 (Z.of_nat i1)) [x] i2 j y) as Hs.
  rewrite ones_below_bit, decide_True, bitmap_child_one in Hs by done.
  apply Hs; [|simpl; lia].
  rewrite testbit_bit. apply bool_decide_eq_false_2. lia.
Qed.

Lemma ones_below_two (i1 i2 : nat) :
  i1 ≠ i2 → (i1 < 32)%nat → (i2 < 32)%nat →
  ones_below (Z.lor (Z.shiftl 1 (Z.of_nat i1)) (Z.shiftl 1 (Z.of_nat i2))) 32 = 2%nat.
Proof.
  intros Hne H1 H2. rewrite ones_below_lor_bit, ones_below_bit.
  - rewrite !decide_True by done. done.
  - rewrite testbit_bit. by apply bool_decide_eq_false_2.
Qed.
End Small.

(** ** Map: leaves and [mergeIntoNode] *)

Section Merge.
Context {K V : Type} (h : Hasher K) (Hok : Hasher_ok h).
Implicit Types (n child node : mapNode K V) (key : K) (value : V).

Definition is_leaf (n : mapNode K V) : Prop :=
  match n with
  | mapValueNode _ _ _ | mapHashCollisionNode _ _ => True
  | _ => False
  end.

Lemma leaf_hash s p node :
  is_leaf node → trie_wf h s p node →
  mapNode_keyHashValue node `mod` 2 ^ s = p ∧ 0 ≤ mapNode_keyHashValue node < 2 ^ 32.
Proof.
  intros Hleaf Hwf. destruct Hwf; try done; simpl.
  split; [done|]. apply (hash_range h Hok).
Qed.

Lemma leaf_move s p s' node :
  is_leaf node → trie_wf h s p node →
  trie_wf h s' (mapNode_keyHashValue node `mod` 2 ^ s') node.
Proof.
  intros Hleaf Hwf. destruct Hwf; try done; simpl; by constructor.
Qed.

Lemma leaf_get_shift node key s kh s' kh' :
  is_leaf node → mapNode_get node key s kh h = mapNode_get node key s' kh' h.
Proof. by destruct node. Qed.

Lemma leaf_get_Ok node key s kh :
  is_leaf node → ∃ o, mapNode_get node key s kh h = Ok o.
Proof.
  destruct node as [| | |kh' k v|kh' entries]; try done; intros _.
  - simpl. destruct (Equal h k key); eauto.
  - cbn [mapNode_get]. rewrite entries_get. eauto.
Qed.

Lemma leaf_get_hash s p node key s0 kh0 v :
  is_leaf node → trie_wf h s p node →
  mapNode_get node key s0 kh0 h = Ok (Some v) →
  Hash h key = mapNode_keyHashValue node.
Proof.
  intros Hleaf Hwf. destruct Hwf as [s p k v'| s p kh entries Hentries| |]; try done.
  - simpl. destruct (Equal h k key) eqn:Heq; [|done].
    intros _. symmetry. by apply (hash_equal h Hok).
  - cbn [mapNode_get]. rewrite entries_get. intros [= Hfind].
    apply entries_find_Some in Hfind as (e & He & Heq).
    rewrite <-(Hentries e He). symmetry. by apply (hash_equal h Hok).
Qed.

Lemma hash_small (kh s : Z) : 0 ≤ kh < 2 ^ 32 → 32 ≤ s → kh `mod` 2 ^ s = kh.
Proof.
  intros Hkh Hs. apply Z.mod_small.
  pose proof (Z.pow_le_mono_r 2 32 s ltac:(lia) Hs). lia.
Qed.

Lemma merge_levels_step (s : Z) (levels : nat) :
  S levels = Z.to_nat ((36 - s) `div` 5) →
  levels = Z.to_nat ((36 - (s + 5)) `div` 5).
Proof.
  intros Hl. replace (36 - (s + 5)) with ((36 - s) + (-1) * 5) by lia.
  rewrite Z.div_add by lia. lia.
Qed.

Lemma merge_levels_end (s : Z) :
  0%nat = Z.to_nat ((36 - s) `div` 5) → 32 ≤ s.
Proof.
  intros Hl. assert ((36 - s) `div` 5 ≤ 0) as Hdiv by lia.
  destruct (Z.le_gt_cases 32 s) as [|Hlt]; [done|].
  assert (1 ≤ (36 - s) `div` 5); [|lia].
  apply Z.div_le_lower_bound; lia.
Qed.

Lemma mergeIntoNode_wf levels node s p key value :
  is_leaf node → trie_wf h s p node → 0 ≤ s →
  Hash h key `mod` 2 ^ s = p →
  mapNode_keyHashValue node ≠ Hash h key →
  levels = Z.to_nat ((36 - s) `div` 5) →
  ∃ n', mergeIntoNode_levels levels node s (Hash h key) key value = Ok n'
        ∧ trie_wf h s p n'.
Proof.
  intros Hleaf. revert s p.
  induction levels as [|levels IH]; intros s p Hwf Hs Hkey Hne Hlevels.
  - exfalso. apply merge_levels_end in Hlevels.
    destruct (leaf_hash _ _ _ Hleaf Hwf) as [Hnode Hrange].
    rewrite hash_small in Hnode, Hkey by (try apply (hash_range h Hok); done).
    congruence.
  - rewrite mergeIntoNode_levels_S. cbv zeta.
    destruct (leaf_hash _ _ _ Hleaf Hwf) as [Hnode Hrange].
    pose proof (hash_prefix_split (mapNode_keyHashValue node) s Hs) as Hsplit1.
    pose proof (hash_prefix_split (Hash h key) s Hs) as Hsplit2.
    rewrite <-(mapFrag_nat _ s) in Hsplit1. rewrite <-(mapFrag_nat _ s) in Hsplit2.
    pose proof (mapFrag_nat_lt (mapNode_keyHashValue node) s) as Hi1.
    pose proof (mapFrag_nat_lt (Hash h key) s) as Hi2.
    set (i1 := Z.to_nat (mapFrag (mapNode_keyHashValue node) s)) in *.
    set (i2 := Z.to_nat (mapFrag (Hash h key) s)) in *.
    clearbody i1 i2.
    assert (Hmove : trie_wf h (s + 5) (p + 2 ^ s * Z.of_nat i1) node).
    { rewrite <-Hnode, <-Hsplit1. by eapply leaf_move. }
    assert (Hnew : trie_wf h (s + 5) (p + 2 ^ s * Z.of_nat i2)
                           (newMapValueNode (Hash h key) key value)).
    { constructor. rewrite Hsplit2. lia. }
    destruct (decide (i1 = i2)) as [->|Hi].
    + destruct (IH (s + 5) (p + 2 ^ s * Z.of_nat i2)) as (child & -> & Hchild);
        [done | lia | rewrite Hsplit2; lia | done | by apply merge_levels_step |].
      eexists. split; [done|]. rewrite Z.lor_diag. constructor.
      * rewrite ones_below_bit, decide_True by done. done.
      * intros i c Hi. rewrite bitmap_child_one. case_decide; [|done].
        intros [= <-]. by subst.
    + case_decide as Hlt.
      * eexists. split; [done|]. constructor.
        -- by rewrite ones_below_two.
        -- intros i c _. rewrite bitmap_child_two by done.
           repeat case_decide; [| |done]; intros [= <-]; by subst.
      * eexists. split; [done|]. rewrite Z.lor_comm. constructor.
        -- by rewrite ones_below_two.
        -- intros i c _. rewrite bitmap_child_two by lia.
           repeat case_decide; [| |done]; intros [= <-]; by subst.
Qed.

(** A lookup of the merged key finds the merged value. *)
Lemma mergeIntoNode_get_same levels node s kh key value n' :
  mergeIntoNode_levels levels node s kh key value = Ok n' →
  mapNode_get n' key s kh h = Ok (Some value).
Proof.
  revert s n'. induction levels as [|levels IH]; intros s n'; [done|].
  rewrite mergeIntoNode_levels_S. cbv zeta.
  pose proof (mapFrag_nat_lt (mapNode_keyHashValue node) s) as Hi1.
  pose proof (mapFrag_nat_lt kh s) as Hi2.
  assert (Hval : ∀ s', mapNode_get (newMapValueNode kh key value) key s' kh h
                       = Ok (Some value)).
  { intros s'. simpl. by rewrite (equal_refl h Hok). }
  intros Hmerge.
  set (i1 := Z.to_nat (mapFrag (mapNode_keyHashValue node) s)) in *.
  set (i2 := Z.to_nat (mapFrag kh s)) in *.
  destruct (decide (i1 = i2)) as [Heq|Hi].
  - apply bind_Ok in Hmerge as (child & Hchild & [= <-]).
    rewrite Heq, Z.lor_diag, mapNode_get_bitmap_child
      by (by rewrite ones_below_bit, decide_True).
    fold i2. rewrite bitmap_child_one, decide_True by done. by apply IH.
  - case_decide as Hlt; injection Hmerge as <-.
    + rewrite mapNode_get_bitmap_child by (by rewrite ones_below_two).
      fold i2. rewrite bitmap_child_two, decide_True by done. apply Hval.
    + rewrite Z.lor_comm, mapNode_get_bitmap_child by (by rewrite ones_below_two).
      fold i2. rewrite bitmap_child_two, decide_False, decide_True by (done || lia).
      apply Hval.
Qed.

(** A lookup of any other key goes to the leaf that was there before. *)
Lemma mergeIntoNode_get_other levels node s0 p0 s key' value' key n' :
  is_leaf node → trie_wf h s0 p0 node →
  mergeIntoNode_levels levels node s (Hash h key') key' value' = Ok n' →
  Equal h key' key = false →
  mapNode_get n' key s (Hash h key) h = mapNode_get node key s (Hash h key) h.
Proof.
  intros Hleaf Hwf. revert s n'. induction levels as [|levels IH]; intros s n'; [done|].
  rewrite mergeIntoNode_levels_S. cbv zeta. intros Hmerge Hne.
  assert (Hval : ∀ s', mapNode_get (newMapValueNode (Hash h key') key' value') key s'
                         (Hash h key) h = Ok None).
  { intros s'. simpl. by rewrite Hne. }
  assert (Hmiss : (Z.to_nat (mapFrag (Hash h key) s)
                   ≠ Z.to_nat (mapFrag (mapNode_keyHashValue node) s)) →
                  mapNode_get node key s (Hash h key) h = Ok None).
  { intros Hfrag. destruct (mapNode_get node key s (Hash h key) h) as [[v|]|] eqn:Hget.
    - apply (leaf_get_hash _ _ _ _ _ _ _ Hleaf Hwf) in Hget. by rewrite Hget in Hfrag.
    - done.
    - destruct (leaf_get_Ok node key s (Hash h key) Hleaf). congruence. }
  pose proof (mapFrag_nat_lt (mapNode_keyHashValue node) s) as Hi1.
  pose proof (mapFrag_nat_lt (Hash h key') s) as Hi2.
  set (i1 := Z.to_nat (mapFrag (mapNode_keyHashValue node) s)) in *.
  set (i2 := Z.to_nat (mapFrag (Hash h key') s)) in *.
  destruct (decide (i1 = i2)) as [Heq|Hi].
  - apply bind_Ok in Hmerge as (child & Hchild & [= <-]).
    rewrite Heq, Z.lor_diag, mapNode_get_bitmap_child
      by (by rewrite ones_below_bit, decide_True).
    rewrite bitmap_child_one. case_decide as Hf.
    + rewrite (IH _ _ Hchild Hne). by apply leaf_get_shift.
    + rewrite Hmiss; [done|]. by rewrite Heq.
  - assert (∃ bm nodes, n' = mapBitmapIndexedNode bm nodes
              ∧ length nodes = ones_below bm 32
              ∧ ∀ f, bitmap_child bm nodes f
                 = if decide (f = i1) then Some node
                   else if decide (f = i2)
                        then Some (newMapValueNode (Hash h key') key' value')
                        else None) as (bm & nodes & -> & Hlen & Hc).
    { case_decide; injection Hmerge as <-; eexists _, _; (split; [done|]).
      - split; [by rewrite ones_below_two|]. intros f.
        rewrite bitmap_child_two by done. repeat case_decide; done || lia.
      - rewrite Z.lor_comm. split; [by rewrite ones_below_two|]. intros f.
        rewrite bitmap_child_two by lia. repeat case_decide; done || lia. }
    clear Hmerge. rewrite mapNode_get_bitmap_child, Hc by done.
    case_decide as Hf1; [by apply leaf_get_shift|].
    rewrite Hmiss by done. case_decide; [apply Hval | done].
Qed.
End Merge.

(** ** Map: [set] on a well-formed trie *)

Section TrieSet.
Context {K V : Type} (h : Hasher K) (Hok : Hasher_ok h).
Implicit Types (n child node : mapNode K V) (key : K) (value : V).
Implicit Types (nodes : list (mapNode K V)) (entries : list (mapEntry K V)).
Implicit Types (slots : list (option (mapNode K V))).
Implicit Types
  (reinsert : mapNode K V → K → V → Z → Z → Hasher K → bool
              → result (mapNode K V * bool)).

Lemma hash_prefix_child key s p :
  0 ≤ s → Hash h key `mod` 2 ^ s = p →
  Hash h key `mod` 2 ^ (s + 5)
  = p + 2 ^ s * Z.of_nat (Z.to_nat (mapFrag (Hash h key) s)).
Proof. intros Hs <-. rewrite mapFrag_nat. by apply hash_prefix_split. Qed.

Lemma equal_other k key' key :
  Equal h k key' = true → Equal h key' key = false → Equal h k key = false.
Proof.
  intros Heq Hne. destruct (Equal h k key) eqn:Hk; [|done].
  rewrite <-Hne. symmetry. eapply (equal_trans h Hok); [|done].
  by apply (equal_sym h Hok).
Qed.

(** [set] returns, and what it returns is well formed. *)
Lemma mapNode_set_wf reinsert s p n :
  trie_wf h s p n → ∀ key value r,
  0 ≤ s → Hash h key `mod` 2 ^ s = p →
  ∃ n' r', mapNode_set_via reinsert n key value s (Hash h key) h r = Ok (n', r')
           ∧ trie_wf h s p n'.
Proof.
  induction 1 as [s p k v Hp|s p kh entries Hentries Hrange Hp
                 |s p bm nodes Hlen Hchildren IH|s p count slots Hlen Hchildren IH];
    intros key value r Hs Hkey.
  - (* value leaf *)
    cbn [mapNode_set_via].
    destruct (Equal h k key) eqn:Heq.
    + eexists _, _. split; [done|].
      rewrite (hash_equal h Hok _ _ Heq). by constructor.
    + destruct (Z.eqb_spec (Hash h k) (Hash h key)) as [Hh|Hh]; cbn [negb].
      * eexists _, _. split; [done|]. constructor; [|apply (hash_range h Hok)|done].
        intros e [->|[->|[]%elem_of_nil]%elem_of_cons]%elem_of_cons; done.
      * rewrite mergeIntoNode_unfold.
        destruct (mergeIntoNode_wf h Hok (Z.to_nat ((36 - s) `div` 5)) (mapValueNode (Hash h k) k v) s p key value)
          as (n' & -> & Hn'); try done.
        { by constructor. }
        cbn [mbind result_bind]. eauto.
  - (* collision leaf *)
    cbn [mapNode_set_via].
    destruct (Z.eqb_spec kh (Hash h key)) as [Hh|Hh]; cbn [negb].
    + rewrite indexOf_pos.
      destruct (entries_pos h entries key) as [i|] eqn:Hpos; cbn [negb].
      * destruct (Z.eqb_spec (Z.of_nat i) (-1)); [lia|].
        eexists _, _. split; [done|]. constructor; [|done..].
        intros e [He| ->]%elem_of_insert_inv; [by apply Hentries | by rewrite Hh].
      * eexists _, _. split; [done|]. constructor; [|done..].
        intros e [He| ->%list_elem_of_singleton]%elem_of_app;
          [by apply Hentries | by rewrite Hh].
    + rewrite mergeIntoNode_unfold.
      destruct (mergeIntoNode_wf h Hok (Z.to_nat ((36 - s) `div` 5)) (mapHashCollisionNode kh entries) s p key value)
        as (n' & -> & Hn'); try done.
      { by constructor. }
      cbn [mbind result_bind]. eauto.
  - (* bitmap-indexed branch *)
    rewrite mapNode_set_bitmap. cbv zeta.
    pose proof (mapFrag_nat_lt (Hash h key) s) as Hf.
    pose proof (hash_prefix_child key s p Hs Hkey) as Hprefix.
    set (f := Z.to_nat (mapFrag (Hash h key) s)) in *. clearbody f.
    assert (Hnew : trie_wf h (s + 5) (p + 2 ^ s * Z.of_nat f)
                           (newMapValueNode (Hash h key) key value)).
    { by constructor. }
    destruct (Z.testbit bm (Z.of_nat f)) eqn:Hbit.
    + destruct (bitmap_child_is_Some bm nodes f Hlen Hf Hbit) as (child & Hlook & Hchild).
      rewrite Hlook.
      destruct (IH f child Hf Hchild key value r) as (newNode & r' & -> & HnewNode);
        [lia | done |].
      cbn [mbind result_bind]. eexists _, _. split; [done|].
      rewrite lor_bit_set by done. constructor.
      * by rewrite length_insert.
      * intros i c Hi. apply lookup_lt_Some in Hlook.
        rewrite bitmap_child_insert by done.
        case_decide as Hif; [intros [= <-]; by subst|by apply Hchildren].
    + destruct (len nodes >? maxBitmapIndexedSize).
      * destruct (mapBitmapIndexedNode_expand_spec bm nodes Hlen)
          as (slots & -> & Hslots & Hlook).
        cbn [mbind result_bind]. eexists _, _. split; [done|]. constructor.
        -- by rewrite length_insert.
        -- intros i c Hc.
           assert (i < 32)%nat as Hi.
           { apply lookup_lt_Some in Hc. rewrite length_insert in Hc. lia. }
           destruct (decide (i = f)) as [->|Hif].
           ++ rewrite list_lookup_insert_eq in Hc by lia. by injection Hc as <-.
           ++ rewrite list_lookup_insert_ne, Hlook in Hc by done.
              injection Hc as Hc. by apply Hchildren.
      * pose proof (ones_below_le bm f 32 ltac:(lia)) as Hle.
        destruct (Nat.leb_spec (ones_below bm f) (length nodes)); [|lia].
        eexists _, _. split; [done|]. constructor.
        -- rewrite length_splice, ones_below_lor_bit, decide_True by done. lia.
        -- intros i c Hi. rewrite bitmap_child_splice by done.
           case_decide as Hif; [intros [= <-]; by subst|by apply Hchildren].
  - (* hash-array branch *)
    rewrite mapNode_set_hasharray. cbv zeta.
    pose proof (mapFrag_nat_lt (Hash h key) s) as Hf.
    pose proof (hash_prefix_child key s p Hs Hkey) as Hprefix.
    set (f := Z.to_nat (mapFrag (Hash h key) s)) in *. clearbody f.
    assert (Hnew : trie_wf h (s + 5) (p + 2 ^ s * Z.of_nat f)
                           (newMapValueNode (Hash h key) key value)).
    { by constructor. }
    assert (Hins : ∀ count' c, trie_wf h (s + 5) (p + 2 ^ s * Z.of_nat f) c →
              trie_wf h s p (mapHashArrayNode count' (<[f := Some c]> slots))).
    { intros count' c Hc. constructor; [by rewrite length_insert|].
      intros i c' Hi. destruct (decide (i = f)) as [->|Hif].
      - rewrite list_lookup_insert_eq in Hi by lia. by injection Hi as <-.
      - rewrite list_lookup_insert_ne in Hi by done. by eapply Hchildren. }
    destruct (lookup_lt_is_Some_2 slots f) as [[child|] Hlook]; [lia| |]; rewrite Hlook.
    + destruct (IH f child Hlook key value r) as (newNode & r' & -> & HnewNode);
        [lia | done |].
      cbn [mbind result_bind]. eexists _, _. split; [done|]. by apply Hins.
    + eexists _, _. split; [done|]. by apply Hins.
Qed.

(** A lookup of the key that was set finds the value that was set. *)
Lemma mapNode_set_get_same reinsert s p n :
  trie_wf h s p n → ∀ key value r n' r',
  mapNode_set_via reinsert n key value s (Hash h key) h r = Ok (n', r') →
  mapNode_get n' key s (Hash h key) h = Ok (Some value).
Proof.
  induction 1 as [s p k v Hp|s p kh entries Hentries Hrange Hp
                 |s p bm nodes Hlen Hchildren IH|s p count slots Hlen Hchildren IH];
    intros key value r n' r'.
  - cbn [mapNode_set_via].
    destruct (Equal h k key) eqn:Heq.
    + intros [= <- <-]. simpl. by rewrite (equal_refl h Hok).
    + destruct (Z.eqb_spec (Hash h k) (Hash h key)) as [Hh|Hh]; cbn [negb].
      * intros [= <- <-]. cbn [mapNode_get]. rewrite entries_get.
        unfold entries_find. simpl. rewrite Heq, (equal_refl h Hok). done.
      * rewrite mergeIntoNode_unfold.
        intros (node & Hmerge & [= <- <-])%bind_Ok.
        by eapply mergeIntoNode_get_same.
  - cbn [mapNode_set_via].
    destruct (Z.eqb_spec kh (Hash h key)) as [Hh|Hh]; cbn [negb].
    + rewrite indexOf_pos.
      destruct (entries_pos h entries key) as [i|] eqn:Hpos; cbn [negb].
      * destruct (Z.eqb_spec (Z.of_nat i) (-1)); [lia|].
        intros [= <- <-]. cbn [mapNode_get]. rewrite entries_get, Nat2Z.id.
        f_equal. apply entries_find_insert_same; [apply (equal_refl h Hok)|done].
      * intros [= <- <-]. cbn [mapNode_get]. rewrite entries_get.
        f_equal. apply entries_find_app_same; [apply (equal_refl h Hok)|done].
    + rewrite mergeIntoNode_unfold.
      intros (node & Hmerge & [= <- <-])%bind_Ok.
      by eapply mergeIntoNode_get_same.
  - rewrite mapNode_set_bitmap. cbv zeta.
    pose proof (mapFrag_nat_lt (Hash h key) s) as Hf.
    assert (Hval : mapNode_get (newMapValueNode (Hash h key) key value) key (s + 5)
                     (Hash h key) h = Ok (Some value)).
    { simpl. by rewrite (equal_refl h Hok). }
    destruct (Z.testbit bm _) eqn:Hbit.
    + destruct (bitmap_child_is_Some bm nodes _ Hlen Hf Hbit) as (child & Hlook & Hchild).
      rewrite Hlook. intros ([newNode r''] & Hset & [= <- <-])%bind_Ok.
      rewrite lor_bit_set by done.
      rewrite mapNode_get_bitmap_child by (by rewrite length_insert).
      apply lookup_lt_Some in Hlook.
      rewrite bitmap_child_insert, decide_True by done.
      by eapply IH.
    + destruct (len nodes >? maxBitmapIndexedSize).
      * destruct (mapBitmapIndexedNode_expand_spec bm nodes Hlen)
          as (slots & -> & Hslots & Hlook).
        intros [= <- <-]. rewrite mapNode_get_hasharray.
        rewrite list_lookup_insert_eq by lia. done.
      * pose proof (ones_below_le bm (Z.to_nat (mapFrag (Hash h key) s)) 32 ltac:(lia)).
        destruct (Nat.leb_spec (ones_below bm (Z.to_nat (mapFrag (Hash h key) s)))
                               (length nodes)); [|done].
        intros [= <- <-].
        rewrite mapNode_get_bitmap_child
          by (rewrite length_splice, ones_below_lor_bit, decide_True by done; lia).
        rewrite bitmap_child_splice, decide_True by done. done.
  - rewrite mapNode_set_hasharray. cbv zeta.
    pose proof (mapFrag_nat_lt (Hash h key) s) as Hf.
    destruct (slots !! _) as [[child|]|] eqn:Hlook; [| |done].
    + intros ([newNode r''] & Hset & [= <- <-])%bind_Ok.
      rewrite mapNode_get_hasharray, list_lookup_insert_eq by lia.
      by eapply IH.
    + intros [= <- <-].
      rewrite mapNode_get_hasharray, list_lookup_insert_eq by lia.
      simpl. by rewrite (equal_refl h Hok).
Qed.

(** A lookup of any other key finds what it found before. *)
Lemma mapNode_set_get_other reinsert s p n :
  trie_wf h s p n → ∀ key' value' r n' r' key,
  mapNode_set_via reinsert n key' value' s (Hash h key') h r = Ok (n', r') →
  Equal h key' key = false →
  mapNode_get n' key s (Hash h key) h = mapNode_get n key s (Hash h key) h.
Proof.
  induction 1 as [s p k v Hp|s p kh entries Hentries Hrange Hp
                 |s p bm nodes Hlen Hchildren IH|s p count slots Hlen Hchildren IH];
    intros key' value' r n' r' key Hset Hne; revert Hset.
  - cbn [mapNode_set_via].
    destruct (Equal h k key') eqn:Heq.
    + intros [= <- <-]. simpl. by rewrite Hne, (equal_other k key' key).
    + destruct (Z.eqb_spec (Hash h k) (Hash h key')) as [Hh|Hh]; cbn [negb].
      * intros [= <- <-]. cbn [mapNode_get]. rewrite entries_get.
        unfold entries_find. simpl. rewrite Hne.
        by destruct (Equal h k key).
      * rewrite mergeIntoNode_unfold.
        intros (node & Hmerge & [= <- <-])%bind_Ok.
        eapply (mergeIntoNode_get_other h Hok); [| |done..]; [done|].
        by apply (trie_wf_value h s p k v).
  - cbn [mapNode_set_via].
    destruct (Z.eqb_spec kh (Hash h key')) as [Hh|Hh]; cbn [negb].
    + rewrite indexOf_pos.
      destruct (entries_pos h entries key') as [i|] eqn:Hpos; cbn [negb].
      * destruct (Z.eqb_spec (Z.of_nat i) (-1)); [lia|].
        intros [= <- <-]. cbn [mapNode_get]. rewrite !entries_get, Nat2Z.id.
        f_equal. destruct (entries_pos_Some h _ _ _ Hpos) as (e & He & Heq).
        eapply entries_find_insert_other; [done| |done].
        by eapply equal_other.
      * intros [= <- <-]. cbn [mapNode_get]. rewrite !entries_get.
        f_equal. by apply entries_find_app_other.
    + rewrite mergeIntoNode_unfold.
      intros (node & Hmerge & [= <- <-])%bind_Ok.
      eapply (mergeIntoNode_get_other h Hok); [| |done..]; [done|].
      by apply (trie_wf_collision h s p kh entries).
  - rewrite mapNode_set_bitmap. cbv zeta.
    pose proof (mapFrag_nat_lt (Hash h key') s) as Hf.
    pose proof (mapFrag_nat_lt (Hash h key) s) as Hg.
    rewrite (mapNode_get_bitmap_child h bm nodes) by done.
    set (f := Z.to_nat (mapFrag (Hash h key') s)) in *.
    set (g := Z.to_nat (mapFrag (Hash h key) s)) in *.
    assert (Hval : mapNode_get (newMapValueNode (Hash h key') key' value') key (s + 5)
                     (Hash h key) h = Ok None).
    { simpl. by rewrite Hne. }
    destruct (Z.testbit bm (Z.of_nat f)) eqn:Hbit.
    + destruct (bitmap_child_is_Some bm nodes _ Hlen Hf Hbit) as (child & Hlook & Hchild).
      rewrite Hlook. intros ([newNode r''] & Hset & [= <- <-])%bind_Ok.
      rewrite lor_bit_set by done.
      rewrite mapNode_get_bitmap_child by (by rewrite length_insert).
      apply lookup_lt_Some in Hlook. fold g.
      rewrite bitmap_child_insert by done.
      case_decide as Hgf; [|done]. rewrite Hgf, Hchild.
      by eapply (IH f child Hf Hchild).
    + assert (Hnone : bitmap_child bm nodes f = None).
      { unfold bitmap_child. by rewrite Hbit. }
      destruct (len nodes >? maxBitmapIndexedSize).
      * destruct (mapBitmapIndexedNode_expand_spec bm nodes Hlen)
          as (slots & -> & Hslots & Hlook).
        intros [= <- <-]. rewrite mapNode_get_hasharray. fold g.
        destruct (decide (g = f)) as [->|Hgf].
        -- rewrite list_lookup_insert_eq, Hnone by lia. done.
        -- rewrite list_lookup_insert_ne, Hlook by done.
           by destruct (bitmap_child bm nodes g).
      * pose proof (ones_below_le bm f 32 ltac:(lia)).
        destruct (Nat.leb_spec (ones_below bm f) (length nodes)); [|done].
        intros [= <- <-].
        rewrite mapNode_get_bitmap_child
          by (rewrite length_splice, ones_below_lor_bit, decide_True by done; lia).
        fold g. rewrite bitmap_child_splice by done.
        case_decide as Hgf; [|done]. by rewrite Hgf, Hnone.
  - rewrite mapNode_set_hasharray. cbv zeta.
    pose proof (mapFrag_nat_lt (Hash h key') s) as Hf.
    rewrite (mapNode_get_hasharray h count slots).
    set (f := Z.to_nat (mapFrag (Hash h key') s)) in *.
    set (g := Z.to_nat (mapFrag (Hash h key) s)) in *.
    destruct (slots !! f) as [[child|]|] eqn:Hlook; [| |done].
    + intros ([newNode r''] & Hset & [= <- <-])%bind_Ok.
      rewrite mapNode_get_hasharray. fold g.
      destruct (decide (g = f)) as [->|Hgf].
      * rewrite list_lookup_insert_eq, Hlook by lia. by eapply (IH f child Hlook).
      * by rewrite list_lookup_insert_ne.
    + intros [= <- <-]. rewrite mapNode_get_hasharray. fold g.
      destruct (decide (g = f)) as [->|Hgf].
      * rewrite list_lookup_insert_eq, Hlook by lia. simpl. by rewrite Hne.
      * by rewrite list_lookup_insert_ne.
Qed.
End TrieSet.

(** ** Map: [delete] on a well-formed trie *)

Section TrieDelete.
Context {K V : Type} (h : Hasher K) (Hok : Hasher_ok h).
Implicit Types (n child node : mapNode K V) (key : K) (value : V).
Implicit Types (nodes : list (mapNode K V)) (entries : list (mapEntry K V)).
Implicit Types (slots : list (option (mapNode K V))).

Lemma mapNode_delete_wf s p n :
  trie_wf h s p n → ∀ key kh n',
  mapNode_delete n key s kh h = Ok (Fresh (Some n')) →
  trie_wf h s p n'.
Proof.
  induction 1 as [s p k v Hp|s p kh0 entries Hentries Hrange Hp
                 |s p bm nodes Hlen Hchildren IH|s p count slots Hlen Hchildren IH];
    intros key kh n'.
  - cbn [mapNode_delete]. by destruct (Equal h k key).
  - cbn [mapNode_delete]. destruct (_ =? -1); [done|].
    destruct (len entries =? 2).
    + destruct (entries !! _) as [e|] eqn:He; [|done].
      intros [= <-]. apply list_elem_of_lookup_2 in He.
      rewrite <-(Hentries e He). constructor. by rewrite (Hentries e He).
    + intros [= <-]. constructor; [|done..].
      intros e He%elem_of_remove_at. by apply Hentries.
  - rewrite mapNode_delete_bitmap. cbv zeta.
    pose proof (mapFrag_nat_lt kh s) as Hf.
    set (f := Z.to_nat (mapFrag kh s)) in *. clearbody f.
    destruct (Z.testbit bm (Z.of_nat f)) eqn:Hbit; [|done].
    destruct (bitmap_child_is_Some bm nodes f Hlen Hf Hbit) as (child & Hlook & Hchild).
    rewrite Hlook. intros (newChild & Hdel & Hres)%bind_Ok.
    apply lookup_lt_Some in Hlook.
    destruct newChild as [|[newChild|]]; [done| |].
    + injection Hres as <-. constructor; [by rewrite length_insert|].
      intros i c Hi. rewrite bitmap_child_insert by done.
      case_decide as Hif; [|by apply Hchildren].
      intros [= <-]. subst i. by eapply (IH f child Hf Hchild).
    + destruct (len nodes =? 1); [done|]. injection Hres as <-.
      pose proof (ones_below_lxor_bit bm f 32 Hbit) as Hx.
      rewrite decide_True in Hx by done.
      constructor; [rewrite length_remove_at by done; lia|].
      intros i c Hi. rewrite bitmap_child_remove by done.
      case_decide; [done|]. by apply Hchildren.
  - rewrite mapNode_delete_hasharray. cbv zeta.
    pose proof (mapFrag_nat_lt kh s) as Hf.
    set (f := Z.to_nat (mapFrag kh s)) in *. clearbody f.
    destruct (slots !! f) as [[child|]|] eqn:Hlook; [|done..].
    intros (newNode & Hdel & Hres)%bind_Ok.
    destruct newNode as [|[newNode|]]; [done| |].
    + injection Hres as <-. constructor; [by rewrite length_insert|].
      intros i c Hi. destruct (decide (i = f)) as [->|Hif].
      * rewrite list_lookup_insert_eq in Hi by lia. injection Hi as <-.
        by eapply (IH f child Hlook).
      * rewrite list_lookup_insert_ne in Hi by done. by eapply Hchildren.
    + destruct (count <=? maxBitmapIndexedSize).
      * destruct (count <=? 0); [done|].
        destruct (mapHashArrayNode_pack_spec f slots) as (bm & packed & Hpack & Hpacked & Hc);
          [lia|].
        rewrite Hpack in Hres. injection Hres as <-. constructor; [done|].
        intros i c Hi. rewrite Hc. case_decide; [done|].
        destruct (slots !! i) as [[c'|]|] eqn:Hi'; [|done..].
        intros [= <-]. by eapply Hchildren.
      * injection Hres as <-. constructor; [by rewrite length_insert|].
        intros i c Hi. destruct (decide (i = f)) as [->|Hif].
        -- by rewrite list_lookup_insert_eq in Hi by lia.
        -- rewrite list_lookup_insert_ne in Hi by done. by eapply Hchildren.
Qed.
End TrieDelete.

(** ** Map: the root and the façade *)

Section MapFacade.
Context {K V : Type} (h : Hasher K) (Hok : Hasher_ok h).
Context (defaultHasher : K → option (Hasher K)).
Implicit Types (n node : mapNode K V) (key : K) (value : V) (m : Map K V).
Implicit Types (entries : list (mapEntry K V)).

(** The root is an array node or a well-formed trie. *)
Definition root_wf (n : mapNode K V) : Prop :=
  match n with
  | mapArrayNode _ => True
  | _ => trie_wf h 0 0 n
  end.

(** A map of hasher [h] with a well-formed root. *)
Definition Map_wf (m : Map K V) : Prop :=
  map_hasher m = Some h
  ∧ match map_root m with
    | Some n => root_wf n
    | None => True
    end.

(** The maps that a client can build with hasher [h]. *)
Inductive Map_reachable : Map K V → Prop :=
| Map_reachable_new : Map_reachable (NewMap (Some h))
| Map_reachable_set m key value m' :
    Map_reachable m → Map_Set defaultHasher m key value = Ok m' →
    Map_reachable m'
| Map_reachable_delete m key m' :
    Map_reachable m → Map_Delete m key = Ok (Fresh m') →
    Map_reachable m'.

Lemma hash_prefix_root key : Hash h key `mod` 2 ^ 0 = 0.
Proof. apply Z.mod_1_r. Qed.

Lemma trie_root_wf n : trie_wf h 0 0 n → root_wf n.
Proof. intros Hwf. by destruct n. Qed.

(** The re-insertions of an expanding array node. *)
Lemma reinsert_entries entries key value :
  (∀ e, e ∈ entries → Equal h (entry_key e) key = false) →
  ∀ node r,
  trie_wf h 0 0 node →
  mapNode_get node key 0 (Hash h key) h = Ok (Some value) →
  ∃ n' r',
    foldl (λ acc entry,
             '(node, resized) ← acc;
             mapNode_set 0 node (entry_key entry) (entry_value entry)
                         0 (Hash h (entry_key entry)) h resized)
          (Ok (node, r)) entries = Ok (n', r')
    ∧ trie_wf h 0 0 n'
    ∧ mapNode_get n' key 0 (Hash h key) h = Ok (Some value).
Proof.
  induction entries as [|e entries IH]; intros Hne node r Hwf Hget.
  - by exists node, r.
  - cbn [foldl mbind result_bind]. cbn [mapNode_set].
    destruct (mapNode_set_wf h Hok (λ _ _ _ _ _ _ _, Panic StackOverflow)
                0 0 node Hwf (entry_key e) (entry_value e) r)
      as (n1 & r1 & Hset & Hwf1); [lia | apply hash_prefix_root |].
    rewrite Hset. apply IH; [|done|].
    + intros e' He'. apply Hne. by apply elem_of_cons; right.
    + rewrite (mapNode_set_get_other h Hok _ 0 0 node Hwf _ _ _ _ _ key Hset); [done|].
      apply Hne. by apply elem_of_cons; left.
Qed.

Lemma trie_root_set n key value :
  trie_wf h 0 0 n →
  ∃ n' r',
    mapNode_set_via (mapNode_set 0) n key value 0 (Hash h key) h false = Ok (n', r')
    ∧ root_wf n'
    ∧ mapNode_get n' key 0 (Hash h key) h = Ok (Some value).
Proof.
  intros Hwf.
  destruct (mapNode_set_wf h Hok (mapNode_set 0) 0 0 _ Hwf key value false)
    as (n' & r' & Hset & Hwf'); [lia | apply hash_prefix_root |].
  exists n', r'. split; [done|]. split; [by apply trie_root_wf|].
  exact (mapNode_set_get_same h Hok (mapNode_set 0) 0 0 n Hwf key value false n' r' Hset).
Qed.

Lemma root_set n key value :
  root_wf n →
  ∃ n' r',
    mapNode_set 1 n key value 0 (Hash h key) h false = Ok (n', r')
    ∧ root_wf n'
    ∧ mapNode_get n' key 0 (Hash h key) h = Ok (Some value).
Proof.
  intros Hwf. cbn [mapNode_set].
  destruct n as [entries| | | |].
  - cbn [mapNode_set_via]. rewrite indexOf_pos.
    destruct (entries_pos h entries key) as [i|] eqn:Hpos.
    + destruct (Z.eqb_spec (Z.of_nat i) (-1)); [lia|]. cbn [andb negb].
      eexists _, _. split; [done|]. split; [done|].
      cbn [mapNode_get]. rewrite entries_get, Nat2Z.id. f_equal.
      apply entries_find_insert_same; [apply (equal_refl h Hok)|done].
    + cbn [Z.eqb andb negb Pos.eqb]. destruct (len entries >=? maxArrayMapSize).
      * destruct (reinsert_entries entries key value) with
          (node := newMapValueNode (Hash h key) key value) (r := true)
          as (n' & r' & Hfold & Hwf' & Hget').
        -- intros e He. by eapply entries_pos_None.
        -- constructor. apply hash_prefix_root.
        -- simpl. by rewrite (equal_refl h Hok).
        -- exists n', r'. split; [exact Hfold|]. split; [by apply trie_root_wf|done].
      * eexists _, _. split; [done|]. split; [done|].
        cbn [mapNode_get]. rewrite entries_get. f_equal.
        apply entries_find_app_same; [apply (equal_refl h Hok)|done].
  - by apply trie_root_set.
  - by apply trie_root_set.
  - by apply trie_root_set.
  - by apply trie_root_set.
Qed.

Lemma root_delete n key n' :
  root_wf n →
  mapNode_delete n key 0 (Hash h key) h = Ok (Fresh (Some n')) →
  root_wf n'.
Proof.
  intros Hwf Hdel. destruct n as [entries| | | |].
  2-5: apply trie_root_wf;
       exact (mapNode_delete_wf h 0 0 _ Hwf key _ n' Hdel).
  cbn [mapNode_delete] in Hdel.
  destruct (_ =? -1); [done|]. destruct (_ =? 1); [done|]. by injection Hdel as <-.
Qed.

Lemma Map_Set_wf m key value :
  Map_wf m →
  ∃ m', Map_Set defaultHasher m key value = Ok m'
        ∧ Map_wf m'
        ∧ Map_Get m' key = Ok (Some value).
Proof.
  intros [Hh Hroot]. unfold Map_Set, Map_Get. rewrite Hh. cbn [mbind result_bind].
  destruct (map_root m) as [root|].
  - destruct (root_set root key value Hroot) as (n' & r' & -> & Hwf' & Hget).
    cbn [mbind result_bind]. eexists. split; [done|]. by split.
  - eexists. split; [done|]. split; [done|].
    cbn [map_root map_hasher mapNode_get]. rewrite entries_get.
    unfold entries_find. simpl. by rewrite (equal_refl h Hok).
Qed.

Lemma Map_Delete_wf m key m' :
  Map_wf m → Map_Delete m key = Ok (Fresh m') → Map_wf m'.
Proof.
  intros [Hh Hroot]. unfold Map_Delete. rewrite Hh.
  destruct (map_root m) as [root|]; [|done].
  intros ([|newRoot] & Hdel & Hres)%bind_Ok; [done|].
  injection Hres as <-. split; [done|]. simpl.
  destruct newRoot as [n'|]; [|done]. by eapply root_delete.
Qed.

Lemma Map_reachable_wf m : Map_reachable m → Map_wf m.
Proof.
  induction 1 as [|m key value m' _ IH Hset|m key m' _ IH Hdel].
  - done.
  - destruct (Map_Set_wf m key value IH) as (m'' & Hset' & Hwf & _). congruence.
  - by eapply Map_Delete_wf.
Qed.
End MapFacade.

(** ** List: trie addresses *)

(** The number of addresses below one slot of a node of depth [d]. *)
Definition weight (d : nat) : Z := 32 ^ Z.of_nat d.

Lemma weight_pos d : 0 < weight d.
Proof. unfold weight. apply Z.pow_pos_nonneg; lia. Qed.

Lemma weight_S d : weight (S d) = weight d * 32.
Proof. unfold weight. rewrite Nat2Z.inj_succ, Z.pow_succ_r by lia. lia. Qed.

Lemma weight_shift d : 2 ^ (Z.of_nat d * listNodeBits) = weight d.
Proof.
  unfold weight, listNodeBits. rewrite Z.mul_comm, Z.pow_mul_r by lia. done.
Qed.

Lemma listFrag_div A (d : nat) : listFrag A (Z.of_nat d) = (A `div` weight d) `mod` 32.
Proof.
  unfold listFrag. change listNodeMask with (Z.ones 5).
  rewrite Z.land_ones, Z.shiftr_div_pow2, weight_shift by (unfold listNodeBits; lia).
  done.
Qed.

Lemma land_mask A : Z.land A listNodeMask = A `mod` 32.
Proof. change listNodeMask with (Z.ones 5). by rewrite Z.land_ones by lia. Qed.

(** An address below a node of depth [d]: its slot and the address below
    that slot. *)
Lemma address_split A d :
  A `mod` weight (S d) = A `mod` weight d + weight d * listFrag A (Z.of_nat d).
Proof.
  rewrite listFrag_div, weight_S. pose proof (weight_pos d). apply Z.rem_mul_r; lia.
Qed.

Lemma listFrag_mod A d : listFrag (A `mod` weight (S d)) (Z.of_nat d) = listFrag A (Z.of_nat d).
Proof.
  rewrite !listFrag_div, weight_S. pose proof (weight_pos d).
  rewrite Z.rem_mul_r by lia.
  rewrite (Z.mul_comm (weight d)), Z.div_add by lia.
  rewrite (Z.div_small (A `mod` weight d)) by (apply Z.mod_pos_bound; lia).
  rewrite Z.add_0_l. apply Z.mod_mod. lia.
Qed.

Lemma mod_weight_S A d : (A `mod` weight (S d)) `mod` weight d = A `mod` weight d.
Proof.
  rewrite weight_S. pose proof (weight_pos d).
  rewrite Z.rem_mul_r by lia.
  rewrite (Z.mul_comm (weight d)), Z.mod_add by lia. apply Z.mod_mod. lia.
Qed.

Lemma listFrag_mod_le A (d d' : nat) :
  (d < d')%nat → listFrag (A `mod` weight d') (Z.of_nat d) = listFrag A (Z.of_nat d).
Proof.
  intros Hlt. revert A. induction Hlt as [|d' Hle IH]; intros A; [apply listFrag_mod|].
  rewrite <-(IH (A `mod` weight (S d'))), mod_weight_S. apply IH.
Qed.

Lemma listFrag_nat A d : Z.of_nat (Z.to_nat (listFrag A d)) = listFrag A d.
Proof. pose proof (listFrag_range A d). lia. Qed.

Lemma listFrag_nat_lt A d : (Z.to_nat (listFrag A d) < 32)%nat.
Proof. pose proof (listFrag_range A d). lia. Qed.

(** Addresses in one slot: the slot of an address between two addresses of
    the same slot. *)
Lemma listFrag_between A B C d :
  0 ≤ A ≤ B → B ≤ C → C < weight (S d) →
  listFrag A (Z.of_nat d) = listFrag C (Z.of_nat d) →
  listFrag B (Z.of_nat d) = listFrag A (Z.of_nat d).
Proof.
  intros HAB HBC HC. rewrite !listFrag_div, weight_S in *.
  pose proof (weight_pos d).
  rewrite !Z.mod_small; try (split; [apply Z.div_pos; lia | apply Z.div_lt_upper_bound; lia]).
  intros Heq.
  pose proof (Z.div_le_mono A B (weight d) ltac:(lia) ltac:(lia)).
  pose proof (Z.div_le_mono B C (weight d) ltac:(lia) ltac:(lia)).
  lia.
Qed.

Lemma address_small A d : 0 ≤ A < weight d → A `mod` weight d = A.
Proof. apply Z.mod_small. Qed.

(** ** List: nodes *)

Section ListNodes.
Context {V : Type}.
Implicit Types (n child : listNode V) (v : option V).
Implicit Types (children : list (option (listNode V))).

(** [node_wf d n]: [n] is a node of depth [d] whose children have depth
    [d - 1], in arrays of 32 slots. *)
Inductive node_wf : nat → listNode V → Prop :=
| node_wf_leaf (slots : list (option V)) :
    length slots = 32%nat → node_wf 0 (listLeafNode slots)
| node_wf_branch d children :
    length children = 32%nat →
    (∀ i child, children !! i = Some (Some child) → node_wf d child) →
    node_wf (S d) (listBranchNode (Z.of_nat (S d)) children).

Lemma node_wf_depth d n : node_wf d n → listNode_depth n = Z.of_nat d.
Proof. by destruct 1. Qed.

Lemma listNode_get_branch d children A :
  listNode_get (listBranchNode d children) A
  = match children !! Z.to_nat (listFrag A d) with
    | Some (Some child) => listNode_get child A
    | Some None => Panic NilDereference
    | None => Panic RuntimeIndexOutOfRange
    end.
Proof. simpl. rewrite at_index_lookup. by destruct (children !! _) as [[?|]|]. Qed.

Lemma listNode_set_branch d children A v :
  listNode_set (listBranchNode d children) A v
  = listBranchNode d
      (<[Z.to_nat (listFrag A d) :=
           Some (match children !! Z.to_nat (listFrag A d) with
                 | Some (Some child) => listNode_set child A v
                 | _ => listNode_set_fresh (Z.to_nat (d - 1)) A v
                 end)]> children).
Proof.
  cbn [listNode_set]. rewrite at_index_lookup.
  by destruct (children !! _) as [[?|]|].
Qed.

(** The path that [set] materialises below an absent child is what [set]
    builds on the node that [newListNode] returns. *)
Lemma listNode_set_newListNode (d : nat) A v :
  listNode_set (newListNode (Z.of_nat d)) A v = listNode_set_fresh d A v.
Proof.
  destruct d as [|d]; [done|].
  unfold newListNode. destruct (Z.eqb_spec (Z.of_nat (S d)) 0); [lia|].
  rewrite listNode_set_branch. cbn [listNode_set_fresh].
  unfold empty_slots at 1. rewrite lookup_replicate_2 by apply listFrag_nat_lt.
  do 4 f_equal. lia.
Qed.

Lemma listNode_set_fresh_wf d A v : node_wf d (listNode_set_fresh d A v).
Proof.
  induction d as [|d IH]; cbn [listNode_set_fresh].
  - constructor. by rewrite length_insert.
  - constructor; [by rewrite length_insert|].
    intros i child Hi. destruct (decide (i = Z.to_nat (listFrag A (Z.of_nat (S d))))) as [->|Hne].
    + rewrite list_lookup_insert_eq in Hi by apply listFrag_nat_lt. by injection Hi as <-.
    + rewrite list_lookup_insert_ne in Hi by done.
      unfold empty_slots in Hi. by apply lookup_replicate in Hi as [[=] _].
Qed.

Lemma listNode_set_fresh_get d A v :
  listNode_get (listNode_set_fresh d A v) A = Ok v.
Proof.
  induction d as [|d IH]; cbn [listNode_set_fresh].
  - simpl. unfold slot. rewrite list_lookup_insert_eq; [done|].
    rewrite land_mask. pose proof (Z.mod_pos_bound A 32). unfold empty_slots.
    rewrite length_replicate. lia.
  - rewrite listNode_get_branch, list_lookup_insert_eq by apply listFrag_nat_lt. done.
Qed.

Lemma listNode_set_wf d n A v : node_wf d n → node_wf d (listNode_set n A v).
Proof.
  induction 1 as [slots Hlen|d children Hlen Hchildren IH].
  - constructor. by rewrite length_insert.
  - rewrite listNode_set_branch. constructor; [by rewrite length_insert|].
    intros i child Hi.
    destruct (decide (i = Z.to_nat (listFrag A (Z.of_nat (S d))))) as [->|Hne].
    + rewrite list_lookup_insert_eq in Hi by (rewrite Hlen; apply listFrag_nat_lt).
      injection Hi as <-.
      destruct (children !! _) as [[c|]|] eqn:Hc.
      * by eapply IH.
      * replace (Z.to_nat (Z.of_nat (S d) - 1)) with d by lia.
        apply listNode_set_fresh_wf.
      * replace (Z.to_nat (Z.of_nat (S d) - 1)) with d by lia.
        apply listNode_set_fresh_wf.
    + rewrite list_lookup_insert_ne in Hi by done. by eapply Hchildren.
Qed.

Lemma listNode_set_get_same d n A v :
  node_wf d n → listNode_get (listNode_set n A v) A = Ok v.
Proof.
  induction 1 as [slots Hlen|d children Hlen Hchildren IH].
  - simpl. unfold slot. rewrite list_lookup_insert_eq; [done|].
    rewrite land_mask. pose proof (Z.mod_pos_bound A 32). lia.
  - rewrite listNode_set_branch, listNode_get_branch.
    rewrite list_lookup_insert_eq by (rewrite Hlen; apply listFrag_nat_lt).
    destruct (children !! _) as [[c|]|] eqn:Hc.
    + by eapply IH.
    + apply listNode_set_fresh_get.
    + apply listNode_set_fresh_get.
Qed.

(** [get] looks at the address modulo the span of the node. *)
Lemma listNode_get_norm d n A :
  node_wf d n → listNode_get n (A `mod` weight (S d)) = listNode_get n A.
Proof.
  intros Hwf. revert A.
  induction Hwf as [slots Hlen|d children Hlen Hchildren IH]; intros A.
  - simpl. rewrite !land_mask. change (weight 1) with 32.
    by rewrite Z.mod_mod by lia.
  - rewrite !listNode_get_branch, listFrag_mod.
    destruct (children !! _) as [[c|]|] eqn:Hc; [|done..].
    rewrite <-(IH _ _ Hc), <-(IH _ _ Hc A), mod_weight_S. done.
Qed.

Lemma listNode_get_congr d n A A' :
  node_wf d n → A `mod` weight (S d) = A' `mod` weight (S d) →
  listNode_get n A = listNode_get n A'.
Proof.
  intros Hwf Heq.
  by rewrite <-(listNode_get_norm d n A), <-(listNode_get_norm d n A'), Heq.
Qed.

(** [set] keeps what [get] finds at every other address. *)
Lemma listNode_set_get_other d n A A' v x :
  node_wf d n → A `mod` weight (S d) ≠ A' `mod` weight (S d) →
  listNode_get n A' = Ok x →
  listNode_get (listNode_set n A v) A' = Ok x.
Proof.
  intros Hwf. revert A A'.
  induction Hwf as [slots Hlen|d children Hlen Hchildren IH]; intros A A' Hne.
  - simpl. unfold slot. rewrite !land_mask. change (weight 1) with 32 in Hne.
    rewrite list_lookup_insert_ne; [done|].
    pose proof (Z.mod_pos_bound A 32). pose proof (Z.mod_pos_bound A' 32). lia.
  - rewrite listNode_set_branch, !listNode_get_branch.
    destruct (decide (Z.to_nat (listFrag A (Z.of_nat (S d)))
                      = Z.to_nat (listFrag A' (Z.of_nat (S d))))) as [Heq|Hfrag].
    + rewrite <-Heq.
      rewrite list_lookup_insert_eq by (rewrite Hlen; apply listFrag_nat_lt).
      destruct (children !! _) as [[c|]|] eqn:Hc; [|done..].
      apply (IH _ _ Hc). intros Hmod. apply Hne.
      rewrite !(address_split _ (S d)), Hmod.
      pose proof (listFrag_nat A (Z.of_nat (S d))).
      pose proof (listFrag_nat A' (Z.of_nat (S d))). lia.
    + by rewrite list_lookup_insert_ne.
Qed.

(** [set] never loses a path. *)
Lemma listNode_set_get_Ok d n A A' v x :
  node_wf d n → listNode_get n A' = Ok x →
  ∃ y, listNode_get (listNode_set n A v) A' = Ok y.
Proof.
  intros Hwf Hget.
  destruct (decide (A `mod` weight (S d) = A' `mod` weight (S d))) as [Heq|Hne].
  - exists v. rewrite <-(listNode_get_congr d _ A A') by (by apply listNode_set_wf || done).
    by eapply listNode_set_get_same.
  - exists x. by eapply listNode_set_get_other.
Qed.
End ListNodes.

(** ** List: dropping the references before and after a range *)

Section Keep.
Context {A : Type}.
Implicit Types (l : list (option A)).

Lemma length_keep_from (i : Z) l :
  (Z.to_nat i ≤ length l)%nat → length (keep_from i l) = length l.
Proof.
  intros Hi. unfold keep_from. rewrite length_app, length_replicate, length_drop. lia.
Qed.

Lemma lookup_keep_from_ge (i : Z) l (j : nat) :
  (Z.to_nat i ≤ j)%nat → keep_from i l !! j = l !! j.
Proof.
  intros Hj. unfold keep_from.
  rewrite lookup_app_r by (rewrite length_replicate; lia).
  rewrite length_replicate, lookup_drop. f_equal. lia.
Qed.

Lemma lookup_keep_from_Some (i : Z) l (j : nat) (x : A) :
  keep_from i l !! j = Some (Some x) → l !! j = Some (Some x).
Proof.
  destruct (decide (Z.to_nat i ≤ j)%nat).
  - by rewrite lookup_keep_from_ge.
  - unfold keep_from. rewrite lookup_app_l by (rewrite length_replicate; lia).
    by intros [[=] _]%lookup_replicate.
Qed.

Lemma length_keep_upto (u : Z) l : length (keep_upto u l) = length l.
Proof.
  unfold keep_upto. rewrite length_app, length_take, length_replicate. lia.
Qed.

Lemma lookup_keep_upto_lt (u : Z) l (j : nat) :
  (j < Z.to_nat u)%nat → keep_upto u l !! j = l !! j.
Proof.
  intros Hj. unfold keep_upto.
  destruct (decide (j < length l)%nat).
  - rewrite lookup_app_l by (rewrite length_take; lia). by apply lookup_take_lt.
  - rewrite !lookup_ge_None_2; [done|lia|].
    rewrite length_app, length_take, length_replicate. lia.
Qed.

Lemma lookup_keep_upto_Some (u : Z) l (j : nat) (x : A) :
  keep_upto u l !! j = Some (Some x) → l !! j = Some (Some x).
Proof.
  destruct (decide (j < Z.to_nat u)%nat).
  - by rewrite lookup_keep_upto_lt.
  - unfold keep_upto. destruct (decide (Z.to_nat u ≤ length l)%nat).
    + rewrite lookup_app_r by (rewrite length_take; lia).
      by intros [[=] _]%lookup_replicate.
    + rewrite take_ge by lia. replace (length l - Z.to_nat u)%nat with 0%nat by lia.
      simpl. rewrite app_nil_r. done.
Qed.
End Keep.

Section ListDelete.
Context {V : Type}.
Implicit Types (n child : listNode V) (v : option V).
Implicit Types (children : list (option (listNode V))).

Lemma listNode_deleteBefore_branch d children index :
  listNode_deleteBefore (listBranchNode d children) index
  = if negb (listNode_containsBefore (listBranchNode d children) index)
    then listBranchNode d children
    else
      let idx := listFrag index d in
      listBranchNode d
        (match children !! Z.to_nat idx with
         | Some (Some child) =>
             <[Z.to_nat idx := Some (listNode_deleteBefore child index)]>
               (keep_from idx children)
         | _ => keep_from idx children
         end).
Proof.
  cbn [listNode_deleteBefore]. destruct (negb _); [done|].
  cbv zeta. rewrite at_index_lookup. by destruct (children !! _) as [[?|]|].
Qed.

Lemma listNode_deleteAfter_branch d children index :
  listNode_deleteAfter (listBranchNode d children) index
  = if negb (listNode_containsAfter (listBranchNode d children) index)
    then listBranchNode d children
    else
      let idx := listFrag index d in
      listBranchNode d
        (match children !! Z.to_nat idx with
         | Some (Some child) =>
             <[Z.to_nat idx := Some (listNode_deleteAfter child index)]>
               (keep_upto (idx + 1) children)
         | _ => keep_upto (idx + 1) children
         end).
Proof.
  cbn [listNode_deleteAfter]. destruct (negb _); [done|].
  cbv zeta. rewrite at_index_lookup. by destruct (children !! _) as [[?|]|].
Qed.

Lemma listNode_deleteBefore_wf d n index :
  node_wf d n → node_wf d (listNode_deleteBefore n index).
Proof.
  induction 1 as [slots Hlen|d children Hlen Hchildren IH].
  - cbn [listNode_deleteBefore]. destruct (negb _); [by constructor|].
    constructor. rewrite length_keep_from; [done|].
    rewrite land_mask, Hlen. pose proof (Z.mod_pos_bound index 32). lia.
  - rewrite listNode_deleteBefore_branch. destruct (negb _); [by constructor|].
    cbv zeta. pose proof (listFrag_nat_lt index (Z.of_nat (S d))) as Hf.
    set (f := listFrag index (Z.of_nat (S d))) in *.
    assert (length (keep_from f children) = 32%nat) as Hk
      by (rewrite length_keep_from; lia).
    destruct (children !! Z.to_nat f) as [[c|]|] eqn:Hc.
    + constructor; [by rewrite length_insert|].
      intros i child Hi. destruct (decide (i = Z.to_nat f)) as [->|Hne].
      * rewrite list_lookup_insert_eq in Hi by lia. injection Hi as <-. by eapply IH.
      * rewrite list_lookup_insert_ne in Hi by done.
        apply lookup_keep_from_Some in Hi. by eapply Hchildren.
    + constructor; [done|]. intros i child Hi%lookup_keep_from_Some. by eapply Hchildren.
    + constructor; [done|]. intros i child Hi%lookup_keep_from_Some. by eapply Hchildren.
Qed.

Lemma listNode_deleteAfter_wf d n index :
  node_wf d n → node_wf d (listNode_deleteAfter n index).
Proof.
  induction 1 as [slots Hlen|d children Hlen Hchildren IH].
  - cbn [listNode_deleteAfter]. destruct (negb _); [by constructor|].
    constructor. by rewrite length_keep_upto.
  - rewrite listNode_deleteAfter_branch. destruct (negb _); [by constructor|].
    cbv zeta. pose proof (listFrag_nat_lt index (Z.of_nat (S d))) as Hf.
    set (f := listFrag index (Z.of_nat (S d))) in *.
    assert (length (keep_upto (f + 1) children) = 32%nat) as Hk
      by (by rewrite length_keep_upto).
    destruct (children !! Z.to_nat f) as [[c|]|] eqn:Hc.
    + constructor; [by rewrite length_insert|].
      intros i child Hi. destruct (decide (i = Z.to_nat f)) as [->|Hne].
      * rewrite list_lookup_insert_eq in Hi by lia. injection Hi as <-. by eapply IH.
      * rewrite list_lookup_insert_ne in Hi by done.
        apply lookup_keep_upto_Some in Hi. by eapply Hchildren.
    + constructor; [done|]. intros i child Hi%lookup_keep_upto_Some. by eapply Hchildren.
    + constructor; [done|]. intros i child Hi%lookup_keep_upto_Some. by eapply Hchildren.
Qed.

(** Two addresses below a node, in order: their slots are in order, and
    within one slot the addresses below it are. *)
Lemma address_order A B d :
  A `mod` weight (S d) ≤ B `mod` weight (S d) →
  listFrag A (Z.of_nat d) < listFrag B (Z.of_nat d)
  ∨ (listFrag A (Z.of_nat d) = listFrag B (Z.of_nat d)
     ∧ A `mod` weight d ≤ B `mod` weight d).
Proof.
  rewrite !address_split. pose proof (weight_pos d).
  pose proof (Z.mod_pos_bound A (weight d)). pose proof (Z.mod_pos_bound B (weight d)).
  intros Hle.
  destruct (Z.lt_trichotomy (listFrag A (Z.of_nat d)) (listFrag B (Z.of_nat d)))
    as [?|[Heq|?]]; [by left | right | nia].
  split; [done|]. rewrite Heq in Hle. lia.
Qed.

(** [deleteBefore] keeps what [get] finds from the index on. *)
Lemma listNode_deleteBefore_get d n index A :
  node_wf d n → index `mod` weight (S d) ≤ A `mod` weight (S d) →
  listNode_get (listNode_deleteBefore n index) A = listNode_get n A.
Proof.
  intros Hwf. revert index A.
  induction Hwf as [slots Hlen|d children Hlen Hchildren IH]; intros index A Hle.
  - cbn [listNode_deleteBefore]. destruct (negb _); [done|].
    simpl. unfold slot. rewrite !land_mask. change (weight 1) with 32 in Hle.
    rewrite lookup_keep_from_ge; [done|].
    pose proof (Z.mod_pos_bound index 32). lia.
  - rewrite listNode_deleteBefore_branch. destruct (negb _); [done|].
    cbv zeta. rewrite !listNode_get_branch.
    pose proof (listFrag_range index (Z.of_nat (S d))).
    pose proof (listFrag_range A (Z.of_nat (S d))).
    assert (length (keep_from (listFrag index (Z.of_nat (S d))) children) = 32%nat) as Hk
      by (rewrite length_keep_from; lia).
    destruct (address_order index A (S d) Hle) as [Hlt|[Heq Hlow]].
    + assert (keep_from (listFrag index (Z.of_nat (S d))) children
                !! Z.to_nat (listFrag A (Z.of_nat (S d)))
              = children !! Z.to_nat (listFrag A (Z.of_nat (S d)))) as Hkeep
        by (apply lookup_keep_from_ge; lia).
      destruct (children !! Z.to_nat (listFrag index _)) as [[c|]|] eqn:Hc.
      * rewrite list_lookup_insert_ne, Hkeep by lia. done.
      * by rewrite Hkeep.
      * by rewrite Hkeep.
    + rewrite <-Heq.
      destruct (children !! Z.to_nat (listFrag index _)) as [[c|]|] eqn:Hc.
      * rewrite list_lookup_insert_eq by lia. by eapply IH.
      * rewrite lookup_keep_from_ge, Hc by lia. done.
      * rewrite lookup_keep_from_ge, Hc by lia. done.
Qed.

(** [deleteAfter] keeps what [get] finds up to the index. *)
Lemma listNode_deleteAfter_get d n index A :
  node_wf d n → A `mod` weight (S d) ≤ index `mod` weight (S d) →
  listNode_get (listNode_deleteAfter n index) A = listNode_get n A.
Proof.
  intros Hwf. revert index A.
  induction Hwf as [slots Hlen|d children Hlen Hchildren IH]; intros index A Hle.
  - cbn [listNode_deleteAfter]. destruct (negb _); [done|].
    simpl. unfold slot. rewrite !land_mask. change (weight 1) with 32 in Hle.
    rewrite lookup_keep_upto_lt; [done|].
    pose proof (Z.mod_pos_bound index 32). pose proof (Z.mod_pos_bound A 32). lia.
  - rewrite listNode_deleteAfter_branch. destruct (negb _); [done|].
    cbv zeta. rewrite !listNode_get_branch.
    pose proof (listFrag_range index (Z.of_nat (S d))).
    pose proof (listFrag_range A (Z.of_nat (S d))).
    assert (length (keep_upto (listFrag index (Z.of_nat (S d)) + 1) children) = 32%nat)
      as Hk by (by rewrite length_keep_upto).
    destruct (address_order A index (S d) Hle) as [Hlt|[Heq Hlow]].
    + assert (keep_upto (listFrag index (Z.of_nat (S d)) + 1) children
                !! Z.to_nat (listFrag A (Z.of_nat (S d)))
              = children !! Z.to_nat (listFrag A (Z.of_nat (S d)))) as Hkeep
        by (apply lookup_keep_upto_lt; lia).
      destruct (children !! Z.to_nat (listFrag index _)) as [[c|]|] eqn:Hc.
      * rewrite list_lookup_insert_ne, Hkeep by lia. done.
      * by rewrite Hkeep.
      * by rewrite Hkeep.
    + rewrite Heq.
      destruct (children !! Z.to_nat (listFrag index _)) as [[c|]|] eqn:Hc.
      * rewrite list_lookup_insert_eq by lia. by eapply IH.
      * rewrite lookup_keep_upto_lt, Hc by lia. done.
      * rewrite lookup_keep_upto_lt, Hc by lia. done.
Qed.
End ListDelete.

(** ** List: the façade *)

Section ListFacade.
Context {V : Type}.
Implicit Types (n child root : listNode V) (v : option V) (l : List V).
Implicit Types (children : list (option (listNode V))).

(** A list whose root is a well-formed node of some depth [d], whose
    range fits the span of the root, and whose elements all have a path. *)
Definition List_wf (l : List V) : Prop :=
  ∃ d, node_wf d (list_root l)
       ∧ 0 ≤ list_origin l
       ∧ 0 ≤ list_size l
       ∧ list_origin l + list_size l ≤ weight (S d)
       ∧ ∀ i, 0 ≤ i < list_size l →
              ∃ x, listNode_get (list_root l) (list_origin l + i) = Ok x.

(** The lists that a client can build. *)
Inductive List_reachable : List V → Prop :=
| List_reachable_new : List_reachable NewList
| List_reachable_set l index v l' :
    List_reachable l → List_Set l index v = Ok l' → List_reachable l'
| List_reachable_append l v : List_reachable l → List_reachable (List_Append l v)
| List_reachable_prepend l v : List_reachable l → List_reachable (List_Prepend l v)
| List_reachable_slice l start end_ l' :
    List_reachable l → List_Slice l start end_ = Ok l' → List_reachable l'.

Lemma shiftl_weight (i : Z) (d : nat) :
  Z.shiftl i (Z.of_nat d * listNodeBits) = i * weight d.
Proof. rewrite Z.shiftl_mul_pow2 by (unfold listNodeBits; lia). by rewrite weight_shift. Qed.

(** A root grown by one level, with the old root in slot [i]. *)
Lemma grown_root_wf d root (i : nat) :
  node_wf d root → (i < 32)%nat →
  node_wf (S d) (listBranchNode (Z.of_nat (S d)) (<[i := Some root]> empty_slots)).
Proof.
  intros Hwf Hi. constructor; [by rewrite length_insert|].
  intros j child Hj. destruct (decide (j = i)) as [->|Hne].
  - rewrite list_lookup_insert_eq in Hj by done. by injection Hj as <-.
  - rewrite list_lookup_insert_ne in Hj by done.
    unfold empty_slots in Hj. by apply lookup_replicate in Hj as [[=] _].
Qed.

Lemma grown_root_get d root (i : nat) A :
  node_wf d root → (i < 32)%nat →
  listFrag A (Z.of_nat (S d)) = Z.of_nat i →
  listNode_get (listBranchNode (Z.of_nat (S d)) (<[i := Some root]> empty_slots)) A
  = listNode_get root A.
Proof.
  intros Hwf Hi Hfrag. rewrite listNode_get_branch, Hfrag, Nat2Z.id.
  by rewrite list_lookup_insert_eq by done.
Qed.

Lemma listFrag_small A d : 0 ≤ A < weight d → listFrag A (Z.of_nat d) = 0.
Proof.
  intros HA. rewrite listFrag_div, Z.div_small by done. done.
Qed.

Lemma NewList_wf : List_wf NewList.
Proof.
  exists 0%nat. split; [by constructor|]. simpl.
  split; [done|]. split; [done|]. split; [done|]. intros i Hi. lia.
Qed.

Lemma List_Set_wf l index v l' :
  List_wf l → List_Set l index v = Ok l' → List_wf l'.
Proof.
  intros (d & Hroot & Ho & Hs & Hb & Hpaths). unfold List_Set.
  destruct (_ || _); [done|]. intros [= <-]. exists d. simpl.
  split; [by apply listNode_set_wf|]. do 3 (split; [done|]).
  intros i Hi. destruct (Hpaths i Hi) as [x Hx]. by eapply listNode_set_get_Ok.
Qed.

Lemma List_Append_wf l v : List_wf l → List_wf (List_Append l v).
Proof.
  intros (d & Hroot & Ho & Hs & Hb & Hpaths). unfold List_Append, List_cap.
  rewrite (node_wf_depth d _ Hroot).
  pose proof (weight_pos d). pose proof (weight_S d) as HS.
  pose proof (weight_S (S d)) as HSS.
  rewrite Z.shiftl_1_l, weight_shift, Z.geb_leb.
  destruct (Z.leb_spec (weight d) (list_size l + list_origin l)) as [Hge|Hlt].
  - exists (S d). cbn [list_root list_origin list_size].
    replace (Z.of_nat d + 1) with (Z.of_nat (S d)) by lia.
    assert (Hg := grown_root_wf d _ 0 Hroot ltac:(lia)).
    split. { apply listNode_set_wf. exact Hg. }
    split.
    { done. }
    split.
    { lia. }
    split.
    { lia. }
    intros i Hi. destruct (Z.eq_dec i (list_size l)) as [Heq|Hne]; [subst i|].
    + exists v. replace (list_origin l + (list_size l + 1) - 1)
        with (list_origin l + list_size l) by lia.
      by eapply listNode_set_get_same.
    + destruct (Hpaths i ltac:(lia)) as [x Hx].
      eapply listNode_set_get_Ok; [done|].
      rewrite (grown_root_get d); [done | done | lia |].
      simpl. apply listFrag_small. lia.
  - exists d. cbn [list_root list_origin list_size].
    split; [by apply listNode_set_wf|]. split; [done|]. split; [lia|]. split; [lia|].
    intros i Hi. destruct (Z.eq_dec i (list_size l)) as [Heq|Hne]; [subst i|].
    + exists v. replace (list_origin l + (list_size l + 1) - 1)
        with (list_origin l + list_size l) by lia.
      by eapply listNode_set_get_same.
    + destruct (Hpaths i ltac:(lia)) as [x Hx]. by eapply listNode_set_get_Ok.
Qed.
End ListFacade.

Section ListSlice.
Context {V : Type}.
Implicit Types (n child root : listNode V) (v : option V) (l : List V).
Implicit Types (children : list (option (listNode V))).

Lemma List_Prepend_wf l v : List_wf l → List_wf (List_Prepend l v).
Proof.
  intros (d & Hroot & Ho & Hs & Hb & Hpaths). unfold List_Prepend.
  pose proof (weight_pos d). pose proof (weight_S d) as HS.
  pose proof (weight_S (S d)) as HSS.
  destruct (Z.eqb_spec (list_origin l) 0) as [Hz|Hnz].
  - cbn [listNode_depth]. rewrite (node_wf_depth d _ Hroot).
    replace (Z.of_nat d + 1) with (Z.of_nat (S d)) by lia.
    rewrite shiftl_weight. change (listNodeSize - 1) with 31.
    change (Z.to_nat 31) with 31%nat.
    assert (Hg := grown_root_wf d _ 31 Hroot ltac:(lia)).
    exists (S d). cbn [list_root list_origin list_size]. rewrite Hz in *.
    split; [by apply listNode_set_wf|]. split; [lia|]. split; [lia|]. split; [lia|].
    intros i Hi. destruct (Z.eq_dec i 0) as [->|Hne].
    + exists v. rewrite Z.add_0_r. by eapply listNode_set_get_same.
    + destruct (Hpaths (i - 1) ltac:(lia)) as [x Hx].
      eapply listNode_set_get_Ok; [done|].
      rewrite (grown_root_get d); [|done|lia|].
      * rewrite <-Hx. apply (listNode_get_congr d); [done|].
        replace (0 + 31 * weight (S d) - 1 + i) with (0 + (i - 1) + 31 * weight (S d)) by lia.
        by rewrite Z.mod_add by lia.
      * rewrite listFrag_div.
        replace (0 + 31 * weight (S d) - 1 + i) with ((i - 1) + 31 * weight (S d)) by lia.
        rewrite Z.div_add, Z.div_small by lia. done.
  - exists d. cbn [list_root list_origin list_size].
    split; [by apply listNode_set_wf|]. split; [lia|]. split; [lia|]. split; [lia|].
    intros i Hi. destruct (Z.eq_dec i 0) as [->|Hne].
    + exists v. rewrite Z.add_0_r. by eapply listNode_set_get_same.
    + destruct (Hpaths (i - 1) ltac:(lia)) as [x Hx].
      eapply listNode_set_get_Ok; [done|].
      replace (list_origin l - 1 + i) with (list_origin l + (i - 1)) by lia. done.
Qed.

(** The loop of [Slice] returns a root for the same elements. [W] is an
    address with a path at one end of the range: it keeps the loop from
    stepping into an absent child. *)
Lemma List_Slice_contract_spec d root :
  node_wf d root → ∀ origin size W,
  0 ≤ origin → 0 ≤ size → origin + size ≤ weight (S d) →
  (W = origin ∨ W = origin + size - 1) →
  (∃ x, listNode_get root W = Ok x) →
  ∃ d' root' origin',
    List_Slice_contract root origin size = Ok (root', origin')
    ∧ node_wf d' root'
    ∧ 0 ≤ origin'
    ∧ origin' + size ≤ weight (S d')
    ∧ ∀ i, 0 ≤ i < size →
           listNode_get root' (origin' + i) = listNode_get root (origin + i).
Proof.
  induction 1 as [slots Hlen|d children Hlen Hchildren IH];
    intros origin size W Ho Hs Hb HW [x Hx].
  - exists 0%nat, (listLeafNode slots), origin. split; [done|].
    split; [by constructor|]. done.
  - cbn [List_Slice_contract].
    assert (Hstay : ∃ d' root' origin',
              Ok (listBranchNode (Z.of_nat (S d)) children, origin) = Ok (root', origin')
              ∧ node_wf d' root' ∧ 0 ≤ origin' ∧ origin' + size ≤ weight (S d')
              ∧ ∀ i, 0 ≤ i < size →
                     listNode_get root' (origin' + i)
                     = listNode_get (listBranchNode (Z.of_nat (S d)) children) (origin + i)).
    { exists (S d), (listBranchNode (Z.of_nat (S d)) children), origin.
      split; [done|]. split; [by constructor|]. done. }
    destruct (Z.of_nat (S d) >? 1); [|exact Hstay].
    destruct (Z.eqb_spec (listFrag origin (Z.of_nat (S d)))
                         (listFrag (origin + size - 1) (Z.of_nat (S d)))) as [Heq|Hne];
      [|exact Hstay].
    cbn [negb]. clear Hstay. rewrite at_index_lookup, shiftl_weight.
    pose proof (weight_pos (S d)) as Hw. pose proof (weight_S (S d)) as HS.
    pose proof (listFrag_range origin (Z.of_nat (S d))) as Hi.
    set (i := listFrag origin (Z.of_nat (S d))) in *.
    (* the range does not start at the very end of the span *)
    assert (origin < weight (S (S d))) as Ho'.
    { destruct (Z.eq_dec origin (weight (S (S d)))) as [Hfull|]; [|lia].
      exfalso. assert (size = 0) by lia. subst size.
      assert (i = 0) as Hi0.
      { unfold i. rewrite listFrag_div, Hfull, HS.
        replace (weight (S d) * 32) with (32 * weight (S d)) by lia.
        rewrite Z.div_mul by lia. done. }
      rewrite Z.add_0_r, Hfull, listFrag_div in Heq.
      replace (weight (S (S d)) - 1) with (weight (S d) * 31 + (weight (S d) - 1)) in Heq by lia.
      rewrite Z.mul_comm, Z.div_add_l, Z.div_small in Heq by lia.
      rewrite Hi0 in Heq. done. }
    assert (origin `mod` weight (S (S d)) = origin) as Homod by (apply Z.mod_small; lia).
    pose proof (address_split origin (S d)) as Hosplit. rewrite Homod in Hosplit.
    pose proof (Z.mod_pos_bound origin (weight (S d)) Hw) as Holow.
    fold i in Hosplit.
    (* the witness address lies in slot [i] *)
    assert (listFrag W (Z.of_nat (S d)) = i) as HWi.
    { destruct HW as [->| ->]; [done | by rewrite <-Heq]. }
    rewrite listNode_get_branch, HWi in Hx.
    destruct (children !! Z.to_nat i) as [[child|]|] eqn:Hchild; [|done..].
    destruct (IH _ _ Hchild (origin - i * weight (S d)) size (W - i * weight (S d)))
      as (d' & root' & origin' & Hrec & Hwf' & Ho'' & Hb' & Hget').
    + lia.
    + done.
    + destruct (Z.eq_dec size 0) as [->|Hpos]; [lia|].
      pose proof (address_split (origin + size - 1) (S d)) as Hesplit.
      rewrite (Z.mod_small (origin + size - 1)) in Hesplit by lia.
      rewrite <-Heq in Hesplit.
      pose proof (Z.mod_pos_bound (origin + size - 1) (weight (S d)) Hw). lia.
    + lia.
    + exists x. rewrite <-Hx. apply (listNode_get_congr d); [by eapply Hchildren|].
      replace (W - i * weight (S d)) with (W + (- i) * weight (S d)) by lia.
      by rewrite Z.mod_add by lia.
    + exists d', root', origin'. split; [done|]. split; [done|]. split; [done|].
      split; [done|]. intros j Hj. rewrite Hget' by done.
      rewrite listNode_get_branch.
      rewrite (listFrag_between origin (origin + j) (origin + size - 1)) by (lia || done).
      fold i. rewrite Hchild.
      apply (listNode_get_congr d); [by eapply Hchildren|].
      replace (origin - i * weight (S d) + j) with (origin + j + (- i) * weight (S d)) by lia.
      by rewrite Z.mod_add by lia.
Qed.

Lemma List_Slice_wf_spec l a b :
  List_wf l → 0 ≤ a → a ≤ b → b ≤ List_Len l →
  ∃ l', List_Slice l a b = Ok l'
        ∧ List_wf l'
        ∧ List_Len l' = b - a
        ∧ ∀ i, 0 ≤ i < b - a →
               List_Get l' i = List_Get l (a + i)
               ∧ ∃ x, List_Get l (a + i) = Ok x.
Proof.
  intros Hwf Ha Hab Hb. unfold List_Len in *.
  assert (Hget0 : ∀ i, 0 ≤ i < b - a → ∃ x, List_Get l (a + i) = Ok x).
  { intros i Hi. destruct Hwf as (d & Hroot & Ho & Hs & Hbound & Hpaths).
    unfold List_Get.
    destruct (Z.ltb_spec (a + i) 0); [lia|].
    destruct (Z.geb_spec (a + i) (list_size l)); [lia|]. cbn [orb].
    apply Hpaths. lia. }
  unfold List_Slice.
  destruct (Z.ltb_spec a 0); [lia|]. destruct (Z.gtb_spec a (list_size l)); [lia|].
  destruct (Z.ltb_spec b 0); [lia|]. destruct (Z.gtb_spec b (list_size l)); [lia|].
  destruct (Z.gtb_spec a b); [lia|]. cbn [orb].
  destruct ((a =? 0) && (b =? list_size l)) eqn:Hwhole.
  { apply andb_true_iff in Hwhole as [->%Z.eqb_eq ->%Z.eqb_eq].
    exists l. split; [done|]. split; [done|]. split; [lia|].
    intros i Hi. split; [done|]. by apply Hget0. }
  assert (0 < list_size l) as Hnonempty.
  { apply andb_false_iff in Hwhole as [Hne%Z.eqb_neq|Hne%Z.eqb_neq]; lia. }
  destruct Hwf as (d & Hroot & Ho & Hs & Hbound & Hpaths). cbv zeta.
  destruct (List_Slice_contract_spec d _ Hroot (list_origin l + a) (b - a)
              (if decide (a < list_size l) then list_origin l + a
               else list_origin l + a + (b - a) - 1))
    as (d' & root' & origin' & Hrec & Hwf' & Ho' & Hb' & Hget'); [lia..| | |].
  { case_decide; [by left|by right]. }
  { case_decide; [apply Hpaths; lia|].
    replace (list_origin l + a + (b - a) - 1)
      with (list_origin l + (list_size l - 1)) by lia.
    apply Hpaths. lia. }
  rewrite Hrec. cbn [mbind result_bind].
  eexists. split; [done|]. cbn [list_root list_origin list_size].
  pose proof (weight_pos (S d')) as Hw.
  assert (Hsame : ∀ i, 0 ≤ i < b - a →
            listNode_get (listNode_deleteAfter (listNode_deleteBefore root' origin')
                                               (origin' + (b - a) - 1)) (origin' + i)
            = listNode_get (list_root l) (list_origin l + (a + i))).
  { intros i Hi.
    rewrite (listNode_deleteAfter_get d'), (listNode_deleteBefore_get d'), Hget'; try done.
    - f_equal. lia.
    - rewrite !Z.mod_small by lia. lia.
    - by apply listNode_deleteBefore_wf.
    - rewrite !Z.mod_small by lia. lia. }
  split; [|split; [done|]].
  - exists d'. cbn [list_root list_origin list_size].
    split; [by apply listNode_deleteAfter_wf, listNode_deleteBefore_wf|].
    split; [done|]. split; [lia|]. split; [done|].
    intros i Hi. rewrite Hsame by done. apply Hpaths. lia.
  - intros i Hi. split; [|by apply Hget0].
    unfold List_Get. cbn [list_root list_origin list_size].
    destruct (Z.ltb_spec i 0); [lia|]. destruct (Z.geb_spec i (b - a)); [lia|].
    destruct (Z.ltb_spec (a + i) 0); [lia|].
    destruct (Z.geb_spec (a + i) (list_size l)); [lia|]. cbn [orb].
    by apply Hsame.
Qed.

Lemma List_reachable_wf l : List_reachable l → List_wf l.
Proof.
  induction 1 as [|l index v l' _ IH Hset|l v _ IH|l v _ IH|l a b l' _ IH Hslice].
  - apply NewList_wf.
  - by eapply List_Set_wf.
  - by apply List_Append_wf.
  - by apply List_Prepend_wf.
  - assert (0 ≤ a ∧ a ≤ b ∧ b ≤ List_Len l) as (Ha & Hab & Hb).
    { unfold List_Slice, List_Len in *.
      destruct (Z.ltb_spec a 0); [done|]. destruct (Z.gtb_spec a (list_size l)); [done|].
      destruct (Z.ltb_spec b 0); [done|]. destruct (Z.gtb_spec b (list_size l)); [done|].
      destruct (Z.gtb_spec a b); [done|]. lia. }
    destruct (List_Slice_wf_spec l a b IH Ha Hab Hb) as (l'' & Hs & Hwf & _).
    congruence.
Qed.
End ListSlice.

(** ** [sort.Search] *)

Lemma search_loop_spec (f : Z → bool) (fuel : nat) (i j : Z) :
  i ≤ j → j - i ≤ Z.of_nat fuel →
  i ≤ search_loop fuel f i j ≤ j
  ∧ (search_loop fuel f i j < j → f (search_loop fuel f i j) = true)
  ∧ (i < search_loop fuel f i j → f (search_loop fuel f i j - 1) = false).
Proof.
  revert i j. induction fuel as [|fuel IH]; intros i j Hij Hfuel.
  - cbn [search_loop]. lia.
  - cbn [search_loop]. destruct (Z.ltb_spec i j) as [Hlt|Hge]; [|lia].
    rewrite Z.shiftr_div_pow2 by lia. change (2 ^ 1) with 2.
    assert (i ≤ (i + j) `div` 2 < j) as Hh.
    { split; [apply Z.div_le_lower_bound; lia | apply Z.div_lt_upper_bound; lia]. }
    set (h := (i + j) `div` 2) in *.
    destruct (f h) eqn:Hfh; cbn [negb].
    + destruct (IH i h) as (Hr & Ht & Hf); [lia..|].
      split; [lia|]. split; [|done].
      intros _. destruct (Z.eq_dec (search_loop fuel f i h) h) as [->|Hne]; [done|].
      apply Ht. lia.
    + destruct (IH (h + 1) j) as (Hr & Ht & Hf); [lia..|].
      split; [lia|]. split; [done|].
      intros _. destruct (Z.eq_dec (search_loop fuel f (h + 1) j) (h + 1)) as [->|Hne].
      * by replace (h + 1 - 1) with h by lia.
      * apply Hf. lia.
Qed.

Lemma sort_Search_spec (n : Z) (f : Z → bool) :
  0 ≤ n →
  0 ≤ sort_Search n f ≤ n
  ∧ (sort_Search n f < n → f (sort_Search n f) = true)
  ∧ (0 < sort_Search n f → f (sort_Search n f - 1) = false).
Proof. intros Hn. apply search_loop_spec; lia. Qed.

#[global] Opaque sort_Search.

(** ** Sorted maps: comparers, the in-order entries, well-formed trees *)

Section SortedSpec.
Context {K V : Type}.
Implicit Types (c : Comparer K) (n child : sortedMapNode K V).
Implicit Types (entries l : list (mapEntry K V)).
Implicit Types (elems : list (K * sortedMapNode K V)).

(** A comparer that orders the keys: [Compare] answers -1, 0 or 1 and is a
    total preorder. *)
Record Comparer_ok (c : Comparer K) : Prop := {
  compare_range a b : Compare c a b = -1 ∨ Compare c a b = 0 ∨ Compare c a b = 1;
  compare_refl a : Compare c a a = 0;
  compare_flip a b : Compare c a b = -1 ↔ Compare c b a = 1;
  compare_lt_trans a b d :
    Compare c a b = -1 → Compare c b d = -1 → Compare c a d = -1;
  compare_lt_eq a b d :
    Compare c a b = -1 → Compare c b d = 0 → Compare c a d = -1;
  compare_eq_lt a b d :
    Compare c a b = 0 → Compare c b d = -1 → Compare c a d = -1
}.

Lemma compare_eq_sym c a b : Comparer_ok c → Compare c a b = 0 → Compare c b a = 0.
Proof.
  intros Hc Hab. destruct (compare_range c Hc b a) as [H|[H|H]]; [|done|].
  - apply (compare_flip c Hc) in H. lia.
  - apply (compare_flip c Hc) in H. lia.
Qed.

(** [a ≤ b] and [b < d] give [a < d]. *)
Lemma compare_le_lt c a b d :
  Comparer_ok c → Compare c a b ≠ 1 → Compare c b d = -1 → Compare c a d = -1.
Proof.
  intros Hc Hab Hbd. destruct (compare_range c Hc a b) as [H|[H|H]]; [| |done].
  - by eapply compare_lt_trans.
  - by eapply compare_eq_lt.
Qed.

(** [a < b] and [b ≤ d] give [a < d]. *)
Lemma compare_lt_le c a b d :
  Comparer_ok c → Compare c a b = -1 → Compare c b d ≠ 1 → Compare c a d = -1.
Proof.
  intros Hc Hab Hbd. destruct (compare_range c Hc b d) as [H|[H|H]]; [| |done].
  - by eapply compare_lt_trans.
  - by eapply compare_lt_eq.
Qed.

(** The key/value pairs of a tree, left to right. *)
Fixpoint sortedMapNode_entries n : list (mapEntry K V) :=
  match n with
  | sortedMapBranchNode elems =>
      (fix go elems :=
         match elems with
         | [] => []
         | (_, child) :: rest => sortedMapNode_entries child ++ go rest
         end) elems
  | sortedMapLeafNode entries => entries
  end.

(** The pairs held by the children [elems] of a branch. *)
Definition elems_entries elems : list (mapEntry K V) :=
  sortedMapNode_entries (sortedMapBranchNode elems).

Lemma elems_entries_nil : elems_entries [] = [].
Proof. done. Qed.

Lemma elems_entries_cons k child elems :
  elems_entries ((k, child) :: elems) = sortedMapNode_entries child ++ elems_entries elems.
Proof. done. Qed.

Lemma elems_entries_app elems1 elems2 :
  elems_entries (elems1 ++ elems2) = elems_entries elems1 ++ elems_entries elems2.
Proof.
  induction elems1 as [|[k child] elems1 IH]; [done|].
  rewrite <-app_comm_cons, !elems_entries_cons, IH. by rewrite app_assoc.
Qed.

Lemma sortedMapNode_entries_branch elems :
  sortedMapNode_entries (sortedMapBranchNode elems) = elems_entries elems.
Proof. done. Qed.

(** The pairs of a branch, split at child [i]. *)
Lemma elems_entries_split elems (i : nat) k child :
  elems !! i = Some (k, child) →
  elems_entries elems
  = elems_entries (take i elems) ++ sortedMapNode_entries child
    ++ elems_entries (drop (S i) elems).
Proof.
  intros Hi. rewrite <-(take_drop_middle elems i (k, child)) at 1 by done.
  by rewrite elems_entries_app, elems_entries_cons.
Qed.

(** The number of pairs before child [i] of a branch. *)
Definition offset elems (i : nat) : nat := length (elems_entries (take i elems)).

(** Every entry is below each later one. *)
Definition entries_sorted c l : Prop :=
  ∀ (i j : nat) a b, l !! i = Some a → l !! j = Some b → (i < j)%nat →
                     Compare c (entry_key a) (entry_key b) = -1.

(** Nodes are non-empty, all leaves are at the same depth [h], and the key
    of a branch element is the lowest key of its child. *)
Inductive tree_wf : nat → sortedMapNode K V → Prop :=
| tree_wf_leaf entries :
    entries ≠ [] → tree_wf 0 (sortedMapLeafNode entries)
| tree_wf_branch h elems :
    elems ≠ [] →
    (∀ (i : nat) k child, elems !! i = Some (k, child) → tree_wf h child) →
    (∀ (i : nat) k child, elems !! i = Some (k, child) →
                          sortedMapNode_minKey child = Ok k) →
    tree_wf (S h) (sortedMapBranchNode elems).

Lemma entries_sorted_app_l c l1 l2 : entries_sorted c (l1 ++ l2) → entries_sorted c l1.
Proof.
  intros Hs i j a b Ha Hb Hij.
  apply (Hs i j); [by apply lookup_app_l_Some..|done].
Qed.

Lemma entries_sorted_app_r c l1 l2 : entries_sorted c (l1 ++ l2) → entries_sorted c l2.
Proof.
  intros Hs i j a b Ha Hb Hij.
  apply (Hs (length l1 + i)%nat (length l1 + j)%nat); [| |lia].
  - by rewrite lookup_app_r, Nat.add_comm, Nat.add_sub by lia.
  - by rewrite lookup_app_r, Nat.add_comm, Nat.add_sub by lia.
Qed.

Lemma entries_sorted_app_lt c l1 l2 a b :
  entries_sorted c (l1 ++ l2) → a ∈ l1 → b ∈ l2 →
  Compare c (entry_key a) (entry_key b) = -1.
Proof.
  intros Hs [i Hi]%list_elem_of_lookup [j Hj]%list_elem_of_lookup.
  apply (Hs i (length l1 + j)%nat).
  - by apply lookup_app_l_Some.
  - by rewrite lookup_app_r, Nat.add_comm, Nat.add_sub by lia.
  - apply lookup_lt_Some in Hi. lia.
Qed.

Lemma entries_sorted_child c elems (i : nat) k child :
  entries_sorted c (elems_entries elems) → elems !! i = Some (k, child) →
  entries_sorted c (sortedMapNode_entries child).
Proof.
  intros Hs Hi. rewrite (elems_entries_split elems i k child Hi) in Hs.
  by eapply entries_sorted_app_l, entries_sorted_app_r.
Qed.

(** The lowest key of a well-formed tree is the key of its first pair. *)
Lemma tree_wf_minKey h n :
  tree_wf h n →
  ∃ e l, sortedMapNode_entries n = e :: l ∧ sortedMapNode_minKey n = Ok (entry_key e).
Proof.
  induction 1 as [entries Hne|h elems Hne _ IH Hkeys].
  - destruct entries as [|e l]; [done|]. by exists e, l.
  - destruct elems as [|[k child] elems]; [done|].
    destruct (IH 0%nat k child eq_refl) as (e & l & Hentries & Hmin).
    exists e, (l ++ elems_entries elems).
    rewrite sortedMapNode_entries_branch, elems_entries_cons, Hentries. done.
Qed.

Lemma tree_wf_nonempty h n : tree_wf h n → (0 < length (sortedMapNode_entries n))%nat.
Proof.
  intros (e & l & -> & _)%tree_wf_minKey. simpl. lia.
Qed.
End SortedSpec.

Section SortedSearch.
Context {K V : Type}.
Implicit Types (c : Comparer K) (n child : sortedMapNode K V).
Implicit Types (entries l : list (mapEntry K V)) (key : K).
Implicit Types (elems : list (K * sortedMapNode K V)).

(** The number of leading pairs whose key is below [key]: in a sorted
    list, the position of the first pair whose key is not below it. *)
Fixpoint rank c key l : nat :=
  match l with
  | [] => 0
  | e :: l' => if Compare c (entry_key e) key =? -1 then S (rank c key l') else 0
  end.

Lemma rank_le c key l : (rank c key l ≤ length l)%nat.
Proof.
  induction l as [|e l IH]; cbn [rank length]; [lia|].
  destruct (_ =? _); lia.
Qed.

Lemma rank_below c key l (i : nat) e :
  (i < rank c key l)%nat → l !! i = Some e → Compare c (entry_key e) key = -1.
Proof.
  revert i. induction l as [|e' l IH]; intros i; cbn [rank]; [lia|].
  destruct (Z.eqb_spec (Compare c (entry_key e') key) (-1)) as [Heq|Hne]; [|lia].
  destruct i as [|i]; cbn.
  - by intros _ [= <-].
  - intros Hi. apply IH. lia.
Qed.

Lemma rank_at c key l e :
  l !! rank c key l = Some e → Compare c (entry_key e) key ≠ -1.
Proof.
  induction l as [|e' l IH]; cbn [rank]; [done|].
  destruct (Z.eqb_spec (Compare c (entry_key e') key) (-1)) as [Heq|Hne]; cbn.
  - done.
  - by intros [= <-].
Qed.

Lemma rank_unique c key l (r : nat) :
  (r ≤ length l)%nat →
  (∀ (i : nat) e, (i < r)%nat → l !! i = Some e → Compare c (entry_key e) key = -1) →
  (∀ e, l !! r = Some e → Compare c (entry_key e) key ≠ -1) →
  rank c key l = r.
Proof.
  revert r. induction l as [|e l IH]; intros r Hr Hbelow Hat; cbn [rank].
  - cbn in Hr. lia.
  - destruct (Z.eqb_spec (Compare c (entry_key e) key) (-1)) as [Heq|Hne].
    + destruct r as [|r]; [by destruct (Hat e)|].
      f_equal. apply IH.
      * cbn in Hr. lia.
      * intros i e' Hi He'. apply (Hbelow (S i)); [lia|done].
      * intros e' He'. by apply Hat.
    + destruct r as [|r]; [done|].
      destruct Hne. apply (Hbelow 0%nat); [lia|done].
Qed.

Lemma rank_all c key l :
  (∀ e, e ∈ l → Compare c (entry_key e) key = -1) → rank c key l = length l.
Proof.
  intros Hall. apply rank_unique; [done| |].
  - intros i e _ He. by eapply Hall, list_elem_of_lookup_2.
  - intros e He. apply lookup_lt_Some in He. lia.
Qed.

Lemma rank_app_full c key l1 l2 :
  rank c key l1 = length l1 → rank c key (l1 ++ l2) = (length l1 + rank c key l2)%nat.
Proof.
  induction l1 as [|e l1 IH]; cbn [rank length app]; [done|].
  destruct (_ =? _); [|done]. intros [= H]. by rewrite IH.
Qed.

Lemma rank_app_part c key l1 l2 :
  (rank c key l1 < length l1)%nat → rank c key (l1 ++ l2) = rank c key l1.
Proof.
  induction l1 as [|e l1 IH]; cbn [rank length app]; [lia|].
  destruct (_ =? _); [|done]. intros H. rewrite IH; [done|lia].
Qed.

Lemma rank_head_above c key e l :
  Compare c (entry_key e) key ≠ -1 → rank c key (e :: l) = 0%nat.
Proof. intros Hne. cbn [rank]. by destruct (Z.eqb_spec (Compare c (entry_key e) key) (-1)). Qed.

(** In a sorted list no pair from position [rank] on is below [key]. *)
Lemma rank_above c key l (i : nat) e :
  Comparer_ok c → entries_sorted c l →
  (rank c key l ≤ i)%nat → l !! i = Some e → Compare c (entry_key e) key ≠ -1.
Proof.
  intros Hc Hs Hi He Hlt.
  destruct (decide (i = rank c key l)) as [->|Hne]; [by eapply rank_at|].
  destruct (lookup_lt_is_Some_2 l (rank c key l)) as [e' He'].
  { apply lookup_lt_Some in He. lia. }
  apply (rank_at c key l e' He').
  eapply compare_lt_trans; [done| |done].
  apply (Hs (rank c key l) i); [done..|lia].
Qed.

(** ** [indexOf] of a leaf *)

Lemma sortedMapLeafNode_indexOf_rank c key entries :
  Comparer_ok c → entries_sorted c entries →
  sortedMapLeafNode_indexOf entries key c = Z.of_nat (rank c key entries).
Proof.
  intros Hc Hs. unfold sortedMapLeafNode_indexOf.
  match goal with |- sort_Search ?n ?f = _ =>
    destruct (sort_Search_spec n f) as (Hr & Ht & Hf); [unfold len; lia|];
    set (r := sort_Search n f) in * end.
  unfold len in *.
  rewrite <-(Z2Nat.id r) by lia. f_equal. symmetry. apply rank_unique; [lia| |].
  - intros i e Hi He.
    assert (0 < r) as Hpos by lia. specialize (Hf Hpos).
    destruct (entries !! Z.to_nat (r - 1)) as [e'|] eqn:He'.
    2:{ apply lookup_ge_None in He'. lia. }
    apply negb_false_iff, Z.eqb_eq in Hf.
    destruct (decide (i = Z.to_nat (r - 1))) as [->|Hne]; [congruence|].
    eapply compare_lt_trans; [done| |done].
    apply (Hs i (Z.to_nat (r - 1))); [done..|lia].
  - intros e He. assert (r < Z.of_nat (length entries)) as Hlt.
    { apply lookup_lt_Some in He. lia. }
    specialize (Ht Hlt). rewrite He in Ht.
    by apply negb_true_iff, Z.eqb_neq in Ht.
Qed.

(** ** [indexOf] of a branch *)

(** The keys of the branch elements go up. *)
Definition keys_sorted c elems : Prop :=
  ∀ (i j : nat) e e', elems !! i = Some e → elems !! j = Some e' → (i < j)%nat →
                      Compare c (belem_key e) (belem_key e') = -1.

Lemma sortedMapBranchNode_indexOf_spec c key elems :
  Comparer_ok c → keys_sorted c elems → elems ≠ [] →
  let idx := sortedMapBranchNode_indexOf elems key c in
  0 ≤ idx < len elems
  ∧ (∀ (i : nat) e, idx < Z.of_nat i → elems !! i = Some e →
                    Compare c (belem_key e) key = 1)
  ∧ (∀ e, elems !! Z.to_nat idx = Some e → Compare c (belem_key e) key = 1 → idx = 0).
Proof.
  intros Hc Hs Hne. unfold sortedMapBranchNode_indexOf.
  match goal with |- context [sort_Search ?n ?f] =>
    destruct (sort_Search_spec n f) as (Hr & Ht & Hf); [unfold len; lia|];
    set (r := sort_Search n f) in * end.
  assert (0 < len elems) as Hlen.
  { unfold len. destruct elems; [done|]. cbn. lia. }
  unfold len in *. cbv zeta.
  assert (Habove : ∀ (i : nat) e, r ≤ Z.of_nat i → elems !! i = Some e →
                                  Compare c (belem_key e) key = 1).
  { intros i e Hi He. assert (r < Z.of_nat (length elems)) as Hlt.
    { apply lookup_lt_Some in He. lia. }
    specialize (Ht Hlt).
    destruct (elems !! Z.to_nat r) as [e'|] eqn:He'; [|done].
    apply Z.eqb_eq in Ht.
    destruct (decide (i = Z.to_nat r)) as [->|Hne']; [congruence|].
    apply (compare_flip c Hc). apply (compare_flip c Hc) in Ht.
    eapply compare_lt_trans; [done..|].
    apply (Hs (Z.to_nat r) i); [done..|lia]. }
  destruct (Z.gtb_spec r 0) as [Hpos|Hzero].
  - split; [lia|]. split.
    + intros i e Hi He. apply (Habove i e); [lia|done].
    + intros e He Hgt. specialize (Hf Hpos). rewrite He in Hf.
      apply Z.eqb_neq in Hf. done.
  - split; [lia|]. split; [|done].
    intros i e Hi He. apply (Habove i e); [lia|done].
Qed.
End SortedSearch.

Section SortedBranch.
Context {K V : Type}.
Implicit Types (c : Comparer K) (n child : sortedMapNode K V).
Implicit Types (entries l : list (mapEntry K V)) (key : K).
Implicit Types (elems : list (K * sortedMapNode K V)).

Lemma offset_0 elems : offset elems 0 = 0%nat.
Proof. done. Qed.

Lemma offset_S elems (i : nat) k child :
  elems !! i = Some (k, child) →
  offset elems (S i) = (offset elems i + length (sortedMapNode_entries child))%nat.
Proof.
  intros Hi. unfold offset. rewrite (take_S_r elems i (k, child)) by done.
  rewrite elems_entries_app, elems_entries_cons, elems_entries_nil, app_nil_r.
  by rewrite length_app.
Qed.

Lemma offset_all elems (i : nat) :
  (length elems ≤ i)%nat → offset elems i = length (elems_entries elems).
Proof. intros Hi. unfold offset. by rewrite take_ge. Qed.

Lemma offset_mono elems (i j : nat) : (i ≤ j)%nat → (offset elems i ≤ offset elems j)%nat.
Proof.
  intros Hij. unfold offset.
  replace (take i elems) with (take i (take j elems)) by (rewrite take_take; f_equal; lia).
  rewrite <-(take_drop i (take j elems)) at 2.
  rewrite elems_entries_app, length_app. lia.
Qed.

Lemma offset_le elems (i : nat) : (offset elems i ≤ length (elems_entries elems))%nat.
Proof.
  rewrite <-(offset_all elems (length elems)) by done.
  destruct (decide (i ≤ length elems)%nat); [by apply offset_mono|].
  rewrite !offset_all by lia. done.
Qed.

(** A pair of child [i] sits at its position past the offset of the child. *)
Lemma elems_entries_lookup elems (i j : nat) k child :
  elems !! i = Some (k, child) →
  (j < length (sortedMapNode_entries child))%nat →
  elems_entries elems !! (offset elems i + j)%nat = sortedMapNode_entries child !! j.
Proof.
  intros Hi Hj. rewrite (elems_entries_split elems i k child Hi). unfold offset.
  rewrite lookup_app_r by lia.
  replace (_ + j - _)%nat with j by lia.
  by rewrite lookup_app_l.
Qed.

Lemma offset_child_le elems (i : nat) k child :
  elems !! i = Some (k, child) →
  (offset elems i + length (sortedMapNode_entries child)
   ≤ length (elems_entries elems))%nat.
Proof. intros Hi. rewrite <-(offset_S elems i k child Hi). apply offset_le. Qed.

Section Wf.
Context (c : Comparer K) (h : nat) (elems : list (K * sortedMapNode K V)).
Context (Hc : Comparer_ok c).
Context (Hwf : tree_wf (S h) (sortedMapBranchNode elems)).
Context (Hs : entries_sorted c (elems_entries elems)).

Lemma branch_child_wf (i : nat) k child :
  elems !! i = Some (k, child) → tree_wf h child.
Proof. inversion Hwf; subst. eauto. Qed.

Lemma branch_nonempty : elems ≠ [].
Proof. by inversion Hwf. Qed.

(** The key of a branch element is the key of the first pair of its child. *)
Lemma branch_key_entry (i : nat) k child :
  elems !! i = Some (k, child) →
  ∃ e, elems_entries elems !! offset elems i = Some e ∧ entry_key e = k.
Proof.
  intros Hi. inversion Hwf as [|h' elems' Hne Hchildren Hkeys]; subst.
  destruct (tree_wf_minKey h child (Hchildren i k child Hi)) as (e & l & He & Hmin).
  exists e. split.
  - rewrite <-(Nat.add_0_r (offset elems i)).
    rewrite (elems_entries_lookup elems i 0 k child Hi); rewrite He; [done|cbn; lia].
  - rewrite (Hkeys i k child Hi) in Hmin. by injection Hmin.
Qed.

Lemma offset_lt (i j : nat) k child :
  elems !! i = Some (k, child) → (i < j)%nat → (offset elems i < offset elems j)%nat.
Proof.
  intros Hi Hij. pose proof (offset_mono elems (S i) j ltac:(lia)).
  rewrite (offset_S elems i k child Hi) in *.
  pose proof (tree_wf_nonempty h child (branch_child_wf i k child Hi)). lia.
Qed.

Lemma branch_keys_sorted : keys_sorted c elems.
Proof.
  intros i j [k child] [k' child'] Hi Hj Hij. cbn.
  destruct (branch_key_entry i k child Hi) as (e & He & <-).
  destruct (branch_key_entry j k' child' Hj) as (e' & He' & <-).
  apply (Hs (offset elems i) (offset elems j)); [done..|].
  by eapply offset_lt.
Qed.

(** The child that [indexOf] picks holds the first pair that is not
    below [key], unless every pair of that child is below it. *)
Lemma rank_branch key (idx : nat) k child :
  idx = Z.to_nat (sortedMapBranchNode_indexOf elems key c) →
  elems !! idx = Some (k, child) →
  rank c key (elems_entries elems)
  = (offset elems idx + rank c key (sortedMapNode_entries child))%nat.
Proof.
  intros Hidx Hchild.
  destruct (sortedMapBranchNode_indexOf_spec c key elems Hc branch_keys_sorted
              branch_nonempty) as (Hrange & Habove & Hat).
  cbv zeta in *. set (z := sortedMapBranchNode_indexOf elems key c) in *.
  pose proof (elems_entries_split elems idx k child Hchild) as Hsplit.
  destruct (tree_wf_minKey h child (branch_child_wf idx k child Hchild))
    as (e & l & He & Hmin).
  destruct (branch_key_entry idx k child Hchild) as (e0 & He0 & Hk0).
  (* every pair before the child is below [key] *)
  assert (rank c key (elems_entries (take idx elems))
          = length (elems_entries (take idx elems))) as Hbefore.
  { apply rank_all. intros a Ha.
    destruct (decide (idx = 0)%nat) as [->|Hpos].
    { rewrite take_0, elems_entries_nil in Ha. by apply elem_of_nil in Ha. }
    assert (Compare c k key ≠ 1) as Hle.
    { intros Hgt. subst idx. specialize (Hat (k, child) Hchild Hgt). lia. }
    eapply compare_lt_le; [done| |by rewrite <-Hk0 in Hle].
    rewrite Hsplit in Hs, He0. fold (offset elems idx) in He0.
    eapply (entries_sorted_app_lt c _ _ a e0 Hs); [done|].
    unfold offset in He0. rewrite lookup_app_r in He0 by lia.
    rewrite Nat.sub_diag in He0. by eapply list_elem_of_lookup_2. }
  (* no pair after the child is below [key] *)
  assert (rank c key (elems_entries (drop (S idx) elems)) = 0%nat) as Hafter.
  { destruct (drop (S idx) elems) as [|[k' child'] rest] eqn:Hdrop; [done|].
    assert (elems !! S idx = Some (k', child')) as Hnext.
    { rewrite <-(Nat.add_0_r (S idx)), <-lookup_drop, Hdrop. done. }
    destruct (tree_wf_minKey h child' (branch_child_wf (S idx) k' child' Hnext))
      as (e' & l' & He' & Hmin').
    inversion Hwf as [|h' elems' Hne Hchildren Hkeys]; subst h' elems'.
    rewrite (Hkeys (S idx) k' child' Hnext) in Hmin'. injection Hmin' as ->.
    rewrite elems_entries_cons, He', <-app_comm_cons. apply rank_head_above.
    pose proof (Habove (S idx) (entry_key e', child') ltac:(lia) Hnext) as Hgt.
    cbn in Hgt. rewrite Hgt. done. }
  rewrite Hsplit, rank_app_full by done. fold (offset elems idx). f_equal.
  destruct (decide (rank c key (sortedMapNode_entries child)
                    = length (sortedMapNode_entries child))) as [Hfull|Hpart].
  - rewrite rank_app_full, Hafter by done. lia.
  - apply rank_app_part. pose proof (rank_le c key (sortedMapNode_entries child)). lia.
Qed.
End Wf.
End SortedBranch.

Lemma frame_nat {A} (stack : list A) (t : nat) (e : A) :
  stack !! t = Some e → frame stack (Z.of_nat t) = Ok e.
Proof. intros He. apply frame_Ok. rewrite Nat2Z.id. split; [lia|done]. Qed.

Lemma set_frame_nat {A} (stack : list A) (t : nat) (e : A) :
  (t < length stack)%nat → set_frame stack (Z.of_nat t) e = Ok (<[t := e]> stack).
Proof. intros Ht. apply set_frame_Ok. rewrite Nat2Z.id. unfold len. split; [lia|done]. Qed.

Lemma take_insert_ge {A} (l : list A) (t u : nat) (x : A) :
  (t ≤ u)%nat → take t (<[u := x]> l) = take t l.
Proof. intros Htu. by rewrite take_insert_ge. Qed.

(** The frames below [t] are the same in both stacks. *)
Definition frames_below {A} (t : nat) (stack' stack : list A) : Prop :=
  ∀ u : nat, (u < t)%nat → stack' !! u = stack !! u.

Lemma frames_below_insert {A} (t u : nat) (stack : list A) (e : A) :
  (t ≤ u)%nat → frames_below t (<[u := e]> stack) stack.
Proof. intros Htu v Hv. apply list_lookup_insert_ne. lia. Qed.

Lemma frames_below_trans {A} (t t' : nat) (stack1 stack2 stack3 : list A) :
  (t ≤ t')%nat → frames_below t' stack1 stack2 → frames_below t stack2 stack3 →
  frames_below t stack1 stack3.
Proof. intros Ht H12 H23 u Hu. rewrite H12 by lia. by apply H23. Qed.

(** ** The cursor of a sorted map iterator *)

Section SortedCursor.
Context {K V : Type}.
Implicit Types (c : Comparer K) (n child : sortedMapNode K V).
Implicit Types (entries l : list (mapEntry K V)) (key : K).
Implicit Types (elems : list (K * sortedMapNode K V)).
Implicit Types (stack : list (sortedMapIteratorElem K V)) (m : SortedMap K V).

(** [cursor stack n t depth j]: the frames [t .. depth] of the stack are a
    path from node [n] down to a leaf, and the pair they point at is pair
    [j] of [n], counted left to right. *)
Inductive cursor stack : sortedMapNode K V → nat → nat → nat → Prop :=
| cursor_leaf entries (t : nat) (i : Z) :
    stack !! t = Some (mkSortedElem (Some (sortedMapLeafNode entries)) i) →
    0 ≤ i < len entries →
    cursor stack (sortedMapLeafNode entries) t t (Z.to_nat i)
| cursor_branch elems (t depth : nat) (i : Z) k child (j : nat) :
    stack !! t = Some (mkSortedElem (Some (sortedMapBranchNode elems)) i) →
    0 ≤ i → elems !! Z.to_nat i = Some (k, child) →
    cursor stack child (S t) depth j →
    cursor stack (sortedMapBranchNode elems) t depth (offset elems (Z.to_nat i) + j).

Lemma cursor_frame stack n t depth j :
  cursor stack n t depth j → ∃ i, stack !! t = Some (mkSortedElem (Some n) i).
Proof. destruct 1; eauto. Qed.

Lemma cursor_depth stack n t depth j : cursor stack n t depth j → (t ≤ depth)%nat.
Proof. induction 1; lia. Qed.

Lemma cursor_height stack h n t depth j :
  tree_wf h n → cursor stack n t depth j → depth = (t + h)%nat.
Proof.
  intros Hwf Hcur. revert h Hwf.
  induction Hcur as [entries t i Hframe Hi|elems t depth i k child j Hframe Hi Hchild _ IH];
    intros h Hwf; inversion Hwf as [|h' elems' Hne Hchildren Hkeys]; subst.
  - lia.
  - rewrite (IH h'); [lia|]. by eapply Hchildren.
Qed.

Lemma cursor_ext stack stack' n t depth j :
  (∀ u : nat, (t ≤ u)%nat → stack' !! u = stack !! u) →
  cursor stack n t depth j → cursor stack' n t depth j.
Proof.
  intros Hext Hcur.
  induction Hcur as [entries t i Hframe Hi|elems t depth i k child j Hframe Hi Hchild _ IH].
  - constructor; [|done]. by rewrite Hext.
  - econstructor; [by rewrite Hext|done..|].
    apply IH. intros u Hu. apply Hext. lia.
Qed.

(** The pair under the cursor. *)
Lemma cursor_entry stack n t depth j :
  cursor stack n t depth j →
  ∃ entries i, stack !! depth = Some (mkSortedElem (Some (sortedMapLeafNode entries)) i)
               ∧ 0 ≤ i < len entries
               ∧ entries !! Z.to_nat i = sortedMapNode_entries n !! j
               ∧ (j < length (sortedMapNode_entries n))%nat.
Proof.
  induction 1 as [entries t i Hframe Hi|elems t depth i k child j Hframe Hi Hchild _ IH].
  - exists entries, i. unfold len in *. cbn. split; [done|]. split; [done|].
    split; [done|lia].
  - destruct IH as (entries & i' & Hleaf & Hi' & Hentry & Hj).
    exists entries, i'. split; [done|]. split; [done|].
    rewrite sortedMapNode_entries_branch.
    rewrite (elems_entries_lookup elems _ j k child Hchild Hj).
    split; [done|].
    pose proof (offset_child_le elems _ k child Hchild). lia.
Qed.

Lemma SortedMapIterator_current_cursor m stack n (depth j : nat) :
  cursor stack n 0 depth j →
  ∃ e, sortedMapNode_entries n !! j = Some e
       ∧ SortedMapIterator_current (mkSortedMapIterator m stack (Z.of_nat depth))
         = Ok (entry_key e, entry_value e).
Proof.
  intros (entries & i & Hleaf & Hi & Hentry & Hj)%cursor_entry.
  destruct (lookup_lt_is_Some_2 _ _ Hj) as [e He]. exists e. split; [done|].
  unfold SortedMapIterator_current. cbn [sitr_stack sitr_depth].
  rewrite (frame_nat _ _ _ Hleaf). cbn [mbind result_bind selem_node selem_index].
  rewrite He in Hentry.
  assert (frame entries i = Ok e) as -> by (apply frame_Ok; split; [lia|done]).
  done.
Qed.

(** ** [first] and [last] *)

Lemma SortedMapIterator_first_loop_spec m h n :
  tree_wf h n → ∀ stack (t : nat) i0 (fuel : nat),
  stack !! t = Some (mkSortedElem (Some n) i0) →
  (t + h < length stack)%nat → (h < fuel)%nat →
  ∃ stack',
    SortedMapIterator_first_loop fuel (mkSortedMapIterator m stack (Z.of_nat t))
    = Ok (mkSortedMapIterator m stack' (Z.of_nat (t + h)))
    ∧ cursor stack' n t (t + h) 0
    ∧ frames_below t stack' stack
    ∧ length stack' = length stack.
Proof.
  induction 1 as [entries Hne|h elems Hne Hchildren IH Hkeys];
    intros stack t i0 fuel Hframe Hlen Hfuel;
    (destruct fuel as [|fuel]; [lia|]);
    cbn [SortedMapIterator_first_loop sitr_stack sitr_depth sitr_m];
    rewrite (frame_nat _ _ _ Hframe); cbn [mbind result_bind selem_node];
    rewrite set_frame_nat by lia; cbn [mbind result_bind].
  - eexists. rewrite Nat.add_0_r. split; [done|].
    split; [|split; [by apply frames_below_insert|by rewrite length_insert]].
    apply (cursor_leaf _ entries t 0).
    + rewrite list_lookup_insert_eq by lia. done.
    + unfold len. destruct entries; [done|]. cbn. lia.
  - destruct elems as [|[k child] elems]; [done|]. cbn [lookup list_lookup belem_node snd].
    replace (Z.of_nat t + 1) with (Z.of_nat (S t)) by lia.
    set (stack1 := <[t := mkSortedElem
           (Some (sortedMapBranchNode ((k, child) :: elems))) 0]> stack).
    assert (length stack1 = length stack) as Hlen1 by apply length_insert.
    destruct (IH 0%nat k child eq_refl
                (<[S t := mkSortedElem (Some child) 0]> stack1) (S t) 0 fuel)
      as (stack' & Hrun & Hcur & Hbelow & Hlen').
    { apply list_lookup_insert_eq. lia. }
    { rewrite length_insert. lia. }
    { lia. }
    exists stack'. replace (t + S h)%nat with (S t + h)%nat by lia.
    rewrite set_frame_nat by lia. cbn [mbind result_bind].
    split; [exact Hrun|]. rewrite length_insert in Hlen'.
    assert (frames_below (S t) stack' stack1) as Hbelow1.
    { eapply frames_below_trans; [done..|]. by apply frames_below_insert. }
    split; [|split; [|lia]].
    + change 0%nat with (offset ((k, child) :: elems) (Z.to_nat 0) + 0)%nat.
      eapply cursor_branch; [|done|done|done].
      rewrite Hbelow1 by lia. apply list_lookup_insert_eq. lia.
    + eapply frames_below_trans; [|done|by apply frames_below_insert]. lia.
Qed.
End SortedCursor.

Section SortedMoves.
Context {K V : Type}.
Implicit Types (c : Comparer K) (n child : sortedMapNode K V).
Implicit Types (entries l : list (mapEntry K V)) (key : K).
Implicit Types (elems : list (K * sortedMapNode K V)).
Implicit Types (stack : list (sortedMapIteratorElem K V)) (m : SortedMap K V).

Lemma SortedMapIterator_last_loop_spec m h n :
  tree_wf h n → ∀ stack (t : nat) i0 (fuel : nat),
  stack !! t = Some (mkSortedElem (Some n) i0) →
  (t + h < length stack)%nat → (h < fuel)%nat →
  ∃ stack',
    SortedMapIterator_last_loop fuel (mkSortedMapIterator m stack (Z.of_nat t))
    = Ok (mkSortedMapIterator m stack' (Z.of_nat (t + h)))
    ∧ cursor stack' n t (t + h) (length (sortedMapNode_entries n) - 1)
    ∧ frames_below t stack' stack
    ∧ length stack' = length stack.
Proof.
  induction 1 as [entries Hne|h elems Hne Hchildren IH Hkeys];
    intros stack t i0 fuel Hframe Hlen Hfuel;
    (destruct fuel as [|fuel]; [lia|]);
    cbn [SortedMapIterator_last_loop sitr_stack sitr_depth sitr_m];
    rewrite (frame_nat _ _ _ Hframe); cbn [mbind result_bind selem_node];
    rewrite set_frame_nat by lia; cbn [mbind result_bind].
  - eexists. rewrite Nat.add_0_r. split; [done|].
    split; [|split; [by apply frames_below_insert|by rewrite length_insert]].
    assert (0 < len entries) as Hpos.
    { unfold len. destruct entries; [done|]. cbn. lia. }
    replace (length (sortedMapNode_entries (sortedMapLeafNode entries)) - 1)%nat
      with (Z.to_nat (len entries - 1)) by (unfold len; cbn; lia).
    apply (cursor_leaf _ entries t (len entries - 1)).
    + rewrite list_lookup_insert_eq by lia. done.
    + lia.
  - assert (0 < len elems) as Hpos.
    { unfold len. destruct elems; [done|]. cbn. lia. }
    destruct (lookup_lt_is_Some_2 elems (Z.to_nat (len elems - 1))) as [[k child] Hchild].
    { unfold len in *. lia. }
    assert (frame elems (len elems - 1) = Ok (k, child)) as ->.
    { apply frame_Ok. split; [lia|done]. }
    cbn [mbind result_bind belem_node snd].
    replace (Z.of_nat t + 1) with (Z.of_nat (S t)) by lia.
    set (stack1 := <[t := mkSortedElem (Some (sortedMapBranchNode elems))
                                       (len elems - 1)]> stack).
    assert (length stack1 = length stack) as Hlen1 by apply length_insert.
    destruct (IH _ k child Hchild
                (<[S t := mkSortedElem (Some child) 0]> stack1) (S t) 0 fuel)
      as (stack' & Hrun & Hcur & Hbelow & Hlen').
    { apply list_lookup_insert_eq. lia. }
    { rewrite length_insert. lia. }
    { lia. }
    exists stack'. replace (t + S h)%nat with (S t + h)%nat by lia.
    rewrite set_frame_nat by lia. cbn [mbind result_bind].
    split; [exact Hrun|]. rewrite length_insert in Hlen'.
    assert (frames_below (S t) stack' stack1) as Hbelow1.
    { eapply frames_below_trans; [done..|]. by apply frames_below_insert. }
    split; [|split; [|lia]].
    + pose proof (tree_wf_nonempty h child (Hchildren _ k child Hchild)) as Hsize.
      pose proof (offset_S elems _ k child Hchild) as HS.
      rewrite offset_all in HS by (unfold len in *; lia).
      rewrite sortedMapNode_entries_branch.
      replace (length (elems_entries elems) - 1)%nat
        with (offset elems (Z.to_nat (len elems - 1))
              + (length (sortedMapNode_entries child) - 1))%nat by lia.
      eapply cursor_branch; [|lia|done|done].
      rewrite Hbelow1 by lia. apply list_lookup_insert_eq. lia.
    + eapply frames_below_trans; [|done|by apply frames_below_insert]. lia.
Qed.

(** ** [next] *)

(** One turn of [next] from the frame of the cursor: within node [n],
    whose frame is [t], the cursor moves on to the next pair of [n];
    from the last pair of [n] the loop goes on below frame [t] with the
    stack as it was. *)
Lemma SortedMapIterator_next_loop_spec m stack h n (t depth j : nat) :
  cursor stack n t depth j → tree_wf h n →
  length stack = 32%nat → (t + h < 32)%nat →
  ∀ fuel : nat, (depth - t < fuel)%nat →
  (S j < length (sortedMapNode_entries n) →
   ∃ stack' (depth' : nat),
     SortedMapIterator_next_loop fuel (mkSortedMapIterator m stack (Z.of_nat depth))
     = Ok (mkSortedMapIterator m stack' (Z.of_nat depth'))
     ∧ cursor stack' n t depth' (S j)
     ∧ frames_below t stack' stack
     ∧ length stack' = 32%nat)%nat
  ∧ (S j = length (sortedMapNode_entries n) →
     SortedMapIterator_next_loop fuel (mkSortedMapIterator m stack (Z.of_nat depth))
     = SortedMapIterator_next_loop (fuel - (depth - t + 1))
         (mkSortedMapIterator m stack (Z.of_nat t - 1))).
Proof.
  intros Hcur. revert h.
  induction Hcur as [entries t i Hframe Hi|elems t depth i k child j Hframe Hi Hchild Hcur IH];
    intros h Hwf Hlen Hfit fuel Hfuel.
  - (* the leaf *)
    destruct fuel as [|fuel]; [lia|].
    cbn [SortedMapIterator_next_loop sitr_stack sitr_depth sitr_m].
    destruct (Z.geb_spec (Z.of_nat t) 0) as [_|]; [|lia].
    rewrite (frame_nat _ _ _ Hframe).
    cbn [mbind result_bind selem_node selem_index sortedMapNode_entries].
    unfold len in *. split.
    + intros Hnext. destruct (Z.ltb_spec i (Z.of_nat (length entries) - 1)); [|lia].
      rewrite set_frame_nat by lia. cbn [mbind result_bind].
      eexists _, t. split; [done|].
      split; [|split; [by apply frames_below_insert|by rewrite length_insert]].
      replace (S (Z.to_nat i)) with (Z.to_nat (i + 1)) by lia.
      apply cursor_leaf; [|unfold len; lia].
      rewrite list_lookup_insert_eq by lia. done.
    + intros Hlast. destruct (Z.ltb_spec i (Z.of_nat (length entries) - 1)); [lia|].
      replace (S fuel - (t - t + 1))%nat with fuel by lia. done.
  - (* a branch: first move within the child *)
    pose proof (cursor_depth _ _ _ _ _ Hcur) as Hdepth.
    inversion Hwf as [|h' elems' Hne Hchildren Hkeys]; subst h elems'.
    pose proof (Hchildren _ k child Hchild) as Hwfc.
    destruct (IH h' Hwfc Hlen ltac:(lia) fuel ltac:(lia)) as [IHin IHout].
    pose proof (cursor_entry _ _ _ _ _ Hcur) as (_ & _ & _ & _ & _ & Hj).
    pose proof (offset_S elems _ k child Hchild) as HS.
    pose proof (offset_le elems (S (Z.to_nat i))) as Htotal.
    rewrite sortedMapNode_entries_branch.
    destruct (decide (S j < length (sortedMapNode_entries child))%nat) as [Hin|Hout].
    + split; [|lia]. intros _.
      destruct (IHin Hin) as (stack' & depth' & Hrun & Hcur' & Hbelow & Hlen').
      exists stack', depth'. split; [done|].
      split; [|split; [|done]].
      * replace (S (offset elems (Z.to_nat i) + j))
          with (offset elems (Z.to_nat i) + S j)%nat by lia.
        eapply cursor_branch; [|done..]. by rewrite Hbelow by lia.
      * intros u Hu. apply Hbelow. lia.
    + assert (S j = length (sortedMapNode_entries child)) as Hlast by lia.
      rewrite (IHout Hlast). clear IHin IHout.
      replace (Z.of_nat (S t) - 1) with (Z.of_nat t) by lia.
      replace (fuel - (depth - S t + 1))%nat with (S (fuel - (depth - t + 1))) by lia.
      set (fuel' := (fuel - (depth - t + 1))%nat).
      cbn [SortedMapIterator_next_loop sitr_stack sitr_depth sitr_m].
      destruct (Z.geb_spec (Z.of_nat t) 0) as [_|]; [|lia].
      rewrite (frame_nat _ _ _ Hframe).
      cbn [mbind result_bind selem_node selem_index].
      assert (Z.to_nat i < length elems)%nat as Hilen by (by eapply lookup_lt_Some).
      unfold len. split.
      * intros Hnext.
        destruct (Z.ltb_spec i (Z.of_nat (length elems) - 1)) as [Hmore|Hnomore].
        2:{ rewrite offset_all in HS by lia. lia. }
        destruct (lookup_lt_is_Some_2 elems (Z.to_nat (i + 1))) as [[k' child'] Hchild'];
          [lia|].
        rewrite set_frame_nat by lia. cbn [mbind result_bind].
        assert (frame elems (i + 1) = Ok (k', child')) as ->.
        { apply frame_Ok. split; [lia|done]. }
        cbn [mbind result_bind belem_node snd].
        replace (Z.of_nat t + 1) with (Z.of_nat (S t)) by lia.
        set (stack1 := <[t := mkSortedElem (Some (sortedMapBranchNode elems)) (i + 1)]> stack).
        assert (length stack1 = length stack) as Hlen1 by apply length_insert.
        destruct (lookup_lt_is_Some_2 stack1 (S t)) as [above Habove]; [lia|].
        rewrite (frame_nat _ _ _ Habove). cbn [mbind result_bind].
        rewrite set_frame_nat by lia. cbn [mbind result_bind].
        unfold SortedMapIterator_first.
        destruct (SortedMapIterator_first_loop_spec m h' child'
                    (Hchildren _ k' child' Hchild')
                    (<[S t := mkSortedElem (Some child') (selem_index above)]> stack1)
                    (S t) (selem_index above) 33)
          as (stack' & Hrun & Hcur' & Hbelow & Hlen').
        { apply list_lookup_insert_eq. lia. }
        { rewrite length_insert. lia. }
        { lia. }
        rewrite length_insert in Hlen'.
        exists stack', (S t + h')%nat. split; [done|].
        assert (frames_below (S t) stack' stack1) as Hbelow1.
        { eapply frames_below_trans; [|exact Hbelow|by apply frames_below_insert]. lia. }
        split; [|split; [|lia]].
        -- replace (S (offset elems (Z.to_nat i) + j))
             with (offset elems (Z.to_nat (i + 1)) + 0)%nat.
           2:{ replace (Z.to_nat (i + 1)) with (S (Z.to_nat i)) by lia. lia. }
           eapply cursor_branch; [|lia|done|done].
           rewrite Hbelow1 by lia. apply list_lookup_insert_eq. lia.
        -- eapply frames_below_trans; [|done|by apply frames_below_insert]. lia.
      * intros Hend.
        destruct (Z.ltb_spec i (Z.of_nat (length elems) - 1)) as [Hmore|Hnomore].
        { exfalso.
          destruct (lookup_lt_is_Some_2 elems (S (Z.to_nat i))) as [[k' child'] Hchild'];
            [lia|].
          pose proof (tree_wf_nonempty h' child' (Hchildren _ k' child' Hchild')).
          pose proof (offset_child_le elems _ k' child' Hchild'). lia. }
        done.
Qed.
End SortedMoves.

Section SortedPrev.
Context {K V : Type}.
Implicit Types (c : Comparer K) (n child : sortedMapNode K V).
Implicit Types (entries l : list (mapEntry K V)) (key : K).
Implicit Types (elems : list (K * sortedMapNode K V)).
Implicit Types (stack : list (sortedMapIteratorElem K V)) (m : SortedMap K V).

(** ** [prev] *)

Lemma SortedMapIterator_prev_loop_spec m stack h n (t depth j : nat) :
  cursor stack n t depth j → tree_wf h n →
  length stack = 32%nat → (t + h < 32)%nat →
  ∀ fuel : nat, (depth - t < fuel)%nat →
  ((0 < j)%nat →
   ∃ stack' (depth' : nat),
     SortedMapIterator_prev_loop fuel (mkSortedMapIterator m stack (Z.of_nat depth))
     = Ok (mkSortedMapIterator m stack' (Z.of_nat depth'))
     ∧ cursor stack' n t depth' (j - 1)
     ∧ frames_below t stack' stack
     ∧ length stack' = 32%nat)
  ∧ (j = 0%nat →
     SortedMapIterator_prev_loop fuel (mkSortedMapIterator m stack (Z.of_nat depth))
     = SortedMapIterator_prev_loop (fuel - (depth - t + 1))
         (mkSortedMapIterator m stack (Z.of_nat t - 1))).
Proof.
  intros Hcur. revert h.
  induction Hcur as [entries t i Hframe Hi|elems t depth i k child j Hframe Hi Hchild Hcur IH];
    intros h Hwf Hlen Hfit fuel Hfuel.
  - (* the leaf *)
    destruct fuel as [|fuel]; [lia|].
    cbn [SortedMapIterator_prev_loop sitr_stack sitr_depth sitr_m].
    destruct (Z.geb_spec (Z.of_nat t) 0) as [_|]; [|lia].
    rewrite (frame_nat _ _ _ Hframe).
    cbn [mbind result_bind selem_node selem_index].
    unfold len in *. split.
    + intros Hprev. destruct (Z.gtb_spec i 0); [|lia].
      rewrite set_frame_nat by lia. cbn [mbind result_bind].
      eexists _, t. split; [done|].
      split; [|split; [by apply frames_below_insert|by rewrite length_insert]].
      replace (Z.to_nat i - 1)%nat with (Z.to_nat (i - 1)) by lia.
      apply cursor_leaf; [|unfold len; lia].
      rewrite list_lookup_insert_eq by lia. done.
    + intros Hfirst. destruct (Z.gtb_spec i 0); [lia|].
      replace (S fuel - (t - t + 1))%nat with fuel by lia. done.
  - (* a branch: first move within the child *)
    pose proof (cursor_depth _ _ _ _ _ Hcur) as Hdepth.
    inversion Hwf as [|h' elems' Hne Hchildren Hkeys]; subst h elems'.
    pose proof (Hchildren _ k child Hchild) as Hwfc.
    destruct (IH h' Hwfc Hlen ltac:(lia) fuel ltac:(lia)) as [IHin IHout].
    destruct (decide (0 < j)%nat) as [Hin|Hout].
    + split; [|lia]. intros _.
      destruct (IHin Hin) as (stack' & depth' & Hrun & Hcur' & Hbelow & Hlen').
      exists stack', depth'. split; [done|].
      split; [|split; [|done]].
      * replace (offset elems (Z.to_nat i) + j - 1)%nat
          with (offset elems (Z.to_nat i) + (j - 1))%nat by lia.
        eapply cursor_branch; [|done..]. by rewrite Hbelow by lia.
      * intros u Hu. apply Hbelow. lia.
    + assert (j = 0%nat) as -> by lia.
      rewrite (IHout eq_refl). clear IHin IHout.
      replace (Z.of_nat (S t) - 1) with (Z.of_nat t) by lia.
      replace (fuel - (depth - S t + 1))%nat with (S (fuel - (depth - t + 1))) by lia.
      set (fuel' := (fuel - (depth - t + 1))%nat).
      cbn [SortedMapIterator_prev_loop sitr_stack sitr_depth sitr_m].
      destruct (Z.geb_spec (Z.of_nat t) 0) as [_|]; [|lia].
      rewrite (frame_nat _ _ _ Hframe).
      cbn [mbind result_bind selem_node selem_index].
      assert (Z.to_nat i < length elems)%nat as Hilen by (by eapply lookup_lt_Some).
      rewrite Nat.add_0_r. split.
      * intros Hprev.
        destruct (Z.gtb_spec i 0) as [Hmore|Hnomore].
        2:{ replace (Z.to_nat i) with 0%nat in Hprev by lia.
            rewrite offset_0 in Hprev. lia. }
        destruct (lookup_lt_is_Some_2 elems (Z.to_nat (i - 1))) as [[k' child'] Hchild'];
          [lia|].
        rewrite set_frame_nat by lia. cbn [mbind result_bind].
        assert (frame elems (i - 1) = Ok (k', child')) as ->.
        { apply frame_Ok. split; [lia|done]. }
        cbn [mbind result_bind belem_node snd].
        replace (Z.of_nat t + 1) with (Z.of_nat (S t)) by lia.
        set (stack1 := <[t := mkSortedElem (Some (sortedMapBranchNode elems)) (i - 1)]> stack).
        assert (length stack1 = length stack) as Hlen1 by apply length_insert.
        destruct (lookup_lt_is_Some_2 stack1 (S t)) as [above Habove]; [lia|].
        rewrite (frame_nat _ _ _ Habove). cbn [mbind result_bind].
        rewrite set_frame_nat by lia. cbn [mbind result_bind].
        unfold SortedMapIterator_last.
        destruct (SortedMapIterator_last_loop_spec m h' child'
                    (Hchildren _ k' child' Hchild')
                    (<[S t := mkSortedElem (Some child') (selem_index above)]> stack1)
                    (S t) (selem_index above) 33)
          as (stack' & Hrun & Hcur' & Hbelow & Hlen').
        { apply list_lookup_insert_eq. lia. }
        { rewrite length_insert. lia. }
        { lia. }
        rewrite length_insert in Hlen'.
        exists stack', (S t + h')%nat. split; [done|].
        assert (frames_below (S t) stack' stack1) as Hbelow1.
        { eapply frames_below_trans; [|exact Hbelow|by apply frames_below_insert]. lia. }
        split; [|split; [|lia]].
        -- pose proof (offset_S elems _ k' child' Hchild') as HS.
           replace (S (Z.to_nat (i - 1))) with (Z.to_nat i) in HS by lia.
           pose proof (tree_wf_nonempty h' child' (Hchildren _ k' child' Hchild')).
           replace (offset elems (Z.to_nat i) - 1)%nat
             with (offset elems (Z.to_nat (i - 1))
                   + (length (sortedMapNode_entries child') - 1))%nat by lia.
           eapply cursor_branch; [|lia|done|done].
           rewrite Hbelow1 by lia. apply list_lookup_insert_eq. lia.
        -- eapply frames_below_trans; [|done|by apply frames_below_insert]. lia.
      * intros Hend.
        destruct (Z.gtb_spec i 0) as [Hmore|Hnomore]; [|done].
        exfalso.
        destruct (lookup_lt_is_Some_2 elems 0) as [[k' child'] Hchild']; [lia|].
        pose proof (tree_wf_nonempty h' child' (Hchildren _ k' child' Hchild')).
        pose proof (offset_S elems _ k' child' Hchild') as HS.
        pose proof (offset_mono elems 1 (Z.to_nat i) ltac:(lia)).
        rewrite offset_0 in HS. lia.
Qed.

(** Below frame 0 both loops stop at once: the iterator is done. *)
Lemma SortedMapIterator_next_loop_done m stack (fuel : nat) :
  SortedMapIterator_next_loop fuel (mkSortedMapIterator m stack (-1))
  = Ok (mkSortedMapIterator m stack (-1)).
Proof. by destruct fuel. Qed.

Lemma SortedMapIterator_prev_loop_done m stack (fuel : nat) :
  SortedMapIterator_prev_loop fuel (mkSortedMapIterator m stack (-1))
  = Ok (mkSortedMapIterator m stack (-1)).
Proof. by destruct fuel. Qed.

(** A positioned iterator: its stack is a path of the root to pair [j]. *)
Definition positioned (itr : SortedMapIterator K V) (root : sortedMapNode K V)
    (j : nat) : Prop :=
  ∃ depth : nat, sitr_depth itr = Z.of_nat depth
                 ∧ length (sitr_stack itr) = 32%nat
                 ∧ cursor (sitr_stack itr) root 0 depth j.

Lemma SortedMapIterator_next_positioned h root itr (j : nat) :
  tree_wf h root → (h < 32)%nat → positioned itr root j →
  ∃ itr', SortedMapIterator_next itr = Ok itr'
          ∧ sitr_m itr' = sitr_m itr
          ∧ length (sitr_stack itr') = 32%nat
          ∧ if decide (S j < length (sortedMapNode_entries root))%nat
            then positioned itr' root (S j)
            else SortedMapIterator_Done itr' = true.
Proof.
  intros Hwf Hh (depth & Hdepth & Hlen & Hcur).
  destruct itr as [m stack d]. cbn [sitr_depth sitr_stack sitr_m] in *. subst d.
  unfold SortedMapIterator_next. cbn [sitr_depth].
  destruct (SortedMapIterator_next_loop_spec m stack h root 0 depth j Hcur Hwf Hlen
              ltac:(lia) (Z.to_nat (Z.of_nat depth + 1)) ltac:(lia)) as [Hin Hout].
  pose proof (cursor_entry _ _ _ _ _ Hcur) as (_ & _ & _ & _ & _ & Hj).
  case_decide as Hnext.
  - destruct (Hin Hnext) as (stack' & depth' & Hrun & Hcur' & _ & Hlen').
    eexists. split; [exact Hrun|]. split; [done|]. split; [done|].
    exists depth'. done.
  - rewrite Hout by lia. change (Z.of_nat 0 - 1) with (-1).
    rewrite SortedMapIterator_next_loop_done. eexists. done.
Qed.

Lemma SortedMapIterator_prev_positioned h root itr (j : nat) :
  tree_wf h root → (h < 32)%nat → positioned itr root j →
  ∃ itr', SortedMapIterator_prev itr = Ok itr'
          ∧ sitr_m itr' = sitr_m itr
          ∧ length (sitr_stack itr') = 32%nat
          ∧ if decide (0 < j)%nat
            then positioned itr' root (j - 1)
            else SortedMapIterator_Done itr' = true.
Proof.
  intros Hwf Hh (depth & Hdepth & Hlen & Hcur).
  destruct itr as [m stack d]. cbn [sitr_depth sitr_stack sitr_m] in *. subst d.
  unfold SortedMapIterator_prev. cbn [sitr_depth].
  destruct (SortedMapIterator_prev_loop_spec m stack h root 0 depth j Hcur Hwf Hlen
              ltac:(lia) (Z.to_nat (Z.of_nat depth + 1)) ltac:(lia)) as [Hin Hout].
  case_decide as Hprev.
  - destruct (Hin Hprev) as (stack' & depth' & Hrun & Hcur' & _ & Hlen').
    eexists. split; [exact Hrun|]. split; [done|]. split; [done|].
    exists depth'. done.
  - rewrite Hout by lia. change (Z.of_nat 0 - 1) with (-1).
    rewrite SortedMapIterator_prev_loop_done. eexists. done.
Qed.

Lemma positioned_not_done itr root j :
  positioned itr root j → SortedMapIterator_Done itr = false.
Proof.
  intros (depth & Hdepth & _). unfold SortedMapIterator_Done. rewrite Hdepth.
  apply Z.eqb_neq. lia.
Qed.

Lemma positioned_current itr root j :
  positioned itr root j →
  ∃ e, sortedMapNode_entries root !! j = Some e
       ∧ SortedMapIterator_current itr = Ok (entry_key e, entry_value e).
Proof.
  intros (depth & Hdepth & _ & Hcur). destruct itr as [m stack d].
  cbn [sitr_depth sitr_stack] in *. subst d.
  by apply SortedMapIterator_current_cursor.
Qed.
End SortedPrev.

Section SortedSeek.
Context {K V : Type}.
Implicit Types (c : Comparer K) (n child : sortedMapNode K V).
Implicit Types (entries l : list (mapEntry K V)) (key : K).
Implicit Types (elems : list (K * sortedMapNode K V)).
Implicit Types (stack : list (sortedMapIteratorElem K V)) (m : SortedMap K V).

(** [at_end stack n t depth]: the frames [t .. depth] are the path along
    the last children of [n], the leaf index at or past the last pair. *)
Inductive at_end stack : sortedMapNode K V → nat → nat → Prop :=
| at_end_leaf entries (t : nat) (i : Z) :
    stack !! t = Some (mkSortedElem (Some (sortedMapLeafNode entries)) i) →
    len entries - 1 ≤ i →
    at_end stack (sortedMapLeafNode entries) t t
| at_end_branch elems (t depth : nat) (i : Z) k child :
    stack !! t = Some (mkSortedElem (Some (sortedMapBranchNode elems)) i) →
    len elems - 1 ≤ i → elems !! (length elems - 1)%nat = Some (k, child) →
    at_end stack child (S t) depth →
    at_end stack (sortedMapBranchNode elems) t depth.

Lemma at_end_depth stack n t depth : at_end stack n t depth → (t ≤ depth)%nat.
Proof. induction 1; lia. Qed.

Lemma at_end_ext stack stack' n t depth :
  (∀ u : nat, (t ≤ u)%nat → stack' !! u = stack !! u) →
  at_end stack n t depth → at_end stack' n t depth.
Proof.
  intros Hext Hend.
  induction Hend as [entries t i Hframe Hi|elems t depth i k child Hframe Hi Hchild _ IH].
  - econstructor; [|done]. by rewrite Hext.
  - econstructor; [by rewrite Hext|done..|].
    apply IH. intros u Hu. apply Hext. lia.
Qed.

(** From the end of [n], [next] leaves the frames of [n] as they are and
    goes on below frame [t]. *)
Lemma SortedMapIterator_next_loop_at_end m stack n (t depth : nat) :
  at_end stack n t depth →
  ∀ fuel : nat, (depth - t < fuel)%nat →
  SortedMapIterator_next_loop fuel (mkSortedMapIterator m stack (Z.of_nat depth))
  = SortedMapIterator_next_loop (fuel - (depth - t + 1))
      (mkSortedMapIterator m stack (Z.of_nat t - 1)).
Proof.
  induction 1 as [entries t i Hframe Hi|elems t depth i k child Hframe Hi Hchild Hend IH];
    intros fuel Hfuel.
  - destruct fuel as [|fuel]; [lia|].
    cbn [SortedMapIterator_next_loop sitr_stack sitr_depth sitr_m].
    destruct (Z.geb_spec (Z.of_nat t) 0) as [_|]; [|lia].
    rewrite (frame_nat _ _ _ Hframe).
    cbn [mbind result_bind selem_node selem_index].
    destruct (Z.ltb_spec i (len entries - 1)); [lia|].
    replace (S fuel - (t - t + 1))%nat with fuel by lia. done.
  - pose proof (at_end_depth _ _ _ _ Hend) as Hdepth.
    rewrite IH by lia.
    replace (Z.of_nat (S t) - 1) with (Z.of_nat t) by lia.
    replace (fuel - (depth - S t + 1))%nat with (S (fuel - (depth - t + 1))) by lia.
    cbn [SortedMapIterator_next_loop sitr_stack sitr_depth sitr_m].
    destruct (Z.geb_spec (Z.of_nat t) 0) as [_|]; [|lia].
    rewrite (frame_nat _ _ _ Hframe).
    cbn [mbind result_bind selem_node selem_index].
    destruct (Z.ltb_spec i (len elems - 1)); [lia|]. done.
Qed.

(** One turn of [next] at a branch frame that has a child to its right. *)
Lemma SortedMapIterator_next_loop_branch m stack h elems (t : nat) (i : Z) (fuel : nat) :
  stack !! t = Some (mkSortedElem (Some (sortedMapBranchNode elems)) i) →
  0 ≤ i < len elems - 1 →
  tree_wf (S h) (sortedMapBranchNode elems) →
  length stack = 32%nat → (t + S h < 32)%nat →
  ∃ stack' (depth' : nat),
    SortedMapIterator_next_loop (S fuel) (mkSortedMapIterator m stack (Z.of_nat t))
    = Ok (mkSortedMapIterator m stack' (Z.of_nat depth'))
    ∧ cursor stack' (sortedMapBranchNode elems) t depth' (offset elems (Z.to_nat (i + 1)))
    ∧ frames_below t stack' stack
    ∧ length stack' = 32%nat.
Proof.
  intros Hframe Hi Hwf Hlen Hfit.
  inversion Hwf as [|h' elems' Hne Hchildren Hkeys]; subst h' elems'.
  cbn [SortedMapIterator_next_loop sitr_stack sitr_depth sitr_m].
  destruct (Z.geb_spec (Z.of_nat t) 0) as [_|]; [|lia].
  rewrite (frame_nat _ _ _ Hframe).
  cbn [mbind result_bind selem_node selem_index].
  destruct (Z.ltb_spec i (len elems - 1)); [|lia]. unfold len in *.
  destruct (lookup_lt_is_Some_2 elems (Z.to_nat (i + 1))) as [[k' child'] Hchild'];
    [lia|].
  rewrite set_frame_nat by lia. cbn [mbind result_bind].
  assert (frame elems (i + 1) = Ok (k', child')) as ->.
  { apply frame_Ok. split; [lia|done]. }
  cbn [mbind result_bind belem_node snd].
  replace (Z.of_nat t + 1) with (Z.of_nat (S t)) by lia.
  set (stack1 := <[t := mkSortedElem (Some (sortedMapBranchNode elems)) (i + 1)]> stack).
  assert (length stack1 = length stack) as Hlen1 by apply length_insert.
  destruct (lookup_lt_is_Some_2 stack1 (S t)) as [above Habove]; [lia|].
  rewrite (frame_nat _ _ _ Habove). cbn [mbind result_bind].
  rewrite set_frame_nat by lia. cbn [mbind result_bind].
  unfold SortedMapIterator_first.
  destruct (SortedMapIterator_first_loop_spec m h child'
              (Hchildren _ k' child' Hchild')
              (<[S t := mkSortedElem (Some child') (selem_index above)]> stack1)
              (S t) (selem_index above) 33)
    as (stack' & Hrun & Hcur' & Hbelow & Hlen').
  { apply list_lookup_insert_eq. lia. }
  { rewrite length_insert. lia. }
  { lia. }
  rewrite length_insert in Hlen'.
  exists stack', (S t + h)%nat. split; [done|].
  assert (frames_below (S t) stack' stack1) as Hbelow1.
  { eapply frames_below_trans; [|exact Hbelow|by apply frames_below_insert]. lia. }
  split; [|split; [|lia]].
  - rewrite <-(Nat.add_0_r (offset elems _)).
    eapply cursor_branch; [|lia|done|done].
    rewrite Hbelow1 by lia. apply list_lookup_insert_eq. lia.
  - eapply frames_below_trans; [|done|by apply frames_below_insert]. lia.
Qed.
End SortedSeek.

Section SortedSeekLoop.
Context {K V : Type}.
Implicit Types (c : Comparer K) (n child : sortedMapNode K V).
Implicit Types (entries l : list (mapEntry K V)) (key : K).
Implicit Types (elems : list (K * sortedMapNode K V)).
Implicit Types (stack : list (sortedMapIteratorElem K V)) (m : SortedMap K V).

(** [seek] from frame [t], whose node is [n]: the cursor ends on the
    first pair of [n] that is not below [key]; when every pair of [n] is
    below [key], [seek] ends with the call of [next] from the end of [n]. *)
Lemma SortedMapIterator_seek_loop_spec m c key h n :
  Comparer_ok c → tree_wf h n → entries_sorted c (sortedMapNode_entries n) →
  ∀ stack (t : nat) i0 (fuel : nat),
  stack !! t = Some (mkSortedElem (Some n) i0) →
  length stack = 32%nat → (t + h < 32)%nat → (h < fuel)%nat →
  ((rank c key (sortedMapNode_entries n) < length (sortedMapNode_entries n))%nat →
   ∃ stack' (depth' : nat),
     SortedMapIterator_seek_loop fuel (mkSortedMapIterator m stack (Z.of_nat t)) key c
     = Ok (mkSortedMapIterator m stack' (Z.of_nat depth'))
     ∧ cursor stack' n t depth' (rank c key (sortedMapNode_entries n))
     ∧ frames_below t stack' stack
     ∧ length stack' = 32%nat)
  ∧ (rank c key (sortedMapNode_entries n) = length (sortedMapNode_entries n) →
     ∃ stack' (depth' : nat),
       SortedMapIterator_seek_loop fuel (mkSortedMapIterator m stack (Z.of_nat t)) key c
       = SortedMapIterator_next (mkSortedMapIterator m stack' (Z.of_nat depth'))
       ∧ at_end stack' n t depth'
       ∧ frames_below t stack' stack
       ∧ length stack' = 32%nat).
Proof.
  intros Hc Hwf.
  induction Hwf as [entries Hne|h elems Hne Hchildren IH Hkeys];
    intros Hs stack t i0 fuel Hframe Hlen Hfit Hfuel;
    (destruct fuel as [|fuel]; [lia|]);
    cbn [SortedMapIterator_seek_loop sitr_stack sitr_depth sitr_m];
    rewrite (frame_nat _ _ _ Hframe);
    cbn [mbind result_bind selem_node sortedMapNode_indexOf].
  - (* a leaf *)
    cbn [sortedMapNode_entries] in *.
    rewrite (sortedMapLeafNode_indexOf_rank c key entries Hc Hs).
    rewrite set_frame_nat by lia. cbn [mbind result_bind]. unfold len.
    split; intros Hrank.
    + destruct (Z.eqb_spec (Z.of_nat (rank c key entries)) (Z.of_nat (length entries)));
        [lia|].
      eexists _, t. split; [done|].
      split; [|split; [by apply frames_below_insert|by rewrite length_insert]].
      rewrite <-(Nat2Z.id (rank c key entries)) at 2.
      apply cursor_leaf; [|unfold len; lia].
      apply list_lookup_insert_eq. lia.
    + destruct (Z.eqb_spec (Z.of_nat (rank c key entries)) (Z.of_nat (length entries)));
        [|lia].
      eexists _, t. split; [done|].
      split; [|split; [by apply frames_below_insert|by rewrite length_insert]].
      eapply at_end_leaf; [by apply list_lookup_insert_eq; lia|]. unfold len. lia.
  - (* a branch *)
    assert (Hwf : tree_wf (S h) (sortedMapBranchNode elems)) by (by constructor).
    rewrite sortedMapNode_entries_branch in *.
    destruct (sortedMapBranchNode_indexOf_spec c key elems Hc
                (branch_keys_sorted c h elems Hwf Hs) Hne) as (Hrange & _ & _).
    cbv zeta in Hrange. set (idx := sortedMapBranchNode_indexOf elems key c) in *.
    unfold len in Hrange.
    destruct (lookup_lt_is_Some_2 elems (Z.to_nat idx)) as [[k child] Hchild]; [lia|].
    pose proof (rank_branch c h elems Hc Hwf Hs key (Z.to_nat idx) k child eq_refl Hchild)
      as Hrank.
    pose proof (rank_le c key (sortedMapNode_entries child)) as Hrle.
    pose proof (offset_S elems _ k child Hchild) as HS.
    pose proof (offset_le elems (S (Z.to_nat idx))) as Htotal.
    rewrite set_frame_nat by lia. cbn [mbind result_bind].
    assert (frame elems idx = Ok (k, child)) as ->.
    { apply frame_Ok. split; [lia|done]. }
    cbn [mbind result_bind belem_node snd].
    replace (Z.of_nat t + 1) with (Z.of_nat (S t)) by lia.
    set (stack1 := <[t := mkSortedElem (Some (sortedMapBranchNode elems)) idx]> stack).
    assert (length stack1 = length stack) as Hlen1 by apply length_insert.
    rewrite set_frame_nat by lia. cbn [mbind result_bind].
    set (stack2 := <[S t := mkSortedElem (Some child) 0]> stack1).
    assert (length stack2 = 32%nat) as Hlen2 by (unfold stack2; rewrite length_insert; lia).
    destruct (IH _ k child Hchild (entries_sorted_child c elems _ k child Hs Hchild)
                stack2 (S t) 0 fuel) as [IHin IHout].
    { apply list_lookup_insert_eq. lia. }
    { done. }
    { lia. }
    { lia. }
    assert (Hframe_t : ∀ stack', frames_below (S t) stack' stack2 →
              stack' !! t = Some (mkSortedElem (Some (sortedMapBranchNode elems)) idx)).
    { intros stack' Hbelow. rewrite Hbelow by lia. unfold stack2.
      rewrite list_lookup_insert_ne by lia. apply list_lookup_insert_eq. lia. }
    assert (Hbelow_t : ∀ stack', frames_below (S t) stack' stack2 →
              frames_below t stack' stack).
    { intros stack' Hbelow u Hu. rewrite Hbelow by lia. unfold stack2, stack1.
      rewrite !list_lookup_insert_ne by lia. done. }
    rewrite Hrank. split; intros Hr.
    + destruct (decide (rank c key (sortedMapNode_entries child)
                        < length (sortedMapNode_entries child))%nat) as [Hin|Hout].
      * destruct (IHin Hin) as (stack' & depth' & Hrun & Hcur & Hbelow & Hlen').
        exists stack', depth'. split; [done|].
        split; [|split; [by apply Hbelow_t|done]].
        eapply cursor_branch; [by apply Hframe_t|lia|done|done].
      * assert (rank c key (sortedMapNode_entries child)
                = length (sortedMapNode_entries child)) as Hfull by lia.
        destruct (IHout Hfull) as (stack' & depth' & Hrun & Hend & Hbelow & Hlen').
        rewrite Hrun. unfold SortedMapIterator_next. cbn [sitr_depth].
        pose proof (at_end_depth _ _ _ _ Hend) as Hdepth.
        rewrite (SortedMapIterator_next_loop_at_end m stack' child (S t) depth' Hend)
          by lia.
        replace (Z.of_nat (S t) - 1) with (Z.of_nat t) by lia.
        replace (Z.to_nat (Z.of_nat depth' + 1) - (depth' - S t + 1))%nat
          with (S t) by lia.
        assert (idx < Z.of_nat (length elems) - 1) as Hmore.
        { destruct (Z.ltb_spec idx (Z.of_nat (length elems) - 1)); [done|].
          rewrite offset_all in HS by lia. lia. }
        destruct (SortedMapIterator_next_loop_branch m stack' h elems t idx t
                    (Hframe_t _ Hbelow) ltac:(unfold len; lia) Hwf Hlen' Hfit)
          as (stack'' & depth'' & Hrun' & Hcur & Hbelow' & Hlen'').
        exists stack'', depth''. split; [done|].
        split; [|split; [|done]].
        -- replace (Z.to_nat (idx + 1)) with (S (Z.to_nat idx)) in Hcur by lia.
           by rewrite HS, <-Hfull in Hcur.
        -- eapply frames_below_trans; [|exact Hbelow'|by apply Hbelow_t]. lia.
    + assert (rank c key (sortedMapNode_entries child)
              = length (sortedMapNode_entries child)) as Hfull by lia.
      assert (Z.to_nat idx = (length elems - 1)%nat) as Hlast.
      { destruct (decide (Z.to_nat idx = (length elems - 1)%nat)); [done|]. exfalso.
        destruct (lookup_lt_is_Some_2 elems (S (Z.to_nat idx))) as [[k' child'] Hchild'];
          [lia|].
        pose proof (tree_wf_nonempty h child' (Hchildren _ k' child' Hchild')).
        pose proof (offset_child_le elems _ k' child' Hchild'). lia. }
      destruct (IHout Hfull) as (stack' & depth' & Hrun & Hend & Hbelow & Hlen').
      exists stack', depth'. split; [done|].
      split; [|split; [by apply Hbelow_t|done]].
      eapply at_end_branch; [by apply Hframe_t|unfold len; lia| |done].
      by rewrite <-Hlast.
Qed.
End SortedSeekLoop.

Section SortedEntries.
Context {K V : Type}.
Implicit Types (c : Comparer K) (n child : sortedMapNode K V).
Implicit Types (entries l : list (mapEntry K V)) (key : K) (value : V).
Implicit Types (elems : list (K * sortedMapNode K V)).

Lemma entries_sorted_nil c : entries_sorted c ([] : list (mapEntry K V)).
Proof. intros i j a b Ha. done. Qed.

Lemma entries_sorted_app c l1 l2 :
  entries_sorted c (l1 ++ l2) ↔
  entries_sorted c l1 ∧ entries_sorted c l2
  ∧ ∀ a b, a ∈ l1 → b ∈ l2 → Compare c (entry_key a) (entry_key b) = -1.
Proof.
  split.
  - intros Hs. split; [by eapply entries_sorted_app_l|].
    split; [by eapply entries_sorted_app_r|].
    intros a b. by apply entries_sorted_app_lt.
  - intros (H1 & H2 & H12) i j a b Ha Hb Hij.
    apply lookup_app_Some in Ha as [Ha|[Hi Ha]];
      apply lookup_app_Some in Hb as [Hb|[Hj Hb]].
    + by apply (H1 i j).
    + apply H12; by eapply list_elem_of_lookup_2.
    + apply lookup_lt_Some in Hb. lia.
    + apply (H2 (i - length l1)%nat (j - length l1)%nat); [done..|lia].
Qed.

Lemma entries_sorted_cons c e l :
  entries_sorted c (e :: l) ↔
  entries_sorted c l ∧ ∀ b, b ∈ l → Compare c (entry_key e) (entry_key b) = -1.
Proof.
  change (e :: l) with ([e] ++ l). rewrite entries_sorted_app. split.
  - intros (_ & Hl & Hel). split; [done|]. intros b Hb. apply Hel; [|done].
    by apply list_elem_of_singleton.
  - intros (Hl & Hel). split.
    { intros i j a b Ha Hb Hij. apply lookup_lt_Some in Hb. cbn in Hb. lia. }
    split; [done|]. intros a b ->%list_elem_of_singleton Hb. by apply Hel.
Qed.

(** The pair that a search for [key] hits: the first pair that is not
    below [key], if its key equals [key]. *)
Definition entries_hit c key l : option (mapEntry K V) :=
  match l !! rank c key l with
  | Some e => if Compare c (entry_key e) key =? 0 then Some e else None
  | None => None
  end.

(** The pairs after a [Set]: the pair for [key] replaced, or put in at
    its place. *)
Definition entries_upsert c key value l : list (mapEntry K V) :=
  match entries_hit c key l with
  | Some _ => <[rank c key l := mkEntry key value]> l
  | None => splice (rank c key l) (mkEntry key value) l
  end.

(** The pairs after a [Delete] that finds its key. *)
Definition entries_remove c key l : list (mapEntry K V) :=
  remove_at (rank c key l) l.

Lemma entries_hit_Some c key l e :
  entries_hit c key l = Some e →
  l !! rank c key l = Some e ∧ Compare c (entry_key e) key = 0.
Proof.
  unfold entries_hit. destruct (l !! rank c key l) as [e'|]; [|done].
  destruct (Z.eqb_spec (Compare c (entry_key e') key) 0); [|done].
  by intros [= <-].
Qed.

Lemma entries_hit_None c key l :
  entries_hit c key l = None →
  ∀ e, l !! rank c key l = Some e → Compare c (entry_key e) key ≠ 0.
Proof.
  unfold entries_hit. intros Hhit e He. rewrite He in Hhit.
  by destruct (Z.eqb_spec (Compare c (entry_key e) key) 0).
Qed.

(** In a sorted list the pairs past the first one not below [key] are
    above [key]. *)
Lemma rank_strictly_above c key l (i : nat) e :
  Comparer_ok c → entries_sorted c l →
  (rank c key l < i)%nat → l !! i = Some e → Compare c (entry_key e) key = 1.
Proof.
  intros Hc Hs Hi He.
  destruct (lookup_lt_is_Some_2 l (rank c key l)) as [e' He'].
  { apply lookup_lt_Some in He. lia. }
  pose proof (rank_at c key l e' He') as Hnlt.
  pose proof (Hs _ _ _ _ He' He Hi) as Hlt.
  apply (compare_flip c Hc).
  destruct (compare_range c Hc e'.(entry_key) key) as [H|[H|H]]; [done| |].
  - eapply compare_eq_lt; [done| |done]. by apply compare_eq_sym.
  - apply (compare_flip c Hc) in H. by eapply compare_lt_trans.
Qed.

(** ** A search in the middle part of a list *)

Section Middle.
Context (c : Comparer K) (key : K) (A B C : list (mapEntry K V)).
Context (Hrank : rank c key (A ++ B ++ C) = (length A + rank c key B)%nat).
Context (Hafter : ∀ e, C !! 0%nat = Some e → Compare c (entry_key e) key = 1).

Lemma middle_lookup :
  (A ++ B ++ C) !! rank c key (A ++ B ++ C)
  = if decide (rank c key B < length B)%nat then B !! rank c key B else C !! 0%nat.
Proof.
  rewrite Hrank, lookup_app_r by lia.
  replace (length A + rank c key B - length A)%nat with (rank c key B) by lia.
  pose proof (rank_le c key B). case_decide.
  - by rewrite lookup_app_l.
  - rewrite lookup_app_r by lia. f_equal. lia.
Qed.

Lemma entries_hit_middle : entries_hit c key (A ++ B ++ C) = entries_hit c key B.
Proof.
  unfold entries_hit. rewrite middle_lookup. case_decide as Hlt; [done|].
  rewrite (lookup_ge_None_2 B) by lia.
  destruct (C !! 0%nat) as [e|] eqn:He; [|done].
  rewrite (Hafter e eq_refl). done.
Qed.

Lemma entries_upsert_middle value :
  entries_upsert c key value (A ++ B ++ C) = A ++ entries_upsert c key value B ++ C.
Proof.
  unfold entries_upsert. rewrite entries_hit_middle, Hrank.
  pose proof (rank_le c key B).
  destruct (entries_hit c key B) as [e|] eqn:Hhit.
  - apply entries_hit_Some in Hhit as [He%lookup_lt_Some _].
    rewrite insert_app_r_alt by lia.
    replace (length A + rank c key B - length A)%nat with (rank c key B) by lia.
    by rewrite insert_app_l.
  - unfold splice. rewrite take_app_ge, drop_app_ge by lia.
    replace (length A + rank c key B - length A)%nat with (rank c key B) by lia.
    rewrite take_app_le, drop_app_le by lia.
    by rewrite <-!app_assoc.
Qed.

Lemma entries_remove_middle e :
  entries_hit c key B = Some e →
  entries_remove c key (A ++ B ++ C) = A ++ entries_remove c key B ++ C.
Proof.
  intros [He%lookup_lt_Some _]%entries_hit_Some.
  unfold entries_remove, remove_at. rewrite Hrank.
  rewrite take_app_ge, drop_app_ge by lia.
  replace (length A + rank c key B - length A)%nat with (rank c key B) by lia.
  replace (S (length A + rank c key B) - length A)%nat with (S (rank c key B)) by lia.
  rewrite take_app_le, drop_app_le by lia.
  by rewrite <-!app_assoc.
Qed.
End Middle.

(** ** What [Set] and [Delete] do to sorted pairs *)

Lemma entries_sorted_upsert c key value l :
  Comparer_ok c → entries_sorted c l → entries_sorted c (entries_upsert c key value l).
Proof.
  intros Hc Hs. unfold entries_upsert.
  assert (Hbelow : ∀ a, a ∈ take (rank c key l) l → Compare c (entry_key a) key = -1).
  { intros a (i & Ha & Hi)%elem_of_take. by eapply rank_below. }
  destruct (entries_hit c key l) as [e|] eqn:Hhit.
  - apply entries_hit_Some in Hhit as [He Heq].
    rewrite <-(take_drop_middle l _ e He) in Hs.
    rewrite insert_take_drop by (by eapply lookup_lt_Some).
    apply entries_sorted_app in Hs as (H1 & [H2 H2e]%entries_sorted_cons & H12).
    apply entries_sorted_app. split; [done|]. split.
    + apply entries_sorted_cons. split; [done|]. intros b Hb. cbn.
      eapply compare_eq_lt; [done|by apply compare_eq_sym|by apply H2e].
    + intros a b Ha [->|Hb]%elem_of_cons; [by apply Hbelow|].
      apply H12; [done|]. by apply elem_of_cons; right.
  - unfold splice. pose proof Hs as Hs0.
    rewrite <-(take_drop (rank c key l) l) in Hs at 1.
    apply entries_sorted_app in Hs as (H1 & H2 & H12).
    apply entries_sorted_app. split; [done|]. split.
    + apply entries_sorted_cons. split; [done|].
      intros b [i Hb]%list_elem_of_lookup. rewrite lookup_drop in Hb. cbn.
      apply (compare_flip c Hc).
      destruct (decide (i = 0)%nat) as [->|Hpos].
      * rewrite Nat.add_0_r in Hb.
        pose proof (rank_at c key l b Hb). pose proof (entries_hit_None c key l Hhit b Hb).
        destruct (compare_range c Hc (entry_key b) key) as [?|[?|?]]; done.
      * apply (rank_strictly_above c key l (rank c key l + i) b Hc Hs0); [lia|done].
    + intros a b Ha [->|Hb]%elem_of_cons; [by apply Hbelow|]. by apply H12.
Qed.

Lemma entries_sorted_remove c key l :
  entries_sorted c l → entries_sorted c (entries_remove c key l).
Proof.
  intros Hs. unfold entries_remove, remove_at.
  rewrite <-(take_drop (rank c key l) l) in Hs at 1.
  apply entries_sorted_app in Hs as (H1 & H2 & H12).
  apply entries_sorted_app. split; [done|].
  assert (∀ b, b ∈ drop (S (rank c key l)) l → b ∈ drop (rank c key l) l) as Hsub.
  { intros b [i Hb]%list_elem_of_lookup. rewrite lookup_drop in Hb.
    apply list_elem_of_lookup. exists (S i). rewrite lookup_drop. rewrite <-Hb. f_equal. lia. }
  split.
  - intros i j a b Ha Hb Hij. rewrite lookup_drop in Ha, Hb.
    apply (H2 (S i) (S j)); [rewrite lookup_drop, <-Ha; f_equal; lia
                            |rewrite lookup_drop, <-Hb; f_equal; lia|lia].
  - intros a b Ha Hb. apply H12; [done|]. by apply Hsub.
Qed.

Lemma length_entries_upsert c key value l :
  length (entries_upsert c key value l)
  = (length l + match entries_hit c key l with Some _ => 0 | None => 1 end)%nat.
Proof.
  unfold entries_upsert. destruct (entries_hit c key l).
  - rewrite length_insert. lia.
  - unfold splice. rewrite length_app. cbn [length].
    rewrite length_take, length_drop. pose proof (rank_le c key l). lia.
Qed.

Lemma length_entries_remove c key l e :
  entries_hit c key l = Some e →
  length (entries_remove c key l) = (length l - 1)%nat.
Proof.
  intros [He%lookup_lt_Some _]%entries_hit_Some. unfold entries_remove, remove_at.
  rewrite length_app, length_take, length_drop. lia.
Qed.
End SortedEntries.

Section SortedNodeOps.
Context {K V : Type}.
Implicit Types (c : Comparer K) (n child : sortedMapNode K V).
Implicit Types (entries l : list (mapEntry K V)) (key : K) (value : V).
Implicit Types (elems : list (K * sortedMapNode K V)).

(** A branch is well formed when it has children, and each child is well
    formed and listed under its lowest key. *)
Definition child_ok (h : nat) (e : K * sortedMapNode K V) : Prop :=
  tree_wf h (belem_node e) ∧ sortedMapNode_minKey (belem_node e) = Ok (belem_key e).

Lemma tree_wf_branch_Forall h elems :
  tree_wf (S h) (sortedMapBranchNode elems) ↔ elems ≠ [] ∧ Forall (child_ok h) elems.
Proof.
  split.
  - intros Hwf. inversion Hwf as [|h' elems' Hne Hchildren Hkeys]; subst.
    split; [done|]. apply Forall_lookup. intros i [k child] Hi. split; cbn; eauto.
  - intros [Hne Hall]. rewrite Forall_lookup in Hall. constructor; [done|..].
    + intros i k child Hi. by destruct (Hall i _ Hi).
    + intros i k child Hi. by destruct (Hall i _ Hi).
Qed.

Lemma elems_entries_insert elems (i : nat) k child k' child' :
  elems !! i = Some (k, child) →
  elems_entries (<[i := (k', child')]> elems)
  = elems_entries (take i elems) ++ sortedMapNode_entries child'
    ++ elems_entries (drop (S i) elems).
Proof.
  intros Hi. rewrite insert_take_drop by (by eapply lookup_lt_Some).
  by rewrite elems_entries_app, elems_entries_cons.
Qed.

(** The search of a branch hands the key to the one child that can hold it. *)
Section Descend.
Context (c : Comparer K) (h : nat) (elems : list (K * sortedMapNode K V)).
Context (Hc : Comparer_ok c).
Context (Hwf : tree_wf (S h) (sortedMapBranchNode elems)).
Context (Hs : entries_sorted c (elems_entries elems)).
Context (key : K).

Let idx := Z.to_nat (sortedMapBranchNode_indexOf elems key c).

Lemma branch_descend :
  ∃ k child,
    elems !! idx = Some (k, child)
    ∧ tree_wf h child
    ∧ entries_sorted c (sortedMapNode_entries child)
    ∧ elems_entries elems
      = elems_entries (take idx elems) ++ sortedMapNode_entries child
        ++ elems_entries (drop (S idx) elems)
    ∧ rank c key (elems_entries (take idx elems) ++ sortedMapNode_entries child
                  ++ elems_entries (drop (S idx) elems))
      = (length (elems_entries (take idx elems))
         + rank c key (sortedMapNode_entries child))%nat
    ∧ ∀ e, elems_entries (drop (S idx) elems) !! 0%nat = Some e →
           Compare c (entry_key e) key = 1.
Proof.
  destruct (sortedMapBranchNode_indexOf_spec c key elems Hc
              (branch_keys_sorted c h elems Hwf Hs) (branch_nonempty h elems Hwf))
    as (Hrange & Habove & _).
  cbv zeta in *. unfold len in Hrange.
  destruct (lookup_lt_is_Some_2 elems idx) as [[k child] Hchild]; [unfold idx; lia|].
  exists k, child. split; [done|].
  split; [by eapply branch_child_wf|].
  split; [by eapply entries_sorted_child|].
  pose proof (elems_entries_split elems idx k child Hchild) as Hsplit.
  split; [done|]. split.
  - rewrite <-Hsplit. by apply (rank_branch c h elems Hc Hwf Hs key idx k child).
  - intros e He.
    destruct (drop (S idx) elems) as [|[k' child'] rest] eqn:Hdrop; [done|].
    assert (elems !! S idx = Some (k', child')) as Hnext.
    { rewrite <-(Nat.add_0_r (S idx)), <-lookup_drop, Hdrop. done. }
    destruct (tree_wf_minKey h child' (branch_child_wf h elems Hwf (S idx) k' child' Hnext))
      as (e' & l' & He' & Hmin').
    inversion Hwf as [|h' elems' Hne Hchildren Hkeys]; subst h' elems'.
    rewrite (Hkeys (S idx) k' child' Hnext) in Hmin'. injection Hmin' as ->.
    rewrite elems_entries_cons, He' in He. injection He as <-.
    apply (Habove (S idx) (entry_key e', child')); [unfold idx; lia|done].
Qed.
End Descend.

(** ** [get] *)

Lemma sortedMapNode_get_spec c key h n :
  Comparer_ok c → tree_wf h n → entries_sorted c (sortedMapNode_entries n) →
  sortedMapNode_get n key c
  = Ok (entry_value <$> entries_hit c key (sortedMapNode_entries n)).
Proof.
  intros Hc Hwf. induction Hwf as [entries Hne|h elems Hne Hchildren IH Hkeys]; intros Hs.
  - cbn [sortedMapNode_get sortedMapNode_entries] in *.
    rewrite (sortedMapLeafNode_indexOf_rank c key entries Hc Hs), Nat2Z.id.
    unfold entries_hit. destruct (entries !! rank c key entries) as [e|]; [|done].
    by destruct (Compare c (entry_key e) key =? 0).
  - assert (Hwf : tree_wf (S h) (sortedMapBranchNode elems)) by (by constructor).
    rewrite sortedMapNode_entries_branch in *.
    destruct (branch_descend c h elems Hc Hwf Hs key)
      as (k & child & Hchild & Hwfc & Hsc & Hsplit & Hrank & Hafter).
    cbn [sortedMapNode_get]. rewrite at_index_lookup, Hchild.
    rewrite (IH _ k child Hchild Hsc), Hsplit.
    by rewrite (entries_hit_middle c key _ _ _ Hrank Hafter).
Qed.

(** ** [set] *)

(** The pairs of the node that [set] splits off, if any. *)
Definition split_entries (split : option (sortedMapNode K V)) : list (mapEntry K V) :=
  match split with
  | Some s => sortedMapNode_entries s
  | None => []
  end.

Definition split_wf (h : nat) (split : option (sortedMapNode K V)) : Prop :=
  match split with
  | Some s => tree_wf h s
  | None => True
  end.

Lemma sortedMapNode_set_spec c key value h n :
  Comparer_ok c → tree_wf h n → entries_sorted c (sortedMapNode_entries n) →
  ∀ resized : bool, ∃ n1 split,
    sortedMapNode_set n key value c resized
    = Ok (n1, split,
          match entries_hit c key (sortedMapNode_entries n) with
          | Some _ => resized
          | None => true
          end)
    ∧ tree_wf h n1 ∧ split_wf h split
    ∧ sortedMapNode_entries n1 ++ split_entries split
      = entries_upsert c key value (sortedMapNode_entries n).
Proof.
  intros Hc Hwf. induction Hwf as [entries Hne|h elems Hne Hchildren IH Hkeys];
    intros Hs resized.
  - (* a leaf *)
    cbn [sortedMapNode_set sortedMapNode_entries] in *.
    rewrite (sortedMapLeafNode_indexOf_rank c key entries Hc Hs), Nat2Z.id.
    set (new := entries_upsert c key value entries).
    assert (match entries !! rank c key entries with
            | Some e => if Compare c (entry_key e) key =? 0
                        then (<[rank c key entries := mkEntry key value]> entries, resized)
                        else (splice (rank c key entries) (mkEntry key value) entries, true)
            | None => (splice (rank c key entries) (mkEntry key value) entries, true)
            end
            = (new, match entries_hit c key entries with
                    | Some _ => resized | None => true end)) as ->.
    { unfold new, entries_upsert, entries_hit.
      destruct (entries !! rank c key entries) as [e|]; [|done].
      by destruct (Compare c (entry_key e) key =? 0). }
    assert (0 < len new) as Hpos.
    { unfold len, new. rewrite length_entries_upsert.
      destruct entries; [done|]. cbn [length]. lia. }
    unfold len in *.
    destruct (Z.gtb_spec (Z.of_nat (length new)) sortedMapNodeSize) as [Hbig|Hsmall].
    + unfold sortedMapNodeSize in Hbig.
      assert (0 < Z.of_nat (length new) `div` 2 < Z.of_nat (length new)) as Hhalf.
      { split; [apply Z.div_str_pos; lia|apply Z.div_lt; lia]. }
      eexists _, (Some _). split; [done|].
      split; [|split].
      * constructor. intros Hnil%(f_equal length). rewrite length_take in Hnil.
        cbn in Hnil. lia.
      * constructor. intros Hnil%(f_equal length). rewrite length_drop in Hnil.
        cbn in Hnil. lia.
      * cbn [sortedMapNode_entries split_entries]. apply take_drop.
    + eexists _, None. split; [done|]. split; [|split; [done|]].
      * constructor. intros Hnil. rewrite Hnil in Hpos. cbn in Hpos. lia.
      * cbn [sortedMapNode_entries split_entries]. apply app_nil_r.
  - (* a branch *)
    assert (Hwf : tree_wf (S h) (sortedMapBranchNode elems)) by (by constructor).
    pose proof Hwf as [_ Hall]%tree_wf_branch_Forall.
    rewrite sortedMapNode_entries_branch in *.
    destruct (branch_descend c h elems Hc Hwf Hs key)
      as (k & child & Hchild & Hwfc & Hsc & Hsplit & Hrank & Hafter).
    set (idx := Z.to_nat (sortedMapBranchNode_indexOf elems key c)) in *.
    destruct (IH _ k child Hchild Hsc resized)
      as (n1 & split & Hset & Hwf1 & Hwfs & Hentries).
    cbn [sortedMapNode_set]. fold idx. rewrite at_index_lookup, Hchild.
    cbv beta iota. rewrite Hset. cbn [mbind result_bind].
    destruct (tree_wf_minKey h n1 Hwf1) as (e1 & l1 & He1 & Hmin1).
    rewrite Hmin1. cbn [mbind result_bind].
    rewrite (f_equal (entries_hit c key) Hsplit).
    rewrite (f_equal (entries_upsert c key value) Hsplit).
    rewrite (entries_hit_middle c key _ _ _ Hrank Hafter).
    rewrite (entries_upsert_middle c key _ _ _ Hrank Hafter), <-Hentries.
    assert (Hother : ∃ other,
              match split with
              | Some splitNode =>
                  splitKey ← sortedMapNode_minKey splitNode;
                  Ok (take idx elems ++ (entry_key e1, n1) :: (splitKey, splitNode)
                                     :: drop (S idx) elems)
              | None => Ok (<[idx := (entry_key e1, n1)]> elems)
              end = Ok other
              ∧ Forall (child_ok h) other ∧ other ≠ []
              ∧ elems_entries other
                = elems_entries (take idx elems)
                  ++ (sortedMapNode_entries n1 ++ split_entries split)
                  ++ elems_entries (drop (S idx) elems)).
    { destruct split as [s|]; cbn [split_wf split_entries] in *.
      - destruct (tree_wf_minKey h s Hwfs) as (es & ls & Hes & Hmins).
        rewrite Hmins. cbn [mbind result_bind]. eexists. split; [done|].
        split; [|split].
        + apply Forall_app. split; [by apply Forall_take|].
          constructor; [done|]. constructor; [done|]. by apply Forall_drop.
        + by destruct (take idx elems).
        + rewrite elems_entries_app, !elems_entries_cons. by rewrite <-!app_assoc.
      - eexists. split; [done|]. split; [|split].
        + by apply Forall_insert.
        + intros Hnil%(f_equal length). rewrite length_insert in Hnil.
          apply lookup_lt_Some in Hchild. cbn in Hnil. lia.
        + rewrite (elems_entries_insert elems idx k child _ _ Hchild).
          by rewrite app_nil_r. }
    destruct Hother as (other & -> & Hallo & Hneo & Heo). cbn [mbind result_bind].
    unfold len.
    destruct (Z.gtb_spec (Z.of_nat (length other)) sortedMapNodeSize) as [Hbig|Hsmall].
    + unfold sortedMapNodeSize in Hbig.
      assert (0 < Z.of_nat (length other) `div` 2 < Z.of_nat (length other)) as Hhalf.
      { split; [apply Z.div_str_pos; lia|apply Z.div_lt; lia]. }
      eexists _, (Some _). split; [done|].
      split; [|split].
      * apply tree_wf_branch_Forall. split; [|by apply Forall_take].
        intros Hnil%(f_equal length). rewrite length_take in Hnil. cbn in Hnil. lia.
      * apply tree_wf_branch_Forall. split; [|by apply Forall_drop].
        intros Hnil%(f_equal length). rewrite length_drop in Hnil. cbn in Hnil. lia.
      * cbn [split_entries]. rewrite !sortedMapNode_entries_branch.
        by rewrite <-elems_entries_app, take_drop.
    + eexists _, None. split; [done|]. split; [|split; [done|]].
      * by apply tree_wf_branch_Forall.
      * cbn [split_entries]. by rewrite app_nil_r, sortedMapNode_entries_branch.
Qed.
End SortedNodeOps.

Section SortedNodeDelete.
Context {K V : Type}.
Implicit Types (c : Comparer K) (n child : sortedMapNode K V).
Implicit Types (entries l : list (mapEntry K V)) (key : K) (value : V).
Implicit Types (elems : list (K * sortedMapNode K V)).

(** What is left of a node: its pairs, none for nil. *)
Definition subtree_entries (root : option (sortedMapNode K V)) : list (mapEntry K V) :=
  match root with
  | Some n => sortedMapNode_entries n
  | None => []
  end.

Definition subtree_wf (h : nat) (root : option (sortedMapNode K V)) : Prop :=
  match root with
  | Some n => tree_wf h n
  | None => True
  end.

Lemma sortedMapNode_delete_spec c key h n :
  Comparer_ok c → tree_wf h n → entries_sorted c (sortedMapNode_entries n) →
  match entries_hit c key (sortedMapNode_entries n) with
  | None => sortedMapNode_delete n key c = Ok Receiver
  | Some _ =>
      ∃ r, sortedMapNode_delete n key c = Ok (Fresh r)
           ∧ subtree_wf h r
           ∧ subtree_entries r = entries_remove c key (sortedMapNode_entries n)
  end.
Proof.
  intros Hc Hwf. induction Hwf as [entries Hne|h elems Hne Hchildren IH Hkeys]; intros Hs.
  - (* a leaf *)
    cbn [sortedMapNode_delete sortedMapNode_entries] in *.
    rewrite (sortedMapLeafNode_indexOf_rank c key entries Hc Hs), Nat2Z.id.
    unfold entries_hit, entries_remove.
    destruct (entries !! rank c key entries) as [e|] eqn:He; [|done].
    destruct (Z.eqb_spec (Compare c (entry_key e) key) 0) as [Heq|Hneq]; cbn [negb]; [|done].
    apply lookup_lt_Some in He. unfold len.
    destruct (Z.eqb_spec (Z.of_nat (length entries)) 1) as [Hone|Hmore].
    + exists None. split; [done|]. split; [done|].
      destruct entries as [|e0 [|e1 rest]]; cbn in Hone; try lia.
      replace (rank c key [e0]) with 0%nat by (cbn [length] in He; lia). done.
    + eexists (Some _). split; [done|]. split; [|done].
      constructor. intros Hnil%(f_equal length). unfold remove_at in Hnil.
      rewrite length_app, length_take, length_drop in Hnil. cbn in Hnil. lia.
  - (* a branch *)
    assert (Hwf : tree_wf (S h) (sortedMapBranchNode elems)) by (by constructor).
    pose proof Hwf as [_ Hall]%tree_wf_branch_Forall.
    rewrite sortedMapNode_entries_branch in *.
    destruct (branch_descend c h elems Hc Hwf Hs key)
      as (k & child & Hchild & Hwfc & Hsc & Hsplit & Hrank & Hafter).
    set (idx := Z.to_nat (sortedMapBranchNode_indexOf elems key c)) in *.
    specialize (IH _ k child Hchild Hsc).
    cbn [sortedMapNode_delete]. fold idx. rewrite at_index_lookup, Hchild.
    cbv beta iota.
    rewrite (f_equal (entries_hit c key) Hsplit).
    rewrite (f_equal (entries_remove c key) Hsplit).
    rewrite (entries_hit_middle c key _ _ _ Hrank Hafter).
    destruct (entries_hit c key (sortedMapNode_entries child)) as [e|] eqn:Hhit.
    2:{ by rewrite IH. }
    rewrite (entries_remove_middle c key _ _ _ Hrank e Hhit).
    destruct IH as (r & -> & Hwfr & Hr). cbn [mbind result_bind]. rewrite <-Hr.
    pose proof (lookup_lt_Some _ _ _ Hchild) as Hidx. unfold len.
    destruct r as [n'|]; cbn [subtree_wf subtree_entries] in *.
    + destruct (tree_wf_minKey h n' Hwfr) as (e' & l' & He' & Hmin').
      rewrite Hmin'. cbn [mbind result_bind].
      eexists (Some _). split; [done|]. split.
      * apply tree_wf_branch_Forall. split; [|by apply Forall_insert].
        intros Hnil%(f_equal length). rewrite length_insert in Hnil. cbn in Hnil. lia.
      * cbn [subtree_entries]. rewrite sortedMapNode_entries_branch.
        apply (elems_entries_insert elems idx k child _ _ Hchild).
    + destruct (Z.eqb_spec (Z.of_nat (length elems)) 1) as [Hone|Hmore].
      * exists None. split; [done|]. split; [done|]. cbn [subtree_entries].
        destruct elems as [|e0 [|e1 rest]]; cbn in Hone; try lia.
        replace idx with 0%nat by (cbn [length] in Hidx; lia). done.
      * eexists (Some _). split; [done|]. split.
        -- apply tree_wf_branch_Forall. unfold remove_at. split.
           ++ intros Hnil%(f_equal length).
              rewrite length_app, length_take, length_drop in Hnil. cbn in Hnil. lia.
           ++ apply Forall_app. split; [by apply Forall_take|by apply Forall_drop].
        -- cbn [subtree_entries]. rewrite sortedMapNode_entries_branch. unfold remove_at.
           by rewrite elems_entries_app.
Qed.
End SortedNodeDelete.

Section SortedFacade.
Context {K V : Type}.
Context (defaultComparer : K → option (Comparer K)).
Implicit Types (c : Comparer K) (n child : sortedMapNode K V) (m : SortedMap K V).
Implicit Types (entries l : list (mapEntry K V)) (key : K) (value : V).

(** The pairs of a map, in the order of its tree. *)
Definition SortedMap_entries m : list (mapEntry K V) := subtree_entries (smap_root m).

(** The number of branch levels above the leaves. *)
Fixpoint sortedMapNode_height n : nat :=
  match n with
  | sortedMapBranchNode ((_, child) :: _) => S (sortedMapNode_height child)
  | sortedMapBranchNode [] => 0
  | sortedMapLeafNode _ => 0
  end.

Definition SortedMap_height m : nat :=
  match smap_root m with
  | Some root => sortedMapNode_height root
  | None => 0
  end.

Lemma tree_wf_height h n : tree_wf h n → sortedMapNode_height n = h.
Proof.
  induction 1 as [entries Hne|h elems Hne Hchildren IH Hkeys]; [done|].
  destruct elems as [|[k child] elems]; [done|].
  cbn [sortedMapNode_height]. f_equal. by apply (IH 0%nat k child).
Qed.

(** A map under comparer [c] whose tree is well formed, whose pairs are
    sorted, and whose size is their number. *)
Definition SortedMap_wf c m : Prop :=
  smap_comparer m = Some c
  ∧ (∃ h, subtree_wf h (smap_root m))
  ∧ entries_sorted c (SortedMap_entries m)
  ∧ smap_size m = len (SortedMap_entries m).

(** The maps that a client can build with comparer [c]. *)
Inductive SortedMap_reachable c : SortedMap K V → Prop :=
| SortedMap_reachable_new : SortedMap_reachable c (NewSortedMap (Some c))
| SortedMap_reachable_set m key value m' :
    SortedMap_reachable c m → SortedMap_Set defaultComparer m key value = Ok m' →
    SortedMap_reachable c m'
| SortedMap_reachable_delete m key m' :
    SortedMap_reachable c m → SortedMap_Delete m key = Ok (Fresh m') →
    SortedMap_reachable c m'.

Lemma NewSortedMap_wf c : SortedMap_wf c (NewSortedMap (Some c)).
Proof.
  split; [done|]. split; [by exists 0%nat|]. split; [|done].
  apply entries_sorted_nil.
Qed.

Lemma SortedMap_Get_spec c m key :
  Comparer_ok c → SortedMap_wf c m →
  SortedMap_Get m key = Ok (entry_value <$> entries_hit c key (SortedMap_entries m)).
Proof.
  intros Hc (Hcmp & [h Hwf] & Hs & Hsize). unfold SortedMap_Get, SortedMap_entries in *.
  destruct (smap_root m) as [root|]; [|done].
  rewrite Hcmp. by eapply sortedMapNode_get_spec.
Qed.

Lemma SortedMap_Set_spec c m key value :
  Comparer_ok c → SortedMap_wf c m →
  ∃ m', SortedMap_Set defaultComparer m key value = Ok m'
        ∧ SortedMap_wf c m'
        ∧ SortedMap_entries m' = entries_upsert c key value (SortedMap_entries m).
Proof.
  intros Hc (Hcmp & [h Hwf] & Hs & Hsize).
  unfold SortedMap_Set, SortedMap_entries in *. rewrite Hcmp. cbn [mbind result_bind].
  destruct (smap_root m) as [root|]; cbn [subtree_wf subtree_entries] in *.
  - destruct (sortedMapNode_set_spec c key value h root Hc Hwf Hs false)
      as (n1 & split & Hset & Hwf1 & Hwfs & Hentries).
    rewrite Hset. cbn [mbind result_bind].
    assert (Hsize' : (if match entries_hit c key (sortedMapNode_entries root) with
                         | Some _ => false | None => true end
                      then smap_size m + 1 else smap_size m)
                     = len (entries_upsert c key value (sortedMapNode_entries root))).
    { unfold len in *. rewrite length_entries_upsert, Hsize.
      destruct (entries_hit c key (sortedMapNode_entries root)); lia. }
    pose proof (entries_sorted_upsert c key value _ Hc Hs) as Hs'.
    destruct split as [s|]; cbn [split_wf split_entries] in *.
    + destruct (tree_wf_minKey h n1 Hwf1) as (e1 & l1 & He1 & Hmin1).
      destruct (tree_wf_minKey h s Hwfs) as (es & ls & Hes & Hmins).
      unfold newSortedMapBranchNode. cbn [foldr mbind result_bind].
      rewrite Hmins. cbn [mbind result_bind]. rewrite Hmin1. cbn [mbind result_bind].
      eexists. split; [done|]. unfold SortedMap_wf, SortedMap_entries.
      cbn [smap_root smap_size smap_comparer subtree_entries subtree_wf].
      rewrite sortedMapNode_entries_branch, !elems_entries_cons, elems_entries_nil,
        app_nil_r, Hentries.
      split; [|done]. split; [done|]. split; [|done].
      exists (S h). apply tree_wf_branch_Forall. split; [done|].
      constructor; [done|]. constructor; [done|]. constructor.
    + cbn [mbind result_bind]. rewrite app_nil_r in Hentries.
      eexists. split; [done|]. unfold SortedMap_wf, SortedMap_entries.
      cbn [smap_root smap_size smap_comparer subtree_entries subtree_wf].
      rewrite Hentries. split; [|done]. split; [done|]. split; [by exists h|done].
  - eexists. split; [done|]. unfold SortedMap_wf, SortedMap_entries.
    cbn [smap_root smap_size smap_comparer subtree_entries subtree_wf].
    split; [|done]. split; [done|]. split; [exists 0%nat; by constructor|].
    split; [|done].
    intros i j a b Ha Hb Hij. apply lookup_lt_Some in Hb. cbn in Hb. lia.
Qed.

Lemma SortedMap_Delete_spec c m key :
  Comparer_ok c → SortedMap_wf c m →
  match entries_hit c key (SortedMap_entries m) with
  | None => SortedMap_Delete m key = Ok Receiver
  | Some _ =>
      ∃ m', SortedMap_Delete m key = Ok (Fresh m')
            ∧ SortedMap_wf c m'
            ∧ SortedMap_entries m' = entries_remove c key (SortedMap_entries m)
  end.
Proof.
  intros Hc (Hcmp & [h Hwf] & Hs & Hsize).
  unfold SortedMap_Delete, SortedMap_entries in *.
  destruct (smap_root m) as [root|]; cbn [subtree_wf subtree_entries] in *; [|done].
  rewrite Hcmp.
  pose proof (sortedMapNode_delete_spec c key h root Hc Hwf Hs) as Hdel.
  destruct (entries_hit c key (sortedMapNode_entries root)) as [e|] eqn:Hhit.
  - destruct Hdel as (r & -> & Hwfr & Hr). cbn [mbind result_bind].
    eexists. split; [done|]. unfold SortedMap_wf, SortedMap_entries.
    cbn [smap_root smap_size smap_comparer]. split; [|done].
    split; [done|]. split; [by exists h|].
    rewrite Hr. split; [by apply entries_sorted_remove|].
    unfold len in *. rewrite (length_entries_remove c key _ e Hhit), Hsize.
    apply entries_hit_Some in Hhit as [He%lookup_lt_Some _]. lia.
  - by rewrite Hdel.
Qed.

Lemma SortedMap_reachable_wf c m :
  Comparer_ok c → SortedMap_reachable c m → SortedMap_wf c m.
Proof.
  intros Hc. induction 1 as [|m key value m' _ IH Hset|m key m' _ IH Hdel].
  - apply NewSortedMap_wf.
  - destruct (SortedMap_Set_spec c m key value Hc IH) as (m'' & Hset' & Hwf & _).
    congruence.
  - pose proof (SortedMap_Delete_spec c m key Hc IH) as Hspec.
    destruct (entries_hit c key (SortedMap_entries m)).
    + destruct Hspec as (m'' & Hdel' & Hwf & _). congruence.
    + congruence.
Qed.
End SortedFacade.

Section SortedIteratorFacade.
Context {K V : Type}.
Implicit Types (c : Comparer K) (n root : sortedMapNode K V) (m : SortedMap K V).
Implicit Types (entries l : list (mapEntry K V)) (key : K) (value : V).
Implicit Types (itr : SortedMapIterator K V).

(** An iterator of map [m] in a state that its methods leave it in: done,
    or on one of the pairs of [m]. *)
Definition SortedMapIterator_ok m itr : Prop :=
  sitr_m itr = m
  ∧ length (sitr_stack itr) = 32%nat
  ∧ (sitr_depth itr = -1
     ∨ ∃ root j, smap_root m = Some root ∧ positioned itr root j).

Section OnMap.
Context (c : Comparer K) (m : SortedMap K V) (root : sortedMapNode K V) (h : nat).
Context (Hc : Comparer_ok c).
Context (Hcmp : smap_comparer m = Some c).
Context (Hroot : smap_root m = Some root).
Context (Hwf : tree_wf h root).
Context (Hs : entries_sorted c (sortedMapNode_entries root)).
Context (Hh : (h < 32)%nat).

Lemma SortedMapIterator_First_positioned itr :
  sitr_m itr = m → length (sitr_stack itr) = 32%nat →
  ∃ itr', SortedMapIterator_First itr = Ok itr' ∧ sitr_m itr' = m
          ∧ positioned itr' root 0.
Proof.
  intros Hm Hlen. destruct itr as [m0 stack d]. cbn in Hm, Hlen. subst m0.
  unfold SortedMapIterator_First, SortedMapIterator_reset. cbn [sitr_m sitr_stack].
  rewrite Hroot. rewrite (set_frame_nat stack 0) by lia. cbn [mbind result_bind].
  unfold SortedMapIterator_first.
  destruct (SortedMapIterator_first_loop_spec m h root Hwf
              (<[0%nat := mkSortedElem (Some root) 0]> stack) 0 0 33)
    as (stack' & Hrun & Hcur & _ & Hlen').
  { apply list_lookup_insert_eq. lia. }
  { rewrite length_insert. lia. }
  { lia. }
  change (Z.of_nat 0) with 0 in Hrun. rewrite Hrun. eexists. split; [done|].
  split; [done|]. exists (0 + h)%nat. cbn [sitr_depth sitr_stack].
  rewrite length_insert in Hlen'. split; [done|]. split; [lia|done].
Qed.

Lemma SortedMapIterator_Last_positioned itr :
  sitr_m itr = m → length (sitr_stack itr) = 32%nat →
  ∃ itr', SortedMapIterator_Last itr = Ok itr' ∧ sitr_m itr' = m
          ∧ positioned itr' root (length (sortedMapNode_entries root) - 1).
Proof.
  intros Hm Hlen. destruct itr as [m0 stack d]. cbn in Hm, Hlen. subst m0.
  unfold SortedMapIterator_Last, SortedMapIterator_reset. cbn [sitr_m sitr_stack].
  rewrite Hroot. rewrite (set_frame_nat stack 0) by lia. cbn [mbind result_bind].
  unfold SortedMapIterator_last.
  destruct (SortedMapIterator_last_loop_spec m h root Hwf
              (<[0%nat := mkSortedElem (Some root) 0]> stack) 0 0 33)
    as (stack' & Hrun & Hcur & _ & Hlen').
  { apply list_lookup_insert_eq. lia. }
  { rewrite length_insert. lia. }
  { lia. }
  change (Z.of_nat 0) with 0 in Hrun. rewrite Hrun. eexists. split; [done|].
  split; [done|]. exists (0 + h)%nat. cbn [sitr_depth sitr_stack].
  rewrite length_insert in Hlen'. split; [done|]. split; [lia|done].
Qed.

Lemma SortedMapIterator_Seek_positioned itr key :
  sitr_m itr = m → length (sitr_stack itr) = 32%nat →
  ∃ itr', SortedMapIterator_Seek itr key = Ok itr' ∧ sitr_m itr' = m
          ∧ length (sitr_stack itr') = 32%nat
          ∧ if decide (rank c key (sortedMapNode_entries root)
                       < length (sortedMapNode_entries root))%nat
            then positioned itr' root (rank c key (sortedMapNode_entries root))
            else sitr_depth itr' = -1.
Proof.
  intros Hm Hlen. destruct itr as [m0 stack d]. cbn in Hm, Hlen. subst m0.
  unfold SortedMapIterator_Seek, SortedMapIterator_reset. cbn [sitr_m sitr_stack].
  rewrite Hroot. rewrite (set_frame_nat stack 0) by lia. cbn [mbind result_bind].
  unfold SortedMapIterator_seek. cbn [sitr_m]. rewrite Hcmp.
  destruct (SortedMapIterator_seek_loop_spec m c key h root Hc Hwf Hs
              (<[0%nat := mkSortedElem (Some root) 0]> stack) 0 0 33)
    as [Hin Hout].
  { apply list_lookup_insert_eq. lia. }
  { rewrite length_insert. lia. }
  { lia. }
  { lia. }
  change (Z.of_nat 0) with 0 in *.
  pose proof (rank_le c key (sortedMapNode_entries root)).
  case_decide as Hr.
  - destruct (Hin Hr) as (stack' & depth' & Hrun & Hcur & _ & Hlen').
    rewrite Hrun. eexists. split; [done|]. split; [done|]. split; [done|].
    exists depth'. done.
  - destruct (Hout ltac:(lia)) as (stack' & depth' & Hrun & Hend & _ & Hlen').
    rewrite Hrun. unfold SortedMapIterator_next. cbn [sitr_depth].
    rewrite (SortedMapIterator_next_loop_at_end m stack' root 0 depth' Hend) by lia.
    change (Z.of_nat 0 - 1) with (-1).
    rewrite SortedMapIterator_next_loop_done. eexists. done.
Qed.

(** [Next] on a positioned iterator returns the pair under the cursor
    and moves on by one pair. *)
Lemma SortedMapIterator_Next_positioned itr (j : nat) :
  sitr_m itr = m → positioned itr root j →
  ∃ e itr', sortedMapNode_entries root !! j = Some e
            ∧ SortedMapIterator_Next itr = Ok (Some (entry_key e, entry_value e), itr')
            ∧ sitr_m itr' = m
            ∧ length (sitr_stack itr') = 32%nat
            ∧ if decide (S j < length (sortedMapNode_entries root))%nat
              then positioned itr' root (S j)
              else sitr_depth itr' = -1.
Proof.
  intros Hm Hpos. unfold SortedMapIterator_Next.
  rewrite (positioned_not_done itr root j Hpos).
  destruct (positioned_current itr root j Hpos) as (e & He & ->).
  cbn [mbind result_bind].
  destruct (SortedMapIterator_next_positioned h root itr j Hwf Hh Hpos)
    as (itr' & -> & Hm' & Hlen' & Hnext).
  cbn [mbind result_bind]. exists e, itr'. split; [done|]. split; [done|].
  split; [congruence|]. split; [done|].
  case_decide; [done|]. by apply Z.eqb_eq in Hnext.
Qed.

(** [Prev] on a positioned iterator returns the pair under the cursor
    and moves back by one pair. *)
Lemma SortedMapIterator_Prev_positioned itr (j : nat) :
  sitr_m itr = m → positioned itr root j →
  ∃ e itr', sortedMapNode_entries root !! j = Some e
            ∧ SortedMapIterator_Prev itr = Ok (Some (entry_key e, entry_value e), itr')
            ∧ sitr_m itr' = m
            ∧ length (sitr_stack itr') = 32%nat
            ∧ if decide (0 < j)%nat
              then positioned itr' root (j - 1)
              else sitr_depth itr' = -1.
Proof.
  intros Hm Hpos. unfold SortedMapIterator_Prev.
  rewrite (positioned_not_done itr root j Hpos).
  destruct (positioned_current itr root j Hpos) as (e & He & ->).
  cbn [mbind result_bind].
  destruct (SortedMapIterator_prev_positioned h root itr j Hwf Hh Hpos)
    as (itr' & -> & Hm' & Hlen' & Hprev).
  cbn [mbind result_bind]. exists e, itr'. split; [done|]. split; [done|].
  split; [congruence|]. split; [done|].
  case_decide; [done|]. by apply Z.eqb_eq in Hprev.
Qed.
End OnMap.
End SortedIteratorFacade.

Section SortedIteratorStates.
Context {K V : Type}.
Implicit Types (c : Comparer K) (root : sortedMapNode K V) (m : SortedMap K V).
Implicit Types (l : list (mapEntry K V)) (key : K) (itr : SortedMapIterator K V).

(** The states of an iterator of [m] that a client can reach. *)
Inductive SortedMapIterator_reachable m : SortedMapIterator K V → Prop :=
| SortedMapIterator_reachable_new itr :
    SortedMap_Iterator m = Ok itr → SortedMapIterator_reachable m itr
| SortedMapIterator_reachable_First itr itr' :
    SortedMapIterator_reachable m itr → SortedMapIterator_First itr = Ok itr' →
    SortedMapIterator_reachable m itr'
| SortedMapIterator_reachable_Last itr itr' :
    SortedMapIterator_reachable m itr → SortedMapIterator_Last itr = Ok itr' →
    SortedMapIterator_reachable m itr'
| SortedMapIterator_reachable_Seek itr key itr' :
    SortedMapIterator_reachable m itr → SortedMapIterator_Seek itr key = Ok itr' →
    SortedMapIterator_reachable m itr'
| SortedMapIterator_reachable_Next itr p itr' :
    SortedMapIterator_reachable m itr → SortedMapIterator_Next itr = Ok (p, itr') →
    SortedMapIterator_reachable m itr'
| SortedMapIterator_reachable_Prev itr p itr' :
    SortedMapIterator_reachable m itr → SortedMapIterator_Prev itr = Ok (p, itr') →
    SortedMapIterator_reachable m itr'.

Section OnMap.
Context (c : Comparer K) (m : SortedMap K V).
Context (Hc : Comparer_ok c).
Context (Hwf : SortedMap_wf c m).
Context (Hheight : (SortedMap_height m < 32)%nat).

(** A reset of the iterator of an empty map marks it done. *)
Lemma SortedMapIterator_reset_empty itr position itr' :
  smap_root m = None → sitr_m itr = m → length (sitr_stack itr) = 32%nat →
  SortedMapIterator_reset itr position = Ok itr' → SortedMapIterator_ok m itr'.
Proof.
  intros Hroot Hm Hlen Hrun. unfold SortedMapIterator_reset in Hrun.
  rewrite Hm, Hroot in Hrun. injection Hrun as <-.
  split; [done|]. split; [done|]. by left.
Qed.

Lemma SortedMapIterator_reachable_ok itr :
  SortedMapIterator_reachable m itr → SortedMapIterator_ok m itr.
Proof.
  destruct Hwf as (Hcmp & [h Htree] & Hs & Hsize).
  unfold SortedMap_entries, SortedMap_height in *.
  destruct (smap_root m) as [root|] eqn:Hroot; cbn [subtree_wf subtree_entries] in *.
  - rewrite (tree_wf_height h root Htree) in Hheight.
    assert (Hreset : ∀ itr, sitr_m itr = m → length (sitr_stack itr) = 32%nat →
              (∀ itr', SortedMapIterator_First itr = Ok itr' → SortedMapIterator_ok m itr')
              ∧ (∀ itr', SortedMapIterator_Last itr = Ok itr' → SortedMapIterator_ok m itr')
              ∧ (∀ key itr', SortedMapIterator_Seek itr key = Ok itr' →
                             SortedMapIterator_ok m itr')).
    { intros itr0 Hm Hlen. split; [|split].
      - intros itr' Hrun.
        destruct (SortedMapIterator_First_positioned m root h Hroot Htree Hheight itr0
                    Hm Hlen) as (itr'' & Hrun' & Hm' & Hpos).
        assert (itr'' = itr') as -> by congruence.
        split; [done|]. split; [by destruct Hpos as (? & _ & ? & _)|].
        right. by exists root, 0%nat.
      - intros itr' Hrun.
        destruct (SortedMapIterator_Last_positioned m root h Hroot Htree Hheight itr0
                    Hm Hlen) as (itr'' & Hrun' & Hm' & Hpos).
        assert (itr'' = itr') as -> by congruence.
        split; [done|]. split; [by destruct Hpos as (? & _ & ? & _)|].
        right. by eexists root, _.
      - intros key itr' Hrun.
        destruct (SortedMapIterator_Seek_positioned c m root h Hc Hcmp Hroot Htree Hs
                    Hheight itr0 key Hm Hlen) as (itr'' & Hrun' & Hm' & Hlen' & Hpos).
        assert (itr'' = itr') as -> by congruence.
        split; [done|]. split; [done|].
        case_decide; [right; by eexists root, _|by left]. }
    induction 1 as [itr Hnew|itr itr' _ IH Hrun|itr itr' _ IH Hrun|itr key itr' _ IH Hrun
                   |itr p itr' _ IH Hrun|itr p itr' _ IH Hrun].
    + unfold SortedMap_Iterator in Hnew.
      destruct (Hreset (mkSortedMapIterator m (replicate 32 (mkSortedElem None 0)) 0)
                  eq_refl eq_refl) as (Hfirst & _).
      by apply Hfirst.
    + destruct IH as (Hm & Hlen & _).
      destruct (Hreset _ Hm Hlen) as (Hfirst & _). by apply Hfirst.
    + destruct IH as (Hm & Hlen & _).
      destruct (Hreset _ Hm Hlen) as (_ & Hlast & _). by apply Hlast.
    + destruct IH as (Hm & Hlen & _).
      destruct (Hreset _ Hm Hlen) as (_ & _ & Hseek). by eapply Hseek.
    + destruct IH as (Hm & Hlen & [Hdone|(root' & j & Hroot' & Hpos)]).
      * unfold SortedMapIterator_Next, SortedMapIterator_Done in Hrun.
        rewrite Hdone in Hrun. injection Hrun as _ <-.
        split; [done|]. split; [done|]. by left.
      * assert (root' = root) as -> by congruence.
        destruct (SortedMapIterator_Next_positioned m root h Htree Hheight itr j Hm Hpos)
          as (e & itr'' & _ & Hnext & Hm' & Hlen' & Hpos').
        assert (itr'' = itr') as -> by congruence.
        split; [done|]. split; [done|].
        case_decide; [right; by eexists root, _|by left].
    + destruct IH as (Hm & Hlen & [Hdone|(root' & j & Hroot' & Hpos)]).
      * unfold SortedMapIterator_Prev, SortedMapIterator_Done in Hrun.
        rewrite Hdone in Hrun. injection Hrun as _ <-.
        split; [done|]. split; [done|]. by left.
      * assert (root' = root) as -> by congruence.
        destruct (SortedMapIterator_Prev_positioned m root h Htree Hheight itr j Hm Hpos)
          as (e & itr'' & _ & Hprev & Hm' & Hlen' & Hpos').
        assert (itr'' = itr') as -> by congruence.
        split; [done|]. split; [done|].
        case_decide; [right; by eexists root, _|by left].
  - induction 1 as [itr Hnew|itr itr' _ IH Hrun|itr itr' _ IH Hrun|itr key itr' _ IH Hrun
                   |itr p itr' _ IH Hrun|itr p itr' _ IH Hrun].
    + by apply (SortedMapIterator_reset_empty
                  (mkSortedMapIterator m (replicate 32 (mkSortedElem None 0)) 0)
                  SortedMapIterator_first itr Hroot eq_refl eq_refl).
    + destruct IH as (Hm & Hlen & _). by eapply SortedMapIterator_reset_empty.
    + destruct IH as (Hm & Hlen & _). by eapply SortedMapIterator_reset_empty.
    + destruct IH as (Hm & Hlen & _). by eapply SortedMapIterator_reset_empty.
    + destruct IH as (Hm & Hlen & [Hdone|(root' & j & Hroot' & Hpos)]); [|congruence].
      unfold SortedMapIterator_Next, SortedMapIterator_Done in Hrun.
      rewrite Hdone in Hrun. injection Hrun as _ <-.
      split; [done|]. split; [done|]. by left.
    + destruct IH as (Hm & Hlen & [Hdone|(root' & j & Hroot' & Hpos)]); [|congruence].
      unfold SortedMapIterator_Prev, SortedMapIterator_Done in Hrun.
      rewrite Hdone in Hrun. injection Hrun as _ <-.
      split; [done|]. split; [done|]. by left.
Qed.
End OnMap.
End SortedIteratorStates.

(** ** Addresses one apart *)

Lemma weight_S_max A d :
  A `mod` weight (S d) = weight (S d) - 1 →
  listFrag A (Z.of_nat d) = 31 ∧ A `mod` weight d = weight d - 1.
Proof.
  rewrite address_split, weight_S. pose proof (weight_pos d).
  pose proof (listFrag_range A (Z.of_nat d)). pose proof (Z.mod_pos_bound A (weight d)).
  intros Heq. nia.
Qed.

Lemma weight_S_min A d :
  A `mod` weight (S d) = 0 →
  listFrag A (Z.of_nat d) = 0 ∧ A `mod` weight d = 0.
Proof.
  rewrite address_split. pose proof (weight_pos d).
  pose proof (listFrag_range A (Z.of_nat d)). pose proof (Z.mod_pos_bound A (weight d)).
  intros Heq. nia.
Qed.

(** Stepping to the next address without leaving the span of a slot. *)
Lemma succ_same_slot A d :
  A `mod` weight d + 1 < weight d →
  listFrag (A + 1) (Z.of_nat d) = listFrag A (Z.of_nat d)
  ∧ (A + 1) `mod` weight d = A `mod` weight d + 1.
Proof.
  intros Hin. pose proof (weight_pos d). pose proof (Z.mod_pos_bound A (weight d)).
  assert ((A + 1) `div` weight d = A `div` weight d) as Hdiv.
  { symmetry. apply (Z.div_unique _ _ _ (A `mod` weight d + 1)); [lia|].
    pose proof (Z.div_mod A (weight d)). lia. }
  split.
  - by rewrite !listFrag_div, Hdiv.
  - pose proof (Z.div_mod (A + 1) (weight d)). pose proof (Z.div_mod A (weight d)).
    rewrite Hdiv in *. lia.
Qed.

Lemma pred_same_slot A d :
  1 ≤ A `mod` weight d →
  listFrag (A - 1) (Z.of_nat d) = listFrag A (Z.of_nat d)
  ∧ (A - 1) `mod` weight d = A `mod` weight d - 1.
Proof.
  intros Hin. pose proof (weight_pos d). pose proof (Z.mod_pos_bound A (weight d)).
  assert ((A - 1) `div` weight d = A `div` weight d) as Hdiv.
  { symmetry. apply (Z.div_unique _ _ _ (A `mod` weight d - 1)); [lia|].
    pose proof (Z.div_mod A (weight d)). lia. }
  split.
  - by rewrite !listFrag_div, Hdiv.
  - pose proof (Z.div_mod (A - 1) (weight d)). pose proof (Z.div_mod A (weight d)).
    rewrite Hdiv in *. lia.
Qed.

(** ** The cursor of a list iterator *)

Section ListCursor.
Context {V : Type}.
Implicit Types (n child root : listNode V) (l : List V).
Implicit Types (children : list (option (listNode V))).
Implicit Types (stack : list (listIteratorElem V)).

(** [lcursor stack n t depth A]: the frames [t .. depth] of the stack are
    the path from node [n] down to the leaf that holds address [A]. *)
Inductive lcursor stack : listNode V → nat → nat → Z → Prop :=
| lcursor_leaf slots (t : nat) A :
    stack !! t = Some (mkListElem (Some (listLeafNode slots)) (listFrag A 0)) →
    lcursor stack (listLeafNode slots) t t A
| lcursor_branch d children (t depth : nat) child A :
    stack !! t = Some (mkListElem (Some (listBranchNode d children)) (listFrag A d)) →
    children !! Z.to_nat (listFrag A d) = Some (Some child) →
    lcursor stack child (S t) depth A →
    lcursor stack (listBranchNode d children) t depth A.

Lemma lcursor_depth stack n t depth A : lcursor stack n t depth A → (t ≤ depth)%nat.
Proof. induction 1; lia. Qed.

Lemma lcursor_height stack d n t depth A :
  node_wf d n → lcursor stack n t depth A → depth = (t + d)%nat.
Proof.
  intros Hwf Hcur. revert d Hwf.
  induction Hcur as [slots t A Hframe|d' children t depth child A Hframe Hchild _ IH];
    intros d Hwf; inversion Hwf as [|d0 children0 Hlen Hchildren]; subst.
  - lia.
  - rewrite (IH d0); [lia|]. by eapply Hchildren.
Qed.

(** The frame on top of the stack is the leaf slot of the address. *)
Lemma lcursor_leaf_frame stack n t depth A :
  lcursor stack n t depth A →
  ∃ slots, stack !! depth = Some (mkListElem (Some (listLeafNode slots)) (listFrag A 0))
           ∧ listNode_get n A = Ok (slot slots (listFrag A 0)).
Proof.
  induction 1 as [slots t A Hframe|d children t depth child A Hframe Hchild _ IH].
  - exists slots. split; [done|]. cbn [listNode_get]. unfold listFrag.
    by rewrite Z.mul_0_l, Z.shiftr_0_r.
  - destruct IH as (slots & Hleaf & Hget). exists slots. split; [done|].
    by rewrite listNode_get_branch, Hchild.
Qed.

(** ** [seek] *)

Lemma ListIterator_seek_loop_spec l (index idx : Z) d n :
  node_wf d n →
  ∀ stack (t : nat) i0 (fuel : nat),
  stack !! t = Some (mkListElem (Some n) i0) →
  (∃ x, listNode_get n (list_origin l + index) = Ok x) →
  (t + d < length stack)%nat → (d < fuel)%nat →
  ∃ stack',
    ListIterator_seek_loop fuel (mkListIterator l idx stack (Z.of_nat t)) index
    = Ok (mkListIterator l idx stack' (Z.of_nat (t + d)))
    ∧ lcursor stack' n t (t + d) (list_origin l + index)
    ∧ frames_below t stack' stack
    ∧ length stack' = length stack.
Proof.
  induction 1 as [slots Hlen|d children Hlen Hchildren IH];
    intros stack t i0 fuel Hframe [x Hx] Hfit Hfuel;
    (destruct fuel as [|fuel]; [lia|]);
    cbn [ListIterator_seek_loop litr_stack litr_depth litr_list litr_index];
    rewrite (frame_nat _ _ _ Hframe);
    cbn [mbind result_bind lelem_node listNode_depth];
    rewrite set_frame_nat by lia; cbn [mbind result_bind].
  - eexists. rewrite Nat.add_0_r. split; [done|].
    split; [|split; [by apply frames_below_insert|by rewrite length_insert]].
    constructor. apply list_lookup_insert_eq. lia.
  - rewrite listNode_get_branch in Hx.
    set (A := list_origin l + index) in *.
    destruct (children !! Z.to_nat (listFrag A (Z.of_nat (S d)))) as [[child|]|] eqn:Hchild;
      [|done..].
    unfold slot. rewrite Hchild. cbn [mjoin option_join].
    replace (Z.of_nat t + 1) with (Z.of_nat (S t)) by lia.
    set (stack1 := <[t := mkListElem (Some (listBranchNode (Z.of_nat (S d)) children))
                                     (listFrag A (Z.of_nat (S d)))]> stack).
    assert (length stack1 = length stack) as Hlen1 by apply length_insert.
    rewrite set_frame_nat by lia. cbn [mbind result_bind].
    destruct (IH _ child Hchild (<[S t := mkListElem (Some child) 0]> stack1) (S t) 0 fuel)
      as (stack' & Hrun & Hcur & Hbelow & Hlen').
    { apply list_lookup_insert_eq. lia. }
    { by exists x. }
    { rewrite length_insert. lia. }
    { lia. }
    exists stack'. replace (t + S d)%nat with (S t + d)%nat by lia.
    split; [exact Hrun|]. rewrite length_insert in Hlen'.
    assert (frames_below (S t) stack' stack1) as Hbelow1.
    { eapply frames_below_trans; [|exact Hbelow|by apply frames_below_insert]. lia. }
    split; [|split; [|lia]].
    + eapply lcursor_branch; [|done|done].
      rewrite Hbelow1 by lia. apply list_lookup_insert_eq. lia.
    + eapply frames_below_trans; [|done|by apply frames_below_insert]. lia.
Qed.
End ListCursor.

Section ListMoves.
Context {V : Type}.
Implicit Types (n child root : listNode V) (l : List V).
Implicit Types (children : list (option (listNode V))).
Implicit Types (stack : list (listIteratorElem V)).

Definition at_last_slot (i : Z) : bool := i >=? listNodeSize - 1.
Definition at_first_slot (i : Z) : bool := i =? 0.

(** ** Moving up the stack *)

(** From the last address of the span of [n], the loop of [Next] passes
    all the frames of [n]. *)
Lemma ListIterator_unwind_last stack d n (t depth : nat) A :
  lcursor stack n t depth A → node_wf d n →
  A `mod` weight (S d) = weight (S d) - 1 → (0 < t)%nat →
  ∀ fuel : nat, (depth - t < fuel)%nat →
  ListIterator_unwind at_last_slot fuel stack (Z.of_nat depth)
  = ListIterator_unwind at_last_slot (fuel - (depth - t + 1)) stack (Z.of_nat t - 1).
Proof.
  intros Hcur. revert d.
  induction Hcur as [slots t A Hframe|d' children t depth child A Hframe Hchild Hcur IH];
    intros d Hwf Hmax Ht fuel Hfuel;
    inversion Hwf as [|d0 children0 Hlen Hchildren]; subst.
  - destruct fuel as [|fuel]; [lia|]. cbn [ListIterator_unwind].
    destruct (Z.gtb_spec (Z.of_nat t) 0); [|lia].
    rewrite (frame_nat _ _ _ Hframe). cbn [mbind result_bind lelem_index].
    destruct (weight_S_max A 0 Hmax) as [Hfrag _]. change (Z.of_nat 0) with 0 in Hfrag.
    rewrite Hfrag. cbn. replace (fuel - (t - t + 1 - 1))%nat with fuel by lia.
    replace (S fuel - (t - t + 1))%nat with fuel by lia. done.
  - pose proof (lcursor_depth _ _ _ _ _ Hcur) as Hdepth.
    destruct (weight_S_max A (S d0) Hmax) as [Hfrag Hmax'].
    rewrite (IH d0 (Hchildren _ child Hchild) Hmax' ltac:(lia) fuel ltac:(lia)).
    replace (Z.of_nat (S t) - 1) with (Z.of_nat t) by lia.
    replace (fuel - (depth - S t + 1))%nat with (S (fuel - (depth - t + 1))) by lia.
    cbn [ListIterator_unwind].
    destruct (Z.gtb_spec (Z.of_nat t) 0); [|lia].
    rewrite (frame_nat _ _ _ Hframe). cbn [mbind result_bind lelem_index].
    rewrite Hfrag. done.
Qed.

Lemma ListIterator_unwind_first stack d n (t depth : nat) A :
  lcursor stack n t depth A → node_wf d n →
  A `mod` weight (S d) = 0 → (0 < t)%nat →
  ∀ fuel : nat, (depth - t < fuel)%nat →
  ListIterator_unwind at_first_slot fuel stack (Z.of_nat depth)
  = ListIterator_unwind at_first_slot (fuel - (depth - t + 1)) stack (Z.of_nat t - 1).
Proof.
  intros Hcur. revert d.
  induction Hcur as [slots t A Hframe|d' children t depth child A Hframe Hchild Hcur IH];
    intros d Hwf Hmin Ht fuel Hfuel;
    inversion Hwf as [|d0 children0 Hlen Hchildren]; subst.
  - destruct fuel as [|fuel]; [lia|]. cbn [ListIterator_unwind].
    destruct (Z.gtb_spec (Z.of_nat t) 0); [|lia].
    rewrite (frame_nat _ _ _ Hframe). cbn [mbind result_bind lelem_index].
    destruct (weight_S_min A 0 Hmin) as [Hfrag _]. change (Z.of_nat 0) with 0 in Hfrag.
    rewrite Hfrag. cbn.
    replace (S fuel - (t - t + 1))%nat with fuel by lia. done.
  - pose proof (lcursor_depth _ _ _ _ _ Hcur) as Hdepth.
    destruct (weight_S_min A (S d0) Hmin) as [Hfrag Hmin'].
    rewrite (IH d0 (Hchildren _ child Hchild) Hmin' ltac:(lia) fuel ltac:(lia)).
    replace (Z.of_nat (S t) - 1) with (Z.of_nat t) by lia.
    replace (fuel - (depth - S t + 1))%nat with (S (fuel - (depth - t + 1))) by lia.
    cbn [ListIterator_unwind].
    destruct (Z.gtb_spec (Z.of_nat t) 0); [|lia].
    rewrite (frame_nat _ _ _ Hframe). cbn [mbind result_bind lelem_index].
    rewrite Hfrag. done.
Qed.

(** The loop stops at a frame that is not at its last slot, or at frame 0. *)
Lemma ListIterator_unwind_stop cond stack (t : nat) (fuel : nat) e :
  stack !! t = Some e → (t = 0%nat ∨ cond (lelem_index e) = false) →
  ListIterator_unwind cond fuel stack (Z.of_nat t) = Ok (Z.of_nat t).
Proof.
  intros Hframe Hstop. destruct fuel as [|fuel]; [done|]. cbn [ListIterator_unwind].
  destruct (Z.gtb_spec (Z.of_nat t) 0) as [Hpos|]; [|done].
  rewrite (frame_nat _ _ _ Hframe). cbn [mbind result_bind].
  destruct Hstop as [-> | ->]; [lia|done].
Qed.

(** ** One step forward *)

Lemma ListIterator_forward_spec l (idx index' : Z) stack d n (t depth : nat) A :
  lcursor stack n t depth A → node_wf d n →
  A `mod` weight (S d) + 1 < weight (S d) →
  (∃ x, listNode_get n (A + 1) = Ok x) →
  length stack = 32%nat → (t + d < 32)%nat →
  A + 1 = list_origin l + index' →
  ∀ fuel : nat, (depth - t ≤ fuel)%nat → ((0 < t)%nat → (depth - t < fuel)%nat) →
  ∃ (depth1 : nat) stack',
    ListIterator_unwind at_last_slot fuel stack (Z.of_nat depth) = Ok (Z.of_nat depth1)
    ∧ ListIterator_seek_loop 33 (mkListIterator l idx stack (Z.of_nat depth1)) index'
      = Ok (mkListIterator l idx stack' (Z.of_nat depth))
    ∧ lcursor stack' n t depth (A + 1)
    ∧ frames_below t stack' stack
    ∧ length stack' = 32%nat.
Proof.
  intros Hcur. revert d.
  induction Hcur as [slots t A Hframe|d' children t depth child A Hframe Hchild Hcur IH];
    intros d Hwf Hin Hpath Hlen Hfit HA fuel Hfuel Hfuel';
    inversion Hwf as [slots0 Hlen0|d0 children0 Hlen0 Hchildren]; subst.
  - (* the leaf: the next address is in it *)
    assert (listFrag A 0 < 31) as Hfrag.
    { pose proof (listFrag_div A 0) as Hdiv. change (Z.of_nat 0) with 0 in Hdiv.
      rewrite Hdiv. change (weight 0) with 1. rewrite Z.div_1_r.
      change (weight 1) with 32 in Hin. lia. }
    exists t. rewrite (ListIterator_unwind_stop _ _ _ _ _ Hframe).
    2:{ right. cbn [lelem_index]. unfold at_last_slot.
        change (listNodeSize - 1) with 31. rewrite Z.geb_leb. apply Z.leb_gt. lia. }
    destruct (ListIterator_seek_loop_spec l index' idx 0 (listLeafNode slots)
                ltac:(by constructor) stack t _ 33 Hframe) as (stack' & Hrun & Hc & Hb & Hl).
    { by rewrite <-HA. }
    { lia. }
    { lia. }
    exists stack'. rewrite Nat.add_0_r in *. split; [done|]. split; [done|].
    rewrite <-HA in Hc. split; [done|]. split; [done|lia].
  - pose proof (lcursor_depth _ _ _ _ _ Hcur) as Hdepth.
    pose proof (lcursor_height _ _ _ _ _ _ (Hchildren _ child Hchild) Hcur) as Hheight.
    pose proof (weight_pos (S d0)) as Hw.
    pose proof (Z.mod_pos_bound A (weight (S d0)) Hw) as Hbound.
    destruct (decide (A `mod` weight (S d0) + 1 < weight (S d0))) as [Hwithin|Hedge].
    + (* the next address is in the same child *)
      destruct (succ_same_slot A (S d0) Hwithin) as [Hsame _].
      destruct (IH d0 (Hchildren _ child Hchild) Hwithin) with (fuel := fuel)
        as (depth1 & stack' & Hun & Hrun & Hc & Hb & Hl); [|done|lia|done|lia|lia|].
      { destruct Hpath as [x Hx]. exists x.
        by rewrite listNode_get_branch, Hsame, Hchild in Hx. }
      exists depth1, stack'. split; [done|]. split; [done|].
      split; [|split; [|done]].
      * eapply lcursor_branch; [|by rewrite Hsame|done].
        rewrite Hb by lia. by rewrite Hsame.
      * intros u Hu. apply Hb. lia.
    + (* the next address is in the next child: seek again from this frame *)
      assert (A `mod` weight (S d0) = weight (S d0) - 1) as Hmax by lia.
      assert (listFrag A (Z.of_nat (S d0)) < 31) as Hfrag.
      { rewrite address_split in Hin. rewrite (weight_S (S d0)) in Hin.
        pose proof (listFrag_range A (Z.of_nat (S d0))). nia. }
      exists t.
      assert (ListIterator_unwind at_last_slot fuel stack (Z.of_nat depth)
              = Ok (Z.of_nat t)) as ->.
      { rewrite (ListIterator_unwind_last stack d0 child (S t) depth A Hcur
                   (Hchildren _ child Hchild) Hmax ltac:(lia) fuel ltac:(lia)).
        replace (Z.of_nat (S t) - 1) with (Z.of_nat t) by lia.
        apply (ListIterator_unwind_stop _ _ _ _ _ Hframe).
        destruct (decide (t = 0%nat)); [by left|right].
        cbn [lelem_index]. unfold at_last_slot.
        change (listNodeSize - 1) with 31. rewrite Z.geb_leb. apply Z.leb_gt. lia. }
      destruct (ListIterator_seek_loop_spec l index' idx (S d0)
                  (listBranchNode (Z.of_nat (S d0)) children) Hwf stack t _ 33 Hframe)
        as (stack' & Hrun & Hc & Hb & Hl).
      { by rewrite <-HA. }
      { lia. }
      { lia. }
      exists stack'. replace (t + S d0)%nat with depth in * by lia.
      rewrite <-HA in Hc. split; [done|]. split; [done|].
      split; [done|]. split; [done|lia].
Qed.

(** ** One step back *)

Lemma ListIterator_backward_spec l (idx index' : Z) stack d n (t depth : nat) A :
  lcursor stack n t depth A → node_wf d n →
  1 ≤ A `mod` weight (S d) →
  (∃ x, listNode_get n (A - 1) = Ok x) →
  length stack = 32%nat → (t + d < 32)%nat →
  A - 1 = list_origin l + index' →
  ∀ fuel : nat, (depth - t ≤ fuel)%nat → ((0 < t)%nat → (depth - t < fuel)%nat) →
  ∃ (depth1 : nat) stack',
    ListIterator_unwind at_first_slot fuel stack (Z.of_nat depth) = Ok (Z.of_nat depth1)
    ∧ ListIterator_seek_loop 33 (mkListIterator l idx stack (Z.of_nat depth1)) index'
      = Ok (mkListIterator l idx stack' (Z.of_nat depth))
    ∧ lcursor stack' n t depth (A - 1)
    ∧ frames_below t stack' stack
    ∧ length stack' = 32%nat.
Proof.
  intros Hcur. revert d.
  induction Hcur as [slots t A Hframe|d' children t depth child A Hframe Hchild Hcur IH];
    intros d Hwf Hin Hpath Hlen Hfit HA fuel Hfuel Hfuel';
    inversion Hwf as [slots0 Hlen0|d0 children0 Hlen0 Hchildren]; subst.
  - assert (0 < listFrag A 0) as Hfrag.
    { pose proof (listFrag_div A 0) as Hdiv. change (Z.of_nat 0) with 0 in Hdiv.
      rewrite Hdiv. change (weight 0) with 1. rewrite Z.div_1_r.
      change (weight 1) with 32 in Hin. lia. }
    exists t. rewrite (ListIterator_unwind_stop _ _ _ _ _ Hframe).
    2:{ right. cbn [lelem_index]. unfold at_first_slot. apply Z.eqb_neq. lia. }
    destruct (ListIterator_seek_loop_spec l index' idx 0 (listLeafNode slots)
                ltac:(by constructor) stack t _ 33 Hframe) as (stack' & Hrun & Hc & Hb & Hl).
    { by rewrite <-HA. }
    { lia. }
    { lia. }
    exists stack'. rewrite Nat.add_0_r in *. split; [done|]. split; [done|].
    rewrite <-HA in Hc. split; [done|]. split; [done|lia].
  - pose proof (lcursor_depth _ _ _ _ _ Hcur) as Hdepth.
    pose proof (lcursor_height _ _ _ _ _ _ (Hchildren _ child Hchild) Hcur) as Hheight.
    pose proof (weight_pos (S d0)) as Hw.
    pose proof (Z.mod_pos_bound A (weight (S d0)) Hw) as Hbound.
    destruct (decide (1 ≤ A `mod` weight (S d0))) as [Hwithin|Hedge].
    + destruct (pred_same_slot A (S d0) Hwithin) as [Hsame _].
      destruct (IH d0 (Hchildren _ child Hchild) Hwithin) with (fuel := fuel)
        as (depth1 & stack' & Hun & Hrun & Hc & Hb & Hl); [|done|lia|done|lia|lia|].
      { destruct Hpath as [x Hx]. exists x.
        by rewrite listNode_get_branch, Hsame, Hchild in Hx. }
      exists depth1, stack'. split; [done|]. split; [done|].
      split; [|split; [|done]].
      * eapply lcursor_branch; [|by rewrite Hsame|done].
        rewrite Hb by lia. by rewrite Hsame.
      * intros u Hu. apply Hb. lia.
    + assert (A `mod` weight (S d0) = 0) as Hmin by lia.
      assert (0 < listFrag A (Z.of_nat (S d0))) as Hfrag.
      { rewrite address_split in Hin.
        pose proof (listFrag_range A (Z.of_nat (S d0))). nia. }
      exists t.
      assert (ListIterator_unwind at_first_slot fuel stack (Z.of_nat depth)
              = Ok (Z.of_nat t)) as ->.
      { rewrite (ListIterator_unwind_first stack d0 child (S t) depth A Hcur
                   (Hchildren _ child Hchild) Hmin ltac:(lia) fuel ltac:(lia)).
        replace (Z.of_nat (S t) - 1) with (Z.of_nat t) by lia.
        apply (ListIterator_unwind_stop _ _ _ _ _ Hframe).
        destruct (decide (t = 0%nat)); [by left|right].
        cbn [lelem_index]. unfold at_first_slot. apply Z.eqb_neq. lia. }
      destruct (ListIterator_seek_loop_spec l index' idx (S d0)
                  (listBranchNode (Z.of_nat (S d0)) children) Hwf stack t _ 33 Hframe)
        as (stack' & Hrun & Hc & Hb & Hl).
      { by rewrite <-HA. }
      { lia. }
      { lia. }
      exists stack'. replace (t + S d0)%nat with depth in * by lia.
      rewrite <-HA in Hc. split; [done|]. split; [done|].
      split; [done|]. split; [done|lia].
Qed.
End ListMoves.

Section ListIteratorFacade.
Context {V : Type}.
Implicit Types (n child root : listNode V) (l : List V) (itr : ListIterator V).

(** An iterator on index [litr_index itr] of its list: the stack is the
    path to that element. *)
Definition lpositioned itr : Prop :=
  ∃ depth : nat,
    litr_depth itr = Z.of_nat depth
    ∧ 0 ≤ litr_index itr < List_Len (litr_list itr)
    ∧ lcursor (litr_stack itr) (list_root (litr_list itr)) 0 depth
              (list_origin (litr_list itr) + litr_index itr).

(** An iterator of list [l] in a state that its methods leave it in. *)
Definition ListIterator_ok l itr : Prop :=
  litr_list itr = l
  ∧ length (litr_stack itr) = 32%nat
  ∧ (ListIterator_Done itr = true ∨ lpositioned itr).

Lemma lpositioned_not_done itr : lpositioned itr → ListIterator_Done itr = false.
Proof.
  intros (depth & _ & Hi & _). unfold ListIterator_Done.
  destruct (Z.ltb_spec (litr_index itr) 0); [lia|].
  destruct (Z.geb_spec (litr_index itr) (List_Len (litr_list itr))); [lia|done].
Qed.

Lemma lpositioned_current itr :
  lpositioned itr →
  ∃ x, List_Get (litr_list itr) (litr_index itr) = Ok x
       ∧ ListIterator_current itr = Ok (litr_index itr, x).
Proof.
  intros (depth & Hdepth & Hi & Hcur).
  destruct (lcursor_leaf_frame _ _ _ _ _ Hcur) as (slots & Hleaf & Hget).
  eexists. unfold List_Get, List_Len in *.
  destruct (Z.ltb_spec (litr_index itr) 0); [lia|].
  destruct (Z.geb_spec (litr_index itr) (list_size (litr_list itr))); [lia|].
  cbn [orb]. split; [exact Hget|].
  unfold ListIterator_current. rewrite Hdepth, (frame_nat _ _ _ Hleaf).
  cbn [mbind result_bind lelem_node lelem_index].
  pose proof (listFrag_range (list_origin (litr_list itr) + litr_index itr) 0).
  destruct (Z.ltb_spec (listFrag (list_origin (litr_list itr) + litr_index itr) 0) 0); [lia|].
  destruct (Z.geb_spec (listFrag (list_origin (litr_list itr) + litr_index itr) 0) 32);
    [lia|done].
Qed.

Section OnList.
Context (l : List V) (d : nat).
Context (Hroot : node_wf d (list_root l)).
Context (Ho : 0 ≤ list_origin l).
Context (Hb : list_origin l + list_size l ≤ weight (S d)).
Context (Hpaths : ∀ i, 0 ≤ i < list_size l →
                       ∃ x, listNode_get (list_root l) (list_origin l + i) = Ok x).
Context (Hd : (d < 32)%nat).

Lemma ListIterator_Seek_positioned itr (index : Z) :
  litr_list itr = l → length (litr_stack itr) = 32%nat →
  0 ≤ index < List_Len l →
  ∃ itr', ListIterator_Seek itr index = Ok itr'
          ∧ litr_list itr' = l ∧ litr_index itr' = index
          ∧ length (litr_stack itr') = 32%nat
          ∧ lpositioned itr'.
Proof.
  intros Hl Hlen Hi. destruct itr as [l0 i0 stack depth0]. cbn in Hl, Hlen. subst l0.
  unfold ListIterator_Seek, List_Len in *. cbn [litr_list litr_stack].
  destruct (Z.ltb_spec index 0); [lia|].
  destruct (Z.geb_spec index (list_size l)); [lia|]. cbn [orb].
  rewrite (set_frame_nat stack 0) by lia. cbn [mbind result_bind].
  unfold ListIterator_seek.
  destruct (ListIterator_seek_loop_spec l index index d (list_root l) Hroot
              (<[0%nat := mkListElem (Some (list_root l)) 0]> stack) 0 0 33)
    as (stack' & Hrun & Hcur & _ & Hlen').
  { apply list_lookup_insert_eq. lia. }
  { apply Hpaths. lia. }
  { rewrite length_insert. lia. }
  { lia. }
  change (Z.of_nat 0) with 0 in Hrun. rewrite Hrun. rewrite length_insert in Hlen'.
  eexists. split; [done|]. cbn [litr_list litr_index litr_stack].
  split; [done|]. split; [done|]. split; [lia|].
  exists (0 + d)%nat. cbn [litr_list litr_index litr_stack litr_depth].
  unfold List_Len. split; [done|]. split; [lia|done].
Qed.

(** [Next] returns the index of the cursor and the element there, and
    moves the cursor to the next index. *)
Lemma ListIterator_Next_positioned itr :
  litr_list itr = l → length (litr_stack itr) = 32%nat → lpositioned itr →
  ∃ x itr', List_Get l (litr_index itr) = Ok x
            ∧ ListIterator_Next itr = Ok ((litr_index itr, x), itr')
            ∧ litr_list itr' = l ∧ litr_index itr' = litr_index itr + 1
            ∧ length (litr_stack itr') = 32%nat
            ∧ (litr_index itr + 1 < List_Len l → lpositioned itr').
Proof.
  intros Hl Hlen Hpos. unfold ListIterator_Next.
  rewrite (lpositioned_not_done itr Hpos).
  destruct (lpositioned_current itr Hpos) as (x & Hget & ->).
  cbn [mbind result_bind]. rewrite Hl in Hget. exists x.
  destruct Hpos as (depth & Hdepth & Hi & Hcur).
  destruct itr as [l0 index stack depth0].
  cbn [litr_list litr_index litr_stack litr_depth] in *. subst l0 depth0.
  unfold ListIterator_move, ListIterator_Done, List_Len in *.
  cbn [litr_list litr_index litr_stack litr_depth].
  destruct (Z.ltb_spec (index + 1) 0); [lia|].
  destruct (Z.geb_spec (index + 1) (list_size l)) as [Hend|Hmore]; cbn [orb].
  - cbn [mbind result_bind]. eexists. split; [done|]. split; [done|].
    cbn [litr_list litr_index litr_stack]. split; [done|]. split; [done|].
    split; [done|lia].
  - pose proof (lcursor_height _ _ _ _ _ _ Hroot Hcur) as Hheight.
    destruct (ListIterator_forward_spec l (index + 1) (index + 1) stack d (list_root l)
                0 depth (list_origin l + index) Hcur Hroot)
      with (fuel := Z.to_nat (Z.of_nat depth))
      as (depth1 & stack' & Hun & Hrun & Hcur' & _ & Hlen').
    { rewrite Z.mod_small; lia. }
    { replace (list_origin l + index + 1) with (list_origin l + (index + 1)) by lia.
      apply Hpaths. lia. }
    { done. }
    { lia. }
    { lia. }
    { lia. }
    { lia. }
    change (λ i : Z, i >=? listNodeSize - 1) with at_last_slot.
    rewrite Hun. cbn [mbind result_bind]. unfold ListIterator_seek.
    cbn [litr_list litr_index litr_stack litr_depth].
    rewrite Hrun. cbn [mbind result_bind].
    eexists. split; [done|]. split; [done|].
    cbn [litr_list litr_index litr_stack]. split; [done|]. split; [done|].
    split; [done|]. intros _. exists depth.
    unfold List_Len. cbn [litr_list litr_index litr_stack litr_depth].
    split; [done|]. split; [lia|].
    by replace (list_origin l + (index + 1)) with (list_origin l + index + 1) by lia.
Qed.

(** [Prev] returns the index of the cursor and the element there, and
    moves the cursor to the index before. *)
Lemma ListIterator_Prev_positioned itr :
  litr_list itr = l → length (litr_stack itr) = 32%nat → lpositioned itr →
  ∃ x itr', List_Get l (litr_index itr) = Ok x
            ∧ ListIterator_Prev itr = Ok ((litr_index itr, x), itr')
            ∧ litr_list itr' = l ∧ litr_index itr' = litr_index itr - 1
            ∧ length (litr_stack itr') = 32%nat
            ∧ (0 ≤ litr_index itr - 1 → lpositioned itr').
Proof.
  intros Hl Hlen Hpos. unfold ListIterator_Prev.
  rewrite (lpositioned_not_done itr Hpos).
  destruct (lpositioned_current itr Hpos) as (x & Hget & ->).
  cbn [mbind result_bind]. rewrite Hl in Hget. exists x.
  destruct Hpos as (depth & Hdepth & Hi & Hcur).
  destruct itr as [l0 index stack depth0].
  cbn [litr_list litr_index litr_stack litr_depth] in *. subst l0 depth0.
  unfold ListIterator_move, ListIterator_Done, List_Len in *.
  cbn [litr_list litr_index litr_stack litr_depth].
  destruct (Z.ltb_spec (index + -1) 0) as [Hend|Hmore]; cbn [orb].
  - cbn [mbind result_bind]. eexists. split; [done|]. split; [done|].
    cbn [litr_list litr_index litr_stack]. split; [done|]. split; [lia|].
    split; [done|lia].
  - destruct (Z.geb_spec (index + -1) (list_size l)); [lia|].
    pose proof (lcursor_height _ _ _ _ _ _ Hroot Hcur) as Hheight.
    destruct (ListIterator_backward_spec l (index + -1) (index + -1) stack d (list_root l)
                0 depth (list_origin l + index) Hcur Hroot)
      with (fuel := Z.to_nat (Z.of_nat depth))
      as (depth1 & stack' & Hun & Hrun & Hcur' & _ & Hlen').
    { rewrite Z.mod_small; lia. }
    { replace (list_origin l + index - 1) with (list_origin l + (index - 1)) by lia.
      apply Hpaths. lia. }
    { done. }
    { lia. }
    { lia. }
    { lia. }
    { lia. }
    change (λ i : Z, i =? 0) with at_first_slot.
    rewrite Hun. cbn [mbind result_bind]. unfold ListIterator_seek.
    cbn [litr_list litr_index litr_stack litr_depth].
    rewrite Hrun. cbn [mbind result_bind].
    eexists. split; [done|]. split; [done|].
    cbn [litr_list litr_index litr_stack]. split; [done|]. split; [lia|].
    split; [done|]. intros _. exists depth.
    unfold List_Len. cbn [litr_list litr_index litr_stack litr_depth].
    split; [done|]. split; [lia|].
    by replace (list_origin l + (index + -1)) with (list_origin l + index - 1) by lia.
Qed.
End OnList.
End ListIteratorFacade.

Section ListIteratorStates.
Context {V : Type}.
Implicit Types (l : List V) (itr : ListIterator V).

(** The states of an iterator of [l] that a client can reach. *)
Inductive ListIterator_reachable l : ListIterator V → Prop :=
| ListIterator_reachable_new itr :
    List_Iterator l = Ok itr → ListIterator_reachable l itr
| ListIterator_reachable_First itr itr' :
    ListIterator_reachable l itr → ListIterator_First itr = Ok itr' →
    ListIterator_reachable l itr'
| ListIterator_reachable_Last itr itr' :
    ListIterator_reachable l itr → ListIterator_Last itr = Ok itr' →
    ListIterator_reachable l itr'
| ListIterator_reachable_Seek itr index itr' :
    ListIterator_reachable l itr → ListIterator_Seek itr index = Ok itr' →
    ListIterator_reachable l itr'
| ListIterator_reachable_Next itr p itr' :
    ListIterator_reachable l itr → ListIterator_Next itr = Ok (p, itr') →
    ListIterator_reachable l itr'
| ListIterator_reachable_Prev itr p itr' :
    ListIterator_reachable l itr → ListIterator_Prev itr = Ok (p, itr') →
    ListIterator_reachable l itr'.

Lemma List_wf_depth l (d : nat) :
  node_wf d (list_root l) → listNode_depth (list_root l) < 32 → (d < 32)%nat.
Proof. intros Hwf. rewrite (node_wf_depth d _ Hwf). lia. Qed.

Section OnList.
Context (l : List V).
Context (Hwf : List_wf l).
Context (Hdepth : listNode_depth (list_root l) < 32).

Lemma ListIterator_Seek_ok itr index itr' :
  litr_list itr = l → length (litr_stack itr) = 32%nat →
  ListIterator_Seek itr index = Ok itr' → ListIterator_ok l itr'.
Proof.
  intros Hl Hlen Hseek. destruct Hwf as (d & Hroot & Ho & Hs & Hb & Hpaths).
  assert (0 ≤ index < List_Len l) as Hi.
  { unfold ListIterator_Seek in Hseek. rewrite Hl in Hseek.
    destruct (Z.ltb_spec index 0); [done|].
    destruct (Z.geb_spec index (List_Len l)); [done|]. lia. }
  destruct (ListIterator_Seek_positioned l d Hroot Hpaths
              (List_wf_depth l d Hroot Hdepth) itr index Hl Hlen Hi)
    as (itr'' & Hseek' & Hl' & _ & Hlen' & Hpos).
  assert (itr'' = itr') as -> by congruence.
  split; [done|]. split; [done|]. by right.
Qed.

Lemma ListIterator_Done_empty itr :
  List_Len (litr_list itr) = 0 → ListIterator_Done itr = true.
Proof.
  intros Hempty. unfold ListIterator_Done. rewrite Hempty.
  destruct (Z.ltb_spec (litr_index itr) 0); [done|].
  by destruct (Z.geb_spec (litr_index itr) 0); [|lia].
Qed.

Lemma ListIterator_First_ok itr itr' :
  litr_list itr = l → length (litr_stack itr) = 32%nat →
  ListIterator_First itr = Ok itr' → ListIterator_ok l itr'.
Proof.
  intros Hl Hlen Hrun. unfold ListIterator_First in Hrun.
  destruct (Z.eqb_spec (List_Len (litr_list itr)) 0) as [Hempty|Hne]; cbn [negb] in Hrun.
  - injection Hrun as <-. split; [done|]. split; [done|]. left.
    by apply ListIterator_Done_empty.
  - by eapply ListIterator_Seek_ok.
Qed.

Lemma ListIterator_Last_ok itr itr' :
  litr_list itr = l → length (litr_stack itr) = 32%nat →
  ListIterator_Last itr = Ok itr' → ListIterator_ok l itr'.
Proof.
  intros Hl Hlen Hrun. unfold ListIterator_Last in Hrun.
  destruct (Z.eqb_spec (List_Len (litr_list itr)) 0) as [Hempty|Hne]; cbn [negb] in Hrun.
  - injection Hrun as <-. split; [done|]. split; [done|]. left.
    by apply ListIterator_Done_empty.
  - by eapply ListIterator_Seek_ok.
Qed.

Lemma ListIterator_reachable_ok itr :
  ListIterator_reachable l itr → ListIterator_ok l itr.
Proof.
  destruct Hwf as (d & Hroot & Ho & Hs & Hb & Hpaths).
  pose proof (List_wf_depth l d Hroot Hdepth) as Hd.
  induction 1 as [itr Hnew|itr itr' _ IH Hrun|itr itr' _ IH Hrun|itr index itr' _ IH Hrun
                 |itr p itr' _ IH Hrun|itr p itr' _ IH Hrun].
  - unfold List_Iterator in Hnew. by eapply ListIterator_First_ok; [| |exact Hnew].
  - destruct IH as (Hl & Hlen & _). by eapply ListIterator_First_ok.
  - destruct IH as (Hl & Hlen & _). by eapply ListIterator_Last_ok.
  - destruct IH as (Hl & Hlen & _). by eapply ListIterator_Seek_ok.
  - destruct IH as (Hl & Hlen & [Hdone|Hpos]).
    + unfold ListIterator_Next in Hrun. rewrite Hdone in Hrun.
      injection Hrun as _ <-. split; [done|]. split; [done|]. by left.
    + destruct (ListIterator_Next_positioned l d Hroot Ho Hb Hpaths Hd itr Hl Hlen Hpos)
        as (x & itr'' & _ & Hnext & Hl' & Hi' & Hlen' & Hpos').
      assert (itr'' = itr') as -> by congruence.
      split; [done|]. split; [done|].
      destruct (decide (litr_index itr + 1 < List_Len l)); [right; auto|left].
      unfold ListIterator_Done. rewrite Hi', Hl'.
      destruct (Z.geb_spec (litr_index itr + 1) (List_Len l)); [|lia].
      by rewrite orb_true_r.
  - destruct IH as (Hl & Hlen & [Hdone|Hpos]).
    + unfold ListIterator_Prev in Hrun. rewrite Hdone in Hrun.
      injection Hrun as _ <-. split; [done|]. split; [done|]. by left.
    + destruct (ListIterator_Prev_positioned l d Hroot Ho Hb Hpaths Hd itr Hl Hlen Hpos)
        as (x & itr'' & _ & Hprev & Hl' & Hi' & Hlen' & Hpos').
      assert (itr'' = itr') as -> by congruence.
      split; [done|]. split; [done|].
      destruct (decide (0 ≤ litr_index itr - 1)); [right; auto|left].
      unfold ListIterator_Done. rewrite Hi'.
      by destruct (Z.ltb_spec (litr_index itr - 1) 0); [|lia].
Qed.
End OnList.
End ListIteratorStates.

(** Concrete instances *)
Definition exHasher : Hasher Z := mkHasher (λ k, k `mod` 2 ^ 32) Z.eqb.
Definition exNoDefault : Z → option (Hasher Z) := λ _, None.

(** The map of the keys [0 .. n-1], key [i] bound to [100 + i]. *)
Definition exMap (n : nat) : Map Z Z :=
  foldl (λ m i, match Map_Set exNoDefault m (Z.of_nat i) (100 + Z.of_nat i) with
                | Ok m' => m'
                | Panic _ => m
                end)
        (NewMap (Some exHasher)) (seq 0 n).

Definition exRoot (n : nat) : mapNode Z Z :=
  match map_root (exMap n) with
  | Some root => root
  | None => mapArrayNode []
  end.

(** The map after deleting [key], whichever object [Delete] hands back. *)
Definition returned_or {A} (receiver : A) (r : result (returned A)) : A :=
  match r with
  | Ok (Fresh a) => a
  | _ => receiver
  end.

Lemma exHasher_ok : Hasher_ok exHasher.
Proof.
  split; simpl.
  - intros a. apply Z.mod_pos_bound. lia.
  - apply Z.eqb_refl.
  - intros a b. rewrite !Z.eqb_eq. done.
  - intros a b c. rewrite !Z.eqb_eq. congruence.
  - intros a b. rewrite Z.eqb_eq. by intros ->.
Qed.

Lemma exMap_reachable (n : nat) : Map_reachable exHasher exNoDefault (exMap n).
Proof.
  unfold exMap. induction n as [|n IH].
  - constructor.
  - rewrite seq_S, foldl_app. simpl.
    destruct (Map_Set exNoDefault _ _ _) eqn:Hset; [|done].
    by econstructor.
Qed.

Section MapClaims.
Context {K V : Type}.

(** C1: on every map built with a lawful hasher, [Get(k)] on the map
    returned by [Set(k, v)] yields [(v, true)], whatever node variants the
    map holds and whichever promotion the insertion triggers. *)
Theorem Map_Set_then_Get (h : Hasher K) (defaultHasher : K → option (Hasher K))
    (m : Map K V) (key : K) (value : V) :
  Hasher_ok h →
  Map_reachable h defaultHasher m →
  ∃ m', Map_Set defaultHasher m key value = Ok m'
        ∧ Map_Get m' key = Ok (Some value).
Proof.
  intros Hok Hreach.
  destruct (Map_Set_wf h Hok defaultHasher m key value) as (m' & Hset & _ & Hget).
  - by eapply Map_reachable_wf.
  - by exists m'.
Qed.

(** C7 (the code as it is): a bitmap-indexed branch with 16 children that
    receives a key on an unset bit keeps the bitmap variant and gets a
    17th packed slot; it is not converted to a hash-array branch. *)
Theorem mapBitmapIndexedNode_set_17th_slot
    (reinsert : mapNode K V → K → V → Z → Z → Hasher K → bool
                → result (mapNode K V * bool))
    (bitmap : Z) (nodes : list (mapNode K V)) (key : K) (value : V)
    (shift keyHash : Z) (h : Hasher K) (resized : bool) :
  len nodes = 16 →
  OnesCount32 bitmap = len nodes →
  Z.testbit bitmap (mapFrag keyHash shift) = false →
  ∃ nodes',
    mapNode_set_via reinsert (mapBitmapIndexedNode bitmap nodes)
                    key value shift keyHash h resized
    = Ok (mapBitmapIndexedNode (Z.lor bitmap (Z.shiftl 1 (mapFrag keyHash shift))) nodes',
          true)
    ∧ len nodes' = 17.
Proof.
  intros Hlen Hcount Hbit. rewrite mapNode_set_bitmap. cbv zeta.
  rewrite mapFrag_nat, Hbit, Hlen. cbn [Z.gtb Z.compare Pos.compare Pos.compare_cont].
  change (16 >? maxBitmapIndexedSize) with false. cbv iota.
  rewrite OnesCount32_ones_below in Hcount. unfold len in *.
  pose proof (ones_below_le bitmap (Z.to_nat (mapFrag keyHash shift)) 32
                ltac:(pose proof (mapFrag_nat_lt keyHash shift); lia)).
  destruct (Nat.leb_spec (ones_below bitmap (Z.to_nat (mapFrag keyHash shift)))
                         (length nodes)); [|lia].
  eexists. split; [done|]. rewrite length_splice. lia.
Qed.

(** C8 (the code as it is): a hash-array branch of count 17 whose child
    becomes nil is copied with the slot cleared and count 16; it is not
    downgraded to a bitmap-indexed branch. *)
Theorem mapHashArrayNode_delete_at_17
    (slots : list (option (mapNode K V))) (child : mapNode K V) (key : K)
    (shift keyHash : Z) (h : Hasher K) :
  slots !! Z.to_nat (mapFrag keyHash shift) = Some (Some child) →
  mapNode_delete child key (shift + mapNodeBits) keyHash h = Ok (Fresh None) →
  mapNode_delete (mapHashArrayNode 17 slots) key shift keyHash h
  = Ok (Fresh (Some (mapHashArrayNode 16
                       (<[Z.to_nat (mapFrag keyHash shift) := None]> slots)))).
Proof.
  intros Hslot Hchild. rewrite mapNode_delete_hasharray. cbv zeta.
  rewrite Hslot. change (shift + 5) with (shift + mapNodeBits). rewrite Hchild.
  done.
Qed.

(** C9: deleting a key that is not present hands back the very map it was
    called on, for a [Map] and for a [SortedMap]; the size is that of the
    receiver. *)
Theorem Delete_absent_returns_receiver :
  (∀ (m : Map K V) (key : K),
      Map_Get m key = Ok None →
      Map_Delete m key = Ok Receiver
      ∧ Map_Len (returned_or m (Map_Delete m key)) = Map_Len m)
  ∧ (∀ (m : SortedMap K V) (key : K),
      SortedMap_Get m key = Ok None →
      SortedMap_Delete m key = Ok Receiver
      ∧ SortedMap_Len (returned_or m (SortedMap_Delete m key)) = SortedMap_Len m).
Proof.
  split; intros m key Hget.
  - assert (Map_Delete m key = Ok Receiver) as Hdel; [|by rewrite Hdel].
    unfold Map_Get, Map_Delete in *.
    destruct (map_root m) as [root|]; [|done].
    destruct (map_hasher m) as [hasher|]; [|done].
    by rewrite (mapNode_delete_absent _ _ _ _ _ Hget).
  - assert (SortedMap_Delete m key = Ok Receiver) as Hdel; [|by rewrite Hdel].
    unfold SortedMap_Get, SortedMap_Delete in *.
    destruct (smap_root m) as [root|]; [|done].
    destruct (smap_comparer m) as [comparer|]; [|done].
    by rewrite (sortedMapNode_delete_absent _ _ _ Hget).
Qed.

(** C10: on a map whose root is nil, [Get] returns [(nil, false)] and
    [Delete] returns the receiver, whatever the hasher or comparer field
    holds, nil included: neither is consulted. *)
Theorem empty_Get_Delete :
  (∀ (m : Map K V) (key : K),
      map_root m = None →
      Map_Get m key = Ok None ∧ Map_Delete m key = Ok Receiver)
  ∧ (∀ (m : SortedMap K V) (key : K),
      smap_root m = None →
      SortedMap_Get m key = Ok None ∧ SortedMap_Delete m key = Ok Receiver).
Proof.
  split; intros m key Hroot.
  - unfold Map_Get, Map_Delete. by rewrite Hroot.
  - unfold SortedMap_Get, SortedMap_Delete. by rewrite Hroot.
Qed.
End MapClaims.

Lemma Map_Set_then_Get_witness :
  Hasher_ok exHasher
  ∧ Map_reachable exHasher exNoDefault (exMap 40)
  ∧ ∃ m', Map_Set exNoDefault (exMap 40) 7 1 = Ok m' ∧ Map_Get m' 7 = Ok (Some 1).
Proof.
  split; [exact exHasher_ok|]. split; [exact (exMap_reachable 40)|].
  exact (Map_Set_then_Get exHasher exNoDefault (exMap 40) 7 1
           exHasher_ok (exMap_reachable 40)).
Defined.

(** A bitmap-indexed root of 16 children, as [Set] builds it. *)
Definition exNodes16 : list (mapNode Z Z) :=
  (λ i, mapValueNode i i (100 + i)) <$> seqZ 0 16.
Definition exBitmap16 : mapNode Z Z := mapBitmapIndexedNode 65535 exNodes16.

(** A hash-array root of count 17, as [Set] and [Delete] build it. *)
Definition exSlots17 : list (option (mapNode Z Z)) :=
  (λ i, if i <? 17 then Some (mapValueNode i i (100 + i)) else None) <$> seqZ 0 32.
Definition exHashArray17 : mapNode Z Z := mapHashArrayNode 17 exSlots17.

Example exRoot_16 : exRoot 16 = exBitmap16.
Proof. vm_compute. reflexivity. Qed.

Example exRoot_18_delete_17 :
  map_root (returned_or (exMap 18) (Map_Delete (exMap 18) 17)) = Some exHashArray17.
Proof. vm_compute. reflexivity. Qed.

(** C7 at the failing input: the map of the keys 0..15 receives key 16. *)
Example Map_Set_17th_key :
  ∃ bitmap nodes,
    (map_root <$> Map_Set exNoDefault (exMap 16) 16 116)
    = Ok (Some (mapBitmapIndexedNode bitmap nodes))
    ∧ len nodes = 17.
Proof. eexists _, _. vm_compute. split; reflexivity. Qed.

(** C8 at the failing input: the map of the keys 0..16 in a hash-array root
    of count 17 loses key 16. *)
Example Map_Delete_17th_key :
  ∃ slots,
    map_root (returned_or (exMap 0)
                (Map_Delete (mkMap 17 (Some exHashArray17) (Some exHasher)) 16))
    = Some (mapHashArrayNode 16 slots).
Proof. eexists. vm_compute. reflexivity. Qed.

Lemma mapBitmapIndexedNode_set_17th_slot_witness :
  len exNodes16 = 16
  ∧ OnesCount32 65535 = len exNodes16
  ∧ Z.testbit 65535 (mapFrag 16 0) = false
  ∧ ∃ nodes',
      mapNode_set_via (mapNode_set 0) exBitmap16 16 116 0 16 exHasher false
      = Ok (mapBitmapIndexedNode (Z.lor 65535 (Z.shiftl 1 (mapFrag 16 0))) nodes', true)
      ∧ len nodes' = 17.
Proof.
  assert (H1 : len exNodes16 = 16) by (vm_compute; reflexivity).
  assert (H2 : OnesCount32 65535 = len exNodes16) by (vm_compute; reflexivity).
  assert (H3 : Z.testbit 65535 (mapFrag 16 0) = false) by (vm_compute; reflexivity).
  split; [exact H1|]. split; [exact H2|]. split; [exact H3|].
  exact (mapBitmapIndexedNode_set_17th_slot (mapNode_set 0) 65535 exNodes16 16 116
           0 16 exHasher false H1 H2 H3).
Defined.

Lemma mapHashArrayNode_delete_at_17_witness :
  exSlots17 !! Z.to_nat (mapFrag 16 0) = Some (Some (mapValueNode 16 16 116))
  ∧ mapNode_delete (mapValueNode 16 16 116) 16 (0 + mapNodeBits) 16 exHasher
    = Ok (Fresh None)
  ∧ mapNode_delete exHashArray17 16 0 16 exHasher
    = Ok (Fresh (Some (mapHashArrayNode 16
                         (<[Z.to_nat (mapFrag 16 0) := None]> exSlots17)))).
Proof.
  assert (H1 : exSlots17 !! Z.to_nat (mapFrag 16 0) = Some (Some (mapValueNode 16 16 116)))
    by (vm_compute; reflexivity).
  assert (H2 : mapNode_delete (mapValueNode 16 16 116) 16 (0 + mapNodeBits) 16 exHasher
               = Ok (Fresh None)) by (vm_compute; reflexivity).
  split; [exact H1|]. split; [exact H2|].
  exact (mapHashArrayNode_delete_at_17 exSlots17 (mapValueNode 16 16 116) 16 0 16
           exHasher H1 H2).
Defined.

(** Concrete sorted maps *)
Definition exComparer : Comparer Z :=
  mkComparer (λ a b, if a <? b then -1 else if a >? b then 1 else 0).
Definition exNoDefaultComparer : Z → option (Comparer Z) := λ _, None.

(** The sorted map of the keys [0, 2, .., 2(n-1)], key [2i] bound to [100 + i]. *)
Definition exSortedMap (n : nat) : SortedMap Z Z :=
  foldl (λ m i, match SortedMap_Set exNoDefaultComparer m (2 * Z.of_nat i)
                                    (100 + Z.of_nat i) with
                | Ok m' => m'
                | Panic _ => m
                end)
        (NewSortedMap (Some exComparer)) (seq 0 n).

Lemma Delete_absent_returns_receiver_witness :
  (Map_Get (exMap 40) 1000 = Ok None
   ∧ Map_Delete (exMap 40) 1000 = Ok Receiver
   ∧ Map_Len (returned_or (exMap 40) (Map_Delete (exMap 40) 1000)) = Map_Len (exMap 40))
  ∧ (SortedMap_Get (exSortedMap 100) 31 = Ok None
     ∧ SortedMap_Delete (exSortedMap 100) 31 = Ok Receiver
     ∧ SortedMap_Len (returned_or (exSortedMap 100) (SortedMap_Delete (exSortedMap 100) 31))
       = SortedMap_Len (exSortedMap 100)).
Proof.
  assert (H1 : Map_Get (exMap 40) 1000 = Ok None) by (vm_compute; reflexivity).
  assert (H2 : SortedMap_Get (exSortedMap 100) 31 = Ok None) by (vm_compute; reflexivity).
  split.
  - split; [exact H1|].
    exact (proj1 (@Delete_absent_returns_receiver Z Z) (exMap 40) 1000 H1).
  - split; [exact H2|].
    exact (proj2 (@Delete_absent_returns_receiver Z Z) (exSortedMap 100) 31 H2).
Defined.

Lemma empty_Get_Delete_witness :
  (map_root (NewMap (K:=Z) (V:=Z) None) = None
   ∧ Map_Get (NewMap (K:=Z) (V:=Z) None) 5 = Ok None
   ∧ Map_Delete (NewMap (K:=Z) (V:=Z) None) 5 = Ok Receiver)
  ∧ (smap_root (NewSortedMap (K:=Z) (V:=Z) None) = None
     ∧ SortedMap_Get (NewSortedMap (K:=Z) (V:=Z) None) 5 = Ok None
     ∧ SortedMap_Delete (NewSortedMap (K:=Z) (V:=Z) None) 5 = Ok Receiver).
Proof.
  split.
  - split; [reflexivity|].
    exact (proj1 (@empty_Get_Delete Z Z) (NewMap None) 5 eq_refl).
  - split; [reflexivity|].
    exact (proj2 (@empty_Get_Delete Z Z) (NewSortedMap None) 5 eq_refl).
Defined.

(** The list of the first [n] naturals, appended one by one. *)
Definition exList (n : nat) : List Z :=
  foldl (λ l i, List_Append l (Some (Z.of_nat i))) NewList (seq 0 n).

Lemma exList_reachable (n : nat) : List_reachable (exList n).
Proof.
  unfold exList. induction n as [|n IH].
  - constructor.
  - rewrite seq_S, foldl_app. simpl. by constructor.
Qed.

Section ListClaims.
Context {V : Type}.
Implicit Types (l : List V) (v : option V).

(** C4: for every list [l] that a client can build and all [a], [b] with
    [0 ≤ a ≤ b ≤ Len l], [Slice(a, b)] returns a list of length [b - a]
    whose [Get(i)] returns what [l.Get(a + i)] returns, for every [i] in
    [[0, b - a)]; neither call panics. *)
Theorem List_Slice_Len_Get l (a b : Z) :
  List_reachable l → 0 ≤ a → a ≤ b → b ≤ List_Len l →
  ∃ l', List_Slice l a b = Ok l'
        ∧ List_Len l' = b - a
        ∧ ∀ i, 0 ≤ i < b - a →
               ∃ x, List_Get l (a + i) = Ok x ∧ List_Get l' i = Ok x.
Proof.
  intros Hl Ha Hab Hb.
  destruct (List_Slice_wf_spec l a b (List_reachable_wf l Hl) Ha Hab Hb)
    as (l' & Hslice & _ & Hlen & Hget).
  exists l'. split; [done|]. split; [done|].
  intros i Hi. destruct (Hget i Hi) as [Heq [x Hx]].
  exists x. split; [done|]. by rewrite Heq.
Qed.

(** C6: on every list whose root is a well-formed node of depth [d],
    [Append] puts a new root one level deeper exactly when
    [origin + size >= 32^d] (the value of [cap]), and keeps the depth
    otherwise: the threshold is [32^d], not [32^(d+1)]. *)
Theorem List_Append_grows_at_cap l v (d : nat) :
  node_wf d (list_root l) →
  List_cap l = 32 ^ Z.of_nat d
  ∧ listNode_depth (list_root (List_Append l v))
    = if list_origin l + list_size l >=? 32 ^ Z.of_nat d
      then Z.of_nat d + 1 else Z.of_nat d.
Proof.
  intros Hroot.
  assert (List_cap l = 32 ^ Z.of_nat d) as Hcap.
  { unfold List_cap. rewrite (node_wf_depth d _ Hroot), shiftl_weight. unfold weight. lia. }
  split; [done|]. unfold List_Append. rewrite Hcap.
  rewrite (Z.add_comm (list_size l)).
  destruct (_ >=? _); cbn [list_root].
  - rewrite (node_wf_depth (S d)); [lia|].
    apply listNode_set_wf. rewrite (node_wf_depth d _ Hroot).
    replace (Z.of_nat d + 1) with (Z.of_nat (S d)) by lia.
    apply (grown_root_wf d _ 0); [done|lia].
  - rewrite (node_wf_depth d); [done|]. by apply listNode_set_wf.
Qed.
End ListClaims.

Lemma List_Slice_Len_Get_witness :
  List_reachable (exList 100) ∧ 0 ≤ 40 ∧ 40 ≤ 60 ∧ 60 ≤ List_Len (exList 100)
  ∧ ∃ l', List_Slice (exList 100) 40 60 = Ok l'
          ∧ List_Len l' = 60 - 40
          ∧ ∀ i, 0 ≤ i < 60 - 40 →
                 ∃ x, List_Get (exList 100) (40 + i) = Ok x ∧ List_Get l' i = Ok x.
Proof.
  assert (60 ≤ List_Len (exList 100)) as Hlen by (vm_compute; discriminate).
  split; [exact (exList_reachable 100)|]. split; [lia|]. split; [lia|].
  split; [exact Hlen|].
  exact (List_Slice_Len_Get (exList 100) 40 60 (exList_reachable 100)
           ltac:(lia) ltac:(lia) Hlen).
Defined.

Lemma exList_1_wf : node_wf 0 (list_root (exList 1)).
Proof. constructor. reflexivity. Qed.

Lemma List_Append_grows_at_cap_witness :
  node_wf 0 (list_root (exList 1))
  ∧ List_cap (exList 1) = 32 ^ Z.of_nat 0
  ∧ listNode_depth (list_root (List_Append (exList 1) (Some 1)))
    = if list_origin (exList 1) + list_size (exList 1) >=? 32 ^ Z.of_nat 0
      then Z.of_nat 0 + 1 else Z.of_nat 0.
Proof.
  split; [exact exList_1_wf|].
  exact (List_Append_grows_at_cap (exList 1) (Some 1) 0 exList_1_wf).
Defined.

(** C6 at the failing input: the second [Append] to an empty list. With
    [origin + size = 1] and a root of depth 0, far from [32^(0+1)], the root
    becomes a branch of depth 1 whose slot 0 holds the leaf. *)
Example List_Append_second_element_grows :
  list_origin (exList 1) + list_size (exList 1) = 1
  ∧ listNode_depth (list_root (exList 1)) = 0
  ∧ listNode_depth (list_root (List_Append (exList 1) (Some 1))) = 1.
Proof. vm_compute. done. Qed.

Section StoredKeys.
Context {K V : Type}.
Implicit Types (c : Comparer K) (l : list (mapEntry K V)) (key : K).

Lemma rank_self c l (i : nat) e :
  Comparer_ok c → entries_sorted c l → l !! i = Some e → rank c (entry_key e) l = i.
Proof.
  intros Hc Hs He. apply rank_unique.
  - apply lookup_lt_Some in He. lia.
  - intros j e' Hj He'. by apply (Hs j i).
  - intros e' He'. assert (e' = e) as -> by congruence.
    rewrite (compare_refl c Hc). done.
Qed.

Lemma entries_hit_self c l (i : nat) e :
  Comparer_ok c → entries_sorted c l → l !! i = Some e →
  entries_hit c (entry_key e) l = Some e.
Proof.
  intros Hc Hs He. unfold entries_hit.
  rewrite (rank_self c l i e Hc Hs He), He, (compare_refl c Hc). done.
Qed.

(** A stored key that is not below [key] sits at or after the first pair
    that is not below [key]. *)
Lemma entries_hit_not_below c l key k' e' :
  Comparer_ok c → entries_sorted c l →
  entries_hit c k' l = Some e' → Compare c k' key ≠ -1 →
  (rank c key l ≤ rank c k' l)%nat.
Proof.
  intros Hc Hs [He' Heq]%entries_hit_Some Hnb.
  destruct (decide (rank c key l ≤ rank c k' l)%nat) as [|Hlt]; [done|].
  destruct Hnb. eapply compare_eq_lt; [done|by apply compare_eq_sym|].
  eapply rank_below; [|done]. lia.
Qed.

(** The pair at position [i] is not above a stored key found at or
    after [i]. *)
Lemma entries_hit_from c l (i : nat) e k' e' :
  Comparer_ok c → entries_sorted c l → l !! i = Some e →
  entries_hit c k' l = Some e' → (i ≤ rank c k' l)%nat →
  Compare c (entry_key e) k' ≠ 1.
Proof.
  intros Hc Hs He [He' Heq]%entries_hit_Some Hle.
  destruct (decide (i = rank c k' l)) as [->|Hne].
  - assert (e' = e) as -> by congruence. rewrite Heq. done.
  - assert (Compare c (entry_key e) k' = -1) as ->; [|done].
    eapply compare_lt_eq; [done| |done].
    apply (Hs i (rank c k' l)); [done..|lia].
Qed.
End StoredKeys.

Section IteratorClaims.
Context {K V : Type}.
Context (defaultComparer : K → option (Comparer K)).

(** C3: on every sorted map that a client can build under a comparer that
    orders the keys, and whose tree fits the 32 frames of the iterator
    stack, [Seek(key)] returns; either the iterator is not done, the next
    call of [Next] returns a stored pair whose key is not below [key],
    and no stored key that is not below [key] is below that key; or the
    iterator is done and every stored key is below [key]. *)
Theorem SortedMapIterator_Seek_smallest_key_not_below
    (c : Comparer K) (m : SortedMap K V) (itr : SortedMapIterator K V) (key : K) :
  Comparer_ok c → SortedMap_reachable defaultComparer c m →
  (SortedMap_height m < 32)%nat →
  SortedMapIterator_reachable m itr →
  ∃ itr', SortedMapIterator_Seek itr key = Ok itr'
    ∧ ((SortedMapIterator_Done itr' = false
        ∧ ∃ k v itr'', SortedMapIterator_Next itr' = Ok (Some (k, v), itr'')
            ∧ SortedMap_Get m k = Ok (Some v)
            ∧ Compare c k key ≠ -1
            ∧ ∀ k' v', SortedMap_Get m k' = Ok (Some v') →
                       Compare c k' key ≠ -1 → Compare c k k' ≠ 1)
       ∨ (SortedMapIterator_Done itr' = true
          ∧ ∀ k' v', SortedMap_Get m k' = Ok (Some v') → Compare c k' key = -1)).
Proof.
  intros Hc Hm Hheight Hitr.
  pose proof (SortedMap_reachable_wf defaultComparer c m Hc Hm) as Hwf.
  destruct (SortedMapIterator_reachable_ok c m Hc Hwf Hheight itr Hitr) as (Hsrc & Hlen & _).
  assert (Hstored : ∀ k' v', SortedMap_Get m k' = Ok (Some v') →
            ∃ e', entries_hit c k' (SortedMap_entries m) = Some e').
  { intros k' v'. rewrite (SortedMap_Get_spec c m k' Hc Hwf).
    destruct (entries_hit c k' (SortedMap_entries m)) as [e'|]; [eauto|done]. }
  pose proof Hwf as (Hcmp & [h Htree] & Hs & Hsize).
  unfold SortedMap_height in Hheight. unfold SortedMap_entries in Hs, Hstored.
  destruct (smap_root m) as [root|] eqn:Hroot; cbn [subtree_wf subtree_entries] in *.
  - rewrite (tree_wf_height h root Htree) in Hheight.
    destruct (SortedMapIterator_Seek_positioned c m root h Hc Hcmp Hroot Htree Hs Hheight
                itr key Hsrc Hlen) as (itr' & Hseek & Hsrc' & Hlen' & Hpos).
    exists itr'. split; [done|].
    set (l := sortedMapNode_entries root) in *.
    case_decide as Hr.
    + left. split; [by eapply positioned_not_done|].
      destruct (SortedMapIterator_Next_positioned m root h Htree Hheight itr' _ Hsrc' Hpos)
        as (e & itr'' & He & Hnext & _).
      exists (entry_key e), (entry_value e), itr''. split; [done|].
      split; [|split; [by eapply rank_at|]].
      * rewrite (SortedMap_Get_spec c m _ Hc Hwf). unfold SortedMap_entries.
        rewrite Hroot. cbn [subtree_entries]. fold l.
        by rewrite (entries_hit_self c l _ e Hc Hs He).
      * intros k' v' Hget Hnb. destruct (Hstored k' v' Hget) as [e' He'].
        eapply entries_hit_from; [done..|].
        by eapply entries_hit_not_below.
    + right. split; [unfold SortedMapIterator_Done; by rewrite Hpos|].
      intros k' v' Hget. destruct (Hstored k' v' Hget) as [e' [He' Heq]%entries_hit_Some].
      eapply compare_eq_lt; [done|by apply compare_eq_sym|].
      eapply rank_below; [|done].
      apply lookup_lt_Some in He'. pose proof (rank_le c key l). lia.
  - eexists. split.
    + unfold SortedMapIterator_Seek, SortedMapIterator_reset. by rewrite Hsrc, Hroot.
    + right. split; [done|]. intros k' v' Hget.
      by destruct (Hstored k' v' Hget) as [e' [He' _]%entries_hit_Some].
Qed.

(** C5, as the code has it: [Next] reads the pair under the cursor and
    then moves, so when [Next] has returned [p] and the iterator is not
    done, the call of [Prev] that follows does not return [p]: it
    returns the pair that follows [p] (for a list the element at the
    index after that of [p], for a sorted map the stored pair of the
    next key above that of [p]), which is the pair a further [Next]
    would have returned; the [Prev] after that one returns [p]. *)
Theorem Prev_after_Next_returns_following_pair :
  (∀ (l : List V) (itr itr1 : ListIterator V) (p : Z * option V),
      List_reachable l → listNode_depth (list_root l) < 32 →
      ListIterator_reachable l itr →
      ListIterator_Next itr = Ok (p, itr1) → ListIterator_Done itr1 = false →
      ∃ x itr2 itr3 itr4,
        ListIterator_Prev itr1 = Ok ((fst p + 1, x), itr2)
        ∧ (fst p + 1, x) ≠ p
        ∧ ListIterator_Next itr1 = Ok ((fst p + 1, x), itr3)
        ∧ ListIterator_Prev itr2 = Ok (p, itr4)
        ∧ List_Get l (fst p + 1) = Ok x
        ∧ List_Get l (fst p) = Ok (snd p))
  ∧ (∀ (c : Comparer K) (m : SortedMap K V) (itr itr1 : SortedMapIterator K V) (p : K * V),
        Comparer_ok c → SortedMap_reachable defaultComparer c m →
        (SortedMap_height m < 32)%nat →
        SortedMapIterator_reachable m itr →
        SortedMapIterator_Next itr = Ok (Some p, itr1) →
        SortedMapIterator_Done itr1 = false →
        ∃ q itr2 itr3 itr4,
          SortedMapIterator_Prev itr1 = Ok (Some q, itr2)
          ∧ q ≠ p
          ∧ SortedMapIterator_Next itr1 = Ok (Some q, itr3)
          ∧ SortedMapIterator_Prev itr2 = Ok (Some p, itr4)
          ∧ Compare c (fst p) (fst q) = -1
          ∧ SortedMap_Get m (fst q) = Ok (Some (snd q))
          ∧ ∀ k v, SortedMap_Get m k = Ok (Some v) →
                   Compare c (fst p) k = -1 → Compare c (fst q) k ≠ 1).
Proof.
  split.
  - intros l itr itr1 p Hl Hdepth Hitr Hnext Hnd.
    pose proof (List_reachable_wf l Hl) as Hwf.
    destruct (ListIterator_reachable_ok l Hwf Hdepth itr Hitr) as (Hsrc & Hlen & Hstate).
    destruct Hwf as (d & Hroot & Ho & Hs & Hb & Hpaths).
    pose proof (List_wf_depth l d Hroot Hdepth) as Hd.
    destruct Hstate as [Hdone|Hpos].
    { unfold ListIterator_Next in Hnext. rewrite Hdone in Hnext.
      injection Hnext as _ <-. congruence. }
    destruct (ListIterator_Next_positioned l d Hroot Ho Hb Hpaths Hd itr Hsrc Hlen Hpos)
      as (x & itr' & Hget & Hnext' & Hsrc' & Hi' & Hlen' & Hpos').
    assert (p = (litr_index itr, x) ∧ itr' = itr1) as [-> ->] by (split; congruence).
    cbn [fst snd].
    assert (litr_index itr + 1 < List_Len l) as Hmore.
    { unfold ListIterator_Done in Hnd. rewrite Hi', Hsrc' in Hnd.
      apply orb_false_iff in Hnd as [_ Hnd]. rewrite Z.geb_leb in Hnd.
      by apply Z.leb_gt in Hnd. }
    assert (0 ≤ litr_index itr) as Hfirst.
    { destruct Hpos as (? & _ & Hrange & _). lia. }
    destruct (ListIterator_Prev_positioned l d Hroot Ho Hb Hpaths Hd itr1 Hsrc' Hlen'
                (Hpos' Hmore)) as (y & itr2 & Hget' & Hprev & Hsrc2 & Hi2 & Hlen2 & Hpos2).
    destruct (ListIterator_Next_positioned l d Hroot Ho Hb Hpaths Hd itr1 Hsrc' Hlen'
                (Hpos' Hmore)) as (y' & itr3 & Hget3 & Hnext3 & _).
    assert (y' = y) as -> by congruence.
    destruct (ListIterator_Prev_positioned l d Hroot Ho Hb Hpaths Hd itr2 Hsrc2 Hlen2)
      as (z & itr4 & Hget4 & Hprev4 & _); [apply Hpos2; lia|].
    rewrite Hi' in Hget', Hprev, Hnext3, Hi2.
    replace (litr_index itr2) with (litr_index itr) in Hget4, Hprev4 by lia.
    assert (z = x) as -> by congruence.
    exists y, itr2, itr3, itr4. split; [done|]. split; [|done].
    intros [= Hi _]. lia.
  - intros c m itr itr1 p Hc Hm Hheight Hitr Hnext Hnd.
    pose proof (SortedMap_reachable_wf defaultComparer c m Hc Hm) as Hwf.
    destruct (SortedMapIterator_reachable_ok c m Hc Hwf Hheight itr Hitr)
      as (Hsrc & Hlen & Hstate).
    destruct Hstate as [Hdone|(root & j & Hroot & Hpos)].
    { unfold SortedMapIterator_Next, SortedMapIterator_Done in Hnext.
      by rewrite Hdone in Hnext. }
    pose proof Hwf as (Hcmp & [h Htree] & Hs & Hsize).
    unfold SortedMap_height in Hheight. unfold SortedMap_entries in Hs.
    rewrite Hroot in Hheight, Htree, Hs. cbn [subtree_wf subtree_entries] in *.
    rewrite (tree_wf_height h root Htree) in Hheight.
    set (l := sortedMapNode_entries root) in *.
    destruct (SortedMapIterator_Next_positioned m root h Htree Hheight itr j Hsrc Hpos)
      as (e & itr' & He & Hnext' & Hsrc' & Hlen' & Hpos').
    assert (p = (entry_key e, entry_value e) ∧ itr' = itr1) as [-> ->]
      by (split; congruence).
    fold l in He. cbn [fst snd]. case_decide as Hmore.
    2:{ unfold SortedMapIterator_Done in Hnd. rewrite Hpos' in Hnd. done. }
    destruct (SortedMapIterator_Prev_positioned m root h Htree Hheight itr1 (S j) Hsrc' Hpos')
      as (q & itr2 & Hq & Hprev & Hsrc2 & Hlen2 & Hpos2).
    destruct (SortedMapIterator_Next_positioned m root h Htree Hheight itr1 (S j) Hsrc' Hpos')
      as (q' & itr3 & Hq' & Hnext3 & _).
    assert (q' = q) as -> by congruence.
    case_decide as Hback; [|lia]. replace (S j - 1)%nat with j in Hpos2 by lia.
    destruct (SortedMapIterator_Prev_positioned m root h Htree Hheight itr2 j Hsrc2 Hpos2)
      as (e' & itr4 & He' & Hprev4 & _).
    assert (e' = e) as -> by (fold l in He'; congruence).
    fold l in Hq.
    assert (Hlt : Compare c (entry_key e) (entry_key q) = -1)
      by (by apply (Hs j (S j)); [..|lia]).
    exists (entry_key q, entry_value q), itr2, itr3, itr4. cbn [fst snd].
    split; [done|]. split.
    { intros [= Hk _]. rewrite Hk, (compare_refl c Hc) in Hlt. done. }
    split; [done|]. split; [done|]. split; [done|]. split.
    + rewrite (SortedMap_Get_spec c m _ Hc Hwf). unfold SortedMap_entries.
      rewrite Hroot. cbn [subtree_entries]. fold l.
      by rewrite (entries_hit_self c l _ q Hc Hs Hq).
    + intros k v Hget Hltk.
      rewrite (SortedMap_Get_spec c m k Hc Hwf) in Hget. unfold SortedMap_entries in Hget.
      rewrite Hroot in Hget. cbn [subtree_entries] in Hget. fold l in Hget.
      destruct (entries_hit c k l) as [e'|] eqn:Hhit; [|done].
      eapply entries_hit_from; [done..|].
      pose proof Hhit as [He'' Heq]%entries_hit_Some.
      destruct (decide (S j ≤ rank c k l)%nat) as [|Hle]; [done|]. exfalso.
      assert (Compare c (entry_key e') (entry_key e) ≠ 1) as Hnot.
      { destruct (decide (rank c k l = j)) as [Hj|Hj].
        - rewrite Hj in He''. assert (e' = e) as -> by congruence.
          rewrite (compare_refl c Hc). done.
        - assert (Compare c (entry_key e') (entry_key e) = -1) as ->; [|done].
          apply (Hs (rank c k l) j); [done..|lia]. }
      apply Hnot, (compare_flip c Hc).
      eapply compare_lt_eq; [done..|]. by apply compare_eq_sym.
Qed.
End IteratorClaims.

Lemma exComparer_ok : Comparer_ok exComparer.
Proof.
  split; unfold exComparer; cbn [Compare]; intros;
    repeat match goal with
           | |- context [?a <? ?b] => destruct (Z.ltb_spec a b)
           | |- context [?a >? ?b] => destruct (Z.gtb_spec a b)
           | H : context [?a <? ?b] |- _ => destruct (Z.ltb_spec a b)
           | H : context [?a >? ?b] |- _ => destruct (Z.gtb_spec a b)
           end; try split; intros; lia.
Qed.

Lemma exSortedMap_reachable (n : nat) :
  SortedMap_reachable exNoDefaultComparer exComparer (exSortedMap n).
Proof.
  unfold exSortedMap. induction n as [|n IH].
  - constructor.
  - rewrite seq_S, foldl_app. simpl.
    destruct (SortedMap_Set exNoDefaultComparer _ _ _) eqn:Hset; [|done].
    by econstructor.
Qed.

(** An iterator of the sorted map of 100 keys, and one of the list of 40
    elements, as [Iterator] returns them, and what [Next] then returns. *)
Definition exSortedIterator : SortedMapIterator Z Z :=
  match SortedMap_Iterator (exSortedMap 100) with
  | Ok itr => itr
  | Panic _ => mkSortedMapIterator (exSortedMap 100) [] (-1)
  end.

Definition exSortedNext : option (Z * Z) * SortedMapIterator Z Z :=
  match SortedMapIterator_Next exSortedIterator with
  | Ok r => r
  | Panic _ => (None, exSortedIterator)
  end.

Definition exListIterator : ListIterator Z :=
  match List_Iterator (exList 40) with
  | Ok itr => itr
  | Panic _ => mkListIterator (exList 40) (-1) [] 0
  end.

Definition exListNext : (Z * option Z) * ListIterator Z :=
  match ListIterator_Next exListIterator with
  | Ok r => r
  | Panic _ => ((-1, None), exListIterator)
  end.

Lemma exSortedIterator_reachable :
  SortedMapIterator_reachable (exSortedMap 100) exSortedIterator.
Proof. constructor. vm_compute. reflexivity. Qed.

Lemma exListIterator_reachable : ListIterator_reachable (exList 40) exListIterator.
Proof. constructor. vm_compute. reflexivity. Qed.

Lemma exSortedMap_height : (SortedMap_height (exSortedMap 100) < 32)%nat.
Proof. vm_compute. lia. Qed.

Lemma exList_depth : listNode_depth (list_root (exList 40)) < 32.
Proof. vm_compute. reflexivity. Qed.

Lemma SortedMapIterator_Seek_smallest_key_not_below_witness :
  Comparer_ok exComparer
  ∧ SortedMap_reachable exNoDefaultComparer exComparer (exSortedMap 100)
  ∧ (SortedMap_height (exSortedMap 100) < 32)%nat
  ∧ SortedMapIterator_reachable (exSortedMap 100) exSortedIterator
  ∧ ∃ itr', SortedMapIterator_Seek exSortedIterator 65 = Ok itr'
      ∧ ((SortedMapIterator_Done itr' = false
          ∧ ∃ k v itr'', SortedMapIterator_Next itr' = Ok (Some (k, v), itr'')
              ∧ SortedMap_Get (exSortedMap 100) k = Ok (Some v)
              ∧ Compare exComparer k 65 ≠ -1
              ∧ ∀ k' v', SortedMap_Get (exSortedMap 100) k' = Ok (Some v') →
                         Compare exComparer k' 65 ≠ -1 → Compare exComparer k k' ≠ 1)
         ∨ (SortedMapIterator_Done itr' = true
            ∧ ∀ k' v', SortedMap_Get (exSortedMap 100) k' = Ok (Some v') →
                       Compare exComparer k' 65 = -1)).
Proof.
  split; [exact exComparer_ok|]. split; [exact (exSortedMap_reachable 100)|].
  split; [exact exSortedMap_height|]. split; [exact exSortedIterator_reachable|].
  exact (SortedMapIterator_Seek_smallest_key_not_below exNoDefaultComparer exComparer
           (exSortedMap 100) exSortedIterator 65 exComparer_ok (exSortedMap_reachable 100)
           exSortedMap_height exSortedIterator_reachable).
Defined.

Lemma Prev_after_Next_returns_following_pair_witness :
  (List_reachable (exList 40) ∧ listNode_depth (list_root (exList 40)) < 32
   ∧ ListIterator_reachable (exList 40) exListIterator
   ∧ ListIterator_Next exListIterator = Ok (fst exListNext, snd exListNext)
   ∧ ListIterator_Done (snd exListNext) = false
   ∧ ∃ x itr2 itr3 itr4,
       ListIterator_Prev (snd exListNext) = Ok ((fst (fst exListNext) + 1, x), itr2)
       ∧ (fst (fst exListNext) + 1, x) ≠ fst exListNext
       ∧ ListIterator_Next (snd exListNext) = Ok ((fst (fst exListNext) + 1, x), itr3)
       ∧ ListIterator_Prev itr2 = Ok (fst exListNext, itr4)
       ∧ List_Get (exList 40) (fst (fst exListNext) + 1) = Ok x
       ∧ List_Get (exList 40) (fst (fst exListNext)) = Ok (snd (fst exListNext)))
  ∧ (Comparer_ok exComparer
     ∧ SortedMap_reachable exNoDefaultComparer exComparer (exSortedMap 100)
     ∧ (SortedMap_height (exSortedMap 100) < 32)%nat
     ∧ SortedMapIterator_reachable (exSortedMap 100) exSortedIterator
     ∧ SortedMapIterator_Next exSortedIterator = Ok (Some (0, 100), snd exSortedNext)
     ∧ SortedMapIterator_Done (snd exSortedNext) = false
     ∧ ∃ q itr2 itr3 itr4,
         SortedMapIterator_Prev (snd exSortedNext) = Ok (Some q, itr2)
         ∧ q ≠ (0, 100)
         ∧ SortedMapIterator_Next (snd exSortedNext) = Ok (Some q, itr3)
         ∧ SortedMapIterator_Prev itr2 = Ok (Some (0, 100), itr4)
         ∧ Compare exComparer (fst (0, 100)) (fst q) = -1
         ∧ SortedMap_Get (exSortedMap 100) (fst q) = Ok (Some (snd q))
         ∧ ∀ k v, SortedMap_Get (exSortedMap 100) k = Ok (Some v) →
                  Compare exComparer (fst (0, 100)) k = -1 →
                  Compare exComparer (fst q) k ≠ 1).
Proof.
  assert (H1 : ListIterator_Next exListIterator = Ok (fst exListNext, snd exListNext))
    by (vm_compute; reflexivity).
  assert (H2 : ListIterator_Done (snd exListNext) = false) by (vm_compute; reflexivity).
  assert (H3 : SortedMapIterator_Next exSortedIterator = Ok (Some (0, 100), snd exSortedNext))
    by (vm_compute; reflexivity).
  assert (H4 : SortedMapIterator_Done (snd exSortedNext) = false)
    by (vm_compute; reflexivity).
  split.
  - split; [exact (exList_reachable 40)|]. split; [exact exList_depth|].
    split; [exact exListIterator_reachable|]. split; [exact H1|]. split; [exact H2|].
    exact (proj1 (@Prev_after_Next_returns_following_pair Z Z exNoDefaultComparer)
             (exList 40) exListIterator (snd exListNext) (fst exListNext)
             (exList_reachable 40) exList_depth exListIterator_reachable H1 H2).
  - split; [exact exComparer_ok|]. split; [exact (exSortedMap_reachable 100)|].
    split; [exact exSortedMap_height|]. split; [exact exSortedIterator_reachable|].
    split; [exact H3|]. split; [exact H4|].
    exact (proj2 (@Prev_after_Next_returns_following_pair Z Z exNoDefaultComparer)
             exComparer (exSortedMap 100) exSortedIterator (snd exSortedNext) (0, 100)
             exComparer_ok (exSortedMap_reachable 100) exSortedMap_height
             exSortedIterator_reachable H3 H4).
Defined.

(** C5 as the specification states it fails: on the list [0, 1, 2] and on
    the sorted map of the keys 0, 2, 4, [Next] returns the first pair, the
    iterator is not done, and [Prev] then returns the second pair. *)
Example Prev_after_Next_differs :
  (itr ← List_Iterator (exList 3);
   '(p, itr1) ← ListIterator_Next itr;
   '(q, _) ← ListIterator_Prev itr1;
   Ok (p, ListIterator_Done itr1, q))
  = Ok ((0, Some 0), false, (1, Some 1))
  ∧ (itr ← SortedMap_Iterator (exSortedMap 3);
     '(p, itr1) ← SortedMapIterator_Next itr;
     '(q, _) ← SortedMapIterator_Prev itr1;
     Ok (p, SortedMapIterator_Done itr1, q))
    = Ok (Some (0, 100), false, Some (2, 101)).
Proof. split; vm_compute; reflexivity. Qed.

(** * Further properties of the lists *)

Section ListUpdates.
Context {V : Type}.
Implicit Types (l : List V) (v : option V).

Lemma List_Get_in_range l (index : Z) :
  List_wf l → 0 ≤ index < List_Len l → ∃ x, List_Get l index = Ok x.
Proof.
  intros (d & Hroot & Ho & Hs & Hb & Hpaths) Hi. unfold List_Get, List_Len in *.
  destruct (Z.ltb_spec index 0); [lia|].
  destruct (Z.geb_spec index (list_size l)); [lia|]. cbn [orb]. by apply Hpaths.
Qed.

Lemma List_Get_out_of_range l (index : Z) :
  ¬ (0 ≤ index < List_Len l) → List_Get l index = Panic IndexOutOfBounds.
Proof.
  intros Hi. unfold List_Get, List_Len in *.
  destruct (Z.ltb_spec index 0); [done|].
  destruct (Z.geb_spec index (list_size l)); [done|]. lia.
Qed.

(** The elements of a list whose root has been replaced, read through
    the new root. *)
Lemma List_Get_root l root' origin' size' (index index' : Z) :
  0 ≤ index < list_size l → 0 ≤ index' < size' →
  listNode_get root' (origin' + index') = listNode_get (list_root l) (list_origin l + index) →
  List_Get (mkList root' origin' size') index' = List_Get l index.
Proof.
  intros Hi Hi' Hget. unfold List_Get. cbn [list_root list_origin list_size].
  destruct (Z.ltb_spec index 0); [lia|]. destruct (Z.ltb_spec index' 0); [lia|].
  destruct (Z.geb_spec index (list_size l)); [lia|].
  destruct (Z.geb_spec index' size'); [lia|]. done.
Qed.

Lemma List_Set_spec l (index : Z) v :
  List_wf l → 0 ≤ index < List_Len l →
  ∃ l', List_Set l index v = Ok l'
        ∧ List_Len l' = List_Len l
        ∧ List_Get l' index = Ok v
        ∧ ∀ j, j ≠ index → List_Get l' j = List_Get l j.
Proof.
  intros (d & Hroot & Ho & Hs & Hb & Hpaths) Hi. unfold List_Set, List_Len in *.
  destruct (Z.ltb_spec index 0); [lia|].
  destruct (Z.geb_spec index (list_size l)); [lia|]. cbn [orb].
  eexists. split; [done|]. split; [done|].
  pose proof (weight_pos (S d)). split.
  - unfold List_Get. cbn [list_root list_origin list_size].
    destruct (Z.ltb_spec index 0); [lia|].
    destruct (Z.geb_spec index (list_size l)); [lia|]. cbn [orb].
    by eapply listNode_set_get_same.
  - intros j Hj. unfold List_Get. cbn [list_root list_origin list_size].
    destruct (Z.ltb_spec j 0); [done|].
    destruct (Z.geb_spec j (list_size l)); [done|]. cbn [orb].
    destruct (Hpaths j ltac:(lia)) as [x Hx]. rewrite Hx.
    eapply listNode_set_get_other; [done| |done].
    rewrite !Z.mod_small by lia. lia.
Qed.

Lemma List_Append_spec l v :
  List_wf l →
  List_Len (List_Append l v) = List_Len l + 1
  ∧ List_Get (List_Append l v) (List_Len l) = Ok v
  ∧ ∀ i, 0 ≤ i < List_Len l → List_Get (List_Append l v) i = List_Get l i.
Proof.
  intros (d & Hroot & Ho & Hs & Hb & Hpaths). unfold List_Append, List_cap, List_Len.
  rewrite (node_wf_depth d _ Hroot).
  pose proof (weight_pos d). pose proof (weight_S d) as HS.
  pose proof (weight_S (S d)) as HSS.
  rewrite Z.shiftl_1_l, weight_shift, Z.geb_leb.
  cbn [list_size]. split; [done|].
  replace (list_origin l + (list_size l + 1) - 1)
    with (list_origin l + list_size l) by lia.
  destruct (Z.leb_spec (weight d) (list_size l + list_origin l)) as [Hge|Hlt].
  - replace (Z.of_nat d + 1) with (Z.of_nat (S d)) by lia.
    assert (Hg := grown_root_wf d _ 0 Hroot ltac:(lia)).
    split.
    + unfold List_Get. cbn [list_root list_origin list_size].
      destruct (Z.ltb_spec (list_size l) 0); [lia|].
      destruct (Z.geb_spec (list_size l) (list_size l + 1)); [lia|]. cbn [orb].
      by eapply listNode_set_get_same.
    + intros i Hi. apply List_Get_root; [done|lia|].
      destruct (Hpaths i Hi) as [x Hx]. rewrite Hx.
      eapply listNode_set_get_other; [done| |].
      * rewrite !Z.mod_small by lia. lia.
      * rewrite (grown_root_get d); [done | done | lia |].
        simpl. apply listFrag_small. lia.
  - split.
    + unfold List_Get. cbn [list_root list_origin list_size].
      destruct (Z.ltb_spec (list_size l) 0); [lia|].
      destruct (Z.geb_spec (list_size l) (list_size l + 1)); [lia|]. cbn [orb].
      by eapply listNode_set_get_same.
    + intros i Hi. apply List_Get_root; [done|lia|].
      destruct (Hpaths i Hi) as [x Hx]. rewrite Hx.
      eapply listNode_set_get_other; [done| |done].
      rewrite !Z.mod_small by lia. lia.
Qed.

Lemma List_Prepend_spec l v :
  List_wf l →
  List_Len (List_Prepend l v) = List_Len l + 1
  ∧ List_Get (List_Prepend l v) 0 = Ok v
  ∧ ∀ i, 0 ≤ i < List_Len l → List_Get (List_Prepend l v) (i + 1) = List_Get l i.
Proof.
  intros (d & Hroot & Ho & Hs & Hb & Hpaths). unfold List_Prepend, List_Len.
  pose proof (weight_pos d). pose proof (weight_S d) as HS.
  pose proof (weight_S (S d)) as HSS.
  destruct (Z.eqb_spec (list_origin l) 0) as [Hz|Hnz].
  - cbn [listNode_depth list_size]. rewrite (node_wf_depth d _ Hroot).
    replace (Z.of_nat d + 1) with (Z.of_nat (S d)) by lia.
    rewrite shiftl_weight. change (listNodeSize - 1) with 31.
    change (Z.to_nat 31) with 31%nat.
    assert (Hg := grown_root_wf d _ 31 Hroot ltac:(lia)).
    rewrite Hz in *. split; [done|]. split.
    + unfold List_Get. cbn [list_root list_origin list_size].
      destruct (Z.ltb_spec 0 0); [lia|].
      destruct (Z.geb_spec 0 (list_size l + 1)); [lia|]. cbn [orb].
      rewrite Z.add_0_r. by eapply listNode_set_get_same.
    + intros i Hi. apply List_Get_root; [done|lia|].
      destruct (Hpaths i Hi) as [x Hx]. rewrite ?Hz, Hx.
      eapply listNode_set_get_other; [done| |].
      * rewrite !Z.mod_small by lia. lia.
      * rewrite (grown_root_get d); [|done|lia|].
        -- rewrite <-Hx. apply (listNode_get_congr d); [done|].
           replace (0 + 31 * weight (S d) - 1 + (i + 1)) with (0 + i + 31 * weight (S d)) by lia.
           by rewrite Z.mod_add by lia.
        -- rewrite listFrag_div.
           replace (0 + 31 * weight (S d) - 1 + (i + 1)) with (i + 31 * weight (S d)) by lia.
           rewrite Z.div_add, Z.div_small by lia. done.
  - cbn [list_size]. split; [done|]. split.
    + unfold List_Get. cbn [list_root list_origin list_size].
      destruct (Z.ltb_spec 0 0); [lia|].
      destruct (Z.geb_spec 0 (list_size l + 1)); [lia|]. cbn [orb].
      rewrite Z.add_0_r. by eapply listNode_set_get_same.
    + intros i Hi. apply List_Get_root; [done|lia|].
      destruct (Hpaths i Hi) as [x Hx].
      replace (list_origin l - 1 + (i + 1)) with (list_origin l + i) by lia. rewrite Hx.
      eapply listNode_set_get_other; [done| |done].
      rewrite !Z.mod_small by lia. lia.
Qed.
End ListUpdates.

Section ListTraversal.
Context {V : Type}.
Implicit Types (l : List V) (itr : ListIterator V).

(** The loop of a client that walks a list:
    [for !itr.Done() { index, value := itr.Next(); ... }], at most [fuel]
    turns of it, with the pairs that [Next] returned. *)
Fixpoint ListIterator_collect (fuel : nat) itr : result (list (Z * option V)) :=
  match fuel with
  | O => Ok []
  | S fuel' =>
      if ListIterator_Done itr then Ok []
      else
        '(p, itr') ← ListIterator_Next itr;
        ps ← ListIterator_collect fuel' itr';
        Ok (p :: ps)
  end.

Section OnList.
Context (l : List V) (d : nat).
Context (Hroot : node_wf d (list_root l)).
Context (Ho : 0 ≤ list_origin l).
Context (Hs : 0 ≤ list_size l).
Context (Hb : list_origin l + list_size l ≤ weight (S d)).
Context (Hpaths : ∀ i, 0 ≤ i < list_size l →
                       ∃ x, listNode_get (list_root l) (list_origin l + i) = Ok x).
Context (Hd : (d < 32)%nat).

Lemma ListIterator_collect_from (k : nat) itr :
  litr_list itr = l → length (litr_stack itr) = 32%nat →
  litr_index itr + Z.of_nat k = List_Len l → 0 ≤ litr_index itr →
  (litr_index itr < List_Len l → lpositioned itr) →
  ∃ ps, ListIterator_collect (S k) itr = Ok ps
        ∧ length ps = k
        ∧ ∀ j : nat, (j < k)%nat →
            ∃ x, ps !! j = Some (litr_index itr + Z.of_nat j, x)
                 ∧ List_Get l (litr_index itr + Z.of_nat j) = Ok x.
Proof.
  revert itr. induction k as [|k IH]; intros itr Hl Hlen Hk Hi Hpos.
  - exists []. cbn [ListIterator_collect]. unfold ListIterator_Done. rewrite Hl.
    destruct (Z.geb_spec (litr_index itr) (List_Len l)); [|lia].
    rewrite orb_true_r. cbv iota. split; [done|]. split; [reflexivity|]. intros j Hj. lia.
  - specialize (Hpos ltac:(lia)).
    destruct (ListIterator_Next_positioned l d Hroot Ho Hb Hpaths Hd itr Hl Hlen Hpos)
      as (x & itr' & Hget & Hnext & Hl' & Hi' & Hlen' & Hpos').
    destruct (IH itr' Hl' Hlen') as (ps & Hrun & Hlenps & Hps); [lia|lia|by rewrite Hi'|].
    exists ((litr_index itr, x) :: ps).
    change (ListIterator_collect (S (S k)) itr)
      with (if ListIterator_Done itr then Ok []
            else '(p, itr') ← ListIterator_Next itr;
                 ps ← ListIterator_collect (S k) itr'; Ok (p :: ps)).
    rewrite (lpositioned_not_done itr Hpos), Hnext. cbn [mbind result_bind].
    rewrite Hrun. cbn [mbind result_bind]. split; [done|].
    split; [cbn; lia|]. intros [|j] Hj.
    + exists x. rewrite Z.add_0_r. done.
    + destruct (Hps j ltac:(lia)) as (y & Hy & Hgety). exists y.
      replace (litr_index itr + Z.of_nat (S j)) with (litr_index itr' + Z.of_nat j) by lia.
      done.
Qed.

Lemma List_Iterator_start :
  ∃ itr, List_Iterator l = Ok itr
         ∧ litr_list itr = l ∧ length (litr_stack itr) = 32%nat
         ∧ litr_index itr = 0
         ∧ (0 < List_Len l → lpositioned itr).
Proof.
  unfold List_Iterator, ListIterator_First. cbn [litr_list].
  destruct (Z.eqb_spec (List_Len l) 0) as [Hempty|Hne]; cbn [negb].
  - eexists. split; [done|]. cbn. split; [done|]. split; [done|]. split; [done|]. lia.
  - destruct (ListIterator_Seek_positioned l d Hroot Hpaths Hd
                (mkListIterator l 0 (replicate 32 (mkListElem None 0)) 0) 0)
      as (itr & Hseek & Hl & Hi & Hlen & Hpos); [done|done|unfold List_Len in *; lia|].
    exists itr. split; [done|]. split; [done|]. split; [done|]. by split.
Qed.

(** Walking a list from its iterator returns every index with its
    element, in order. *)
Lemma ListIterator_collect_all :
  ∃ itr ps, List_Iterator l = Ok itr
            ∧ ListIterator_collect (S (Z.to_nat (List_Len l))) itr = Ok ps
            ∧ Z.of_nat (length ps) = List_Len l
            ∧ ∀ i, 0 ≤ i < List_Len l →
                   ∃ x, ps !! Z.to_nat i = Some (i, x) ∧ List_Get l i = Ok x.
Proof.
  destruct List_Iterator_start as (itr & Hitr & Hl & Hlen & Hi & Hpos).
  unfold List_Len in *.
  destruct (ListIterator_collect_from (Z.to_nat (list_size l)) itr Hl Hlen)
    as (ps & Hrun & Hlenps & Hps).
  { unfold List_Len. lia. }
  { lia. }
  { unfold List_Len. intros H. apply Hpos. lia. }
  exists itr, ps. split; [done|]. split; [done|]. split; [lia|].
  intros i Hirange. destruct (Hps (Z.to_nat i) ltac:(lia)) as (x & Hx & Hget).
  rewrite Hi, Z.add_0_l, Z2Nat.id in Hx, Hget by lia. by exists x.
Qed.
End OnList.
End ListTraversal.

(** * Further properties of the sorted maps *)

Section StoredPairs.
Context {K V : Type}.
Implicit Types (c : Comparer K) (l : list (mapEntry K V)) (key : K) (value : V).

Lemma compare_eq_trans c a b d :
  Comparer_ok c → Compare c a b = 0 → Compare c b d = 0 → Compare c a d = 0.
Proof.
  intros Hc Hab Hbd. destruct (compare_range c Hc a d) as [H|[H|H]]; [|done|].
  - pose proof (compare_lt_eq c Hc a d b H (compare_eq_sym c b d Hc Hbd)). lia.
  - apply (compare_flip c Hc) in H.
    pose proof (compare_lt_eq c Hc d a b H Hab) as H'.
    apply (compare_flip c Hc) in H'. lia.
Qed.

Lemma rank_before c key l e :
  e ∈ take (rank c key l) l → Compare c (entry_key e) key = -1.
Proof. intros (i & He & Hi)%elem_of_take. by eapply rank_below. Qed.

Lemma rank_after c key l e :
  Comparer_ok c → entries_sorted c l →
  e ∈ drop (S (rank c key l)) l → Compare c (entry_key e) key = 1.
Proof.
  intros Hc Hs [i He]%list_elem_of_lookup. rewrite lookup_drop in He.
  eapply (rank_strictly_above c key l); [done..| |done]. lia.
Qed.

Lemma rank_from c key l e :
  Comparer_ok c → entries_sorted c l → entries_hit c key l = None →
  e ∈ drop (rank c key l) l → Compare c (entry_key e) key = 1.
Proof.
  intros Hc Hs Hhit [i He]%list_elem_of_lookup. rewrite lookup_drop in He.
  destruct (decide (i = 0)%nat) as [->|Hpos].
  - rewrite Nat.add_0_r in He. pose proof (rank_at c key l e He).
    pose proof (entries_hit_None c key l Hhit e He).
    destruct (compare_range c Hc (entry_key e) key) as [?|[?|?]]; done.
  - eapply (rank_strictly_above c key l); [done..| |done]. lia.
Qed.

(** In a sorted list a search hits the one pair whose key equals [key]. *)
Lemma entries_hit_iff c key l e :
  Comparer_ok c → entries_sorted c l →
  entries_hit c key l = Some e ↔ e ∈ l ∧ Compare c (entry_key e) key = 0.
Proof.
  intros Hc Hs. split.
  - intros [He Heq]%entries_hit_Some. split; [|done]. by eapply list_elem_of_lookup_2.
  - intros [[i He]%list_elem_of_lookup Heq]. unfold entries_hit.
    assert (rank c key l = i) as ->.
    { apply rank_unique.
      - apply lookup_lt_Some in He. lia.
      - intros j e' Hj He'. eapply compare_lt_eq; [done| |done]. by apply (Hs j i).
      - intros e' He'. assert (e' = e) as -> by congruence. rewrite Heq. done. }
    rewrite He, Heq. done.
Qed.

Lemma entries_hit_ext c key l1 l2 :
  (∀ e, entries_hit c key l1 = Some e ↔ entries_hit c key l2 = Some e) →
  entries_hit c key l1 = entries_hit c key l2.
Proof.
  intros Hext. destruct (entries_hit c key l1) as [e|].
  - symmetry. by apply Hext.
  - destruct (entries_hit c key l2) as [e|]; [|done].
    by destruct (Hext e) as [_ ?%(λ H, H eq_refl)].
Qed.

Lemma elem_of_middle {A} (l : list A) (i : nat) (x y : A) :
  l !! i = Some x → y ∈ l ↔ y ∈ take i l ∨ y = x ∨ y ∈ drop (S i) l.
Proof.
  intros Hi. pose proof (take_drop_middle l i x Hi) as Hsplit. split.
  - intros Hy. rewrite <-Hsplit in Hy. by rewrite elem_of_app, elem_of_cons in Hy.
  - intros Hy. rewrite <-Hsplit. by rewrite elem_of_app, elem_of_cons.
Qed.

Lemma elem_of_take_drop {A} (l : list A) (i : nat) (y : A) :
  y ∈ l ↔ y ∈ take i l ∨ y ∈ drop i l.
Proof. by rewrite <-elem_of_app, take_drop. Qed.

Lemma elem_of_entries_upsert c key value l e :
  Comparer_ok c → entries_sorted c l →
  e ∈ entries_upsert c key value l ↔
  e = mkEntry key value ∨ (e ∈ l ∧ Compare c (entry_key e) key ≠ 0).
Proof.
  intros Hc Hs. unfold entries_upsert.
  destruct (entries_hit c key l) as [e0|] eqn:Hhit.
  - pose proof Hhit as [He0 Heq]%entries_hit_Some.
    rewrite insert_take_drop by (by eapply lookup_lt_Some).
    rewrite (elem_of_middle l _ e0 e He0), elem_of_app, elem_of_cons. split.
    + intros [Ha|[->|Hc']]; [right|by left|right].
      * split; [by left|]. by rewrite (rank_before c key l e Ha).
      * split; [by right; right|]. by rewrite (rank_after c key l e Hc Hs Hc').
    + intros [->|[[Ha|[->|Hc']] Hne]]; [by right; left|by left|done|by right; right].
  - unfold splice.
    rewrite (elem_of_take_drop l (rank c key l) e), elem_of_app, elem_of_cons. split.
    + intros [Ha|[->|Hc']]; [right|by left|right].
      * split; [by left|]. by rewrite (rank_before c key l e Ha).
      * split; [by right|]. by rewrite (rank_from c key l e Hc Hs Hhit Hc').
    + intros [->|[[Ha|Hc'] Hne]]; [by right; left|by left|by right; right].
Qed.

Lemma elem_of_entries_remove c key l e0 e :
  Comparer_ok c → entries_sorted c l → entries_hit c key l = Some e0 →
  e ∈ entries_remove c key l ↔ e ∈ l ∧ Compare c (entry_key e) key ≠ 0.
Proof.
  intros Hc Hs [He0 Heq]%entries_hit_Some. unfold entries_remove, remove_at.
  rewrite (elem_of_middle l _ e0 e He0), elem_of_app. split.
  - intros [Ha|Hc']; split.
    + by left.
    + by rewrite (rank_before c key l e Ha).
    + by right; right.
    + by rewrite (rank_after c key l e Hc Hs Hc').
  - intros [[Ha|[->|Hc']] Hne]; [by left|done|by right].
Qed.

(** What a search finds after a [Set] and after a [Delete]. *)
Lemma entries_hit_upsert_same c key value l :
  Comparer_ok c → entries_sorted c l →
  entries_hit c key (entries_upsert c key value l) = Some (mkEntry key value).
Proof.
  intros Hc Hs. apply entries_hit_iff; [done|by apply entries_sorted_upsert|].
  split; [|apply (compare_refl c Hc)].
  apply elem_of_entries_upsert; [done..|]. by left.
Qed.

Lemma entries_hit_upsert_other c key value l k' :
  Comparer_ok c → entries_sorted c l → Compare c key k' ≠ 0 →
  entries_hit c k' (entries_upsert c key value l) = entries_hit c k' l.
Proof.
  intros Hc Hs Hne. apply entries_hit_ext. intros e.
  rewrite !entries_hit_iff by (done || by apply entries_sorted_upsert).
  rewrite elem_of_entries_upsert by done. split.
  - intros [[->|[He _]] Heq]; [done|done].
  - intros [He Heq]. split; [|done]. right. split; [done|].
    intros Hk. apply Hne. eapply compare_eq_trans; [done| |done].
    by apply compare_eq_sym.
Qed.

Lemma entries_hit_remove_same c key l e0 :
  Comparer_ok c → entries_sorted c l → entries_hit c key l = Some e0 →
  entries_hit c key (entries_remove c key l) = None.
Proof.
  intros Hc Hs Hhit.
  destruct (entries_hit c key (entries_remove c key l)) as [e|] eqn:Hhit'; [|done].
  apply entries_hit_iff in Hhit' as [He Heq]; [|done|by apply entries_sorted_remove].
  apply (elem_of_entries_remove c key l e0 e Hc Hs Hhit) in He as [_ Hne]. done.
Qed.

Lemma entries_hit_remove_other c key l e0 k' :
  Comparer_ok c → entries_sorted c l → entries_hit c key l = Some e0 →
  Compare c key k' ≠ 0 →
  entries_hit c k' (entries_remove c key l) = entries_hit c k' l.
Proof.
  intros Hc Hs Hhit Hne. apply entries_hit_ext. intros e.
  rewrite !entries_hit_iff by (done || by apply entries_sorted_remove).
  rewrite (elem_of_entries_remove c key l e0 e Hc Hs Hhit). split.
  - by intros [[He _] Heq].
  - intros [He Heq]. split; [|done]. split; [done|].
    intros Hk. apply Hne. eapply compare_eq_trans; [done| |done].
    by apply compare_eq_sym.
Qed.
End StoredPairs.

Section SortedTraversal.
Context {K V : Type}.
Implicit Types (c : Comparer K) (root : sortedMapNode K V) (m : SortedMap K V).
Implicit Types (l : list (mapEntry K V)) (key : K) (itr : SortedMapIterator K V).

(** The loop of a client that walks a sorted map:
    [for !itr.Done() { key, value := itr.Next(); ... }], at most [fuel]
    turns of it, with the pairs that [Next] returned. *)
Fixpoint SortedMapIterator_collect (fuel : nat) itr : result (list (K * V)) :=
  match fuel with
  | O => Ok []
  | S fuel' =>
      if SortedMapIterator_Done itr then Ok []
      else
        '(p, itr') ← SortedMapIterator_Next itr;
        match p with
        | Some kv => ps ← SortedMapIterator_collect fuel' itr'; Ok (kv :: ps)
        | None => Ok []
        end
  end.

(** The same loop backwards, with [Prev]. *)
Fixpoint SortedMapIterator_collect_back (fuel : nat) itr : result (list (K * V)) :=
  match fuel with
  | O => Ok []
  | S fuel' =>
      if SortedMapIterator_Done itr then Ok []
      else
        '(p, itr') ← SortedMapIterator_Prev itr;
        match p with
        | Some kv => ps ← SortedMapIterator_collect_back fuel' itr'; Ok (kv :: ps)
        | None => Ok []
        end
  end.

Definition entry_pair (e : mapEntry K V) : K * V := (entry_key e, entry_value e).

Section OnMap.
Context (m : SortedMap K V) (root : sortedMapNode K V) (h : nat).
Context (Hroot : smap_root m = Some root).
Context (Hwf : tree_wf h root).
Context (Hh : (h < 32)%nat).

Lemma SortedMapIterator_collect_from (k : nat) itr (j : nat) :
  sitr_m itr = m → positioned itr root j →
  (j + k = length (sortedMapNode_entries root))%nat →
  SortedMapIterator_collect (S k) itr
  = Ok (entry_pair <$> drop j (sortedMapNode_entries root)).
Proof.
  revert itr j. induction k as [|k IH]; intros itr j Hm Hpos Hk.
  - destruct (positioned_current itr root j Hpos) as (e & He%lookup_lt_Some & _). lia.
  - destruct (SortedMapIterator_Next_positioned m root h Hwf Hh itr j Hm Hpos)
      as (e & itr' & He & Hnext & Hm' & Hlen' & Hpos').
    change (SortedMapIterator_collect (S (S k)) itr)
      with (if SortedMapIterator_Done itr then Ok []
            else '(p, itr') ← SortedMapIterator_Next itr;
                 match p with
                 | Some kv => ps ← SortedMapIterator_collect (S k) itr'; Ok (kv :: ps)
                 | None => Ok []
                 end).
    rewrite (positioned_not_done itr root j Hpos), Hnext. cbn [mbind result_bind].
    rewrite (drop_S _ e j He). cbn [fmap list_fmap]. fold (entry_pair e).
    case_decide as Hmore.
    + rewrite (IH itr' (S j) Hm' Hpos') by lia. done.
    + assert (k = 0%nat) as -> by (apply lookup_lt_Some in He; lia).
      cbn [SortedMapIterator_collect]. unfold SortedMapIterator_Done.
      rewrite Hpos'. cbn [Z.eqb mbind result_bind].
      rewrite drop_ge by lia. done.
Qed.

Lemma SortedMapIterator_collect_back_from itr (j : nat) :
  sitr_m itr = m → positioned itr root j →
  SortedMapIterator_collect_back (S (S j)) itr
  = Ok (entry_pair <$> reverse (take (S j) (sortedMapNode_entries root))).
Proof.
  revert itr. induction j as [|j IH]; intros itr Hm Hpos.
  - destruct (SortedMapIterator_Prev_positioned m root h Hwf Hh itr 0 Hm Hpos)
      as (e & itr' & He & Hprev & Hm' & Hlen' & Hpos').
    cbn [SortedMapIterator_collect_back].
    rewrite (positioned_not_done itr root 0 Hpos), Hprev. cbn [mbind result_bind].
    case_decide; [lia|]. unfold SortedMapIterator_Done at 1. rewrite Hpos'.
    cbn [Z.eqb mbind result_bind].
    rewrite (take_S_r _ 0 e He), take_0. done.
  - destruct (SortedMapIterator_Prev_positioned m root h Hwf Hh itr (S j) Hm Hpos)
      as (e & itr' & He & Hprev & Hm' & Hlen' & Hpos').
    change (SortedMapIterator_collect_back (S (S (S j))) itr)
      with (if SortedMapIterator_Done itr then Ok []
            else '(p, itr') ← SortedMapIterator_Prev itr;
                 match p with
                 | Some kv => ps ← SortedMapIterator_collect_back (S (S j)) itr';
                              Ok (kv :: ps)
                 | None => Ok []
                 end).
    rewrite (positioned_not_done itr root (S j) Hpos), Hprev. cbn [mbind result_bind].
    case_decide; [|lia]. replace (S j - 1)%nat with j in Hpos' by lia.
    rewrite (IH itr' Hm' Hpos'). cbn [mbind result_bind].
    rewrite (take_S_r _ (S j) e He), reverse_app. done.
Qed.
End OnMap.

(** Walking a map forwards returns its pairs in the order of the tree,
    walking it backwards from the last pair returns them reversed. *)
Lemma SortedMapIterator_collect_entries c m :
  Comparer_ok c → SortedMap_wf c m → (SortedMap_height m < 32)%nat →
  ∃ itr itr_last,
    SortedMap_Iterator m = Ok itr
    ∧ SortedMapIterator_collect (S (length (SortedMap_entries m))) itr
      = Ok (entry_pair <$> SortedMap_entries m)
    ∧ SortedMapIterator_Last itr = Ok itr_last
    ∧ SortedMapIterator_collect_back (S (length (SortedMap_entries m))) itr_last
      = Ok (entry_pair <$> reverse (SortedMap_entries m)).
Proof.
  intros Hc (Hcmp & [h Htree] & Hs & Hsize) Hheight.
  unfold SortedMap_height, SortedMap_entries in *.
  destruct (smap_root m) as [root|] eqn:Hroot; cbn [subtree_wf subtree_entries] in *.
  - rewrite (tree_wf_height h root Htree) in Hheight.
    destruct (SortedMapIterator_First_positioned m root h Hroot Htree Hheight
                (mkSortedMapIterator m (replicate 32 (mkSortedElem None 0)) 0)
                eq_refl eq_refl) as (itr & Hitr & Hm & Hpos).
    destruct (SortedMapIterator_Last_positioned m root h Hroot Htree Hheight itr Hm)
      as (itr_last & Hlast & Hm' & Hpos'); [by destruct Hpos as (? & _ & ? & _)|].
    pose proof (tree_wf_nonempty h root Htree) as Hne.
    exists itr, itr_last. split; [done|]. split; [|split; [done|]].
    + rewrite (SortedMapIterator_collect_from m root h Htree Hheight _ itr 0 Hm Hpos) by lia.
      by rewrite drop_0.
    + replace (S (length (sortedMapNode_entries root)))
        with (S (S (length (sortedMapNode_entries root) - 1))) by lia.
      rewrite (SortedMapIterator_collect_back_from m root h Htree Hheight itr_last _ Hm' Hpos').
      rewrite take_ge by lia. done.
  - eexists _, _. unfold SortedMap_Iterator, SortedMapIterator_First,
      SortedMapIterator_Last, SortedMapIterator_reset.
    cbn [sitr_m sitr_stack]. rewrite Hroot. split; [done|]. cbn [sitr_m]. rewrite Hroot.
    done.
Qed.
End SortedTraversal.

(** * The built-in hashers and comparers are lawful *)

(** The loop of [hashUint64] ends before its fuel does: more fuel than the
    bits of [value] changes nothing. *)
Lemma hashUint64_loop_fuel (fuel k : nat) (value hash : Z) :
  0 ≤ value < 2 ^ Z.of_nat fuel →
  hashUint64_loop (fuel + k) value hash = hashUint64_loop fuel value hash.
Proof.
  revert value hash. induction fuel as [|fuel IH]; intros value hash Hv.
  - assert (value = 0) as -> by (cbn in Hv; lia). by destruct k.
  - cbn [Nat.add hashUint64_loop].
    destruct (Z.gtb_spec value 0xffffffff) as [Hbig|]; [|done].
    apply IH. split; [apply Z.div_pos; lia|].
    apply Z.div_lt_upper_bound; [lia|].
    rewrite Nat2Z.inj_succ, Z.pow_succ_r in Hv by lia. lia.
Qed.

Lemma hashUint64_range (value : Z) : 0 ≤ hashUint64 value < 2 ^ 32.
Proof.
  unfold hashUint64. change 0xffffffff with (Z.ones 32).
  rewrite Z.land_ones by lia. apply Z.mod_pos_bound. lia.
Qed.

Lemma hashUint64_small (value : Z) : 0 ≤ value ≤ 0xffffffff → hashUint64 value = value.
Proof.
  intros Hv. unfold hashUint64. cbn [hashUint64_loop].
  destruct (Z.gtb_spec value 0xffffffff); [lia|].
  change 0xffffffff with (Z.ones 32). rewrite Z.land_ones by lia.
  apply Z.mod_small. change (Z.ones 32) with 4294967295 in Hv. lia.
Qed.

Lemma hashBytes_range (value : list Z) : 0 ≤ hashBytes value < 2 ^ 32.
Proof.
  assert (∀ acc, 0 ≤ acc < 2 ^ 32 →
            0 ≤ foldl (λ hash b, (31 * hash + b) `mod` 2 ^ 32) acc value < 2 ^ 32) as H.
  { induction value as [|b value IH]; intros acc Hacc; [done|].
    cbn [foldl]. apply IH. apply Z.mod_pos_bound. lia. }
  apply H. lia.
Qed.

Section Lawful.
Lemma intHasher_ok : Hasher_ok intHasher.
Proof.
  split; cbn [Hash Equal intHasher].
  - intros a. apply hashUint64_range.
  - intros a. apply Z.eqb_refl.
  - intros a b ->%Z.eqb_eq. apply Z.eqb_refl.
  - intros a b d ->%Z.eqb_eq ->%Z.eqb_eq. apply Z.eqb_refl.
  - by intros a b ->%Z.eqb_eq.
Qed.

Lemma stringHasher_ok : Hasher_ok stringHasher.
Proof.
  split; cbn [Hash Equal stringHasher].
  - intros a. apply hashBytes_range.
  - intros a. apply String.eqb_refl.
  - intros a b ->%String.eqb_eq. apply String.eqb_refl.
  - intros a b d ->%String.eqb_eq ->%String.eqb_eq. apply String.eqb_refl.
  - by intros a b ->%String.eqb_eq.
Qed.

Lemma byteSliceHasher_ok : Hasher_ok byteSliceHasher.
Proof.
  split; cbn [Hash Equal byteSliceHasher].
  - intros a. apply hashBytes_range.
  - intros a. by apply bool_decide_eq_true.
  - intros a b ->%bool_decide_eq_true. by apply bool_decide_eq_true.
  - intros a b d ->%bool_decide_eq_true ->%bool_decide_eq_true.
    by apply bool_decide_eq_true.
  - by intros a b ->%bool_decide_eq_true.
Qed.

Lemma intComparer_ok : Comparer_ok intComparer.
Proof.
  split; unfold intComparer; cbn [Compare]; intros;
    repeat match goal with
           | |- context [?a <? ?b] => destruct (Z.ltb_spec a b)
           | |- context [?a >? ?b] => destruct (Z.gtb_spec a b)
           | H : context [?a <? ?b] |- _ => destruct (Z.ltb_spec a b)
           | H : context [?a >? ?b] |- _ => destruct (Z.gtb_spec a b)
           end; try split; intros; lia.
Qed.

(** [intComparer] answers 0 for equal integers only: it is a total order. *)
Lemma intComparer_eq (i j : Z) : Compare intComparer i j = 0 ↔ i = j.
Proof.
  unfold intComparer. cbn [Compare].
  destruct (Z.ltb_spec i j); [lia|]. destruct (Z.gtb_spec i j); lia.
Qed.
End Lawful.

(** * Lists: reads, updates and traversals *)

Section ListProperties.
Context {V : Type}.
Implicit Types (l : List V) (v : option V) (itr : ListIterator V).

(** The same loop backwards, with [Prev]. *)
Fixpoint ListIterator_collect_back (fuel : nat) itr : result (list (Z * option V)) :=
  match fuel with
  | O => Ok []
  | S fuel' =>
      if ListIterator_Done itr then Ok []
      else
        '(p, itr') ← ListIterator_Prev itr;
        ps ← ListIterator_collect_back fuel' itr';
        Ok (p :: ps)
  end.

(** A walk that ended before its fuel did is the walk of the loop. *)
Lemma ListIterator_collect_more (fuel e : nat) itr ps :
  ListIterator_collect fuel itr = Ok ps → (length ps < fuel)%nat →
  ListIterator_collect (fuel + e) itr = Ok ps.
Proof.
  revert itr ps. induction fuel as [|fuel IH]; intros itr ps; [intros _; lia|].
  cbn [ListIterator_collect Nat.add]. destruct (ListIterator_Done itr); [done|].
  destruct (ListIterator_Next itr) as [[p itr']|]; cbn [mbind result_bind]; [|done].
  destruct (ListIterator_collect fuel itr') as [ps'|] eqn:Hrun;
    cbn [mbind result_bind]; [|done].
  intros [= <-] Hlen. cbn [length] in Hlen. rewrite (IH itr' ps' Hrun) by lia. done.
Qed.

Lemma ListIterator_collect_back_more (fuel e : nat) itr ps :
  ListIterator_collect_back fuel itr = Ok ps → (length ps < fuel)%nat →
  ListIterator_collect_back (fuel + e) itr = Ok ps.
Proof.
  revert itr ps. induction fuel as [|fuel IH]; intros itr ps; [intros _; lia|].
  cbn [ListIterator_collect_back Nat.add]. destruct (ListIterator_Done itr); [done|].
  destruct (ListIterator_Prev itr) as [[p itr']|]; cbn [mbind result_bind]; [|done].
  destruct (ListIterator_collect_back fuel itr') as [ps'|] eqn:Hrun;
    cbn [mbind result_bind]; [|done].
  intros [= <-] Hlen. cbn [length] in Hlen. rewrite (IH itr' ps' Hrun) by lia. done.
Qed.

Section OnList.
Context (l : List V) (d : nat).
Context (Hroot : node_wf d (list_root l)).
Context (Ho : 0 ≤ list_origin l).
Context (Hs : 0 ≤ list_size l).
Context (Hb : list_origin l + list_size l ≤ weight (S d)).
Context (Hpaths : ∀ i, 0 ≤ i < list_size l →
                       ∃ x, listNode_get (list_root l) (list_origin l + i) = Ok x).
Context (Hd : (d < 32)%nat).

Lemma ListIterator_collect_back_from (k : nat) itr :
  litr_list itr = l → length (litr_stack itr) = 32%nat →
  litr_index itr + 1 = Z.of_nat k → litr_index itr < List_Len l →
  (0 ≤ litr_index itr → lpositioned itr) →
  ∃ ps, ListIterator_collect_back (S k) itr = Ok ps
        ∧ length ps = k
        ∧ ∀ j : nat, (j < k)%nat →
            ∃ x, ps !! j = Some (litr_index itr - Z.of_nat j, x)
                 ∧ List_Get l (litr_index itr - Z.of_nat j) = Ok x.
Proof.
  revert itr. induction k as [|k IH]; intros itr Hl Hlen Hk Hi Hpos.
  - exists []. cbn [ListIterator_collect_back]. unfold ListIterator_Done.
    destruct (Z.ltb_spec (litr_index itr) 0); [|lia].
    cbn [orb]. split; [done|]. split; [reflexivity|]. intros j Hj. lia.
  - specialize (Hpos ltac:(lia)).
    destruct (ListIterator_Prev_positioned l d Hroot Ho Hb Hpaths Hd itr Hl Hlen Hpos)
      as (x & itr' & Hget & Hprev & Hl' & Hi' & Hlen' & Hpos').
    destruct (IH itr' Hl' Hlen') as (ps & Hrun & Hlenps & Hps); [lia|lia|by rewrite Hi'|].
    exists ((litr_index itr, x) :: ps).
    change (ListIterator_collect_back (S (S k)) itr)
      with (if ListIterator_Done itr then Ok []
            else '(p, itr') ← ListIterator_Prev itr;
                 ps ← ListIterator_collect_back (S k) itr'; Ok (p :: ps)).
    rewrite (lpositioned_not_done itr Hpos), Hprev. cbn [mbind result_bind].
    rewrite Hrun. cbn [mbind result_bind]. split; [done|].
    split; [cbn; lia|]. intros [|j] Hj.
    + exists x. rewrite Z.sub_0_r. done.
    + destruct (Hps j ltac:(lia)) as (y & Hy & Hgety). exists y.
      replace (litr_index itr - Z.of_nat (S j)) with (litr_index itr' - Z.of_nat j) by lia.
      done.
Qed.
End OnList.

(** On every list that a client can build, [Get(index)] returns for
    every index in [[0, Len())] and panics with an index-out-of-bounds
    message for every other index: no index in range meets a missing
    node of the trie. *)
Theorem List_Get_bounds l (index : Z) :
  List_reachable l →
  (0 ≤ index < List_Len l → ∃ x, List_Get l index = Ok x)
  ∧ (¬ (0 ≤ index < List_Len l) → List_Get l index = Panic IndexOutOfBounds).
Proof.
  intros Hl%List_reachable_wf. split.
  - by apply List_Get_in_range.
  - apply List_Get_out_of_range.
Qed.

(** [Set(index, v)] on an index in range returns a list of the same
    length that holds [v] at [index] and the elements of the receiver at
    every other index. *)
Theorem List_Set_then_Get l (index : Z) v :
  List_reachable l → 0 ≤ index < List_Len l →
  ∃ l', List_Set l index v = Ok l'
        ∧ List_Len l' = List_Len l
        ∧ List_Get l' index = Ok v
        ∧ ∀ j, j ≠ index → List_Get l' j = List_Get l j.
Proof. intros Hl%List_reachable_wf Hi. by apply List_Set_spec. Qed.

(** [Append(v)] returns a list one longer, with [v] at the old length
    and the elements of the receiver at their indexes, whether or not
    the trie grows a level. *)
Theorem List_Append_then_Get l v :
  List_reachable l →
  List_Len (List_Append l v) = List_Len l + 1
  ∧ List_Get (List_Append l v) (List_Len l) = Ok v
  ∧ ∀ i, 0 ≤ i < List_Len l → List_Get (List_Append l v) i = List_Get l i.
Proof. intros Hl%List_reachable_wf. by apply List_Append_spec. Qed.

(** [Prepend(v)] returns a list one longer, with [v] at index 0 and the
    elements of the receiver moved up by one index. *)
Theorem List_Prepend_then_Get l v :
  List_reachable l →
  List_Len (List_Prepend l v) = List_Len l + 1
  ∧ List_Get (List_Prepend l v) 0 = Ok v
  ∧ ∀ i, 0 ≤ i < List_Len l → List_Get (List_Prepend l v) (i + 1) = List_Get l i.
Proof. intros Hl%List_reachable_wf. by apply List_Prepend_spec. Qed.

(** The loop [for !itr.Done() { itr.Next() }] on a new iterator ends
    after [Len()] turns and has returned, in order, every index of the
    list with the element [Get] returns for it. *)
Theorem List_Iterator_visits_all l :
  List_reachable l → listNode_depth (list_root l) < 32 →
  ∃ itr ps,
    List_Iterator l = Ok itr
    ∧ (∀ fuel, (length ps < fuel)%nat → ListIterator_collect fuel itr = Ok ps)
    ∧ Z.of_nat (length ps) = List_Len l
    ∧ ∀ i, 0 ≤ i < List_Len l →
           ∃ x, ps !! Z.to_nat i = Some (i, x) ∧ List_Get l i = Ok x.
Proof.
  intros Hl%List_reachable_wf Hdepth.
  destruct Hl as (d & Hroot & Ho & Hs & Hb & Hpaths).
  pose proof (List_wf_depth l d Hroot Hdepth) as Hd.
  destruct (ListIterator_collect_all l d Hroot Ho Hs Hb Hpaths Hd)
    as (itr & ps & Hitr & Hrun & Hlen & Hps).
  exists itr, ps. split; [done|]. split; [|by split].
  intros fuel Hfuel.
  replace fuel with (S (Z.to_nat (List_Len l)) + (fuel - S (length ps)))%nat by lia.
  apply ListIterator_collect_more; [done|lia].
Qed.

(** After [Last], the loop [for !itr.Done() { itr.Prev() }] ends after
    [Len()] turns and has returned every index with its element, from
    the last index down to 0. *)
Theorem ListIterator_Last_visits_all_backwards l itr :
  List_reachable l → listNode_depth (list_root l) < 32 →
  ListIterator_reachable l itr →
  ∃ itr' ps,
    ListIterator_Last itr = Ok itr'
    ∧ (∀ fuel, (length ps < fuel)%nat → ListIterator_collect_back fuel itr' = Ok ps)
    ∧ Z.of_nat (length ps) = List_Len l
    ∧ ∀ i, 0 ≤ i < List_Len l →
           ∃ x, ps !! Z.to_nat (List_Len l - 1 - i) = Some (i, x) ∧ List_Get l i = Ok x.
Proof.
  intros Hl%List_reachable_wf Hdepth Hitr.
  destruct (ListIterator_reachable_ok l Hl Hdepth itr Hitr) as (Hsrc & Hlen & Hstate).
  destruct Hl as (d & Hroot & Ho & Hs & Hb & Hpaths).
  pose proof (List_wf_depth l d Hroot Hdepth) as Hd.
  unfold ListIterator_Last. rewrite Hsrc.
  destruct (Z.eqb_spec (List_Len l) 0) as [Hempty|Hne]; cbn [negb].
  - exists itr, []. split; [done|]. split; [|split; [by rewrite Hempty|intros; lia]].
    intros [|fuel] Hfuel; [cbn in Hfuel; lia|].
    cbn [ListIterator_collect_back]. destruct Hstate as [->|Hpos]; [done|].
    destruct Hpos as (? & _ & Hi & _). rewrite Hsrc in Hi. lia.
  - unfold List_Len in *.
    destruct (ListIterator_Seek_positioned l d Hroot Hpaths Hd itr (list_size l - 1))
      as (itr' & Hseek & Hl' & Hi' & Hlen' & Hpos'); [done|done|unfold List_Len; lia|].
    destruct (ListIterator_collect_back_from l d Hroot Ho Hb Hpaths Hd
                (Z.to_nat (list_size l)) itr' Hl' Hlen')
      as (ps & Hrun & Hlenps & Hps); [lia|unfold List_Len; lia|done|].
    exists itr', ps. split; [done|]. split; [|split; [lia|]].
    + intros fuel Hfuel.
      replace fuel with (S (Z.to_nat (list_size l)) + (fuel - S (length ps)))%nat by lia.
      apply ListIterator_collect_back_more; [done|lia].
    + intros i Hi.
      destruct (Hps (Z.to_nat (list_size l - 1 - i)) ltac:(lia)) as (x & Hx & Hget).
      rewrite Hi', Z2Nat.id in Hx, Hget by lia.
      replace (list_size l - 1 - (list_size l - 1 - i)) with i in Hx, Hget by lia.
      by exists x.
Qed.

(** [Seek(index)] on an index in range returns and puts the iterator on
    that index: the next [Next] returns [index] with the element
    [Get(index)] returns. On any other index it panics. *)
Theorem ListIterator_Seek_then_Next l itr (index : Z) :
  List_reachable l → listNode_depth (list_root l) < 32 →
  ListIterator_reachable l itr →
  (0 ≤ index < List_Len l →
   ∃ itr' x itr'', ListIterator_Seek itr index = Ok itr'
                   ∧ ListIterator_Done itr' = false
                   ∧ ListIterator_Next itr' = Ok ((index, x), itr'')
                   ∧ List_Get l index = Ok x)
  ∧ (¬ (0 ≤ index < List_Len l) →
     ListIterator_Seek itr index = Panic IndexOutOfBounds).
Proof.
  intros Hl%List_reachable_wf Hdepth Hitr.
  destruct (ListIterator_reachable_ok l Hl Hdepth itr Hitr) as (Hsrc & Hlen & _).
  destruct Hl as (d & Hroot & Ho & Hs & Hb & Hpaths).
  pose proof (List_wf_depth l d Hroot Hdepth) as Hd. split.
  - intros Hi.
    destruct (ListIterator_Seek_positioned l d Hroot Hpaths Hd itr index Hsrc Hlen Hi)
      as (itr' & Hseek & Hl' & Hi' & Hlen' & Hpos').
    destruct (ListIterator_Next_positioned l d Hroot Ho Hb Hpaths Hd itr' Hl' Hlen' Hpos')
      as (x & itr'' & Hget & Hnext & _).
    rewrite Hi' in Hget, Hnext. exists itr', x, itr''.
    split; [done|]. split; [by apply lpositioned_not_done|]. by split.
  - intros Hi. unfold ListIterator_Seek. rewrite Hsrc.
    destruct (Z.ltb_spec index 0); [done|].
    destruct (Z.geb_spec index (List_Len l)); [done|]. lia.
Qed.
End ListProperties.

(** * Sorted maps: reads, updates and traversals *)

Section SortedMapProperties.
Context {K V : Type}.
Context (defaultComparer : K → option (Comparer K)).
Implicit Types (c : Comparer K) (m : SortedMap K V) (key : K) (value : V).
Implicit Types (itr : SortedMapIterator K V).

(** A walk that ended before its fuel did is the walk of the loop. *)
Lemma SortedMapIterator_collect_more (fuel e : nat) itr ps :
  SortedMapIterator_collect fuel itr = Ok ps → (length ps < fuel)%nat →
  SortedMapIterator_collect (fuel + e) itr = Ok ps.
Proof.
  revert itr ps. induction fuel as [|fuel IH]; intros itr ps; [intros _; lia|].
  cbn [SortedMapIterator_collect Nat.add]. destruct (SortedMapIterator_Done itr); [done|].
  destruct (SortedMapIterator_Next itr) as [[[kv|] itr']|];
    cbn [mbind result_bind]; [|done..].
  destruct (SortedMapIterator_collect fuel itr') as [ps'|] eqn:Hrun;
    cbn [mbind result_bind]; [|done].
  intros [= <-] Hlen. cbn [length] in Hlen. rewrite (IH itr' ps' Hrun) by lia. done.
Qed.

Lemma SortedMapIterator_collect_back_more (fuel e : nat) itr ps :
  SortedMapIterator_collect_back fuel itr = Ok ps → (length ps < fuel)%nat →
  SortedMapIterator_collect_back (fuel + e) itr = Ok ps.
Proof.
  revert itr ps. induction fuel as [|fuel IH]; intros itr ps; [intros _; lia|].
  cbn [SortedMapIterator_collect_back Nat.add].
  destruct (SortedMapIterator_Done itr); [done|].
  destruct (SortedMapIterator_Prev itr) as [[[kv|] itr']|];
    cbn [mbind result_bind]; [|done..].
  destruct (SortedMapIterator_collect_back fuel itr') as [ps'|] eqn:Hrun;
    cbn [mbind result_bind]; [|done].
  intros [= <-] Hlen. cbn [length] in Hlen. rewrite (IH itr' ps' Hrun) by lia. done.
Qed.

(** [Set(key, value)] on a sorted map returns a map in which [Get(key)]
    yields [value] and every key that the comparer tells apart from
    [key] reads as before; the length grows by one exactly when [key]
    was absent. *)
Theorem SortedMap_Set_then_Get c m key value :
  Comparer_ok c → SortedMap_reachable defaultComparer c m →
  ∃ m', SortedMap_Set defaultComparer m key value = Ok m'
        ∧ SortedMap_Get m' key = Ok (Some value)
        ∧ (∀ k', Compare c key k' ≠ 0 → SortedMap_Get m' k' = SortedMap_Get m k')
        ∧ SortedMap_Len m'
          = match SortedMap_Get m key with
            | Ok (Some _) => SortedMap_Len m
            | _ => SortedMap_Len m + 1
            end.
Proof.
  intros Hc Hm. pose proof (SortedMap_reachable_wf defaultComparer c m Hc Hm) as Hwf.
  destruct (SortedMap_Set_spec defaultComparer c m key value Hc Hwf)
    as (m' & Hset & Hwf' & Hentries).
  pose proof Hwf as (_ & _ & Hs & Hsize). pose proof Hwf' as (_ & _ & _ & Hsize').
  exists m'. split; [done|].
  split; [|split].
  - rewrite (SortedMap_Get_spec c m' key Hc Hwf'), Hentries.
    by rewrite entries_hit_upsert_same.
  - intros k' Hk'.
    rewrite (SortedMap_Get_spec c m' k' Hc Hwf'), (SortedMap_Get_spec c m k' Hc Hwf).
    by rewrite Hentries, entries_hit_upsert_other.
  - rewrite (SortedMap_Get_spec c m key Hc Hwf). unfold SortedMap_Len, len in *.
    rewrite Hsize', Hsize, Hentries, length_entries_upsert.
    destruct (entries_hit c key (SortedMap_entries m)); cbn [fmap option_fmap option_map]; lia.
Qed.

(** [Delete(key)] of a key that is present returns a new map in which
    [Get(key)] finds nothing, every key that the comparer tells apart
    from [key] reads as before, and the length is one less. *)
Theorem SortedMap_Delete_then_Get c m key value :
  Comparer_ok c → SortedMap_reachable defaultComparer c m →
  SortedMap_Get m key = Ok (Some value) →
  ∃ m', SortedMap_Delete m key = Ok (Fresh m')
        ∧ SortedMap_Get m' key = Ok None
        ∧ (∀ k', Compare c key k' ≠ 0 → SortedMap_Get m' k' = SortedMap_Get m k')
        ∧ SortedMap_Len m' = SortedMap_Len m - 1.
Proof.
  intros Hc Hm Hget. pose proof (SortedMap_reachable_wf defaultComparer c m Hc Hm) as Hwf.
  rewrite (SortedMap_Get_spec c m key Hc Hwf) in Hget.
  pose proof (SortedMap_Delete_spec c m key Hc Hwf) as Hdel.
  destruct (entries_hit c key (SortedMap_entries m)) as [e|] eqn:Hhit; [|done].
  destruct Hdel as (m' & Hdel & Hwf' & Hentries).
  pose proof Hwf as (_ & _ & Hs & Hsize). pose proof Hwf' as (_ & _ & _ & Hsize').
  exists m'. split; [done|]. split; [|split].
  - rewrite (SortedMap_Get_spec c m' key Hc Hwf'), Hentries.
    by rewrite (entries_hit_remove_same c key _ e).
  - intros k' Hk'.
    rewrite (SortedMap_Get_spec c m' k' Hc Hwf'), (SortedMap_Get_spec c m k' Hc Hwf).
    by rewrite Hentries, (entries_hit_remove_other c key _ e).
  - unfold SortedMap_Len, len in *.
    rewrite Hsize', Hsize, Hentries, (length_entries_remove c key _ e Hhit).
    apply entries_hit_Some in Hhit as [Hlt%lookup_lt_Some _]. lia.
Qed.

(** The loop [for !itr.Done() { itr.Next() }] on a new iterator ends
    after [Len()] turns; the pairs it has returned are in strictly
    ascending key order, each of them is a pair that [Get] finds, and
    every key that [Get] finds is among them. *)
Theorem SortedMap_Iterator_ascending c m :
  Comparer_ok c → SortedMap_reachable defaultComparer c m →
  (SortedMap_height m < 32)%nat →
  ∃ itr ps,
    SortedMap_Iterator m = Ok itr
    ∧ (∀ fuel, (length ps < fuel)%nat → SortedMapIterator_collect fuel itr = Ok ps)
    ∧ Z.of_nat (length ps) = SortedMap_Len m
    ∧ (∀ (i j : nat) p q, ps !! i = Some p → ps !! j = Some q → (i < j)%nat →
                          Compare c p.1 q.1 = -1)
    ∧ (∀ k v, (k, v) ∈ ps → SortedMap_Get m k = Ok (Some v))
    ∧ (∀ k v, SortedMap_Get m k = Ok (Some v) →
              ∃ k', (k', v) ∈ ps ∧ Compare c k' k = 0).
Proof.
  intros Hc Hm Hheight.
  pose proof (SortedMap_reachable_wf defaultComparer c m Hc Hm) as Hwf.
  destruct (SortedMapIterator_collect_entries c m Hc Hwf Hheight)
    as (itr & _ & Hitr & Hrun & _).
  pose proof Hwf as (_ & _ & Hs & Hsize).
  exists itr, (entry_pair <$> SortedMap_entries m). split; [done|].
  split; [|split; [|split; [|split]]].
  - intros fuel Hfuel. rewrite length_fmap in Hfuel.
    replace fuel with (S (length (SortedMap_entries m))
                       + (fuel - S (length (SortedMap_entries m))))%nat by lia.
    apply SortedMapIterator_collect_more; [done|rewrite length_fmap; lia].
  - rewrite length_fmap. unfold SortedMap_Len. by rewrite Hsize.
  - intros i j p q Hp Hq Hij. rewrite list_lookup_fmap in Hp, Hq.
    destruct (SortedMap_entries m !! i) as [a|] eqn:Ha; [|done].
    destruct (SortedMap_entries m !! j) as [b|] eqn:Hb; [|done].
    injection Hp as <-. injection Hq as <-. by apply (Hs i j).
  - intros k v (e & [= -> ->] & He)%list_elem_of_fmap.
    rewrite (SortedMap_Get_spec c m _ Hc Hwf).
    assert (entries_hit c (entry_key e) (SortedMap_entries m) = Some e) as ->; [|done].
    apply entries_hit_iff; [done..|]. split; [done|]. by apply compare_refl.
  - intros k v. rewrite (SortedMap_Get_spec c m _ Hc Hwf).
    destruct (entries_hit c k (SortedMap_entries m)) as [e|] eqn:Hhit; [|done].
    intros [= <-]. apply entries_hit_iff in Hhit as [He Hk]; [|done..].
    exists (entry_key e). split; [|done].
    apply list_elem_of_fmap. by exists e.
Qed.

(** After [Last], the loop [for !itr.Done() { itr.Prev() }] returns the
    pairs of the forward walk in the opposite order. *)
Theorem SortedMapIterator_Last_descending c m :
  Comparer_ok c → SortedMap_reachable defaultComparer c m →
  (SortedMap_height m < 32)%nat →
  ∃ itr itr_last ps,
    SortedMap_Iterator m = Ok itr
    ∧ SortedMapIterator_Last itr = Ok itr_last
    ∧ (∀ fuel, (length ps < fuel)%nat → SortedMapIterator_collect fuel itr = Ok ps)
    ∧ (∀ fuel, (length ps < fuel)%nat →
               SortedMapIterator_collect_back fuel itr_last = Ok (reverse ps)).
Proof.
  intros Hc Hm Hheight.
  pose proof (SortedMap_reachable_wf defaultComparer c m Hc Hm) as Hwf.
  destruct (SortedMapIterator_collect_entries c m Hc Hwf Hheight)
    as (itr & itr_last & Hitr & Hrun & Hlast & Hback).
  exists itr, itr_last, (entry_pair <$> SortedMap_entries m).
  split; [done|]. split; [done|]. rewrite length_fmap. split.
  - intros fuel Hfuel.
    replace fuel with (S (length (SortedMap_entries m))
                       + (fuel - S (length (SortedMap_entries m))))%nat by lia.
    apply SortedMapIterator_collect_more; [done|rewrite length_fmap; lia].
  - intros fuel Hfuel. rewrite <-fmap_reverse.
    replace fuel with (S (length (SortedMap_entries m))
                       + (fuel - S (length (SortedMap_entries m))))%nat by lia.
    apply SortedMapIterator_collect_back_more;
      [done|rewrite length_fmap, length_reverse; lia].
Qed.
End SortedMapProperties.

(** * The built-in hashers and comparers, as the maps use them *)

(** [hashUint64] on a [uint64] returns a [uint32]; its loop ends within
    the turns the model grants it, and it leaves a value that fits 32 bits
    as it is. *)
Theorem hashUint64_spec (value : Z) :
  0 ≤ value < 2 ^ 64 →
  0 ≤ hashUint64 value < 2 ^ 32
  ∧ (∀ k : nat, hashUint64_loop (64 + k) value value = hashUint64_loop 64 value value)
  ∧ (value ≤ 0xffffffff → hashUint64 value = value).
Proof.
  intros Hv. split; [apply hashUint64_range|]. split.
  - intros k. by apply hashUint64_loop_fuel.
  - intros Hsmall. apply hashUint64_small. lia.
Qed.

(** [intHasher] is a lawful hasher: its hashes fit 32 bits, [Equal] is an
    equivalence, and equal keys have equal hashes. Two keys in
    [[0, 2^32)] with the same hash are the same key. *)
Theorem intHasher_lawful :
  Hasher_ok intHasher
  ∧ ∀ a b, 0 ≤ a < 2 ^ 32 → 0 ≤ b < 2 ^ 32 →
           Hash intHasher a = Hash intHasher b → a = b.
Proof.
  split; [exact intHasher_ok|]. intros a b Ha Hb. cbn [Hash intHasher].
  rewrite !Z.mod_small by lia.
  rewrite !hashUint64_small by (change 0xffffffff with (2 ^ 32 - 1); lia). done.
Qed.

(** [stringHasher] and [byteSliceHasher] are lawful hashers. *)
Theorem stringHasher_byteSliceHasher_lawful :
  Hasher_ok stringHasher ∧ Hasher_ok byteSliceHasher.
Proof. split; [exact stringHasher_ok|exact byteSliceHasher_ok]. Qed.

(** [intComparer] orders the integers: it is a lawful comparer, and it
    answers 0 for equal integers only. *)
Theorem intComparer_lawful :
  Comparer_ok intComparer ∧ ∀ i j, Compare intComparer i j = 0 ↔ i = j.
Proof. split; [exact intComparer_ok|exact intComparer_eq]. Qed.

Section IntKeys.
Context {V : Type}.

(** Maps of [int] keys need no hasher and no comparer: the first [Set]
    on [NewMap(nil)] or [NewSortedMap(nil)] returns a map that a client
    can build with [intHasher] or [intComparer], and reads back the
    value. *)
Theorem int_keys_need_no_hasher (key : Z) (value : V) :
  (∃ m', Map_Set intDefaultHasher (NewMap None) key value = Ok m'
         ∧ Map_reachable intHasher intDefaultHasher m'
         ∧ Map_Get m' key = Ok (Some value))
  ∧ (∃ m', SortedMap_Set intDefaultComparer (NewSortedMap None) key value = Ok m'
           ∧ SortedMap_reachable intDefaultComparer intComparer m'
           ∧ SortedMap_Get m' key = Ok (Some value)).
Proof.
  split.
  - destruct (Map_Set_wf intHasher intHasher_ok intDefaultHasher
                (NewMap (Some intHasher)) key value) as (m' & Hset & _ & Hget); [done|].
    exists m'. split; [exact Hset|]. split; [|done].
    by apply (Map_reachable_set _ _ (NewMap (Some intHasher)) key value);
      [constructor|].
  - destruct (SortedMap_Set_spec intDefaultComparer intComparer
                (NewSortedMap (Some intComparer)) key value intComparer_ok)
      as (m' & Hset & Hwf & Hentries); [apply NewSortedMap_wf|].
    exists m'. split; [exact Hset|]. split.
    + by apply (SortedMap_reachable_set _ _ (NewSortedMap (Some intComparer)) key value);
        [constructor|].
    + rewrite (SortedMap_Get_spec intComparer m' key intComparer_ok Hwf), Hentries.
      rewrite entries_hit_upsert_same; [done|exact intComparer_ok|].
      apply entries_sorted_nil.
Qed.
End IntKeys.

(** * The properties above at concrete lists and maps *)

Lemma exList_Len_40 : List_Len (exList 40) = 40.
Proof. vm_compute. reflexivity. Qed.

Lemma List_Get_bounds_witness :
  List_reachable (exList 40)
  ∧ (0 ≤ 7 < List_Len (exList 40) → ∃ x, List_Get (exList 40) 7 = Ok x)
  ∧ (¬ (0 ≤ 7 < List_Len (exList 40)) → List_Get (exList 40) 7 = Panic IndexOutOfBounds).
Proof.
  split; [exact (exList_reachable 40)|].
  exact (List_Get_bounds (exList 40) 7 (exList_reachable 40)).
Defined.

Lemma List_Set_then_Get_witness :
  List_reachable (exList 40) ∧ 0 ≤ 7 < List_Len (exList 40)
  ∧ ∃ l', List_Set (exList 40) 7 (Some 1) = Ok l'
          ∧ List_Len l' = List_Len (exList 40)
          ∧ List_Get l' 7 = Ok (Some 1)
          ∧ ∀ j, j ≠ 7 → List_Get l' j = List_Get (exList 40) j.
Proof.
  assert (0 ≤ 7 < List_Len (exList 40)) as Hi by (rewrite exList_Len_40; lia).
  split; [exact (exList_reachable 40)|]. split; [exact Hi|].
  exact (List_Set_then_Get (exList 40) 7 (Some 1) (exList_reachable 40) Hi).
Defined.

Lemma List_Append_then_Get_witness :
  List_reachable (exList 40)
  ∧ List_Len (List_Append (exList 40) (Some 1)) = List_Len (exList 40) + 1
  ∧ List_Get (List_Append (exList 40) (Some 1)) (List_Len (exList 40)) = Ok (Some 1)
  ∧ ∀ i, 0 ≤ i < List_Len (exList 40) →
         List_Get (List_Append (exList 40) (Some 1)) i = List_Get (exList 40) i.
Proof.
  split; [exact (exList_reachable 40)|].
  exact (List_Append_then_Get (exList 40) (Some 1) (exList_reachable 40)).
Defined.

Lemma List_Prepend_then_Get_witness :
  List_reachable (exList 40)
  ∧ List_Len (List_Prepend (exList 40) (Some 1)) = List_Len (exList 40) + 1
  ∧ List_Get (List_Prepend (exList 40) (Some 1)) 0 = Ok (Some 1)
  ∧ ∀ i, 0 ≤ i < List_Len (exList 40) →
         List_Get (List_Prepend (exList 40) (Some 1)) (i + 1) = List_Get (exList 40) i.
Proof.
  split; [exact (exList_reachable 40)|].
  exact (List_Prepend_then_Get (exList 40) (Some 1) (exList_reachable 40)).
Defined.

Lemma List_Iterator_visits_all_witness :
  List_reachable (exList 40) ∧ listNode_depth (list_root (exList 40)) < 32
  ∧ ∃ itr ps,
      List_Iterator (exList 40) = Ok itr
      ∧ (∀ fuel, (length ps < fuel)%nat → ListIterator_collect fuel itr = Ok ps)
      ∧ Z.of_nat (length ps) = List_Len (exList 40)
      ∧ ∀ i, 0 ≤ i < List_Len (exList 40) →
             ∃ x, ps !! Z.to_nat i = Some (i, x) ∧ List_Get (exList 40) i = Ok x.
Proof.
  split; [exact (exList_reachable 40)|]. split; [exact exList_depth|].
  exact (List_Iterator_visits_all (exList 40) (exList_reachable 40) exList_depth).
Defined.

Lemma ListIterator_Last_visits_all_backwards_witness :
  List_reachable (exList 40) ∧ listNode_depth (list_root (exList 40)) < 32
  ∧ ListIterator_reachable (exList 40) exListIterator
  ∧ ∃ itr' ps,
      ListIterator_Last exListIterator = Ok itr'
      ∧ (∀ fuel, (length ps < fuel)%nat → ListIterator_collect_back fuel itr' = Ok ps)
      ∧ Z.of_nat (length ps) = List_Len (exList 40)
      ∧ ∀ i, 0 ≤ i < List_Len (exList 40) →
             ∃ x, ps !! Z.to_nat (List_Len (exList 40) - 1 - i) = Some (i, x)
                  ∧ List_Get (exList 40) i = Ok x.
Proof.
  split; [exact (exList_reachable 40)|]. split; [exact exList_depth|].
  split; [exact exListIterator_reachable|].
  exact (ListIterator_Last_visits_all_backwards (exList 40) exListIterator
           (exList_reachable 40) exList_depth exListIterator_reachable).
Defined.

Lemma ListIterator_Seek_then_Next_witness :
  List_reachable (exList 40) ∧ listNode_depth (list_root (exList 40)) < 32
  ∧ ListIterator_reachable (exList 40) exListIterator
  ∧ (0 ≤ 33 < List_Len (exList 40) →
     ∃ itr' x itr'', ListIterator_Seek exListIterator 33 = Ok itr'
                     ∧ ListIterator_Done itr' = false
                     ∧ ListIterator_Next itr' = Ok ((33, x), itr'')
                     ∧ List_Get (exList 40) 33 = Ok x)
  ∧ (¬ (0 ≤ 33 < List_Len (exList 40)) →
     ListIterator_Seek exListIterator 33 = Panic IndexOutOfBounds).
Proof.
  split; [exact (exList_reachable 40)|]. split; [exact exList_depth|].
  split; [exact exListIterator_reachable|].
  exact (ListIterator_Seek_then_Next (exList 40) exListIterator 33
           (exList_reachable 40) exList_depth exListIterator_reachable).
Defined.

Lemma exSortedMap_Get_64 : SortedMap_Get (exSortedMap 100) 64 = Ok (Some 132).
Proof. vm_compute. reflexivity. Qed.

Lemma SortedMap_Set_then_Get_witness :
  Comparer_ok exComparer
  ∧ SortedMap_reachable exNoDefaultComparer exComparer (exSortedMap 100)
  ∧ ∃ m', SortedMap_Set exNoDefaultComparer (exSortedMap 100) 65 1 = Ok m'
          ∧ SortedMap_Get m' 65 = Ok (Some 1)
          ∧ (∀ k', Compare exComparer 65 k' ≠ 0 →
                   SortedMap_Get m' k' = SortedMap_Get (exSortedMap 100) k')
          ∧ SortedMap_Len m'
            = match SortedMap_Get (exSortedMap 100) 65 with
              | Ok (Some _) => SortedMap_Len (exSortedMap 100)
              | _ => SortedMap_Len (exSortedMap 100) + 1
              end.
Proof.
  split; [exact exComparer_ok|]. split; [exact (exSortedMap_reachable 100)|].
  exact (SortedMap_Set_then_Get exNoDefaultComparer exComparer (exSortedMap 100) 65 1
           exComparer_ok (exSortedMap_reachable 100)).
Defined.

Lemma SortedMap_Delete_then_Get_witness :
  Comparer_ok exComparer
  ∧ SortedMap_reachable exNoDefaultComparer exComparer (exSortedMap 100)
  ∧ SortedMap_Get (exSortedMap 100) 64 = Ok (Some 132)
  ∧ ∃ m', SortedMap_Delete (exSortedMap 100) 64 = Ok (Fresh m')
          ∧ SortedMap_Get m' 64 = Ok None
          ∧ (∀ k', Compare exComparer 64 k' ≠ 0 →
                   SortedMap_Get m' k' = SortedMap_Get (exSortedMap 100) k')
          ∧ SortedMap_Len m' = SortedMap_Len (exSortedMap 100) - 1.
Proof.
  split; [exact exComparer_ok|]. split; [exact (exSortedMap_reachable 100)|].
  split; [exact exSortedMap_Get_64|].
  exact (SortedMap_Delete_then_Get exNoDefaultComparer exComparer (exSortedMap 100) 64 132
           exComparer_ok (exSortedMap_reachable 100) exSortedMap_Get_64).
Defined.

Lemma SortedMap_Iterator_ascending_witness :
  Comparer_ok exComparer
  ∧ SortedMap_reachable exNoDefaultComparer exComparer (exSortedMap 100)
  ∧ (SortedMap_height (exSortedMap 100) < 32)%nat
  ∧ ∃ itr ps,
      SortedMap_Iterator (exSortedMap 100) = Ok itr
      ∧ (∀ fuel, (length ps < fuel)%nat → SortedMapIterator_collect fuel itr = Ok ps)
      ∧ Z.of_nat (length ps) = SortedMap_Len (exSortedMap 100)
      ∧ (∀ (i j : nat) p q, ps !! i = Some p → ps !! j = Some q → (i < j)%nat →
                            Compare exComparer p.1 q.1 = -1)
      ∧ (∀ k v, (k, v) ∈ ps → SortedMap_Get (exSortedMap 100) k = Ok (Some v))
      ∧ (∀ k v, SortedMap_Get (exSortedMap 100) k = Ok (Some v) →
                ∃ k', (k', v) ∈ ps ∧ Compare exComparer k' k = 0).
Proof.
  split; [exact exComparer_ok|]. split; [exact (exSortedMap_reachable 100)|].
  split; [exact exSortedMap_height|].
  exact (SortedMap_Iterator_ascending exNoDefaultComparer exComparer (exSortedMap 100)
           exComparer_ok (exSortedMap_reachable 100) exSortedMap_height).
Defined.

Lemma SortedMapIterator_Last_descending_witness :
  Comparer_ok exComparer
  ∧ SortedMap_reachable exNoDefaultComparer exComparer (exSortedMap 100)
  ∧ (SortedMap_height (exSortedMap 100) < 32)%nat
  ∧ ∃ itr itr_last ps,
      SortedMap_Iterator (exSortedMap 100) = Ok itr
      ∧ SortedMapIterator_Last itr = Ok itr_last
      ∧ (∀ fuel, (length ps < fuel)%nat → SortedMapIterator_collect fuel itr = Ok ps)
      ∧ (∀ fuel, (length ps < fuel)%nat →
                 SortedMapIterator_collect_back fuel itr_last = Ok (reverse ps)).
Proof.
  split; [exact exComparer_ok|]. split; [exact (exSortedMap_reachable 100)|].
  split; [exact exSortedMap_height|].
  exact (SortedMapIterator_Last_descending exNoDefaultComparer exComparer (exSortedMap 100)
           exComparer_ok (exSortedMap_reachable 100) exSortedMap_height).
Defined.

Lemma hashUint64_spec_witness :
  0 ≤ 7 < 2 ^ 64
  ∧ 0 ≤ hashUint64 7 < 2 ^ 32
  ∧ (∀ k : nat, hashUint64_loop (64 + k) 7 7 = hashUint64_loop 64 7 7)
  ∧ (7 ≤ 0xffffffff → hashUint64 7 = 7).
Proof.
  assert (0 ≤ 7 < 2 ^ 64) as H by lia.
  split; [exact H|]. exact (hashUint64_spec 7 H).
Defined.

(** * Map: the key/value pairs of a trie *)

Section MapEntries.
Context {K V : Type}.
Implicit Types (n child : mapNode K V) (nodes : list (mapNode K V)).
Implicit Types (slots : list (option (mapNode K V))).
Implicit Types (entries l : list (mapEntry K V)).

(** The pairs below a node, in the order the iterator visits them. *)
Fixpoint mapNode_entries n : list (mapEntry K V) :=
  match n with
  | mapArrayNode entries => entries
  | mapBitmapIndexedNode _ nodes =>
      (fix go nodes :=
         match nodes with
         | [] => []
         | child :: rest => mapNode_entries child ++ go rest
         end) nodes
  | mapHashArrayNode _ slots =>
      (fix go slots :=
         match slots with
         | [] => []
         | Some child :: rest => mapNode_entries child ++ go rest
         | None :: rest => go rest
         end) slots
  | mapValueNode _ key value => [mkEntry key value]
  | mapHashCollisionNode _ entries => entries
  end.

(** The pairs below a slot that may be empty. *)
Definition slot_entries (o : option (mapNode K V)) : list (mapEntry K V) :=
  from_option mapNode_entries [] o.

Lemma mapNode_entries_bitmap bm nodes :
  mapNode_entries (mapBitmapIndexedNode bm nodes) = nodes ≫= mapNode_entries.
Proof.
  cbn [mapNode_entries]. induction nodes as [|c nodes IH]; [done|].
  by rewrite bind_cons, <-IH.
Qed.

Lemma mapNode_entries_hasharray count slots :
  mapNode_entries (mapHashArrayNode count slots) = slots ≫= slot_entries.
Proof.
  cbn [mapNode_entries]. induction slots as [|[c|] slots IH]; [done| |].
  - by rewrite bind_cons, <-IH.
  - by rewrite bind_cons, <-IH.
Qed.

(** The pairs below a branch whose child for fragment [i] is [ch i]. *)
Definition children_entries (ch : nat → option (mapNode K V)) : list (mapEntry K V) :=
  seq 0 32 ≫= (λ i, slot_entries (ch i)).

Lemma bitmap_entries bm nodes :
  length nodes = ones_below bm 32 →
  nodes ≫= mapNode_entries = children_entries (bitmap_child bm nodes).
Proof.
  intros Hlen.
  assert (Hgen : ∀ n : nat, (n ≤ 32)%nat →
    take (ones_below bm n) nodes ≫= mapNode_entries
    = seq 0 n ≫= (λ i, slot_entries (bitmap_child bm nodes i))).
  { intros n. induction n as [|n IH]; intros Hn; [done|].
    rewrite seq_S, bind_app, <-IH by lia. cbn [ones_below Nat.add].
    rewrite bind_singleton. unfold bitmap_child.
    destruct (Z.testbit bm (Z.of_nat n)) eqn:Hbit.
    - pose proof (ones_below_lt bm n 32 ltac:(lia) Hbit) as Hlt.
      destruct (lookup_lt_is_Some_2 nodes (ones_below bm n)) as [c Hc]; [lia|].
      rewrite Hc. replace (ones_below bm n + 1)%nat with (S (ones_below bm n)) by lia.
      rewrite (take_S_r _ _ c Hc), bind_app, bind_singleton. done.
    - rewrite Nat.add_0_r, app_nil_r. done. }
  specialize (Hgen 32%nat ltac:(lia)). rewrite <-Hlen, take_ge in Hgen by lia. done.
Qed.

Lemma hasharray_entries slots :
  length slots = 32%nat →
  slots ≫= slot_entries = children_entries (λ i, mjoin (slots !! i)).
Proof.
  intros Hlen.
  assert (Hgen : ∀ n : nat, (n ≤ 32)%nat →
    take n slots ≫= slot_entries
    = seq 0 n ≫= (λ i, slot_entries (mjoin (slots !! i)))).
  { intros n. induction n as [|n IH]; intros Hn; [done|].
    rewrite seq_S, bind_app, <-IH by lia.
    destruct (lookup_lt_is_Some_2 slots n) as [c Hc]; [lia|].
    rewrite (take_S_r _ _ c Hc), bind_app, !bind_singleton. cbn [Nat.add].
    rewrite Hc. done. }
  specialize (Hgen 32%nat ltac:(lia)). rewrite take_ge in Hgen by lia. done.
Qed.

(** The pairs of a branch, split around the child for fragment [f]. *)
Lemma children_entries_split ch (f : nat) :
  (f < 32)%nat →
  children_entries ch
  = (seq 0 f ≫= (λ i, slot_entries (ch i)))
    ++ slot_entries (ch f)
    ++ (seq (S f) (31 - f) ≫= (λ i, slot_entries (ch i))).
Proof.
  intros Hf. unfold children_entries.
  replace 32%nat with (f + S (31 - f))%nat at 1 by lia.
  rewrite seq_app, bind_app. cbn [seq Nat.add]. by rewrite bind_cons.
Qed.

Lemma children_entries_ext ch ch' (f : nat) :
  (∀ i, i ≠ f → ch' i = ch i) →
  (seq 0 f ≫= (λ i, slot_entries (ch' i))) = (seq 0 f ≫= (λ i, slot_entries (ch i)))
  ∧ (seq (S f) (31 - f) ≫= (λ i, slot_entries (ch' i)))
    = (seq (S f) (31 - f) ≫= (λ i, slot_entries (ch i))).
Proof.
  intros Hext. split; apply Forall_bind_ext, list.Forall_forall; intros i Hi%elem_of_seq;
    rewrite Hext by lia; done.
Qed.
End MapEntries.

(** * Map: lists of pairs with distinct keys *)

Section Distinct.
Context {K V : Type} (h : Hasher K) (Hok : Hasher_ok h).
Implicit Types (l entries : list (mapEntry K V)) (e : mapEntry K V) (key : K).

(** [e] is a pair for another key than [key]. *)
Definition other_key key e : Prop := Equal h (entry_key e) key = false.

#[global] Instance other_key_dec key e : Decision (other_key key e).
Proof. unfold other_key. apply _. Defined.

(** No two pairs of the list have equal keys. *)
Fixpoint entries_distinct l : Prop :=
  match l with
  | [] => True
  | e :: l' =>
      (∀ e', e' ∈ l' → Equal h (entry_key e) (entry_key e') = false)
      ∧ entries_distinct l'
  end.

Lemma equal_false_sym a b : Equal h a b = false → Equal h b a = false.
Proof.
  intros Hab. destruct (Equal h b a) eqn:Hba; [|done].
  by rewrite (equal_sym h Hok _ _ Hba) in Hab.
Qed.

Lemma equal_true_false a b d :
  Equal h a b = true → Equal h a d = false → Equal h b d = false.
Proof.
  intros Hab Had. destruct (Equal h b d) eqn:Hbd; [|done].
  by rewrite (equal_trans h Hok _ _ _ Hab Hbd) in Had.
Qed.

Lemma entries_find_cons e l key :
  entries_find h (e :: l) key
  = if Equal h (entry_key e) key then Some (entry_value e) else entries_find h l key.
Proof.
  unfold entries_find. cbn [entries_pos].
  destruct (Equal h (entry_key e) key); [done|].
  by destruct (entries_pos h l key).
Qed.

Lemma entries_find_nil key : entries_find h ([] : list (mapEntry K V)) key = None.
Proof. done. Qed.

Lemma entries_find_skip l1 l2 key :
  (∀ e, e ∈ l1 → Equal h (entry_key e) key = false) →
  entries_find h (l1 ++ l2) key = entries_find h l2 key.
Proof.
  induction l1 as [|e l1 IH]; intros Hne; [done|].
  rewrite <-app_comm_cons, entries_find_cons, Hne by (by apply elem_of_cons; left).
  apply IH. intros e' He'. apply Hne. by apply elem_of_cons; right.
Qed.

Lemma entries_find_stop l1 l2 key :
  (∀ e, e ∈ l2 → Equal h (entry_key e) key = false) →
  entries_find h (l1 ++ l2) key = entries_find h l1 key.
Proof.
  intros Hne. induction l1 as [|e l1 IH].
  - rewrite app_nil_l. induction l2 as [|e l2 IH]; [done|].
    rewrite entries_find_cons, Hne by (by apply elem_of_cons; left).
    apply IH. intros e' He'. apply Hne. by apply elem_of_cons; right.
  - rewrite <-app_comm_cons, !entries_find_cons, IH. done.
Qed.

Lemma entries_find_none l key :
  (∀ e, e ∈ l → Equal h (entry_key e) key = false) → entries_find h l key = None.
Proof.
  intros Hne. rewrite <-(app_nil_r l), entries_find_skip by done. done.
Qed.

Lemma entries_find_elem l key v :
  entries_find h l key = Some v →
  ∃ e, e ∈ l ∧ Equal h (entry_key e) key = true ∧ entry_value e = v.
Proof.
  induction l as [|e l IH]; [done|]. rewrite entries_find_cons.
  destruct (Equal h (entry_key e) key) eqn:Heq.
  - intros [= <-]. exists e. split; [by apply elem_of_cons; left|done].
  - intros (e' & He' & Hk)%IH. exists e'. split; [by apply elem_of_cons; right|done].
Qed.

Lemma entries_distinct_find l e key :
  entries_distinct l → e ∈ l → Equal h (entry_key e) key = true →
  entries_find h l key = Some (entry_value e).
Proof.
  induction l as [|e0 l IH]; intros Hd He Heq; [by apply elem_of_nil in He|].
  destruct Hd as [Hhead Hd]. rewrite entries_find_cons.
  apply elem_of_cons in He as [->|He]; [by rewrite Heq|].
  rewrite (equal_false_sym _ _
             (equal_true_false (entry_key e) key (entry_key e0) Heq
                (equal_false_sym _ _ (Hhead e He)))).
  by apply IH.
Qed.

(** On lists with distinct keys a lookup depends on the pairs only, not
    on their order. *)
Lemma entries_find_perm l l' key :
  entries_distinct l → entries_distinct l' → l ≡ₚ l' →
  entries_find h l key = entries_find h l' key.
Proof.
  intros Hd Hd' Hperm.
  destruct (entries_find h l key) as [v|] eqn:Hl.
  - apply entries_find_elem in Hl as (e & He & Heq & <-).
    symmetry. apply entries_distinct_find; [done| |done]. by rewrite <-Hperm.
  - destruct (entries_find h l' key) as [v'|] eqn:Hl'; [|done].
    apply entries_find_elem in Hl' as (e & He & Heq & <-).
    rewrite (entries_distinct_find l e key) in Hl; [done..| |done].
    by rewrite Hperm.
Qed.

Lemma entries_distinct_app l1 l2 :
  entries_distinct (l1 ++ l2)
  ↔ entries_distinct l1 ∧ entries_distinct l2
    ∧ ∀ e1 e2, e1 ∈ l1 → e2 ∈ l2 → Equal h (entry_key e1) (entry_key e2) = false.
Proof.
  induction l1 as [|e l1 IH].
  - rewrite app_nil_l. split; [intros Hd|by intros (_ & Hd & _)].
    split; [done|]. split; [done|]. by intros e1 e2 ?%elem_of_nil.
  - rewrite <-app_comm_cons. cbn [entries_distinct]. rewrite IH. split.
    + intros (Hhead & Hd1 & Hd2 & Hcross). split; [split; [|done]|split; [done|]].
      * intros e' He'. apply Hhead, elem_of_app. by left.
      * intros e1 e2 [->|He1]%elem_of_cons He2.
        -- apply Hhead, elem_of_app. by right.
        -- by apply Hcross.
    + intros ((Hhead & Hd1) & Hd2 & Hcross). split; [|split; [done|split; [done|]]].
      * intros e' [He'|He']%elem_of_app; [by apply Hhead|].
        apply Hcross; [by apply elem_of_cons; left|done].
      * intros e1 e2 He1 He2. apply Hcross; [by apply elem_of_cons; right|done].
Qed.

Lemma entries_distinct_perm l l' :
  l ≡ₚ l' → entries_distinct l → entries_distinct l'.
Proof.
  induction 1 as [|e l l' Hperm IH|e1 e2 l|l l' l'' _ IH1 _ IH2]; [done| | |by auto].
  - intros [Hhead Hd]. split; [|by apply IH].
    intros e' He'. apply Hhead. by rewrite Hperm.
  - intros (Hh2 & Hh1 & Hd). split; [|split; [|done]].
    + intros e' [->|He']%elem_of_cons.
      * apply equal_false_sym, Hh2. by apply elem_of_cons; left.
      * by apply Hh1.
    + intros e' He'. apply Hh2. by apply elem_of_cons; right.
Qed.

Lemma entries_distinct_filter (P : mapEntry K V → Prop) `{!∀ e, Decision (P e)} l :
  entries_distinct l → entries_distinct (filter P l).
Proof.
  induction l as [|e l IH]; [done|]. intros [Hhead Hd].
  rewrite filter_cons. destruct (decide (P e)); [|by apply IH].
  split; [|by apply IH].
  intros e' [_ He']%list_elem_of_filter. by apply Hhead.
Qed.

Lemma filter_other_all l key :
  (∀ e, e ∈ l → Equal h (entry_key e) key = false) → filter (other_key key) l = l.
Proof.
  induction l as [|e l IH]; intros Hne; [done|].
  rewrite filter_cons_True by (apply Hne; by apply elem_of_cons; left).
  f_equal. apply IH. intros e' He'. apply Hne. by apply elem_of_cons; right.
Qed.

(** The list after an upsert of [key]: the pairs for other keys, with
    the new pair in front. *)
Lemma entries_distinct_upsert l key v :
  entries_distinct l →
  entries_distinct (mkEntry key v :: filter (other_key key) l).
Proof.
  intros Hd. split; [|by apply entries_distinct_filter].
  intros e' [He' _]%list_elem_of_filter. by apply equal_false_sym.
Qed.

Lemma entries_find_filter_other l key key' :
  Equal h key key' = false →
  entries_find h (filter (other_key key) l) key' = entries_find h l key'.
Proof.
  intros Hne. induction l as [|e l IH]; [done|].
  rewrite filter_cons, (entries_find_cons e l). destruct (decide (other_key key e)) as [Hk|Hk].
  - by rewrite entries_find_cons, IH.
  - rewrite IH. unfold other_key in Hk. apply not_false_iff_true in Hk.
    by rewrite (equal_true_false key (entry_key e) key' (equal_sym h Hok _ _ Hk) Hne).
Qed.

Lemma entries_find_filter_same l key :
  entries_find h (filter (other_key key) l) key = None.
Proof.
  apply entries_find_none. by intros e [He _]%list_elem_of_filter.
Qed.

(** At most one pair of a list with distinct keys is a pair for [key]. *)
Lemma length_filter_other l key :
  entries_distinct l →
  length l
  = (length (filter (other_key key) l)
     + match entries_find h l key with Some _ => 1 | None => 0 end)%nat.
Proof.
  induction l as [|e l IH]; intros Hd; [done|]. destruct Hd as [Hhead Hd].
  rewrite filter_cons, entries_find_cons.
  destruct (decide (other_key key e)) as [Hk|Hk].
  - unfold other_key in Hk. rewrite Hk. cbn [length]. rewrite (IH Hd). lia.
  - unfold other_key in Hk. apply not_false_iff_true in Hk. rewrite Hk.
    rewrite filter_other_all; [cbn [length]; lia|].
    intros e' He'. apply equal_false_sym. apply (equal_true_false _ _ _ Hk).
    by apply Hhead.
Qed.
End Distinct.

(** * Map: what [get] and [set] do to the pairs of a trie *)

Section TrieEntries.
Context {K V : Type} (h : Hasher K) (Hok : Hasher_ok h).
Implicit Types (n child node : mapNode K V) (key : K) (value : V).
Implicit Types (nodes : list (mapNode K V)) (entries : list (mapEntry K V)).
Implicit Types (slots : list (option (mapNode K V))) (e : mapEntry K V).
Implicit Types (ch : nat → option (mapNode K V)).
Implicit Types
  (reinsert : mapNode K V → K → V → Z → Z → Hasher K → bool
              → result (mapNode K V * bool)).

(** The children of a branch at shift [s] below prefix [p] are well
    formed one level down. *)
Definition children_wf (s p : Z) ch : Prop :=
  ∀ (i : nat) c, (i < 32)%nat → ch i = Some c →
                 trie_wf h (s + 5) (p + 2 ^ s * Z.of_nat i) c.

Lemma prefix_down (x s p : Z) (i : nat) :
  0 ≤ s → 0 ≤ p < 2 ^ s → x `mod` 2 ^ (s + 5) = p + 2 ^ s * Z.of_nat i →
  x `mod` 2 ^ s = p.
Proof.
  intros Hs Hp Hx.
  rewrite <-(Z.mod_mod_divide x (2 ^ (s + 5)) (2 ^ s)), Hx.
  - rewrite (Z.mul_comm (2 ^ s)), Z_mod_plus_full. by apply Z.mod_small.
  - exists (2 ^ 5). rewrite Z.pow_add_r by lia. lia.
Qed.

Lemma prefix_child_range (s p : Z) (i : nat) :
  0 ≤ s → 0 ≤ p < 2 ^ s → (i < 32)%nat →
  0 ≤ p + 2 ^ s * Z.of_nat i < 2 ^ (s + 5).
Proof.
  intros Hs Hp Hi. rewrite Z.pow_add_r by lia. change (2 ^ 5) with 32. nia.
Qed.

Lemma slots_children_wf s p slots :
  length slots = 32%nat →
  (∀ (i : nat) child, slots !! i = Some (Some child) →
              trie_wf h (s + 5) (p + 2 ^ s * Z.of_nat i) child) →
  children_wf s p (λ i, mjoin (slots !! i)).
Proof.
  intros Hlen Hchildren i c Hi Hc. apply Hchildren.
  destruct (slots !! i) as [[c'|]|]; by simplify_eq/=.
Qed.

(** Every key below a node has the hash prefix of the node. *)
Lemma hash_prefix_in s p n :
  trie_wf h s p n → 0 ≤ s → 0 ≤ p < 2 ^ s →
  ∀ e, e ∈ mapNode_entries n → Hash h (entry_key e) `mod` 2 ^ s = p.
Proof.
  induction 1 as [s p k v Hp|s p kh entries Hentries Hrange Hp
                 |s p bm nodes Hlen Hchildren IH|s p count slots Hlen Hchildren IH];
    intros Hs Hrp e He.
  - apply list_elem_of_singleton in He as ->. done.
  - cbn [mapNode_entries] in He. by rewrite (Hentries e He).
  - rewrite mapNode_entries_bitmap, (bitmap_entries bm nodes Hlen) in He.
    apply list_elem_of_bind in He as (i & He & Hi%elem_of_seq).
    destruct (bitmap_child bm nodes i) as [c|] eqn:Hc; [|by apply elem_of_nil in He].
    apply (prefix_down _ s p i Hs Hrp).
    apply (IH i c); [lia|done|lia|apply prefix_child_range; lia|done].
  - rewrite mapNode_entries_hasharray, (hasharray_entries slots Hlen) in He.
    apply list_elem_of_bind in He as (i & He & Hi%elem_of_seq).
    destruct (slots !! i) as [[c|]|] eqn:Hc; [|by apply elem_of_nil in He..].
    apply (prefix_down _ s p i Hs Hrp).
    apply (IH i c); [done|lia|apply prefix_child_range; lia|done].
Qed.

Lemma prefix_range key s p : 0 ≤ s → Hash h key `mod` 2 ^ s = p → 0 ≤ p < 2 ^ s.
Proof. intros Hs <-. apply Z.mod_pos_bound. lia. Qed.

(** The keys below the other children of a branch differ from [key]. *)
Lemma siblings_other s p ch key (ixs : list nat) e :
  children_wf s p ch → 0 ≤ s → Hash h key `mod` 2 ^ s = p →
  (∀ i, i ∈ ixs → (i < 32)%nat ∧ i ≠ Z.to_nat (mapFrag (Hash h key) s)) →
  e ∈ ixs ≫= (λ i, slot_entries (ch i)) → Equal h (entry_key e) key = false.
Proof.
  intros Hch Hs Hkey Hixs (i & He & [Hi Hne]%Hixs)%list_elem_of_bind.
  destruct (ch i) as [c|] eqn:Hc; [|by apply elem_of_nil in He].
  destruct (Equal h (entry_key e) key) eqn:Heq; [|done]. exfalso.
  apply (hash_equal h Hok) in Heq.
  pose proof (prefix_range key s p Hs Hkey) as Hrp.
  pose proof (hash_prefix_in _ _ _ (Hch i c Hi Hc) ltac:(lia)
                (prefix_child_range s p i Hs Hrp Hi) e He) as He'.
  pose proof (hash_prefix_child h key s p Hs Hkey) as Hk'.
  rewrite Heq, Hk' in He'.
  assert (0 < 2 ^ s) by lia. nia.
Qed.

Section Branch.
Context (s p : Z) (ch : nat → option (mapNode K V)) (key : K).
Context (Hch : children_wf s p ch) (Hs : 0 ≤ s).
Context (Hkey : Hash h key `mod` 2 ^ s = p).
Let f := Z.to_nat (mapFrag (Hash h key) s).

Lemma siblings_before e :
  e ∈ seq 0 f ≫= (λ i, slot_entries (ch i)) → Equal h (entry_key e) key = false.
Proof.
  apply (siblings_other s p); [done..|].
  intros i Hi%elem_of_seq. pose proof (mapFrag_nat_lt (Hash h key) s). unfold f in *. lia.
Qed.

Lemma siblings_after e :
  e ∈ seq (S f) (31 - f) ≫= (λ i, slot_entries (ch i)) →
  Equal h (entry_key e) key = false.
Proof.
  apply (siblings_other s p); [done..|].
  intros i Hi%elem_of_seq. pose proof (mapFrag_nat_lt (Hash h key) s). unfold f in *. lia.
Qed.

(** A lookup in a branch is a lookup in the child of the fragment. *)
Lemma children_entries_find :
  entries_find h (children_entries ch) key
  = entries_find h (slot_entries (ch f)) key.
Proof.
  rewrite (children_entries_split ch f) by apply mapFrag_nat_lt.
  rewrite entries_find_skip by apply siblings_before.
  rewrite entries_find_stop by apply siblings_after. done.
Qed.

Lemma children_entries_distinct :
  entries_distinct h (children_entries ch) →
  entries_distinct h (slot_entries (ch f)).
Proof.
  rewrite (children_entries_split ch f) by apply mapFrag_nat_lt.
  intros (_ & (Hd & _)%entries_distinct_app & _)%entries_distinct_app. done.
Qed.

(** Replacing the child of the fragment by one that holds [new] and
    the pairs for the other keys. *)
Lemma children_entries_update ch' new :
  (∀ i, i ≠ f → ch' i = ch i) →
  slot_entries (ch' f) ≡ₚ new ++ filter (other_key h key) (slot_entries (ch f)) →
  children_entries ch' ≡ₚ new ++ filter (other_key h key) (children_entries ch).
Proof.
  intros Hext Hperm.
  rewrite (children_entries_split ch f), (children_entries_split ch' f)
    by apply mapFrag_nat_lt.
  destruct (children_entries_ext ch ch' f Hext) as [-> ->].
  rewrite !list.filter_app.
  rewrite (filter_other_all h _ key siblings_before).
  rewrite (filter_other_all h _ key siblings_after).
  rewrite Hperm.
  set (A := seq 0 f ≫= _). set (B := seq (S f) (31 - f) ≫= _).
  set (Y := filter _ (slot_entries (ch f))).
  rewrite <-(assoc_L (++) new Y B), (assoc_L (++) A new), (comm (++) A new).
  by rewrite <-(assoc_L (++) new A).
Qed.
End Branch.

(** What [get] returns is the first pair for the key among the pairs of
    the trie. *)
Lemma mapNode_get_entries s p n :
  trie_wf h s p n → ∀ key, 0 ≤ s → Hash h key `mod` 2 ^ s = p →
  mapNode_get n key s (Hash h key) h = Ok (entries_find h (mapNode_entries n) key).
Proof.
  induction 1 as [s p k v Hp|s p kh entries Hentries Hrange Hp
                 |s p bm nodes Hlen Hchildren IH|s p count slots Hlen Hchildren IH];
    intros key Hs Hkey.
  - cbn [mapNode_get mapNode_entries]. rewrite entries_find_cons, entries_find_nil.
    cbn [entry_key entry_value]. by destruct (Equal h k key).
  - cbn [mapNode_get mapNode_entries]. by rewrite entries_get.
  - rewrite mapNode_get_bitmap_child, mapNode_entries_bitmap, (bitmap_entries bm nodes Hlen) by done.
    rewrite (children_entries_find s p) by done.
    pose proof (mapFrag_nat_lt (Hash h key) s) as Hf.
    destruct (bitmap_child bm nodes _) as [c|] eqn:Hc; [|done].
    apply (IH _ c Hf Hc); [lia|]. by apply hash_prefix_child.
  - rewrite mapNode_get_hasharray, mapNode_entries_hasharray, (hasharray_entries slots Hlen).
    rewrite (children_entries_find s p);
      [|by apply slots_children_wf|done..].
    pose proof (mapFrag_nat_lt (Hash h key) s) as Hf.
    destruct (slots !! _) as [[c|]|] eqn:Hc; [|done|].
    + apply (IH _ c Hc); [lia|]. by apply hash_prefix_child.
    + apply lookup_ge_None in Hc. lia.
Qed.
End TrieEntries.

(** * Map: the pairs of a trie after [set] *)

Section TrieSetEntries.
Context {K V : Type} (h : Hasher K) (Hok : Hasher_ok h).
Implicit Types (n child node : mapNode K V) (key : K) (value : V).
Implicit Types (nodes : list (mapNode K V)) (entries l : list (mapEntry K V)).
Implicit Types (slots : list (option (mapNode K V))) (e : mapEntry K V).
Implicit Types
  (reinsert : mapNode K V → K → V → Z → Z → Hasher K → bool
              → result (mapNode K V * bool)).

Lemma mergeIntoNode_entries levels node s kh key value n' :
  mergeIntoNode_levels levels node s kh key value = Ok n' →
  mapNode_entries n' ≡ₚ mkEntry key value :: mapNode_entries node.
Proof.
  revert s n'. induction levels as [|levels IH]; intros s n'; [done|].
  rewrite mergeIntoNode_levels_S. cbv zeta.
  case_decide as Heq.
  - intros (child & Hchild & [= <-])%bind_Ok.
    rewrite mapNode_entries_bitmap, bind_singleton. by eapply IH.
  - case_decide as Hlt; intros [= <-]; rewrite mapNode_entries_bitmap, !bind_cons.
    + cbn [mbind list_bind]. rewrite app_nil_r. cbn [newMapValueNode mapNode_entries].
      by rewrite <-Permutation_cons_append.
    + cbn [mbind list_bind]. rewrite app_nil_r. done.
Qed.

Lemma leaf_other s p node key :
  is_leaf node → trie_wf h s p node → mapNode_keyHashValue node ≠ Hash h key →
  ∀ e, e ∈ mapNode_entries node → Equal h (entry_key e) key = false.
Proof.
  intros Hleaf Hwf Hne e He.
  destruct (Equal h (entry_key e) key) eqn:Heq; [|done]. exfalso.
  apply (hash_equal h Hok) in Heq.
  destruct Hwf as [s p k v Hp|s p kh entries Hentries Hrange Hp| |]; try done.
  - apply list_elem_of_singleton in He as ->. done.
  - cbn [mapNode_entries] in He. cbn in Hne. by rewrite (Hentries e He) in Heq.
Qed.

(** Overwriting the pair found for [key] in a list with distinct keys. *)
Lemma entries_insert_perm l key value (i : nat) :
  entries_distinct h l → entries_pos h l key = Some i →
  <[i := mkEntry key value]> l ≡ₚ mkEntry key value :: filter (other_key h key) l.
Proof.
  intros Hd Hpos. destruct (entries_pos_Some h _ _ _ Hpos) as (e & He & Heq).
  rewrite insert_take_drop by (by eapply lookup_lt_Some).
  rewrite <-(take_drop_middle l i e He) in Hd |- * at 3.
  apply entries_distinct_app in Hd as (_ & [Hhead _] & Hcross).
  rewrite list.filter_app, filter_cons_False by (unfold other_key; by rewrite Heq).
  rewrite !(filter_other_all h).
  - by rewrite Permutation_middle.
  - intros e' He'. apply (equal_false_sym h Hok).
    apply (equal_true_false h Hok _ _ _ Heq). by apply Hhead.
  - intros e' He'. apply (equal_false_sym h Hok).
    apply (equal_true_false h Hok _ _ _ Heq). apply (equal_false_sym h Hok).
    apply Hcross; [done|]. by apply elem_of_cons; left.
Qed.

Lemma entries_app_perm l key value :
  entries_pos h l key = None →
  l ++ [mkEntry key value] ≡ₚ mkEntry key value :: filter (other_key h key) l.
Proof.
  intros Hpos. rewrite (filter_other_all h).
  - by rewrite <-Permutation_cons_append.
  - intros e He. by eapply entries_pos_None.
Qed.

Lemma entries_find_pos l key :
  entries_find h l key = None ↔ entries_pos h l key = None.
Proof.
  unfold entries_find. destruct (entries_pos h l key) as [i|] eqn:Hpos; [|done].
  destruct (entries_pos_Some h _ _ _ Hpos) as (e & He & _). cbn. rewrite He. done.
Qed.

(** The pairs after [set]: the new pair and the pairs for the other
    keys; [resized] is raised exactly when the key is new. *)
Lemma mapNode_set_entries reinsert s p n :
  trie_wf h s p n → ∀ key value r n' r',
  0 ≤ s → Hash h key `mod` 2 ^ s = p →
  entries_distinct h (mapNode_entries n) →
  mapNode_set_via reinsert n key value s (Hash h key) h r = Ok (n', r') →
  mapNode_entries n' ≡ₚ mkEntry key value :: filter (other_key h key) (mapNode_entries n)
  ∧ r' = match entries_find h (mapNode_entries n) key with
         | Some _ => r
         | None => true
         end.
Proof.
  induction 1 as [s p k v Hp|s p kh entries Hentries Hrange Hp
                 |s p bm nodes Hlen Hchildren IH|s p count slots Hlen Hchildren IH];
    intros key value r n' r' Hs Hkey Hd.
  - (* value leaf *)
    cbn [mapNode_set_via mapNode_entries].
    rewrite entries_find_cons, entries_find_nil. cbn [entry_key entry_value].
    destruct (Equal h k key) eqn:Heq.
    + intros [= <- <-]. split; [|done]. cbn [newMapValueNode mapNode_entries].
      rewrite filter_cons_False by (unfold other_key; cbn; by rewrite Heq). done.
    + assert (Hkeep : filter (other_key h key) [mkEntry k v] = [mkEntry k v]).
      { rewrite filter_cons_True by done. done. }
      rewrite Hkeep.
      destruct (Z.eqb_spec (Hash h k) (Hash h key)) as [Hh|Hh]; cbn [negb].
      * intros [= <- <-]. split; [|done]. cbn [mapNode_entries]. apply perm_swap.
      * rewrite mergeIntoNode_unfold.
        intros (node & Hmerge & [= <- <-])%bind_Ok. split; [|done].
        by apply mergeIntoNode_entries in Hmerge.
  - (* collision leaf *)
    cbn [mapNode_set_via mapNode_entries] in *.
    destruct (Z.eqb_spec kh (Hash h key)) as [Hh|Hh]; cbn [negb].
    + rewrite indexOf_pos.
      destruct (entries_pos h entries key) as [i|] eqn:Hpos; cbn [negb].
      * destruct (Z.eqb_spec (Z.of_nat i) (-1)); [lia|].
        intros [= <- <-]. cbn [mapNode_entries]. rewrite Nat2Z.id.
        split; [by apply entries_insert_perm|].
        destruct (entries_find h entries key) eqn:Hfind; [done|].
        apply entries_find_pos in Hfind. congruence.
      * intros [= <- <-]. cbn [mapNode_entries].
        split; [by apply entries_app_perm|].
        apply entries_find_pos in Hpos. by rewrite Hpos.
    + rewrite mergeIntoNode_unfold.
      intros (node & Hmerge & [= <- <-])%bind_Ok.
      pose proof (leaf_other s p (mapHashCollisionNode kh entries) key I
                    (trie_wf_collision h s p kh entries Hentries Hrange Hp) Hh) as Hother.
      cbn [mapNode_entries] in Hother.
      rewrite (filter_other_all h _ _ Hother), (entries_find_none h _ _ Hother).
      split; [|done]. by apply mergeIntoNode_entries in Hmerge.
  - (* bitmap-indexed branch *)
    assert (Hch : children_wf h s p (bitmap_child bm nodes)) by done.
    rewrite mapNode_entries_bitmap, (bitmap_entries bm nodes Hlen) in Hd |- *.
    rewrite (children_entries_find h Hok s p _ key Hch Hs Hkey).
    pose proof (children_entries_distinct h s _ key Hd) as Hdc.
    rewrite mapNode_set_bitmap. cbv zeta.
    pose proof (mapFrag_nat_lt (Hash h key) s) as Hf.
    set (f := Z.to_nat (mapFrag (Hash h key) s)) in *.
    destruct (Z.testbit bm (Z.of_nat f)) eqn:Hbit.
    + destruct (bitmap_child_is_Some bm nodes f Hlen Hf Hbit) as (child & Hlook & Hchild).
      rewrite Hlook, Hchild in *. cbn [slot_entries from_option] in *.
      intros ([newNode r''] & Hset & [= <- <-])%bind_Ok.
      destruct (IH f child Hf Hchild key value r newNode r'') as [Hperm Hr];
        [lia|by apply hash_prefix_child|done|done|].
      split; [|done].
      rewrite lor_bit_set by done.
      rewrite mapNode_entries_bitmap, (bitmap_entries bm) by (by rewrite length_insert).
      apply (children_entries_update h Hok s p _ key Hch Hs Hkey _ [mkEntry key value]).
      * intros i Hi. apply lookup_lt_Some in Hlook.
        rewrite bitmap_child_insert by done. fold f. by rewrite decide_False.
      * apply lookup_lt_Some in Hlook.
        rewrite bitmap_child_insert by done. fold f. rewrite decide_True by done.
        rewrite Hchild. done.
    + assert (Hnone : bitmap_child bm nodes f = None).
      { unfold bitmap_child. by rewrite Hbit. }
      rewrite Hnone in *. cbn [slot_entries from_option].
      rewrite entries_find_nil.
      destruct (len nodes >? maxBitmapIndexedSize).
      * destruct (mapBitmapIndexedNode_expand_spec bm nodes Hlen)
          as (slots & -> & Hslots & Hlook).
        intros [= <- <-]. split; [|done].
        rewrite mapNode_entries_hasharray, hasharray_entries by (by rewrite length_insert).
        apply (children_entries_update h Hok s p _ key Hch Hs Hkey _ [mkEntry key value]).
        -- intros i Hi. fold f in Hi.
           destruct (decide (i < 32)%nat) as [Hi32|Hi32].
           ++ rewrite list_lookup_insert_ne, Hlook by done. done.
           ++ rewrite lookup_ge_None_2 by (rewrite length_insert; lia).
              unfold bitmap_child.
              destruct (Z.testbit bm (Z.of_nat i)) eqn:Hbi; [|done].
              symmetry. apply lookup_ge_None_2.
              pose proof (ones_below_le bm 32 i ltac:(lia)). lia.
        -- fold f. rewrite list_lookup_insert_eq by lia. rewrite Hnone. done.
      * pose proof (ones_below_le bm f 32 ltac:(lia)) as Hle.
        destruct (Nat.leb_spec (ones_below bm f) (length nodes)); [|done].
        intros [= <- <-]. split; [|done].
        rewrite mapNode_entries_bitmap, (bitmap_entries (Z.lor bm _))
          by (rewrite length_splice, ones_below_lor_bit, decide_True by done; lia).
        apply (children_entries_update h Hok s p _ key Hch Hs Hkey _ [mkEntry key value]).
        -- intros i Hi. fold f in Hi. rewrite bitmap_child_splice by done.
           by rewrite decide_False.
        -- fold f. rewrite bitmap_child_splice, decide_True by done. by rewrite Hnone.
  - (* hash-array branch *)
    pose proof (slots_children_wf h s p slots Hlen Hchildren) as Hch.
    rewrite mapNode_entries_hasharray, (hasharray_entries slots Hlen) in Hd |- *.
    rewrite (children_entries_find h Hok s p _ key Hch Hs Hkey).
    pose proof (children_entries_distinct h s _ key Hd) as Hdc.
    rewrite mapNode_set_hasharray. cbv zeta.
    pose proof (mapFrag_nat_lt (Hash h key) s) as Hf.
    set (f := Z.to_nat (mapFrag (Hash h key) s)) in *.
    assert (Hupd : ∀ count' c,
      slot_entries (Some c)
      ≡ₚ [mkEntry key value] ++ filter (other_key h key) (slot_entries (mjoin (slots !! f))) →
      mapNode_entries (mapHashArrayNode count' (<[f := Some c]> slots))
      ≡ₚ mkEntry key value
         :: filter (other_key h key) (children_entries (λ i, mjoin (slots !! i)))).
    { intros count' c Hperm.
      rewrite mapNode_entries_hasharray, hasharray_entries by (by rewrite length_insert).
      apply (children_entries_update h Hok s p _ key Hch Hs Hkey _ [mkEntry key value]).
      - intros i Hi. fold f in Hi. by rewrite list_lookup_insert_ne.
      - fold f. rewrite list_lookup_insert_eq by lia. done. }
    destruct (slots !! f) as [[child|]|] eqn:Hlook; [| |done].
    + cbn beta in Hdc. rewrite Hlook in Hdc.
      cbn [mjoin option_join slot_entries from_option] in *.
      intros ([newNode r''] & Hset & [= <- <-])%bind_Ok.
      destruct (IH f child Hlook key value r newNode r'') as [Hperm Hr];
        [lia|by apply hash_prefix_child|done|done|].
      split; [|done]. apply Hupd. cbn [slot_entries from_option]. done.
    + cbn [mjoin option_join slot_entries from_option] in *.
      intros [= <- <-]. rewrite entries_find_nil. split; [|done].
      apply Hupd. done.
Qed.
End TrieSetEntries.

(** * Map: the pairs of a map after [Set] *)

Section MapSetEntries.
Context {K V : Type} (h : Hasher K) (Hok : Hasher_ok h).
Context (defaultHasher : K → option (Hasher K)).
Implicit Types (n node : mapNode K V) (key : K) (value : V) (m : Map K V).
Implicit Types (entries l : list (mapEntry K V)) (e : mapEntry K V).

(** The pairs of a map. *)
Definition Map_entries m : list (mapEntry K V) := slot_entries (map_root m).

(** A map with a well-formed root whose pairs have distinct keys and
    whose size is their number. *)
Definition Map_inv m : Prop :=
  Map_wf h m
  ∧ entries_distinct h (Map_entries m)
  ∧ map_size m = len (Map_entries m).

Lemma root_get_entries n key :
  root_wf h n →
  mapNode_get n key 0 (Hash h key) h = Ok (entries_find h (mapNode_entries n) key).
Proof.
  intros Hwf. destruct n as [entries| | | |].
  - cbn [mapNode_get mapNode_entries]. by rewrite entries_get.
  - apply (mapNode_get_entries h Hok 0 0); [done|lia|apply Z.mod_1_r].
  - apply (mapNode_get_entries h Hok 0 0); [done|lia|apply Z.mod_1_r].
  - apply (mapNode_get_entries h Hok 0 0); [done|lia|apply Z.mod_1_r].
  - apply (mapNode_get_entries h Hok 0 0); [done|lia|apply Z.mod_1_r].
Qed.

Lemma Map_Get_entries m key :
  Map_wf h m → Map_Get m key = Ok (entries_find h (Map_entries m) key).
Proof.
  intros [Hh Hroot]. unfold Map_Get, Map_entries. rewrite Hh.
  destruct (map_root m) as [root|]; [|done]. by apply root_get_entries.
Qed.

(** The re-insertions of an expanding array node put every pair of the
    array into the trie. *)
Lemma reinsert_entries_perm entries :
  entries_distinct h entries →
  ∀ node r l,
  trie_wf h 0 0 node →
  mapNode_entries node ≡ₚ l →
  entries_distinct h l →
  (∀ e e', e ∈ entries → e' ∈ l → Equal h (entry_key e) (entry_key e') = false) →
  ∀ n' r',
  foldl (λ acc entry,
           '(node, resized) ← acc;
           mapNode_set 0 node (entry_key entry) (entry_value entry)
                       0 (Hash h (entry_key entry)) h resized)
        (Ok (node, r)) entries = Ok (n', r') →
  mapNode_entries n' ≡ₚ l ++ entries ∧ (r = true → r' = true).
Proof.
  induction entries as [|e entries IH]; intros Hd node r l Hwf Hperm Hdl Hcross n' r'.
  - intros [= <- <-]. by rewrite app_nil_r.
  - destruct Hd as [Hhead Hd]. cbn [foldl mbind result_bind]. cbn [mapNode_set].
    destruct (mapNode_set_wf h Hok (λ _ _ _ _ _ _ _, Panic StackOverflow)
                0 0 node Hwf (entry_key e) (entry_value e) r)
      as (n1 & r1 & Hset & Hwf1); [lia | apply Z.mod_1_r |].
    rewrite Hset.
    destruct (mapNode_set_entries h Hok (λ _ _ _ _ _ _ _, Panic StackOverflow)
                0 0 node Hwf (entry_key e) (entry_value e)
                r n1 r1) as [Hperm1 Hr1];
      [lia|apply Z.mod_1_r|by apply (entries_distinct_perm h Hok l); [symmetry|]|done|].
    assert (Hother : ∀ e', e' ∈ mapNode_entries node →
              Equal h (entry_key e') (entry_key e) = false).
    { intros e' He'. apply (equal_false_sym h Hok). apply Hcross.
      - by apply elem_of_cons; left.
      - by rewrite <-Hperm. }
    rewrite (filter_other_all h _ _ Hother) in Hperm1.
    rewrite (entries_find_none h _ _ Hother) in Hr1.
    intros Hfold.
    destruct (IH Hd n1 r1 (l ++ [e]) Hwf1) with (n' := n') (r' := r') as [Hfinal Hr'].
    + rewrite Hperm1, Hperm. destruct e. apply Permutation_cons_append.
    + apply entries_distinct_app. split; [done|].
      split; [split; [by intros ? ?%elem_of_nil|done]|].
      intros e1 e2 He1 ->%list_elem_of_singleton. apply (equal_false_sym h Hok).
      apply Hcross; [by apply elem_of_cons; left|done].
    + intros e1 e2 He1 [He2| ->%list_elem_of_singleton]%elem_of_app.
      * apply Hcross; [by apply elem_of_cons; right|done].
      * apply (equal_false_sym h Hok). by apply Hhead.
    + done.
    + split; [by rewrite Hfinal, <-(assoc_L (++))|].
      intros _. by apply Hr'.
Qed.

(** The pairs below the root after [set]. *)
Lemma root_set_entries n key value n' r' :
  root_wf h n → entries_distinct h (mapNode_entries n) →
  mapNode_set 1 n key value 0 (Hash h key) h false = Ok (n', r') →
  mapNode_entries n'
  ≡ₚ mkEntry key value :: filter (other_key h key) (mapNode_entries n)
  ∧ r' = match entries_find h (mapNode_entries n) key with
         | Some _ => false
         | None => true
         end.
Proof.
  intros Hwf Hd. cbn [mapNode_set].
  destruct n as [entries| | | |].
  2-5: apply (mapNode_set_entries h Hok _ 0 0); [done|lia|apply Z.mod_1_r|done].
  cbn [mapNode_set_via mapNode_entries] in *. rewrite indexOf_pos.
  destruct (entries_pos h entries key) as [i|] eqn:Hpos.
  - destruct (Z.eqb_spec (Z.of_nat i) (-1)); [lia|]. cbn [andb negb].
    intros [= <- <-]. cbn [mapNode_entries]. rewrite Nat2Z.id.
    split; [by apply entries_insert_perm|].
    destruct (entries_find h entries key) eqn:Hfind; [done|].
    apply entries_find_pos in Hfind. congruence.
  - pose proof Hpos as Hfind. apply entries_find_pos in Hfind. rewrite Hfind.
    assert (Hother : ∀ e, e ∈ entries → Equal h (entry_key e) key = false).
    { intros e He. by eapply entries_pos_None. }
    cbn [Z.eqb andb negb Pos.eqb]. destruct (len entries >=? maxArrayMapSize).
    + intros Hfold.
      destruct (reinsert_entries_perm entries Hd
                  (newMapValueNode (Hash h key) key value) true [mkEntry key value])
        with (n' := n') (r' := r') as [Hperm Hr'].
      * constructor. apply Z.mod_1_r.
      * done.
      * split; [|done]. by intros e' ?%elem_of_nil.
      * intros e e' He ->%list_elem_of_singleton. by apply Hother.
      * exact Hfold.
      * rewrite (filter_other_all h _ _ Hother). split; [done|]. by apply Hr'.
    + intros [= <- <-]. cbn [mapNode_entries]. split; [|done].
      by apply entries_app_perm.
Qed.

Lemma NewMap_inv : Map_inv (NewMap (Some h)).
Proof. done. Qed.

(** [Set] keeps the invariant and upserts the pair. *)
Lemma Map_Set_inv m key value :
  Map_inv m →
  ∃ m', Map_Set defaultHasher m key value = Ok m'
        ∧ Map_inv m'
        ∧ Map_entries m'
          ≡ₚ mkEntry key value :: filter (other_key h key) (Map_entries m).
Proof.
  intros (Hwf & Hd & Hsize).
  destruct (Map_Set_wf h Hok defaultHasher m key value Hwf) as (m' & Hset & Hwf' & _).
  exists m'. split; [done|].
  assert (Hperm : Map_entries m'
            ≡ₚ mkEntry key value :: filter (other_key h key) (Map_entries m)
          ∧ map_size m'
            = match entries_find h (Map_entries m) key with
              | Some _ => map_size m
              | None => map_size m + 1
              end).
  { destruct Hwf as [Hh Hroot]. unfold Map_Set, Map_entries in *. rewrite Hh in Hset.
    cbn [mbind result_bind] in Hset.
    destruct (map_root m) as [root|]; cbn [slot_entries from_option] in *.
    - destruct (mapNode_set 1 root key value 0 (Hash h key) h false)
        as [[root' resized]|] eqn:Hroot_set; [|done].
      cbn [mbind result_bind] in Hset. injection Hset as <-.
      cbn [map_root map_size slot_entries from_option].
      destruct (root_set_entries root key value root' resized Hroot Hd Hroot_set)
        as [Hperm ->].
      split; [done|]. by destruct (entries_find h (mapNode_entries root) key).
    - injection Hset as <-. split; [done|].
      rewrite entries_find_nil, Hsize. done. }
  destruct Hperm as [Hperm Hsize'].
  split; [|done]. split; [done|]. split.
  - apply (entries_distinct_perm h Hok _ _ (symmetry Hperm)).
    by apply entries_distinct_upsert.
  - rewrite Hsize', Hsize. unfold len. rewrite Hperm. cbn [length].
    pose proof (length_filter_other h Hok (Map_entries m) key Hd) as Hlen.
    destruct (entries_find h (Map_entries m) key); lia.
Qed.
End MapSetEntries.

(** * Map: the children of a branch, listed by fragment *)

Section Children.
Context {A : Type}.
Implicit Types (ch : nat → option A) (nodes : list A) (slots : list (option A)).

Definition children_list ch : list A := omap ch (seq 0 32).

Lemma omap_app' {B} (g : B → option A) (l1 l2 : list B) :
  omap g (l1 ++ l2) = omap g l1 ++ omap g l2.
Proof.
  induction l1 as [|x l1 IH]; [done|]. cbn [app omap list_omap].
  destruct (g x); by rewrite IH.
Qed.

Lemma omap_ext' {B} (g g' : B → option A) (l : list B) :
  (∀ x, x ∈ l → g x = g' x) → omap g l = omap g' l.
Proof.
  induction l as [|x l IH]; intros Hext; [done|]. cbn [omap list_omap].
  rewrite (Hext x) by (by apply elem_of_cons; left).
  rewrite IH; [done|]. intros y Hy. apply Hext. by apply elem_of_cons; right.
Qed.

Lemma elem_of_omap' {B} (g : B → option A) (l : list B) (y : A) :
  y ∈ omap g l ↔ ∃ x, x ∈ l ∧ g x = Some y.
Proof.
  induction l as [|x l IH]; cbn [omap list_omap].
  - split; [by intros ?%elem_of_nil|]. by intros (x & ?%elem_of_nil & _).
  - destruct (g x) as [y'|] eqn:Hx.
    + rewrite elem_of_cons, IH. split.
      * intros [->|(x' & Hx' & Hy)].
        -- exists x. split; [by apply elem_of_cons; left|done].
        -- exists x'. split; [by apply elem_of_cons; right|done].
      * intros (x' & [->|Hx']%elem_of_cons & Hy).
        -- left. congruence.
        -- right. by exists x'.
    + rewrite IH. split.
      * intros (x' & Hx' & Hy). exists x'. split; [by apply elem_of_cons; right|done].
      * intros (x' & [->|Hx']%elem_of_cons & Hy); [congruence|]. by exists x'.
Qed.

Lemma children_list_bitmap bm nodes :
  length nodes = ones_below bm 32 → children_list (bitmap_child bm nodes) = nodes.
Proof.
  intros Hlen.
  assert (Hgen : ∀ k : nat, (k ≤ 32)%nat →
    omap (bitmap_child bm nodes) (seq 0 k) = take (ones_below bm k) nodes).
  { intros k. induction k as [|k IH]; intros Hk; [done|].
    rewrite seq_S, omap_app', IH by lia. cbn [ones_below Nat.add omap list_omap].
    unfold bitmap_child.
    destruct (Z.testbit bm (Z.of_nat k)) eqn:Hbit.
    - pose proof (ones_below_lt bm k 32 ltac:(lia) Hbit) as Hlt.
      destruct (lookup_lt_is_Some_2 nodes (ones_below bm k)) as [c Hc]; [lia|].
      rewrite Hc. replace (ones_below bm k + 1)%nat with (S (ones_below bm k)) by lia.
      by rewrite (take_S_r _ _ c Hc).
    - by rewrite Nat.add_0_r, app_nil_r. }
  unfold children_list. rewrite Hgen, <-Hlen, take_ge by lia. done.
Qed.

Lemma children_list_slots slots :
  length slots = 32%nat → children_list (λ i, mjoin (slots !! i)) = omap id slots.
Proof.
  intros Hlen.
  assert (Hgen : ∀ k : nat, (k ≤ 32)%nat →
    omap (λ i, mjoin (slots !! i)) (seq 0 k) = omap id (take k slots)).
  { intros k. induction k as [|k IH]; intros Hk; [done|].
    rewrite seq_S, omap_app', IH by lia.
    destruct (lookup_lt_is_Some_2 slots k) as [c Hc]; [lia|].
    rewrite (take_S_r _ _ c Hc), omap_app'. cbn [Nat.add omap list_omap].
    rewrite Hc. done. }
  unfold children_list. rewrite Hgen, take_ge by lia. done.
Qed.

Lemma children_list_split ch (f : nat) :
  (f < 32)%nat →
  children_list ch
  = omap ch (seq 0 f) ++ option_list (ch f) ++ omap ch (seq (S f) (31 - f)).
Proof.
  intros Hf. unfold children_list.
  replace 32%nat with (f + S (31 - f))%nat at 1 by lia.
  rewrite seq_app, omap_app'. cbn [seq Nat.add omap list_omap].
  by destruct (ch f).
Qed.

(** Replacing the child for fragment [f]. *)
Lemma children_list_update ch ch' (f : nat) :
  (f < 32)%nat → (∀ i, (i < 32)%nat → i ≠ f → ch' i = ch i) →
  (length (children_list ch') + length (option_list (ch f))
   = length (children_list ch) + length (option_list (ch' f)))%nat
  ∧ ∀ c, c ∈ children_list ch' → c ∈ children_list ch ∨ ch' f = Some c.
Proof.
  intros Hf Hext.
  rewrite (children_list_split ch f Hf), (children_list_split ch' f Hf).
  rewrite (omap_ext' ch' ch (seq 0 f)) by (intros i Hi%elem_of_seq; apply Hext; lia).
  rewrite (omap_ext' ch' ch (seq (S f) (31 - f)))
    by (intros i Hi%elem_of_seq; apply Hext; lia).
  split; [rewrite !length_app; lia|].
  intros c [Hc|[Hc|Hc]%elem_of_app]%elem_of_app.
  - left. apply elem_of_app. by left.
  - right. destruct (ch' f); [|by apply elem_of_nil in Hc].
    by apply list_elem_of_singleton in Hc as ->.
  - left. apply elem_of_app. right. apply elem_of_app. by right.
Qed.

Lemma children_list_elem ch c :
  c ∈ children_list ch ↔ ∃ i : nat, (i < 32)%nat ∧ ch i = Some c.
Proof.
  unfold children_list. rewrite elem_of_omap'. split.
  - intros (i & Hi%elem_of_seq & Hc). exists i. split; [lia|done].
  - intros (i & Hi & Hc). exists i. split; [apply elem_of_seq; lia|done].
Qed.
End Children.

(** * Map: no node of a trie is empty *)

Section TrieFull.
Context {K V : Type} (h : Hasher K) (Hok : Hasher_ok h).
Implicit Types (n child node : mapNode K V) (key : K) (value : V).
Implicit Types (nodes : list (mapNode K V)) (entries l : list (mapEntry K V)).
Implicit Types (slots : list (option (mapNode K V))) (e : mapEntry K V).
Implicit Types
  (reinsert : mapNode K V → K → V → Z → Z → Hasher K → bool
              → result (mapNode K V * bool)).

(** Array nodes hold a pair, collision nodes at least two, bitmap
    branches a child; a hash-array branch counts its children and has
    at least 16 of them. *)
Inductive trie_full : mapNode K V → Prop :=
| trie_full_array entries :
    entries ≠ [] → trie_full (mapArrayNode entries)
| trie_full_value kh k v : trie_full (mapValueNode kh k v)
| trie_full_collision kh entries :
    (2 ≤ length entries)%nat → trie_full (mapHashCollisionNode kh entries)
| trie_full_bitmap bm nodes :
    nodes ≠ [] → (∀ c, c ∈ nodes → trie_full c) →
    trie_full (mapBitmapIndexedNode bm nodes)
| trie_full_hasharray count slots :
    count = len (omap id slots) → 16 ≤ count →
    (∀ c, c ∈ omap id slots → trie_full c) →
    trie_full (mapHashArrayNode count slots).

Lemma elem_of_splice {A} (i : nat) (x y : A) (s : list A) :
  y ∈ splice i x s → y = x ∨ y ∈ s.
Proof.
  unfold splice. rewrite <-(take_drop i s) at 3.
  intros [Hy|[->|Hy]%elem_of_cons]%elem_of_app.
  - right. apply elem_of_app. by left.
  - by left.
  - right. apply elem_of_app. by right.
Qed.

Lemma mergeIntoNode_full levels node s kh key value n' :
  trie_full node →
  mergeIntoNode_levels levels node s kh key value = Ok n' → trie_full n'.
Proof.
  intros Hfull. revert s n'. induction levels as [|levels IH]; intros s n'; [done|].
  rewrite mergeIntoNode_levels_S. cbv zeta.
  case_decide as Heq.
  - intros (child & Hchild & [= <-])%bind_Ok. constructor; [done|].
    intros c ->%list_elem_of_singleton. by eapply IH.
  - case_decide as Hlt; intros [= <-]; (constructor; [done|]).
    + intros c [->|[->|[]%elem_of_nil]%elem_of_cons]%elem_of_cons; [done|constructor].
    + intros c [->|[->|[]%elem_of_nil]%elem_of_cons]%elem_of_cons; [constructor|done].
Qed.

(** The children of a hash-array branch after one of its slots is
    written. *)
Lemma slots_update slots (f : nat) (o : option (mapNode K V)) :
  length slots = 32%nat → (f < 32)%nat →
  (length (omap id (<[f := o]> slots)) + length (option_list (mjoin (slots !! f)))
   = length (omap id slots) + length (option_list o))%nat
  ∧ ∀ c, c ∈ omap id (<[f := o]> slots) → c ∈ omap id slots ∨ o = Some c.
Proof.
  intros Hlen Hf.
  rewrite <-(children_list_slots slots Hlen).
  rewrite <-(children_list_slots (<[f := o]> slots)) by (by rewrite length_insert).
  destruct (children_list_update (λ i, mjoin (slots !! i))
              (λ i, mjoin (<[f := o]> slots !! i)) f Hf) as [Hl Hc].
  { intros i Hi Hne. by rewrite list_lookup_insert_ne. }
  rewrite list_lookup_insert_eq in Hl, Hc by lia. done.
Qed.

(** [set] keeps every node of the trie non-empty. *)
Lemma mapNode_set_full reinsert s p n :
  trie_wf h s p n → ∀ key value r n' r',
  trie_full n →
  mapNode_set_via reinsert n key value s (Hash h key) h r = Ok (n', r') →
  trie_full n'.
Proof.
  induction 1 as [s p k v Hp|s p kh entries Hentries Hrange Hp
                 |s p bm nodes Hlen Hchildren IH|s p count slots Hlen Hchildren IH];
    intros key value r n' r' Hfull.
  - cbn [mapNode_set_via].
    destruct (Equal h k key); [by intros [= <- <-]; constructor|].
    destruct (Z.eqb_spec (Hash h k) (Hash h key)) as [Hh|Hh]; cbn [negb].
    + intros [= <- <-]. constructor. cbn. lia.
    + rewrite mergeIntoNode_unfold.
      intros (node & Hmerge & [= <- <-])%bind_Ok. by eapply mergeIntoNode_full.
  - cbn [mapNode_set_via]. inversion Hfull as [| |? ? Hlen2| |]; subst.
    destruct (Z.eqb_spec kh (Hash h key)) as [Hh|Hh]; cbn [negb].
    + destruct (_ =? -1); intros [= <- <-]; constructor.
      * rewrite length_app. lia.
      * by rewrite length_insert.
    + rewrite mergeIntoNode_unfold.
      intros (node & Hmerge & [= <- <-])%bind_Ok. by eapply mergeIntoNode_full.
  - inversion Hfull as [| | |? ? Hne Hmem|]; subst.
    rewrite mapNode_set_bitmap. cbv zeta.
    pose proof (mapFrag_nat_lt (Hash h key) s) as Hf.
    set (f := Z.to_nat (mapFrag (Hash h key) s)) in *.
    destruct (Z.testbit bm (Z.of_nat f)) eqn:Hbit.
    + destruct (bitmap_child_is_Some bm nodes f Hlen Hf Hbit) as (child & Hlook & Hchild).
      rewrite Hlook. intros ([newNode r''] & Hset & [= <- <-])%bind_Ok.
      constructor.
      * intros Hnil. apply (f_equal length) in Hnil. rewrite length_insert in Hnil.
        by destruct nodes.
      * intros c [Hc| ->]%elem_of_insert_inv; [by apply Hmem|].
        eapply (IH f child Hf Hchild); [|done].
        apply Hmem. by eapply list_elem_of_lookup_2.
    + destruct (len nodes >? maxBitmapIndexedSize) eqn:Hbig.
      * destruct (mapBitmapIndexedNode_expand_spec bm nodes Hlen)
          as (slots & -> & Hslots & Hlook).
        intros [= <- <-].
        assert (Hold : omap id slots = nodes).
        { rewrite <-(children_list_slots slots Hslots).
          transitivity (children_list (bitmap_child bm nodes));
            [|by apply children_list_bitmap].
          apply omap_ext'. intros i Hi%elem_of_seq. by rewrite Hlook by lia. }
        assert (Hnone : slots !! f = Some None).
        { rewrite Hlook by done. unfold bitmap_child. by rewrite Hbit. }
        destruct (slots_update slots f (Some (newMapValueNode (Hash h key) key value))
                    Hslots Hf) as [Hcount Hc].
        rewrite Hnone, Hold in Hcount. cbn in Hcount.
        apply Z.gtb_lt in Hbig. unfold maxBitmapIndexedSize, len in *.
        constructor.
        -- unfold len. rewrite <-Hlen. lia.
        -- rewrite <-Hlen. lia.
        -- intros c [Hc'|[= <-]]%Hc; [|constructor]. apply Hmem. by rewrite <-Hold.
      * destruct (_ <=? _)%nat; [|done]. intros [= <- <-]. constructor.
        -- unfold splice. by destruct (take _ nodes).
        -- intros c [->|Hc]%elem_of_splice; [constructor|by apply Hmem].
  - inversion Hfull as [| | | |? ? Hcount H16 Hmem]; subst.
    rewrite mapNode_set_hasharray. cbv zeta.
    pose proof (mapFrag_nat_lt (Hash h key) s) as Hf.
    set (f := Z.to_nat (mapFrag (Hash h key) s)) in *.
    destruct (slots !! f) as [[child|]|] eqn:Hlook; [| |done].
    + intros ([newNode r''] & Hset & [= <- <-])%bind_Ok.
      destruct (slots_update slots f (Some newNode) Hlen Hf) as [Hcount Hc].
      rewrite Hlook in Hcount. cbn in Hcount. unfold len in *.
      constructor; [unfold len; lia|lia|].
      intros c [Hc'|[= <-]]%Hc; [by apply Hmem|].
      eapply (IH f child Hlook); [|done].
      apply Hmem, elem_of_omap'. exists (Some child).
      split; [by eapply list_elem_of_lookup_2|done].
    + intros [= <- <-].
      destruct (slots_update slots f (Some (newMapValueNode (Hash h key) key value))
                  Hlen Hf) as [Hcount Hc].
      rewrite Hlook in Hcount. cbn in Hcount. unfold len in *.
      constructor; [unfold len; lia|lia|].
      intros c [Hc'|[= <-]]%Hc; [by apply Hmem|constructor].
Qed.
End TrieFull.

(** * Map: the pairs of a trie after [delete] *)

Section TrieDeleteEntries.
Context {K V : Type} (h : Hasher K) (Hok : Hasher_ok h).
Implicit Types (n child node : mapNode K V) (key : K) (value : V).
Implicit Types (nodes : list (mapNode K V)) (entries l : list (mapEntry K V)).
Implicit Types (slots : list (option (mapNode K V))) (e : mapEntry K V).

(** Removing the pair found for [key] from a list with distinct keys
    leaves the pairs for the other keys. *)
Lemma entries_remove_filter l key (i : nat) :
  entries_distinct h l → entries_pos h l key = Some i →
  remove_at i l = filter (other_key h key) l.
Proof.
  intros Hd Hpos. destruct (entries_pos_Some h _ _ _ Hpos) as (e & He & Heq).
  unfold remove_at.
  rewrite <-(take_drop_middle l i e He) in Hd |- * at 3.
  apply entries_distinct_app in Hd as (_ & [Hhead _] & Hcross).
  rewrite list.filter_app, filter_cons_False by (unfold other_key; by rewrite Heq).
  rewrite !(filter_other_all h); [done| |].
  - intros e' He'. apply (equal_false_sym h Hok).
    apply (equal_true_false h Hok _ _ _ Heq). by apply Hhead.
  - intros e' He'. apply (equal_false_sym h Hok).
    apply (equal_true_false h Hok _ _ _ Heq). apply (equal_false_sym h Hok).
    apply Hcross; [done|]. by apply elem_of_cons; left.
Qed.

Lemma entries_find_Some_pos l key v :
  entries_find h l key = Some v → ∃ i : nat, entries_pos h l key = Some i.
Proof.
  intros Hfind. destruct (entries_pos h l key) as [i|] eqn:Hpos; [by exists i|].
  apply entries_find_pos in Hpos. congruence.
Qed.

(** [delete] of the key of a collision node. *)
Lemma collision_delete_found kh entries key v s :
  (2 ≤ length entries)%nat → entries_distinct h entries →
  entries_find h entries key = Some v →
  ∃ n', mapNode_delete (mapHashCollisionNode kh entries) key s (Hash h key) h
        = Ok (Fresh (Some n'))
        ∧ mapNode_entries n' = filter (other_key h key) entries
        ∧ trie_full n'.
Proof.
  intros Hlen Hd Hfind. destruct (entries_find_Some_pos _ _ _ Hfind) as [i Hpos].
  cbn [mapNode_delete]. rewrite indexOf_pos, Hpos.
  destruct (Z.eqb_spec (Z.of_nat i) (-1)); [lia|].
  rewrite <-(entries_remove_filter entries key i Hd Hpos).
  destruct (entries_pos_Some h _ _ _ Hpos) as (e & He & Heq).
  pose proof (lookup_lt_Some _ _ _ He) as Hi.
  unfold len. destruct (Z.eqb_spec (Z.of_nat (length entries)) 2) as [H2|H2].
  - destruct entries as [|a [|b [|c l]]]; cbn [length] in *; try lia.
    destruct a as [ka va], b as [kb vb].
    destruct i as [|[|i]]; cbn [length] in Hi; try lia.
    + cbn. eexists. split; [done|]. split; [done|]. constructor.
    + cbn. eexists. split; [done|]. split; [done|]. constructor.
  - eexists. split; [done|]. rewrite Nat2Z.id. split; [done|]. constructor.
    unfold remove_at. rewrite length_app, length_take, length_drop. lia.
Qed.

(** [delete] of a key that is present returns a new node, nil when the
    node held nothing else, with the pairs for the other keys. *)
Lemma mapNode_delete_found s p n :
  trie_wf h s p n → ∀ key v,
  0 ≤ s → Hash h key `mod` 2 ^ s = p →
  trie_full n → entries_distinct h (mapNode_entries n) →
  entries_find h (mapNode_entries n) key = Some v →
  ∃ r, mapNode_delete n key s (Hash h key) h = Ok (Fresh r)
       ∧ slot_entries r ≡ₚ filter (other_key h key) (mapNode_entries n)
       ∧ from_option trie_full True r.
Proof.
  induction 1 as [s p k v0 Hp|s p kh entries Hentries Hrange Hp
                 |s p bm nodes Hlen Hchildren IH|s p count slots Hlen Hchildren IH];
    intros key v Hs Hkey Hfull Hd Hfind.
  - (* value leaf *)
    cbn [mapNode_delete mapNode_entries] in *.
    rewrite entries_find_cons, entries_find_nil in Hfind. cbn [entry_key] in Hfind.
    destruct (Equal h k key) eqn:Heq; [|done]. cbn [negb].
    exists None. split; [done|]. split; [|done].
    rewrite filter_cons_False by (unfold other_key; cbn; by rewrite Heq). done.
  - (* collision leaf *)
    inversion Hfull as [| |? ? Hlen2| |]; subst. cbn [mapNode_entries] in *.
    destruct (collision_delete_found kh entries key v s Hlen2 Hd Hfind)
      as (n' & Hdel & Hentries' & Hfull').
    exists (Some n'). split; [done|]. cbn [slot_entries from_option].
    by rewrite Hentries'.
  - (* bitmap-indexed branch *)
    revert Hkey. inversion Hfull as [| | |? ? Hne Hmem|]; subst. intros Hkey.
    assert (Hch : children_wf h s p (bitmap_child bm nodes)) by done.
    pose proof Hd as Hd'. pose proof Hfind as Hfind'.
    rewrite mapNode_entries_bitmap, (bitmap_entries bm nodes Hlen) in Hd, Hfind |- *.
    rewrite (children_entries_find h Hok s p _ key Hch Hs Hkey) in Hfind.
    pose proof (children_entries_distinct h s _ key Hd) as Hdc.
    rewrite mapNode_delete_bitmap. cbv zeta.
    pose proof (mapFrag_nat_lt (Hash h key) s) as Hf.
    set (f := Z.to_nat (mapFrag (Hash h key) s)) in *.
    destruct (Z.testbit bm (Z.of_nat f)) eqn:Hbit; cycle 1.
    { unfold bitmap_child in Hfind. by rewrite Hbit in Hfind. }
    destruct (bitmap_child_is_Some bm nodes f Hlen Hf Hbit) as (child & Hlook & Hchild).
    rewrite Hlook. rewrite Hchild in Hfind, Hdc. cbn [slot_entries from_option] in *.
    pose proof (lookup_lt_Some _ _ _ Hlook) as Hidx.
    destruct (IH f child Hf Hchild key v) as (rc & -> & Hperm & Hfullc);
      [lia|by apply hash_prefix_child
      |by apply Hmem; eapply list_elem_of_lookup_2|done|done|].
    cbn [mbind result_bind]. destruct rc as [newChild|].
    + eexists. split; [done|]. cbn [slot_entries from_option] in *. split.
      * rewrite mapNode_entries_bitmap, (bitmap_entries bm) by (by rewrite length_insert).
        apply (children_entries_update h Hok s p _ key Hch Hs Hkey _ []).
        -- intros i Hi. rewrite bitmap_child_insert by done. fold f.
           by rewrite decide_False.
        -- rewrite bitmap_child_insert by done. fold f. rewrite decide_True by done.
           by rewrite Hchild.
      * constructor.
        -- intros Hnil. apply (f_equal length) in Hnil. rewrite length_insert in Hnil.
           by destruct nodes.
        -- intros c [Hc| ->]%elem_of_insert_inv; [by apply Hmem|done].
    + pose proof (ones_below_lxor_bit bm f 32 Hbit) as Hx.
      rewrite decide_True in Hx by done.
      assert (Hlen' : length (remove_at (ones_below bm f) nodes)
                      = ones_below (Z.lxor bm (Z.shiftl 1 (Z.of_nat f))) 32).
      { rewrite length_remove_at by done. lia. }
      assert (Hperm' : children_entries
                         (bitmap_child (Z.lxor bm (Z.shiftl 1 (Z.of_nat f)))
                                       (remove_at (ones_below bm f) nodes))
                       ≡ₚ filter (other_key h key)
                            (children_entries (bitmap_child bm nodes))).
      { apply (children_entries_update h Hok s p _ key Hch Hs Hkey _ []).
        - intros i Hi. rewrite bitmap_child_remove by done. fold f.
          by rewrite decide_False.
        - rewrite bitmap_child_remove by done. fold f. rewrite decide_True by done.
          by rewrite Hchild. }
      rewrite <-(bitmap_entries _ _ Hlen'),
        <-(mapNode_entries_bitmap (Z.lxor bm (Z.shiftl 1 (Z.of_nat f)))) in Hperm'.
      unfold len. destruct (Z.eqb_spec (Z.of_nat (length nodes)) 1) as [H1|H1].
      * exists None. split; [done|]. split; [|done]. rewrite <-Hperm'.
        rewrite mapNode_entries_bitmap.
        assert (remove_at (ones_below bm f) nodes = []) as ->; [|done].
        apply length_zero_iff_nil. rewrite length_remove_at by done. lia.
      * eexists. split; [done|]. cbn [slot_entries from_option]. split; [done|].
        constructor.
        -- intros Hnil. apply (f_equal length) in Hnil.
           rewrite length_remove_at in Hnil by done. cbn in Hnil. lia.
        -- intros c Hc%elem_of_remove_at. by apply Hmem.
  - (* hash-array branch *)
    revert Hkey. inversion Hfull as [| | | |? ? Hcount H16 Hmem]; subst. intros Hkey.
    pose proof (slots_children_wf h s p slots Hlen Hchildren) as Hch.
    rewrite mapNode_entries_hasharray, (hasharray_entries slots Hlen) in Hd, Hfind |- *.
    rewrite (children_entries_find h Hok s p _ key Hch Hs Hkey) in Hfind.
    pose proof (children_entries_distinct h s _ key Hd) as Hdc. cbn beta in Hdc.
    rewrite mapNode_delete_hasharray. cbv zeta.
    pose proof (mapFrag_nat_lt (Hash h key) s) as Hf.
    set (f := Z.to_nat (mapFrag (Hash h key) s)) in *.
    destruct (slots !! f) as [[child|]|] eqn:Hlook; [|done..].
    cbn [mjoin option_join slot_entries from_option] in *.
    destruct (IH f child Hlook key v) as (rc & -> & Hperm & Hfullc);
      [lia|by apply hash_prefix_child| |done|done|].
    { apply Hmem, elem_of_omap'. exists (Some child).
      split; [by eapply list_elem_of_lookup_2|done]. }
    cbn [mbind result_bind].
    assert (Hupd : ∀ o, slot_entries o ≡ₚ slot_entries rc →
              ∀ ch', (∀ i, i ≠ f → ch' i = mjoin (slots !! i)) → ch' f = o →
              children_entries ch'
              ≡ₚ filter (other_key h key) (children_entries (λ i, mjoin (slots !! i)))).
    { intros o Ho ch' Hext Hf'.
      apply (children_entries_update h Hok s p _ key Hch Hs Hkey _ []).
      - intros i Hi. fold f in Hi. by apply Hext.
      - fold f. rewrite Hf', Hlook, Ho. done. }
    destruct rc as [newNode|].
    + eexists. split; [done|]. cbn [slot_entries from_option] in *. split.
      * rewrite mapNode_entries_hasharray, hasharray_entries by (by rewrite length_insert).
        apply (Hupd (Some newNode)); [done| |].
        -- intros i Hi. by rewrite list_lookup_insert_ne.
        -- by rewrite list_lookup_insert_eq by lia.
      * destruct (slots_update slots f (Some newNode) Hlen Hf) as [Hcnt Hc].
        rewrite Hlook in Hcnt. cbn in Hcnt. unfold len in *.
        constructor; [unfold len; lia|lia|].
        intros c [Hc'|[= <-]]%Hc; [by apply Hmem|done].
    + destruct (slots_update slots f None Hlen Hf) as [Hcnt Hc].
      rewrite Hlook in Hcnt. cbn in Hcnt. unfold len in *.
      destruct (Z.leb_spec (Z.of_nat (length (omap id slots))) maxBitmapIndexedSize)
        as [Hsmall|Hbig].
      * destruct (Z.leb_spec (Z.of_nat (length (omap id slots))) 0); [lia|].
        destruct (mapHashArrayNode_pack_spec f slots) as (bm & packed & Hpack & Hpacked & Hc');
          [lia|].
        rewrite Hpack. eexists. split; [done|]. cbn [slot_entries from_option]. split.
        -- rewrite mapNode_entries_bitmap, (bitmap_entries bm packed Hpacked).
           apply (Hupd None); [done| |].
           ++ intros i Hi. by rewrite Hc', decide_False.
           ++ by rewrite Hc', decide_True.
        -- assert (Hlist : packed = omap id (<[f := None]> slots)).
           { rewrite <-(children_list_bitmap bm packed Hpacked).
             rewrite <-children_list_slots by (by rewrite length_insert).
             apply omap_ext'. intros i Hi%elem_of_seq. rewrite Hc'.
             case_decide as Hif.
             - subst i. by rewrite list_lookup_insert_eq by lia.
             - by rewrite list_lookup_insert_ne. }
           constructor.
           ++ intros Hnil. rewrite Hnil in Hlist.
              apply (f_equal length) in Hlist. cbn in Hlist. lia.
           ++ intros c Hcp. rewrite Hlist in Hcp.
              apply Hc in Hcp as [Hcp|[=]]. by apply Hmem.
      * eexists. split; [done|]. cbn [slot_entries from_option]. split.
        -- rewrite mapNode_entries_hasharray, hasharray_entries
             by (by rewrite length_insert).
           apply (Hupd None); [done| |].
           ++ intros i Hi. by rewrite list_lookup_insert_ne.
           ++ by rewrite list_lookup_insert_eq by lia.
        -- unfold maxBitmapIndexedSize in *.
           constructor; [unfold len; lia|lia|].
           intros c [Hcp|[=]]%Hc. by apply Hmem.
Qed.
End TrieDeleteEntries.

(** * Map: the invariant of the maps a client can build *)

Section MapInvariant.
Context {K V : Type} (h : Hasher K) (Hok : Hasher_ok h).
Context (defaultHasher : K → option (Hasher K)).
Implicit Types (n node : mapNode K V) (key : K) (value : V) (m : Map K V).
Implicit Types (entries l : list (mapEntry K V)) (e : mapEntry K V).

(** No node of the map is empty. *)
Definition Map_full m : Prop := from_option trie_full True (map_root m).

Lemma reinsert_full entries :
  ∀ node r n' r',
  trie_wf h 0 0 node → trie_full node →
  foldl (λ acc entry,
           '(node, resized) ← acc;
           mapNode_set 0 node (entry_key entry) (entry_value entry)
                       0 (Hash h (entry_key entry)) h resized)
        (Ok (node, r)) entries = Ok (n', r') →
  trie_full n'.
Proof.
  induction entries as [|e entries IH]; intros node r n' r' Hwf Hfull.
  - by intros [= <- <-].
  - cbn [foldl mbind result_bind]. cbn [mapNode_set].
    destruct (mapNode_set_wf h Hok (λ _ _ _ _ _ _ _, Panic StackOverflow)
                0 0 node Hwf (entry_key e) (entry_value e) r)
      as (n1 & r1 & Hset & Hwf1); [lia | apply Z.mod_1_r |].
    rewrite Hset. apply IH; [done|].
    by eapply (mapNode_set_full h _ 0 0 node Hwf).
Qed.

Lemma root_set_full n key value n' r' :
  root_wf h n → trie_full n →
  mapNode_set 1 n key value 0 (Hash h key) h false = Ok (n', r') →
  trie_full n'.
Proof.
  intros Hwf Hfull. cbn [mapNode_set].
  destruct n as [entries| | | |].
  2-5: by apply (mapNode_set_full h _ 0 0).
  inversion Hfull as [? Hne| | | |]; subst.
  cbn [mapNode_set_via]. destruct (_ && _).
  - apply reinsert_full; [|constructor]. constructor. apply Z.mod_1_r.
  - destruct (negb _); intros [= <- <-]; constructor.
    + intros Hnil. apply (f_equal length) in Hnil. rewrite length_insert in Hnil.
      by destruct entries.
    + by destruct entries.
Qed.

Lemma root_delete_found n key v :
  root_wf h n → trie_full n → entries_distinct h (mapNode_entries n) →
  entries_find h (mapNode_entries n) key = Some v →
  ∃ r, mapNode_delete n key 0 (Hash h key) h = Ok (Fresh r)
       ∧ slot_entries r ≡ₚ filter (other_key h key) (mapNode_entries n)
       ∧ from_option trie_full True r.
Proof.
  intros Hwf Hfull Hd Hfind. destruct n as [entries| | | |].
  2-5: by apply (mapNode_delete_found h Hok 0 0 _ Hwf key v);
         [lia|apply Z.mod_1_r|..].
  cbn [mapNode_entries] in *. inversion Hfull as [? Hne| | | |]; subst.
  destruct (entries_find_Some_pos h _ _ _ Hfind) as [i Hpos].
  cbn [mapNode_delete]. rewrite indexOf_pos, Hpos.
  destruct (Z.eqb_spec (Z.of_nat i) (-1)); [lia|].
  rewrite <-(entries_remove_filter h Hok entries key i Hd Hpos).
  destruct (entries_pos_Some h _ _ _ Hpos) as (e & He & Heq).
  pose proof (lookup_lt_Some _ _ _ He) as Hi.
  unfold len. destruct (Z.eqb_spec (Z.of_nat (length entries)) 1) as [H1|H1].
  - exists None. split; [done|]. split; [|done].
    destruct entries as [|a [|b l]]; cbn [length] in *; try lia.
    destruct i; [done|cbn in Hi; lia].
  - eexists. split; [done|]. rewrite Nat2Z.id. split; [done|]. constructor.
    intros Hnil. apply (f_equal length) in Hnil.
    rewrite length_remove_at in Hnil by done. cbn in Hnil. lia.
Qed.

(** The invariant of a map: a well-formed root, no empty node, distinct
    keys, and a size that counts the pairs. *)
Definition Map_ok m : Prop := Map_inv h m ∧ Map_full m.

Lemma NewMap_ok : Map_ok (NewMap (Some h)).
Proof. done. Qed.

Lemma Map_Set_ok m key value :
  Map_ok m →
  ∃ m', Map_Set defaultHasher m key value = Ok m'
        ∧ Map_ok m'
        ∧ Map_entries m'
          ≡ₚ mkEntry key value :: filter (other_key h key) (Map_entries m).
Proof.
  intros [Hinv Hfull].
  destruct (Map_Set_inv h Hok defaultHasher m key value Hinv)
    as (m' & Hset & Hinv' & Hperm).
  exists m'. split; [done|]. split; [|done]. split; [done|].
  destruct Hinv as ([Hh Hroot] & _). unfold Map_Set, Map_full in *.
  rewrite Hh in Hset. cbn [mbind result_bind] in Hset.
  destruct (map_root m) as [root|]; cbn [from_option] in *.
  - destruct (mapNode_set 1 root key value 0 (Hash h key) h false)
      as [[root' resized]|] eqn:Hroot_set; [|done].
    cbn [mbind result_bind] in Hset. injection Hset as <-. cbn [map_root from_option].
    by eapply root_set_full.
  - injection Hset as <-. cbn [map_root from_option]. by constructor.
Qed.

Lemma Map_Delete_ok m key v :
  Map_ok m → entries_find h (Map_entries m) key = Some v →
  ∃ m', Map_Delete m key = Ok (Fresh m')
        ∧ Map_ok m'
        ∧ Map_entries m' ≡ₚ filter (other_key h key) (Map_entries m).
Proof.
  intros [(Hwf & Hd & Hsize) Hfull] Hfind.
  pose proof Hwf as [Hh Hroot].
  unfold Map_entries, Map_full in *.
  destruct (map_root m) as [root|] eqn:Hm; cbn [slot_entries from_option] in *; [|done].
  destruct (root_delete_found root key v Hroot Hfull Hd Hfind)
    as (r & Hdel & Hperm & Hfull').
  assert (Hrun : Map_Delete m key
                 = Ok (Fresh (mkMap (map_size m - 1) r (Some h)))).
  { unfold Map_Delete. by rewrite Hm, Hh, Hdel. }
  eexists. split; [exact Hrun|]. split; [|done].
  split; [split; [|split]|done].
  - by apply (Map_Delete_wf h m key _ Hwf Hrun).
  - unfold Map_entries. cbn [map_root].
    apply (entries_distinct_perm h Hok _ _ (symmetry Hperm)).
    by apply entries_distinct_filter.
  - unfold Map_entries. cbn [map_root map_size]. rewrite Hsize. unfold len.
    rewrite Hperm.
    pose proof (length_filter_other h Hok (mapNode_entries root) key Hd) as Hlen.
    rewrite Hfind in Hlen. lia.
Qed.

Lemma Map_reachable_ok m : Map_reachable h defaultHasher m → Map_ok m.
Proof.
  induction 1 as [|m key value m' _ IH Hset|m key m' _ IH Hdel].
  - apply NewMap_ok.
  - destruct (Map_Set_ok m key value IH) as (m'' & Hset' & Hok' & _). congruence.
  - destruct (entries_find h (Map_entries m) key) as [v|] eqn:Hfind.
    + destruct (Map_Delete_ok m key v IH Hfind) as (m'' & Hdel' & Hok' & _). congruence.
    + destruct IH as [(Hwf & _) _].
      pose proof (Map_Get_entries h Hok m key Hwf) as Hget. rewrite Hfind in Hget.
      unfold Map_Get, Map_Delete in *.
      destruct (map_root m) as [root|]; [|done].
      destruct (map_hasher m) as [hasher|]; [|done].
      by rewrite (mapNode_delete_absent _ _ _ _ _ Hget) in Hdel.
Qed.
End MapInvariant.

(** * Maps: reads and updates *)

Section MapProperties.
Context {K V : Type}.
Context (defaultHasher : K → option (Hasher K)).
Implicit Types (h : Hasher K) (m : Map K V) (key : K) (value : V).

(** [Set(key, value)] leaves every key that the hasher tells apart from
    [key] as it was, through every promotion of the root; the length
    grows by one exactly when [key] was absent. *)
Theorem Map_Set_other_keys h m key value :
  Hasher_ok h → Map_reachable h defaultHasher m →
  ∃ m', Map_Set defaultHasher m key value = Ok m'
        ∧ (∀ k', Equal h key k' = false → Map_Get m' k' = Map_Get m k')
        ∧ Map_Len m'
          = match Map_Get m key with
            | Ok (Some _) => Map_Len m
            | _ => Map_Len m + 1
            end.
Proof.
  intros Hok Hm. pose proof (Map_reachable_ok h Hok defaultHasher m Hm) as Hinv.
  destruct (Map_Set_ok h Hok defaultHasher m key value Hinv)
    as (m' & Hset & Hinv' & Hperm).
  destruct Hinv as [(Hwf & Hd & Hsize) _]. destruct Hinv' as [(Hwf' & Hd' & Hsize') _].
  exists m'. split; [done|]. split.
  - intros k' Hk'.
    rewrite (Map_Get_entries h Hok m' k' Hwf'), (Map_Get_entries h Hok m k' Hwf).
    f_equal.
    rewrite (entries_find_perm h Hok _ _ k' Hd'
               (entries_distinct_upsert h Hok _ key value Hd) Hperm).
    rewrite entries_find_cons. cbn [entry_key]. rewrite Hk'.
    by apply entries_find_filter_other.
  - rewrite (Map_Get_entries h Hok m key Hwf). unfold Map_Len, len in *.
    rewrite Hsize', Hsize, Hperm. cbn [length].
    pose proof (length_filter_other h Hok (Map_entries m) key Hd) as Hlen.
    destruct (entries_find h (Map_entries m) key); lia.
Qed.

(** [Delete(key)] of a key that is present returns a new map in which
    [Get(key)] finds nothing and every key that the hasher tells apart
    from [key] is as it was; the length is one less. *)
Theorem Map_Delete_then_Get h m key value :
  Hasher_ok h → Map_reachable h defaultHasher m →
  Map_Get m key = Ok (Some value) →
  ∃ m', Map_Delete m key = Ok (Fresh m')
        ∧ Map_Get m' key = Ok None
        ∧ (∀ k', Equal h key k' = false → Map_Get m' k' = Map_Get m k')
        ∧ Map_Len m' = Map_Len m - 1.
Proof.
  intros Hok Hm Hget. pose proof (Map_reachable_ok h Hok defaultHasher m Hm) as Hinv.
  pose proof Hinv as [(Hwf & Hd & Hsize) _].
  rewrite (Map_Get_entries h Hok m key Hwf) in Hget. injection Hget as Hfind.
  destruct (Map_Delete_ok h Hok m key value Hinv Hfind) as (m' & Hdel & Hinv' & Hperm).
  destruct Hinv' as [(Hwf' & Hd' & Hsize') _].
  exists m'. split; [done|].
  assert (Hfind' : ∀ k', entries_find h (Map_entries m') k'
                         = entries_find h (filter (other_key h key) (Map_entries m)) k').
  { intros k'. apply (entries_find_perm h Hok); [done| |done].
    by apply entries_distinct_filter. }
  split; [|split].
  - rewrite (Map_Get_entries h Hok m' key Hwf'), Hfind'.
    by rewrite entries_find_filter_same.
  - intros k' Hk'.
    rewrite (Map_Get_entries h Hok m' k' Hwf'), (Map_Get_entries h Hok m k' Hwf), Hfind'.
    by rewrite entries_find_filter_other.
  - unfold Map_Len, len in *. rewrite Hsize', Hsize, Hperm.
    pose proof (length_filter_other h Hok (Map_entries m) key Hd) as Hlen.
    rewrite Hfind in Hlen. lia.
Qed.

(** On the maps a client can build, [Get] and [Delete] return for every
    key: neither panics, whatever promotions and demotions the trie
    went through. *)
Theorem Map_Get_Delete_return h m key :
  Hasher_ok h → Map_reachable h defaultHasher m →
  (∃ o, Map_Get m key = Ok o) ∧ (∃ r, Map_Delete m key = Ok r).
Proof.
  intros Hok Hm. pose proof (Map_reachable_ok h Hok defaultHasher m Hm) as Hinv.
  pose proof Hinv as [(Hwf & _) _].
  pose proof (Map_Get_entries h Hok m key Hwf) as Hget.
  split; [by eexists|].
  destruct (entries_find h (Map_entries m) key) as [v|] eqn:Hfind.
  - destruct (Map_Delete_ok h Hok m key v Hinv Hfind) as (m' & Hdel & _). by eexists.
  - exists Receiver. unfold Map_Get, Map_Delete in *.
    destruct (map_root m) as [root|]; [|done].
    destruct (map_hasher m) as [hasher|]; [|done].
    by rewrite (mapNode_delete_absent _ _ _ _ _ Hget).
Qed.
End MapProperties.

Lemma exMap_Get_7 : Map_Get (exMap 40) 7 = Ok (Some 107).
Proof. vm_compute. reflexivity. Qed.

Lemma Map_Set_other_keys_witness :
  Hasher_ok exHasher ∧ Map_reachable exHasher exNoDefault (exMap 40)
  ∧ ∃ m', Map_Set exNoDefault (exMap 40) 55 1 = Ok m'
          ∧ (∀ k', Equal exHasher 55 k' = false → Map_Get m' k' = Map_Get (exMap 40) k')
          ∧ Map_Len m'
            = match Map_Get (exMap 40) 55 with
              | Ok (Some _) => Map_Len (exMap 40)
              | _ => Map_Len (exMap 40) + 1
              end.
Proof.
  split; [exact exHasher_ok|]. split; [exact (exMap_reachable 40)|].
  exact (Map_Set_other_keys exNoDefault exHasher (exMap 40) 55 1
           exHasher_ok (exMap_reachable 40)).
Defined.

Lemma Map_Delete_then_Get_witness :
  Hasher_ok exHasher ∧ Map_reachable exHasher exNoDefault (exMap 40)
  ∧ Map_Get (exMap 40) 7 = Ok (Some 107)
  ∧ ∃ m', Map_Delete (exMap 40) 7 = Ok (Fresh m')
          ∧ Map_Get m' 7 = Ok None
          ∧ (∀ k', Equal exHasher 7 k' = false → Map_Get m' k' = Map_Get (exMap 40) k')
          ∧ Map_Len m' = Map_Len (exMap 40) - 1.
Proof.
  split; [exact exHasher_ok|]. split; [exact (exMap_reachable 40)|].
  split; [exact exMap_Get_7|].
  exact (Map_Delete_then_Get exNoDefault exHasher (exMap 40) 7 107
           exHasher_ok (exMap_reachable 40) exMap_Get_7).
Defined.

Lemma Map_Get_Delete_return_witness :
  Hasher_ok exHasher ∧ Map_reachable exHasher exNoDefault (exMap 40)
  ∧ (∃ o, Map_Get (exMap 40) 7 = Ok o) ∧ (∃ r, Map_Delete (exMap 40) 7 = Ok r).
Proof.
  split; [exact exHasher_ok|]. split; [exact (exMap_reachable 40)|].
  exact (Map_Get_Delete_return exNoDefault exHasher (exMap 40) 7
           exHasher_ok (exMap_reachable 40)).
Defined.
